(** * The capacity calculation engine of the what-if sandbox

    A shallow embedding of [frontend/src/engine/calculator.js]:
    [getBucketKey], [calculateEffectiveCapacity], [applyTimelineShifts] and
    [calculateScenario], with the display helpers [getUtilizationColor],
    [getUtilizationStatus] and [getUniqueValues], and of the parts of the
    components that decide what the engine is called with and how its result
    is read (the levers of the dashboard, the shift buttons and the colours
    of the heatmap, the counter of the header, the total of the
    virtual-capacity panel, the list of the priority slider, the check of
    the uploaded file's name), followed by their properties.

    Conventions of the embedding.
    - The engine is embedded on hours that are integers ([Z], of either
      sign), on hours that are JavaScript numbers (module [Doubles]: IEEE
      754 doubles, every operation rounded as [SpecFloat] defines it) and,
      in [Store], over a store of objects and references.  On the engine on
      integers the only value that is not an integer is the [NaN] of
      [undefined - demand] in the remaining-capacity table, which therefore
      holds [jsnum]; the percentage of the utilization is computed on
      doubles there too ([round_percent]).  [calculateScenario_exact] shows
      that the engine on doubles computes the image of what the engine on
      integers computes when the hours of the input are non-negative
      integers small enough that no sum of the run reaches 2^53
      ([integerHours]).  What depends on the arithmetic being exact is
      stated on the engine on doubles, for such inputs; what does not (which
      records exist, what a pass reads and writes, how results for two
      inputs compare) is stated on the engine on integers.
    - A JavaScript object used as a dictionary is a [gmap] with string keys,
      the table of its own entries; a missing key is [None] (JavaScript's
      [undefined]).  An object literal answers some keys that it does not
      have, such as [constructor]: [objectLookup] describes that, and
      [plainKeys] the ids for which [projectMap] answers with its own
      entries only.  Bucket keys contain a bar and are never such names;
      month labels are taken not to be.
    - Field values and month labels are ASCII strings.
    - [Date.now()] is the only effect of the engine.  It is modelled by a
      clock [now], the reading returned by the n-th call of a run, and a
      counter threaded through the loop that performs the calls.
    - In [Store] the functions are embedded over a store of objects and
      references, for which objects the engine assigns to. *)

From Stdlib Require Import ZArith Lia Ascii.
From Stdlib Require SpecFloat.
From stdpp Require Import gmap strings list fin_maps pretty sorting.

Local Open Scope Z_scope.

(** ** JavaScript numbers and strings *)

Inductive jsnum := Num (z : Z) | NaN.

(** [v || 0] on a table cell: [undefined], [NaN] and [0] are falsy. *)
Definition or_zero (v : option jsnum) : Z :=
  match v with
  | Some (Num z) => z
  | _ => 0
  end.

(** [v - d] on a table cell: [undefined - d] and [NaN - d] are [NaN]. *)
Definition js_sub (v : option jsnum) (d : Z) : jsnum :=
  match v with
  | Some (Num z) => Num (z - d)
  | _ => NaN
  end.

(** A JavaScript number is an IEEE 754 double: 53 bits of precision, every
    operation rounded to nearest, ties to even. *)
Module Double.
Definition t : Type := SpecFloat.spec_float.
Definition prec : Z := 53.
Definition emax : Z := 1024.
Definition zero : t := SpecFloat.S754_zero false.
Definition nan : t := SpecFloat.S754_nan.

(** The double nearest to an integer; the integer itself below 2^53. *)
Definition ofZ (z : Z) : t := SpecFloat.binary_normalize prec emax z 0 false.

Definition add : t → t → t := SpecFloat.SFadd prec emax.
Definition sub : t → t → t := SpecFloat.SFsub prec emax.
Definition mul : t → t → t := SpecFloat.SFmul prec emax.
Definition div : t → t → t := SpecFloat.SFdiv prec emax.

(** [x === y], [x < y] and [x <= y]; all three are false on [NaN]. *)
Definition eqb : t → t → bool := SpecFloat.SFeqb.
Definition ltb : t → t → bool := SpecFloat.SFltb.
Definition leb : t → t → bool := SpecFloat.SFleb.

(** A number is falsy when it is [0], [-0] or [NaN]. *)
Definition truthy (x : t) : bool :=
  match x with
  | SpecFloat.S754_zero _ | SpecFloat.S754_nan => false
  | _ => true
  end.

(** [v || 0] on a property that holds a number or is missing. *)
Definition or_zero (v : option t) : t :=
  match v with
  | Some x => if truthy x then x else zero
  | None => zero
  end.

(** The integer that [Math.round] returns on a finite number: the nearest
    one, halves upwards. *)
Definition roundToZ (x : t) : Z :=
  match x with
  | SpecFloat.S754_finite s m e =>
      if decide (0 ≤ e) then SpecFloat.cond_Zopp s (Z.pos m * 2 ^ e)
      else (2 * SpecFloat.cond_Zopp s (Z.pos m) + 2 ^ (- e)) `div` 2 ^ (1 - e)
  | _ => 0
  end.

(** [Math.round]: a number without a fraction, an infinity and [NaN] are
    returned as they are, and a result of 0 keeps the sign. *)
Definition round (x : t) : t :=
  match x with
  | SpecFloat.S754_finite s m e =>
      if decide (0 ≤ e) then x
      else if decide (roundToZ x = 0) then SpecFloat.S754_zero s
      else ofZ (roundToZ x)
  | _ => x
  end.

(** The decimal literal [digits / 10 ^ places], such as [100.2]: the double
    nearest to it, which is the rounded quotient of the two integers when
    both are below 2^53. *)
Definition decimal (digits : Z) (places : Z) : t :=
  div (ofZ digits) (ofZ (10 ^ places)).
End Double.

(** [Math.round((consumed / capacity) * 100)] on two integers: the quotient
    and the product are rounded as doubles before [Math.round] rounds the
    percentage, so that 92 of 160 is 57 and not 58. *)
Definition round_percent (consumed capacity : Z) : Z :=
  Double.roundToZ
    (Double.mul (Double.div (Double.ofZ consumed) (Double.ofZ capacity))
       (Double.ofZ 100)).

(** An integer below 2^53 as a double: the mantissa brought to 53 digits. *)
Definition canonical (sx : bool) (z : Z) : Double.t :=
  SpecFloat.S754_finite sx
    (Z.to_pos (z * 2 ^ (53 - SpecFloat.Zdigits2 z)))
    (SpecFloat.Zdigits2 z - 53).

Definition lower_ascii (c : ascii) : ascii :=
  let n := N_of_ascii c in
  if ((65 <=? n) && (n <=? 90))%N then ascii_of_N (n + 32) else c.

(** [String.prototype.toLowerCase] on ASCII text. *)
Fixpoint toLowerCase (s : string) : string :=
  match s with
  | EmptyString => EmptyString
  | String c s' => String (lower_ascii c) (toLowerCase s')
  end.

Definition getBucketKey (team role location : string) : string :=
  toLowerCase (team +:+ "|" +:+ role +:+ "|" +:+ location).

(** The separator used by [getBucketKey]. *)
Definition bar : ascii := "|"%char.

Fixpoint has_bar (s : string) : bool :=
  match s with
  | EmptyString => false
  | String c s' => bool_decide (c = bar) || has_bar s'
  end.

(** ** Data model *)

Module Bucket.
Record t := mk {
  id : string;
  team : string;
  role : string;
  location : string;
  monthly_capacity : gmap string Z;
  isVirtual : bool
}.
Definition with_capacity (b : t) (c : gmap string Z) : t :=
  mk (id b) (team b) (role b) (location b) c (isVirtual b).
End Bucket.

Module Resource.
(** [hoursPerMonth] is [None] when the field is missing. *)
Record t := mk {
  team : string;
  role : string;
  location : string;
  hoursPerMonth : option Z
}.
End Resource.

Module Project.
Record t := mk {
  id : string;
  name : string;
  team : string;
  role : string;
  location : string;
  monthly_demand : gmap string Z;
  total_demand : Z;
  timelineShift : option Z
}.
End Project.

Inductive Status := none | staffed | partial | unstaffed.

Global Instance Status_eq_dec : EqDecision Status.
Proof. solve_decision. Defined.

Module MonthStatus.
Record t := mk {
  status : Status;
  demand : Z;
  allocated : Z;
  deficit : Z
}.
End MonthStatus.

(** An entry of [projectStatus]: the spread project and the fields added by
    the engine.  [overallStatus] is [None] until step 7 sets it. *)
Module ProjectStatus.
Record t := mk {
  project : Project.t;
  priority : nat;
  monthlyStatus : gmap string MonthStatus.t;
  totalDeficit : Z;
  bucketKey : string;
  overallStatus : option Status
}.
Definition set_month (month : string) (ms : MonthStatus.t) (p : t) : t :=
  mk (project p) (priority p) (<[month := ms]> (monthlyStatus p))
     (totalDeficit p) (bucketKey p) (overallStatus p).
Definition add_deficit (d : Z) (p : t) : t :=
  mk (project p) (priority p) (monthlyStatus p)
     (totalDeficit p + d) (bucketKey p) (overallStatus p).
Definition set_overall (s : Status) (p : t) : t :=
  mk (project p) (priority p) (monthlyStatus p)
     (totalDeficit p) (bucketKey p) (Some s).
End ProjectStatus.

(** An entry of [bucketUtilization]: the spread bucket and three tables. *)
Module Utilization.
Record t := mk {
  bucket : Bucket.t;
  monthly_utilization : gmap string Z;
  monthly_consumed : gmap string Z;
  monthly_remaining : gmap string Z
}.
End Utilization.

(** ** Capacity aggregator *)

(** [resource.hoursPerMonth || 160] *)
Definition hoursToAdd (r : Resource.t) : Z :=
  match Resource.hoursPerMonth r with
  | Some h => if decide (h = 0) then 160 else h
  | None => 160
  end.

Definition resourceKey (r : Resource.t) : string :=
  getBucketKey (Resource.team r) (Resource.role r) (Resource.location r).

Definition bucketKeyOf (b : Bucket.t) : string :=
  getBucketKey (Bucket.team b) (Bucket.role b) (Bucket.location b).

(** First loop of [calculateEffectiveCapacity]: one baseline bucket.  The
    spread copy with a fresh [monthly_capacity] is the bucket itself here. *)
Definition addBaseline (eff : gmap string Bucket.t) (b : Bucket.t)
  : gmap string Bucket.t :=
  <[bucketKeyOf b := b]> eff.

(** [monthly_capacity[month] = (monthly_capacity[month] || 0) + hours] *)
Definition addHours (hours : Z) (cap : gmap string Z) (month : string)
  : gmap string Z :=
  <[month := default 0 (cap !! month) + hours]> cap.

(** [monthlyCapacity[month] = hours] *)
Definition setHours (hours : Z) (cap : gmap string Z) (month : string)
  : gmap string Z :=
  <[month := hours]> cap.

Section Aggregator.
(** [now n] is what the n-th call of [Date.now()] returns. *)
Variable now : nat → Z.

(** Second loop: one virtual resource.  The state is the table and the
    number of clock readings taken so far. *)
Definition addVirtual (months : list string)
    (st : gmap string Bucket.t * nat) (r : Resource.t)
  : gmap string Bucket.t * nat :=
  let '(eff, ticks) := st in
  let key := resourceKey r in
  match eff !! key with
  | Some b =>
      (<[key := Bucket.with_capacity b
                  (foldl (addHours (hoursToAdd r))
                         (Bucket.monthly_capacity b) months)]> eff,
       ticks)
  | None =>
      (<[key := Bucket.mk ("virtual_" +:+ pretty (now ticks))
                  (Resource.team r) (Resource.role r) (Resource.location r)
                  (foldl (setHours (hoursToAdd r)) ∅ months)
                  true]> eff,
       S ticks)
  end.

Definition calculateEffectiveCapacity
    (baselineCapacity : list Bucket.t) (virtualResources : list Resource.t)
    (months : list string) : gmap string Bucket.t :=
  (foldl (addVirtual months)
         (foldl addBaseline ∅ baselineCapacity, 0%nat)
         virtualResources).1.
End Aggregator.

(** ** Demand shifter *)

(** [months.forEach((month, idx) => { monthIndex[month] = idx })] *)
Definition addMonthIndex (st : gmap string nat * nat) (month : string)
  : gmap string nat * nat :=
  let '(index, idx) := st in (<[month := idx]> index, S idx).

Definition monthIndex (months : list string) : gmap string nat :=
  (foldl addMonthIndex (∅, 0%nat) months).1.

(** The body of the loop over [Object.entries(project.monthly_demand)].
    [months[newIdx]] is read only inside the range check, where it is
    defined. *)
Definition shiftEntry (months : list string) (shift : Z)
    (month : string) (hours : Z) (shiftedDemand : gmap string Z)
  : gmap string Z :=
  match monthIndex months !! month with
  | Some currentIdx =>
      let newIdx := Z.of_nat currentIdx + shift in
      if decide (0 ≤ newIdx ∧ newIdx < Z.of_nat (length months)) then
        match months !! Z.to_nat newIdx with
        | Some newMonth =>
            <[newMonth := default 0 (shiftedDemand !! newMonth) + hours]>
              shiftedDemand
        | None => shiftedDemand
        end
      else shiftedDemand
  | None => shiftedDemand
  end.

(** The loop over [Object.entries(project.monthly_demand)].  The entries are
    visited in the map's own order here and in insertion order there;
    [shiftDemand_any_order] shows that the order does not matter. *)
Definition shiftDemand (months : list string) (shift : Z)
    (monthly_demand : gmap string Z) : gmap string Z :=
  map_fold (shiftEntry months shift) ∅ monthly_demand.

(** The callback of [projects.map]: [!shift || shift === 0] returns the
    project itself. *)
Definition shiftProject (timelineShifts : gmap string Z)
    (months : list string) (project : Project.t) : Project.t :=
  match timelineShifts !! Project.id project with
  | None => project
  | Some shift =>
      if decide (shift = 0) then project
      else Project.mk (Project.id project) (Project.name project)
             (Project.team project) (Project.role project)
             (Project.location project)
             (shiftDemand months shift (Project.monthly_demand project))
             (Project.total_demand project)
             (Some shift)
  end.

Definition applyTimelineShifts (projects : list Project.t)
    (timelineShifts : gmap string Z) (months : list string)
  : list Project.t :=
  map (shiftProject timelineShifts months) projects.

(** ** Allocation engine *)

(** The tracking structures of [calculateScenario]. *)
Module State.
Record t := mk {
  remainingCapacity : gmap string (gmap string jsnum);
  bucketUtilization : gmap string Utilization.t;
  projectStatus : gmap string ProjectStatus.t;
  totalDeficit : Z
}.
End State.

Module Result.
Record t := mk {
  effectiveCapacity : gmap string Bucket.t;
  bucketUtilization : gmap string Utilization.t;
  projectStatus : gmap string ProjectStatus.t;
  totalDeficit : Z;
  months : list string
}.
End Result.

Definition projectKey (p : Project.t) : string :=
  getBucketKey (Project.team p) (Project.role p) (Project.location p).

(** Step 3: [projectMap[project.id] = project] *)
Definition buildProjectMap (shiftedProjects : list Project.t)
  : gmap string Project.t :=
  foldl (λ projectMap project, <[Project.id project := project]> projectMap)
        ∅ shiftedProjects.

(** Step 4: [remainingCapacity[key] = { ...bucket.monthly_capacity }] *)
Definition initRemaining (effectiveCapacity : gmap string Bucket.t)
  : gmap string (gmap string jsnum) :=
  (λ bucket, Num <$> Bucket.monthly_capacity bucket) <$> effectiveCapacity.

Definition initUtilizationMonth (bucket : Bucket.t)
    (u : Utilization.t) (month : string) : Utilization.t :=
  Utilization.mk (Utilization.bucket u)
    (<[month := 0]> (Utilization.monthly_utilization u))
    (<[month := 0]> (Utilization.monthly_consumed u))
    (<[month := default 0 (Bucket.monthly_capacity bucket !! month)]>
       (Utilization.monthly_remaining u)).

Definition initUtilization (months : list string)
    (effectiveCapacity : gmap string Bucket.t)
  : gmap string Utilization.t :=
  (λ bucket, foldl (initUtilizationMonth bucket)
                   (Utilization.mk bucket ∅ ∅ ∅) months)
    <$> effectiveCapacity.

(** Step 5: the entry of every id of the priority order that has a record;
    [priority] is the position of the id. *)
Definition addProjectStatus (projectMap : gmap string Project.t)
    (st : gmap string ProjectStatus.t * nat) (projectId : string)
  : gmap string ProjectStatus.t * nat :=
  let '(projectStatus, priority) := st in
  (match projectMap !! projectId with
   | None => projectStatus
   | Some project =>
       <[projectId := ProjectStatus.mk project (S priority) ∅ 0
                        (projectKey project) None]> projectStatus
   end, S priority).

Definition initProjectStatus (projectMap : gmap string Project.t)
    (priorityOrder : list string) : gmap string ProjectStatus.t :=
  (foldl (addProjectStatus projectMap) (∅, 0%nat) priorityOrder).1.

(** [remainingCapacity[bucketKey][month] -= demand] *)
Definition deduct (month : string) (demand : Z) (row : gmap string jsnum)
  : gmap string jsnum :=
  <[month := js_sub (row !! month) demand]> row.

(** [monthly_consumed[month] += used] together with the new value of
    [monthly_remaining[month]], computed from the old one. *)
Definition consume (month : string) (used : Z) (remaining : Z → Z)
    (u : Utilization.t) : Utilization.t :=
  Utilization.mk (Utilization.bucket u) (Utilization.monthly_utilization u)
    (<[month := Utilization.monthly_consumed u !!! month + used]>
       (Utilization.monthly_consumed u))
    (<[month := remaining (Utilization.monthly_remaining u !!! month)]>
       (Utilization.monthly_remaining u)).

(** Step 6, the body of the inner loop.  An [alter] on a missing key does
    nothing, as the guards [if (remainingCapacity[bucketKey])] and
    [if (bucketUtilization[bucketKey])] do; [projectStatus[projectId]] exists
    for every id of the order that has a record ([initProjectStatus_dom],
    [allocate_dom]). *)
Definition allocate (projectMap : gmap string Project.t) (month : string)
    (st : State.t) (projectId : string) : State.t :=
  match projectMap !! projectId with
  | None => st
  | Some project =>
      let bucketKey := projectKey project in
      let demand := default 0 (Project.monthly_demand project !! month) in
      let available :=
        or_zero (State.remainingCapacity st !! bucketKey ≫= (.!! month)) in
      if decide (demand = 0) then
        State.mk (State.remainingCapacity st) (State.bucketUtilization st)
          (alter (ProjectStatus.set_month month
                    (MonthStatus.mk none 0 0 0))
                 projectId (State.projectStatus st))
          (State.totalDeficit st)
      else if decide (demand ≤ available) then
        State.mk
          (alter (deduct month demand) bucketKey (State.remainingCapacity st))
          (alter (consume month demand (λ r, r - demand)) bucketKey
                 (State.bucketUtilization st))
          (alter (ProjectStatus.set_month month
                    (MonthStatus.mk staffed demand demand 0))
                 projectId (State.projectStatus st))
          (State.totalDeficit st)
      else if decide (0 < available) then
        let deficit := demand - available in
        State.mk
          (alter (<[month := Num 0]>) bucketKey (State.remainingCapacity st))
          (alter (consume month available (λ _, 0)) bucketKey
                 (State.bucketUtilization st))
          (alter (λ p, ProjectStatus.add_deficit deficit
                         (ProjectStatus.set_month month
                            (MonthStatus.mk partial demand available deficit)
                            p))
                 projectId (State.projectStatus st))
          (State.totalDeficit st + deficit)
      else
        State.mk (State.remainingCapacity st) (State.bucketUtilization st)
          (alter (λ p, ProjectStatus.add_deficit demand
                         (ProjectStatus.set_month month
                            (MonthStatus.mk unstaffed demand 0 demand) p))
                 projectId (State.projectStatus st))
          (State.totalDeficit st + demand)
  end.

(** The inner loop, for one month. *)
Definition allocateMonth (projectMap : gmap string Project.t)
    (priorityOrder : list string) (st : State.t) (month : string) : State.t :=
  foldl (allocate projectMap month) st priorityOrder.

(** The outer loop over the months. *)
Definition allocateAll (projectMap : gmap string Project.t)
    (priorityOrder : list string) (months : list string) (st : State.t)
  : State.t :=
  foldl (allocateMonth projectMap priorityOrder) st months.

(** ** Status summarizer *)

Definition hasStatus (s : Status) (monthlyStatus : gmap string MonthStatus.t)
  : bool :=
  existsb (λ e, bool_decide (MonthStatus.status e.2 = s))
          (map_to_list monthlyStatus).

(** Step 7, for one entry of [projectStatus]. *)
Definition summarize (p : ProjectStatus.t) : ProjectStatus.t :=
  let hasAnyStaffed := hasStatus staffed (ProjectStatus.monthlyStatus p) in
  let hasAnyUnstaffed :=
    hasStatus partial (ProjectStatus.monthlyStatus p)
    || hasStatus unstaffed (ProjectStatus.monthlyStatus p) in
  if hasAnyUnstaffed && hasAnyStaffed then ProjectStatus.set_overall partial p
  else if hasAnyUnstaffed then ProjectStatus.set_overall unstaffed p
  else ProjectStatus.set_overall staffed p.

(** The last loop, for one bucket and one month. *)
Definition setUtilization (capacity : gmap string Z)
    (u : Utilization.t) (month : string) : Utilization.t :=
  let cap := default 0 (capacity !! month) in
  let consumed := Utilization.monthly_consumed u !!! month in
  Utilization.mk (Utilization.bucket u)
    (<[month := if decide (0 < cap) then round_percent consumed cap else 0]>
       (Utilization.monthly_utilization u))
    (Utilization.monthly_consumed u)
    (Utilization.monthly_remaining u).

(** [effectiveCapacity[key]] exists for every key of [bucketUtilization];
    both tables have the keys of the effective capacity. *)
Definition finalUtilization (effectiveCapacity : gmap string Bucket.t)
    (months : list string) (bucketUtilization : gmap string Utilization.t)
  : gmap string Utilization.t :=
  map_imap (λ key u,
      Some (foldl (setUtilization
                     (from_option Bucket.monthly_capacity ∅
                        (effectiveCapacity !! key)))
                  u months))
    bucketUtilization.

Section Scenario.
Variable now : nat → Z.

Definition calculateScenario
    (baselineCapacity : list Bucket.t) (projects : list Project.t)
    (priorityOrder : list string) (virtualResources : list Resource.t)
    (timelineShifts : gmap string Z) (months : list string) : Result.t :=
  let effectiveCapacity :=
    calculateEffectiveCapacity now baselineCapacity virtualResources months in
  let shiftedProjects := applyTimelineShifts projects timelineShifts months in
  let projectMap := buildProjectMap shiftedProjects in
  let st :=
    allocateAll projectMap priorityOrder months
      (State.mk (initRemaining effectiveCapacity)
                (initUtilization months effectiveCapacity)
                (initProjectStatus projectMap priorityOrder)
                0) in
  Result.mk effectiveCapacity
    (finalUtilization effectiveCapacity months (State.bucketUtilization st))
    (summarize <$> State.projectStatus st)
    (State.totalDeficit st)
    months.
End Scenario.

(** ** The worked example of the specification, and the demo of the engine *)

Definition jan : list string := ["Jan"].

Definition bucket100 : Bucket.t :=
  Bucket.mk "bucket_0" "Digital" "Developer" "London" {["Jan" := 100]} false.

Definition demand60 (pid : string) : Project.t :=
  Project.mk pid pid "Digital" "Developer" "London" {["Jan" := 60]} 60 None.

Definition worked : Result.t :=
  calculateScenario (λ _, 0) [bucket100] [demand60 "p1"; demand60 "p2"]
    ["p1"; "p2"] [] ∅ jan.

(** ** Derived descriptions of one allocation step

    What the four branches of the inner loop do, branch by branch, to the
    month record, to a cell of the remaining-capacity table and to a
    utilization entry; [allocate_eq] proves that [allocate] is these. *)

Definition demandOf (project : Project.t) (month : string) : Z :=
  default 0 (Project.monthly_demand project !! month).

Definition availableOf (remainingCapacity : gmap string (gmap string jsnum))
    (bucketKey month : string) : Z :=
  or_zero (remainingCapacity !! bucketKey ≫= (.!! month)).

Definition outcome (demand available : Z) : MonthStatus.t :=
  if decide (demand = 0) then MonthStatus.mk none 0 0 0
  else if decide (demand ≤ available) then
    MonthStatus.mk staffed demand demand 0
  else if decide (0 < available) then
    MonthStatus.mk partial demand available (demand - available)
  else MonthStatus.mk unstaffed demand 0 demand.

Definition cellAfter (demand : Z) (cell : option jsnum) : option jsnum :=
  if decide (demand = 0) then cell
  else if decide (demand ≤ or_zero cell) then Some (js_sub cell demand)
  else if decide (0 < or_zero cell) then Some (Num 0)
  else cell.

Definition utilAfter (month : string) (demand available : Z)
    (u : Utilization.t) : Utilization.t :=
  if decide (demand = 0) then u
  else if decide (demand ≤ available) then
    consume month demand (λ r, r - demand) u
  else if decide (0 < available) then consume month available (λ _, 0) u
  else u.

Definition writeMonth (month : string) (ms : MonthStatus.t)
    (p : ProjectStatus.t) : ProjectStatus.t :=
  ProjectStatus.add_deficit (MonthStatus.deficit ms)
    (ProjectStatus.set_month month ms p).

(** The remaining-capacity table after one step of the inner loop. *)
Definition remainingStep (projectMap : gmap string Project.t) (month : string)
    (remainingCapacity : gmap string (gmap string jsnum)) (projectId : string)
  : gmap string (gmap string jsnum) :=
  match projectMap !! projectId with
  | None => remainingCapacity
  | Some project =>
      alter (partial_alter (cellAfter (demandOf project month)) month)
            (projectKey project) remainingCapacity
  end.

(** ** Invariants of the tracking structures *)

(** A month record is well formed when its hours add up and its status is
    [none] exactly for a zero demand. *)
Definition wfMonth (ms : MonthStatus.t) : Prop :=
  MonthStatus.allocated ms + MonthStatus.deficit ms = MonthStatus.demand ms
  ∧ (MonthStatus.status ms = none ↔ MonthStatus.demand ms = 0).

(** Every entry of [projectStatus] belongs to a project of the map, and
    every month record of it is well formed and reports the (shifted) demand
    of that project. *)
Definition statusInv (projectMap : gmap string Project.t)
    (projectStatus : gmap string ProjectStatus.t) : Prop :=
  ∀ pid p, projectStatus !! pid = Some p →
    ∃ project, projectMap !! pid = Some project ∧
      ∀ m ms, ProjectStatus.monthlyStatus p !! m = Some ms →
        wfMonth ms ∧ MonthStatus.demand ms = demandOf project m.

Definition hasEntry (projectStatus : gmap string ProjectStatus.t)
    (pid month : string) : Prop :=
  ∃ p, projectStatus !! pid = Some p
       ∧ is_Some (ProjectStatus.monthlyStatus p !! month).

(** The state in which the loops of step 6 start. *)
Definition initState (effectiveCapacity : gmap string Bucket.t)
    (projectMap : gmap string Project.t) (priorityOrder months : list string)
  : State.t :=
  State.mk (initRemaining effectiveCapacity)
           (initUtilization months effectiveCapacity)
           (initProjectStatus projectMap priorityOrder)
           0.

(** The project map of a run. *)
Definition scenarioProjects (projects : list Project.t)
    (timelineShifts : gmap string Z) (months : list string)
  : gmap string Project.t :=
  buildProjectMap (applyTimelineShifts projects timelineShifts months).

(** An entry of [projectStatus] as step 5 creates it. *)
Definition freshEntry (projectMap : gmap string Project.t) (pid : string)
    (p : ProjectStatus.t) : Prop :=
  projectMap !! pid = Some (ProjectStatus.project p)
  ∧ ProjectStatus.monthlyStatus p = ∅
  ∧ ProjectStatus.totalDeficit p = 0
  ∧ ProjectStatus.bucketKey p = projectKey (ProjectStatus.project p)
  ∧ ProjectStatus.overallStatus p = None.

(** ** One month of the tables

    The cell of a bucket and the record of a project for one month; the outer
    [Some] tells that the bucket or the project entry exists. *)

Definition remainingAt (remainingCapacity : gmap string (gmap string jsnum))
    (bucketKey month : string) : option (option jsnum) :=
  (.!! month) <$> remainingCapacity !! bucketKey.

Definition recordAt (projectStatus : gmap string ProjectStatus.t)
    (pid month : string) : option (option MonthStatus.t) :=
  (λ p, ProjectStatus.monthlyStatus p !! month) <$> projectStatus !! pid.

(** Two states that hold the same data for [month]. *)
Definition sameMonth (month : string) (st1 st2 : State.t) : Prop :=
  (∀ k, remainingAt (State.remainingCapacity st1) k month
        = remainingAt (State.remainingCapacity st2) k month)
  ∧ (∀ pid, recordAt (State.projectStatus st1) pid month
            = recordAt (State.projectStatus st2) pid month).

(** A bucket with a surplus in January and a shortfall in February. *)
Definition janFeb : list string := ["Jan"; "Feb"].

Definition bucketSurplus : Bucket.t :=
  Bucket.mk "bucket_0" "Digital" "Developer" "London"
    {["Jan" := 100; "Feb" := 50]} false.

Definition projectRamp : Project.t :=
  Project.mk "p1" "Ramp" "Digital" "Developer" "London"
    {["Jan" := 10; "Feb" := 80]} 90 None.

(** The entry with another table of month records. *)
Definition withMonthlyStatus (monthlyStatus : gmap string MonthStatus.t)
    (p : ProjectStatus.t) : ProjectStatus.t :=
  ProjectStatus.mk (ProjectStatus.project p) (ProjectStatus.priority p)
    monthlyStatus (ProjectStatus.totalDeficit p) (ProjectStatus.bucketKey p)
    (ProjectStatus.overallStatus p).

(** The month records other than ['none']. *)
Definition demandingMonths (monthlyStatus : gmap string MonthStatus.t)
  : gmap string MonthStatus.t :=
  filter (λ e, MonthStatus.status e.2 ≠ none) monthlyStatus.

(** The entry of the second project in the worked example. *)
Definition workedP2 : ProjectStatus.t :=
  ProjectStatus.mk (demand60 "p2") 2
    {["Jan" := MonthStatus.mk partial 60 40 20]} 20
    "digital|developer|london" (Some unstaffed).

(** ** Descriptions used by the aggregator's contract *)

(** The table after the first loop of [calculateEffectiveCapacity]: for
    every key, the last baseline bucket with that key. *)
Definition baselineTable (baselineCapacity : list Bucket.t)
  : gmap string Bucket.t :=
  foldl addBaseline ∅ baselineCapacity.

(** The hours that the virtual resources of one key add to a month. *)
Fixpoint virtualHours (key : string) (virtualResources : list Resource.t)
  : Z :=
  match virtualResources with
  | [] => 0
  | r :: rest =>
      if decide (resourceKey r = key)
      then hoursToAdd r + virtualHours key rest
      else virtualHours key rest
  end.

(** A virtual hire with a zero [hoursPerMonth]. *)
Definition zeroHire : Resource.t :=
  Resource.mk "Digital" "Tester" "Pune" (Some 0).

Definition twoHires : list Resource.t :=
  [Resource.mk "Digital" "Developer" "London" (Some 40);
   Resource.mk "digital" "developer" "london" (Some 20)].

(** ** Descriptions used by the shifter's contract *)

(** The month on which the shifter puts the hours of [month]: defined when
    [month] is in the index and the shifted position is in the window. *)
Definition destination (months : list string) (shift : Z) (month : string)
  : option string :=
  monthIndex months !! month ≫= λ currentIdx,
    let newIdx := Z.of_nat currentIdx + shift in
    if decide (0 ≤ newIdx ∧ newIdx < Z.of_nat (length months))
    then months !! Z.to_nat newIdx
    else None.

(** The demand entries that land on [newMonth]. *)
Definition landing (months : list string) (shift : Z) (newMonth : string)
    (monthly_demand : gmap string Z) : gmap string Z :=
  filter (λ e, destination months shift e.1 = Some newMonth) monthly_demand.

Definition sumHours (hours : gmap string Z) : Z :=
  map_fold (λ _ h total, h + total) 0 hours.

(** The project without its demand entry for [month]. *)
Definition dropEntry (month : string) (project : Project.t) : Project.t :=
  Project.mk (Project.id project) (Project.name project)
    (Project.team project) (Project.role project) (Project.location project)
    (delete month (Project.monthly_demand project))
    (Project.total_demand project) (Project.timelineShift project).

(** The demand of [projectRamp] is moved one month later. *)
Definition shiftRamp : gmap string Z := {["p1" := 1]}.

(** A project with demand under a label outside the month list. *)
Definition projectStray : Project.t :=
  Project.mk "p1" "Stray" "Digital" "Developer" "London"
    {["Jan" := 10; "Dec" := 7]} 17 None.

(** ** Non-negative inputs *)

Definition nonneg (hours : gmap string Z) : Prop :=
  map_Forall (λ _ h, 0 ≤ h) hours.

(** The two tables of consumption move together: for every bucket of the
    utilization table and every listed month, the consumed and the remaining
    hours add up to the effective capacity, neither is negative, and the
    remaining hours are what the allocation reads as available. *)
Definition utilInv (effectiveCapacity : gmap string Bucket.t)
    (months : list string) (st : State.t) : Prop :=
  ∀ k u, State.bucketUtilization st !! k = Some u →
    ∃ b row,
      effectiveCapacity !! k = Some b
      ∧ State.remainingCapacity st !! k = Some row
      ∧ ∀ m, m ∈ months →
          ∃ c r,
            Utilization.monthly_consumed u !! m = Some c
            ∧ Utilization.monthly_remaining u !! m = Some r
            ∧ c + r = default 0 (Bucket.monthly_capacity b !! m)
            ∧ 0 ≤ c ∧ 0 ≤ r
            ∧ or_zero (row !! m) = r.

(** The utilization entry of the worked example with the two virtual hires
    added: 160 hours of capacity, 120 consumed. *)
Definition workedUtilization : Utilization.t :=
  Utilization.mk
    (Bucket.mk "bucket_0" "Digital" "Developer" "London" {["Jan" := 160]}
       false)
    {["Jan" := 75]} {["Jan" := 120]} {["Jan" := 40]}.

(** The running total of deficit of one project. *)
Definition totalDeficitOf (projectStatus : gmap string ProjectStatus.t)
    (pid : string) : option Z :=
  ProjectStatus.totalDeficit <$> projectStatus !! pid.

(** A bucket of 5 hours, a project that asks for 10 and a record with a
    negative demand. *)
Definition bucket5 : Bucket.t :=
  Bucket.mk "bucket_0" "Digital" "Developer" "London" {["Jan" := 5]} false.

Definition projectA : Project.t :=
  Project.mk "A" "A" "Digital" "Developer" "London" {["Jan" := 10]} 10 None.

Definition projectB : Project.t :=
  Project.mk "B" "B" "Digital" "Developer" "London" {["Jan" := -10]} (-10)
    None.

(** ** The result up to the clock

    The only trace of [Date.now()] in a result is the [id] of the buckets
    synthesized for virtual resources. *)

Definition eraseId (b : Bucket.t) : Bucket.t :=
  Bucket.mk "" (Bucket.team b) (Bucket.role b) (Bucket.location b)
    (Bucket.monthly_capacity b) (Bucket.isVirtual b).

Definition eraseUtilizationId (u : Utilization.t) : Utilization.t :=
  Utilization.mk (eraseId (Utilization.bucket u))
    (Utilization.monthly_utilization u) (Utilization.monthly_consumed u)
    (Utilization.monthly_remaining u).

Definition eraseStateIds (st : State.t) : State.t :=
  State.mk (State.remainingCapacity st)
    (eraseUtilizationId <$> State.bucketUtilization st)
    (State.projectStatus st) (State.totalDeficit st).

Definition eraseIds (r : Result.t) : Result.t :=
  Result.mk (eraseId <$> Result.effectiveCapacity r)
    (eraseUtilizationId <$> Result.bucketUtilization r)
    (Result.projectStatus r) (Result.totalDeficit r) (Result.months r).

(** Steps 2 to 8 of [calculateScenario], from the effective capacity on. *)
Definition scenarioFrom (effectiveCapacity : gmap string Bucket.t)
    (projects : list Project.t) (priorityOrder : list string)
    (timelineShifts : gmap string Z) (months : list string) : Result.t :=
  let projectMap := scenarioProjects projects timelineShifts months in
  let st := allocateAll projectMap priorityOrder months
              (initState effectiveCapacity projectMap priorityOrder months) in
  Result.mk effectiveCapacity
    (finalUtilization effectiveCapacity months (State.bucketUtilization st))
    (summarize <$> State.projectStatus st)
    (State.totalDeficit st)
    months.

(** Two tables of buckets that differ in the ids of synthesized buckets
    only: the entries agree up to the id, and the entries whose key is a
    baseline key are there and are the same. *)
Definition sameButClock (baseline : gmap string Bucket.t)
    (eff eff' : gmap string Bucket.t) : Prop :=
  ∀ k, eraseId <$> eff !! k = eraseId <$> eff' !! k
       ∧ (is_Some (baseline !! k) →
          is_Some (eff !! k) ∧ eff !! k = eff' !! k).

(** * The engine over a store

    A second embedding of the same functions, for the question of which
    objects a run writes to.  Objects live in a store and are named by
    references; a spread copy [{ ...x }] is a new object that shares the
    objects its fields refer to; an assignment through a reference changes
    the object for everyone who holds the reference.  The tables that the
    engine creates with [{}] and keeps in local constants
    ([effectiveCapacity], [projectMap], [remainingCapacity],
    [bucketUtilization], [projectStatus], [monthIndex]) are finite maps from
    keys to references or numbers; arrays are only read by the engine
    ([forEach], [map], [length], indexing) and are lists.  A read through a
    missing reference, or of an object of another shape, throws: the run
    stops and the store stays as it is at that point. *)

Module Store.

Abbreviation loc := nat.

Module BucketObj.
Record t := mk {
  id : string;
  team : string;
  role : string;
  location : string;
  monthly_capacity : loc;
  isVirtual : bool
}.
End BucketObj.

Module ProjectObj.
Record t := mk {
  id : string;
  name : string;
  team : string;
  role : string;
  location : string;
  monthly_demand : loc;
  total_demand : Z;
  timelineShift : option Z
}.
End ProjectObj.

Module UtilizationObj.
Record t := mk {
  bucket : BucketObj.t;
  monthly_utilization : loc;
  monthly_consumed : loc;
  monthly_remaining : loc
}.
End UtilizationObj.

Module StatusObj.
Record t := mk {
  project : ProjectObj.t;
  priority : nat;
  monthlyStatus : loc;
  totalDeficit : Z;
  bucketKey : string;
  overallStatus : option Status
}.
End StatusObj.

(** The objects of the engine, by shape. *)
Inductive obj :=
  | OHours (hours : gmap string Z)
  | ORow (row : gmap string jsnum)
  | OMonths (records : gmap string MonthStatus.t)
  | OShifts (shifts : gmap string Z)
  | OResource (r : Resource.t)
  | OBucket (b : BucketObj.t)
  | OProject (p : ProjectObj.t)
  | OUtilization (u : UtilizationObj.t)
  | OStatus (s : StatusObj.t).

Abbreviation store := (gmap loc obj).

(** A computation takes a store and gives the store it leaves behind and,
    unless it throws, a value. *)
Definition M (A : Type) : Type := store → store * option A.

Definition ret {A} (a : A) : M A := λ h, (h, Some a).

Definition throw {A} : M A := λ h, (h, None).

Definition bind {A B} (c : M A) (f : A → M B) : M B :=
  λ h, match c h with
       | (h', Some a) => f a h'
       | (h', None) => (h', None)
       end.

Notation "'let!' x ':=' c 'in' k" := (bind c (λ x, k))
  (at level 10, x pattern, c at level 100, k at level 200).
Notation "c '>>' k" := (bind c (λ _, k))
  (at level 100, k at level 200, right associativity).

(** A new object, at a reference that the store does not have yet. *)
Definition alloc (o : obj) : M loc :=
  λ h, let l := fresh (dom h) in (<[l := o]> h, Some l).

Definition load (l : loc) : M obj := λ h, (h, h !! l).

(** An assignment to the object behind a reference. *)
Definition assign (l : loc) (o : obj) : M unit :=
  λ h, (<[l := o]> h, Some ()).

Definition loadHours (l : loc) : M (gmap string Z) :=
  let! o := load l in match o with OHours x => ret x | _ => throw end.

Definition loadRow (l : loc) : M (gmap string jsnum) :=
  let! o := load l in match o with ORow x => ret x | _ => throw end.

Definition loadMonths (l : loc) : M (gmap string MonthStatus.t) :=
  let! o := load l in match o with OMonths x => ret x | _ => throw end.

Definition loadShifts (l : loc) : M (gmap string Z) :=
  let! o := load l in match o with OShifts x => ret x | _ => throw end.

Definition loadResource (l : loc) : M Resource.t :=
  let! o := load l in match o with OResource x => ret x | _ => throw end.

Definition loadBucket (l : loc) : M BucketObj.t :=
  let! o := load l in match o with OBucket x => ret x | _ => throw end.

Definition loadProject (l : loc) : M ProjectObj.t :=
  let! o := load l in match o with OProject x => ret x | _ => throw end.

Definition loadUtilization (l : loc) : M UtilizationObj.t :=
  let! o := load l in match o with OUtilization x => ret x | _ => throw end.

Definition loadStatus (l : loc) : M StatusObj.t :=
  let! o := load l in match o with OStatus x => ret x | _ => throw end.

Fixpoint forEach {A} (l : list A) (f : A → M unit) : M unit :=
  match l with
  | [] => ret ()
  | x :: rest => f x >> forEach rest f
  end.

(** A loop that updates a local variable. *)
Fixpoint foldM {A B} (f : B → A → M B) (b : B) (l : list A) : M B :=
  match l with
  | [] => ret b
  | x :: rest => let! b' := f b x in foldM f b' rest
  end.

Fixpoint mapM {A B} (f : A → M B) (l : list A) : M (list B) :=
  match l with
  | [] => ret []
  | x :: rest => let! y := f x in let! ys := mapM f rest in ret (y :: ys)
  end.

Definition bucketKeyOf (b : BucketObj.t) : string :=
  getBucketKey (BucketObj.team b) (BucketObj.role b) (BucketObj.location b).

Definition projectKey (p : ProjectObj.t) : string :=
  getBucketKey (ProjectObj.team p) (ProjectObj.role p)
    (ProjectObj.location p).

(** [effectiveCapacity[key] = { ...bucket, monthly_capacity:
    { ...bucket.monthly_capacity } }] *)
Definition addBaseline (eff : gmap string loc) (bucketRef : loc)
  : M (gmap string loc) :=
  let! bucket := loadBucket bucketRef in
  let! capacity := loadHours (BucketObj.monthly_capacity bucket) in
  let! copy := alloc (OHours capacity) in
  let! entry :=
    alloc (OBucket (BucketObj.mk (BucketObj.id bucket) (BucketObj.team bucket)
                      (BucketObj.role bucket) (BucketObj.location bucket)
                      copy (BucketObj.isVirtual bucket))) in
  ret (<[bucketKeyOf bucket := entry]> eff).

Definition addVirtual (now : nat → Z) (months : list string)
    (st : gmap string loc * nat) (resourceRef : loc)
  : M (gmap string loc * nat) :=
  let '(eff, ticks) := st in
  let! resource := loadResource resourceRef in
  let key := resourceKey resource in
  match eff !! key with
  | Some entry =>
      forEach months (λ month,
        let! bucket := loadBucket entry in
        let! capacity := loadHours (BucketObj.monthly_capacity bucket) in
        assign (BucketObj.monthly_capacity bucket)
          (OHours (addHours (hoursToAdd resource) capacity month)))
      >> ret (eff, ticks)
  | None =>
      let! monthlyCapacity := alloc (OHours ∅) in
      forEach months (λ month,
        let! capacity := loadHours monthlyCapacity in
        assign monthlyCapacity
          (OHours (setHours (hoursToAdd resource) capacity month)))
      >> let! entry :=
           alloc (OBucket (BucketObj.mk ("virtual_" +:+ pretty (now ticks))
                             (Resource.team resource) (Resource.role resource)
                             (Resource.location resource) monthlyCapacity
                             true)) in
         ret (<[key := entry]> eff, S ticks)
  end.

Definition calculateEffectiveCapacity (now : nat → Z)
    (baselineCapacity virtualResources : list loc) (months : list string)
  : M (gmap string loc) :=
  let! eff := foldM addBaseline ∅ baselineCapacity in
  let! st := foldM (addVirtual now months) (eff, 0%nat) virtualResources in
  ret st.1.

(** The callback of [projects.map]: the project's own reference, or the
    reference of a new project with a new demand object. *)
Definition shiftProject (timelineShifts : loc) (months : list string)
    (projectRef : loc) : M loc :=
  let! project := loadProject projectRef in
  let! shifts := loadShifts timelineShifts in
  match shifts !! ProjectObj.id project with
  | None => ret projectRef
  | Some shift =>
      if decide (shift = 0) then ret projectRef
      else
        let! shiftedDemand := alloc (OHours ∅) in
        let! demand := loadHours (ProjectObj.monthly_demand project) in
        forEach (map_to_list demand) (λ e,
          let! shifted := loadHours shiftedDemand in
          assign shiftedDemand
            (OHours (shiftEntry months shift e.1 e.2 shifted)))
        >> alloc (OProject (ProjectObj.mk (ProjectObj.id project)
                    (ProjectObj.name project) (ProjectObj.team project)
                    (ProjectObj.role project) (ProjectObj.location project)
                    shiftedDemand (ProjectObj.total_demand project)
                    (Some shift)))
  end.

Definition applyTimelineShifts (projects : list loc) (timelineShifts : loc)
    (months : list string) : M (list loc) :=
  mapM (shiftProject timelineShifts months) projects.

Module Result.
Record t := mk {
  effectiveCapacity : gmap string loc;
  bucketUtilization : gmap string loc;
  projectStatus : gmap string loc;
  totalDeficit : Z;
  months : list string
}.
End Result.

(** Step 3 *)
Definition addProject (projectMap : gmap string loc) (projectRef : loc)
  : M (gmap string loc) :=
  let! project := loadProject projectRef in
  ret (<[ProjectObj.id project := projectRef]> projectMap).

(** Step 4: [remainingCapacity[key] = { ...bucket.monthly_capacity }] *)
Definition addRemaining (remainingCapacity : gmap string loc)
    (e : string * loc) : M (gmap string loc) :=
  let! bucket := loadBucket e.2 in
  let! capacity := loadHours (BucketObj.monthly_capacity bucket) in
  let! row := alloc (ORow (Num <$> capacity)) in
  ret (<[e.1 := row]> remainingCapacity).

(** The three assignments of the initialization of one month. *)
Definition initUtilizationMonth (bucket : BucketObj.t) (entry : loc)
    (month : string) : M unit :=
  let! u := loadUtilization entry in
  let! consumed := loadHours (UtilizationObj.monthly_consumed u) in
  assign (UtilizationObj.monthly_consumed u) (OHours (<[month := 0]> consumed))
  >> let! capacity := loadHours (BucketObj.monthly_capacity bucket) in
     let! remaining := loadHours (UtilizationObj.monthly_remaining u) in
     assign (UtilizationObj.monthly_remaining u)
       (OHours (<[month := default 0 (capacity !! month)]> remaining))
  >> let! utilization := loadHours (UtilizationObj.monthly_utilization u) in
     assign (UtilizationObj.monthly_utilization u)
       (OHours (<[month := 0]> utilization)).

Definition addUtilization (months : list string)
    (bucketUtilization : gmap string loc) (e : string * loc)
  : M (gmap string loc) :=
  let! bucket := loadBucket e.2 in
  let! monthly_utilization := alloc (OHours ∅) in
  let! monthly_consumed := alloc (OHours ∅) in
  let! monthly_remaining := alloc (OHours ∅) in
  let! entry :=
    alloc (OUtilization (UtilizationObj.mk bucket monthly_utilization
                           monthly_consumed monthly_remaining)) in
  forEach months (initUtilizationMonth bucket entry)
  >> ret (<[e.1 := entry]> bucketUtilization).

(** Step 5 *)
Definition addProjectStatus (projectMap : gmap string loc)
    (st : gmap string loc * nat) (projectId : string)
  : M (gmap string loc * nat) :=
  let '(projectStatus, priority) := st in
  match projectMap !! projectId with
  | None => ret (projectStatus, S priority)
  | Some projectRef =>
      let! project := loadProject projectRef in
      let! monthlyStatus := alloc (OMonths ∅) in
      let! entry :=
        alloc (OStatus (StatusObj.mk project (S priority) monthlyStatus 0
                          (projectKey project) None)) in
      ret (<[projectId := entry]> projectStatus, S priority)
  end.

(** [projectStatus[projectId].monthlyStatus[month] = record] *)
Definition setMonth (projectStatus : gmap string loc) (projectId : string)
    (month : string) (record : MonthStatus.t) : M unit :=
  match projectStatus !! projectId with
  | None => throw
  | Some entry =>
      let! s := loadStatus entry in
      let! records := loadMonths (StatusObj.monthlyStatus s) in
      assign (StatusObj.monthlyStatus s) (OMonths (<[month := record]> records))
  end.

(** [projectStatus[projectId].totalDeficit += deficit] *)
Definition addDeficit (projectStatus : gmap string loc) (projectId : string)
    (deficit : Z) : M unit :=
  match projectStatus !! projectId with
  | None => throw
  | Some entry =>
      let! s := loadStatus entry in
      assign entry
        (OStatus (StatusObj.mk (StatusObj.project s) (StatusObj.priority s)
                    (StatusObj.monthlyStatus s)
                    (StatusObj.totalDeficit s + deficit)
                    (StatusObj.bucketKey s) (StatusObj.overallStatus s)))
  end.

(** [remainingCapacity[bucketKey]?.[month] || 0] *)
Definition readAvailable (remainingCapacity : gmap string loc)
    (bucketKey month : string) : M Z :=
  match remainingCapacity !! bucketKey with
  | None => ret 0
  | Some rowRef => let! row := loadRow rowRef in ret (or_zero (row !! month))
  end.

(** [if (remainingCapacity[bucketKey]) remainingCapacity[bucketKey][month]
    = ...] *)
Definition updateRow (remainingCapacity : gmap string loc)
    (bucketKey : string) (f : gmap string jsnum → gmap string jsnum)
  : M unit :=
  match remainingCapacity !! bucketKey with
  | None => ret ()
  | Some rowRef => let! row := loadRow rowRef in assign rowRef (ORow (f row))
  end.

(** [if (bucketUtilization[bucketKey]) { monthly_consumed[month] += used;
    monthly_remaining[month] = ... }] *)
Definition updateUtilization (bucketUtilization : gmap string loc)
    (bucketKey month : string) (used : Z) (remaining : Z → Z) : M unit :=
  match bucketUtilization !! bucketKey with
  | None => ret ()
  | Some entry =>
      let! u := loadUtilization entry in
      let! consumed := loadHours (UtilizationObj.monthly_consumed u) in
      assign (UtilizationObj.monthly_consumed u)
        (OHours (<[month := consumed !!! month + used]> consumed))
      >> let! hours := loadHours (UtilizationObj.monthly_remaining u) in
         assign (UtilizationObj.monthly_remaining u)
           (OHours (<[month := remaining (hours !!! month)]> hours))
  end.

(** Step 6, the body of the inner loop; the local variable is
    [totalDeficit]. *)
Definition allocate (projectMap remainingCapacity bucketUtilization
    projectStatus : gmap string loc) (month : string) (totalDeficit : Z)
    (projectId : string) : M Z :=
  match projectMap !! projectId with
  | None => ret totalDeficit
  | Some projectRef =>
      let! project := loadProject projectRef in
      let bucketKey := projectKey project in
      let! demands := loadHours (ProjectObj.monthly_demand project) in
      let demand := default 0 (demands !! month) in
      let! available := readAvailable remainingCapacity bucketKey month in
      if decide (demand = 0) then
        setMonth projectStatus projectId month (MonthStatus.mk none 0 0 0)
        >> ret totalDeficit
      else if decide (demand ≤ available) then
        setMonth projectStatus projectId month
          (MonthStatus.mk staffed demand demand 0)
        >> updateRow remainingCapacity bucketKey (deduct month demand)
        >> updateUtilization bucketUtilization bucketKey month demand
             (λ r, r - demand)
        >> ret totalDeficit
      else if decide (0 < available) then
        let deficit := demand - available in
        setMonth projectStatus projectId month
          (MonthStatus.mk partial demand available deficit)
        >> updateRow remainingCapacity bucketKey (<[month := Num 0]>)
        >> addDeficit projectStatus projectId deficit
        >> updateUtilization bucketUtilization bucketKey month available
             (λ _, 0)
        >> ret (totalDeficit + deficit)
      else
        setMonth projectStatus projectId month
          (MonthStatus.mk unstaffed demand 0 demand)
        >> addDeficit projectStatus projectId demand
        >> ret (totalDeficit + demand)
  end.

(** Step 7, for one entry: [project.overallStatus = ...] *)
Definition summarize (entry : loc) : M unit :=
  let! s := loadStatus entry in
  let! records := loadMonths (StatusObj.monthlyStatus s) in
  let hasAnyStaffed := hasStatus staffed records in
  let hasAnyUnstaffed :=
    hasStatus partial records || hasStatus unstaffed records in
  let overall :=
    if hasAnyUnstaffed && hasAnyStaffed then partial
    else if hasAnyUnstaffed then unstaffed
    else staffed in
  assign entry
    (OStatus (StatusObj.mk (StatusObj.project s) (StatusObj.priority s)
                (StatusObj.monthlyStatus s) (StatusObj.totalDeficit s)
                (StatusObj.bucketKey s) (Some overall))).

(** The last loop, for one bucket and one month. *)
Definition setUtilization (effectiveCapacity : gmap string loc)
    (key : string) (entry : loc) (month : string) : M unit :=
  match effectiveCapacity !! key with
  | None => throw
  | Some bucketRef =>
      let! bucket := loadBucket bucketRef in
      let! capacities := loadHours (BucketObj.monthly_capacity bucket) in
      let capacity := default 0 (capacities !! month) in
      let! u := loadUtilization entry in
      let! consumed := loadHours (UtilizationObj.monthly_consumed u) in
      let! utilization := loadHours (UtilizationObj.monthly_utilization u) in
      assign (UtilizationObj.monthly_utilization u)
        (OHours (<[month := if decide (0 < capacity)
                            then round_percent (consumed !!! month) capacity
                            else 0]> utilization))
  end.

Definition calculateScenario (now : nat → Z)
    (baselineCapacity projects : list loc) (priorityOrder : list string)
    (virtualResources : list loc) (timelineShifts : loc)
    (months : list string) : M Result.t :=
  let! effectiveCapacity :=
    calculateEffectiveCapacity now baselineCapacity virtualResources months in
  let! shiftedProjects := applyTimelineShifts projects timelineShifts months in
  let! projectMap := foldM addProject ∅ shiftedProjects in
  let! remainingCapacity :=
    foldM addRemaining ∅ (map_to_list effectiveCapacity) in
  let! bucketUtilization :=
    foldM (addUtilization months) ∅ (map_to_list effectiveCapacity) in
  let! st := foldM (addProjectStatus projectMap) (∅, 0%nat) priorityOrder in
  let projectStatus := st.1 in
  let! totalDeficit :=
    foldM (λ total month,
             foldM (allocate projectMap remainingCapacity bucketUtilization
                      projectStatus month) total priorityOrder)
          0 months in
  forEach (map_to_list projectStatus) (λ e, summarize e.2)
  >> forEach (map_to_list bucketUtilization) (λ e,
       forEach months (setUtilization effectiveCapacity e.1 e.2))
  >> ret (Result.mk effectiveCapacity bucketUtilization projectStatus
            totalDeficit months).

(** The references of a new object that the engine may assign through later
    are themselves new: [fresh l] says that [l] is not in the store that the
    run started from. *)
Definition owns (fresh : loc → Prop) (o : obj) : Prop :=
  match o with
  | OBucket b => fresh (BucketObj.monthly_capacity b)
  | OUtilization u =>
      fresh (UtilizationObj.monthly_utilization u)
      ∧ fresh (UtilizationObj.monthly_consumed u)
      ∧ fresh (UtilizationObj.monthly_remaining u)
  | OStatus s => fresh (StatusObj.monthlyStatus s)
  | _ => True
  end.

(** [l] is not a reference of the store [h0] that the run started from. *)
Definition isNew (h0 : store) (l : loc) : Prop := h0 !! l = None.

(** The store [h] of a run that started from [h0]: every object of [h0] is
    still there, unchanged, and every object made since owns what it refers
    to. *)
Definition good (h0 h : store) : Prop :=
  h0 ⊆ h ∧ ∀ l o, h !! l = Some o → isNew h0 l → owns (isNew h0) o.

(** [c] keeps the store good, and its value satisfies [Q]. *)
Definition safe {A} (h0 : store) (Q : A → Prop) (c : M A) : Prop :=
  ∀ h, good h0 h → good h0 (c h).1 ∧ ∀ a, (c h).2 = Some a → Q a.

(** A table of references to objects made by the run. *)
Definition allNew (h0 : store) (table : gmap string loc) : Prop :=
  map_Forall (λ _ l, isNew h0 l) table.

End Store.

(** The worked example as a store: the bucket at 1 with its capacity at 0,
    the two projects at 3 and 5 with their demands at 2 and 4, and the
    (empty) shifts at 6. *)
Definition workedStore : gmap nat Store.obj :=
  {[ 0%nat := Store.OHours {["Jan" := 100]};
     1%nat := Store.OBucket
                (Store.BucketObj.mk "bucket_0" "Digital" "Developer" "London"
                   0%nat false);
     2%nat := Store.OHours {["Jan" := 60]};
     3%nat := Store.OProject
                (Store.ProjectObj.mk "p1" "p1" "Digital" "Developer" "London"
                   2%nat 60 None);
     4%nat := Store.OHours {["Jan" := 60]};
     5%nat := Store.OProject
                (Store.ProjectObj.mk "p2" "p2" "Digital" "Developer" "London"
                   4%nat 60 None);
     6%nat := Store.OShifts ∅ ]}.

Definition workedRun : gmap nat Store.obj * option Store.Result.t :=
  Store.calculateScenario (λ _, 0) [1%nat] [3%nat; 5%nat] ["p1"; "p2"] []
    6%nat jan workedStore.

(** The consumption tables of every utilization entry have the listed
    months, so that [+=] and [-=] on them find a number. *)
Definition tablesDefined (months : list string)
    (bucketUtilization : gmap string Utilization.t) : Prop :=
  ∀ k u m, bucketUtilization !! k = Some u → m ∈ months →
    is_Some (Utilization.monthly_consumed u !! m)
    ∧ is_Some (Utilization.monthly_remaining u !! m).

(** A bucket without capacity for January, and a project with a negative
    demand. *)
Definition bucketNoJan : Bucket.t :=
  Bucket.mk "bucket_0" "Digital" "Developer" "London" ∅ false.

Definition projectCredit : Project.t :=
  Project.mk "B" "B" "Digital" "Developer" "London" {["Jan" := -5]} (-5) None.

(** * Descriptions and invariants for the further properties *)

(** ** Sums over a table *)

(** The sum of [f] over the values of a table. *)
Definition mapSum {A} (f : A → Z) (table : gmap string A) : Z :=
  map_fold (λ _ x total, f x + total) 0 table.

(** Every id of the priority order that has a record has its entry. *)
Definition entriesReady (projectMap : gmap string Project.t)
    (priorityOrder : list string)
    (projectStatus : gmap string ProjectStatus.t) : Prop :=
  ∀ pid, pid ∈ priorityOrder → is_Some (projectMap !! pid) →
         is_Some (projectStatus !! pid).

(** The fields of an entry that the allocation loops never touch. *)
Definition fixedFields (p : ProjectStatus.t)
  : Project.t * nat * string * option Status :=
  (ProjectStatus.project p, ProjectStatus.priority p,
   ProjectStatus.bucketKey p, ProjectStatus.overallStatus p).

(** ** Invariants of one status entry *)

(** Every month record of the entry is the outcome of a visit of the inner
    loop for the demand of the project's record. *)
Definition outcomeRecords (projectMap : gmap string Project.t) (pid : string)
    (p : ProjectStatus.t) : Prop :=
  ∃ project, projectMap !! pid = Some project ∧
    ∀ m ms, ProjectStatus.monthlyStatus p !! m = Some ms →
      ∃ available, ms = outcome (demandOf project m) available.

(** The total of the entry is not negative, and is positive as soon as a
    month record of it is short of hours. *)
Definition deficitShows (p : ProjectStatus.t) : Prop :=
  0 ≤ ProjectStatus.totalDeficit p
  ∧ ∀ m ms, ProjectStatus.monthlyStatus p !! m = Some ms →
      MonthStatus.status ms = partial ∨ MonthStatus.status ms = unstaffed →
      0 < ProjectStatus.totalDeficit p.

(** The total of the entry of [pid] is the sum of the deficits of its month
    records, and it has no record yet for the months still to come. *)
Definition monthsAddUp (rest : list string)
    (projectStatus : gmap string ProjectStatus.t) (pid : string) : Prop :=
  ∀ p, projectStatus !! pid = Some p →
    ProjectStatus.totalDeficit p
    = mapSum MonthStatus.deficit (ProjectStatus.monthlyStatus p)
    ∧ ∀ m, m ∈ rest → ProjectStatus.monthlyStatus p !! m = None.

(** The status that the hours of a month record stand for. *)
Definition statusOfHours (allocated deficit : Z) : Status :=
  if decide (0 < deficit)
  then if decide (0 < allocated) then partial else unstaffed
  else if decide (0 < allocated) then staffed else none.

(** ** The counter of the header (DeltaCounter.jsx) *)

Module DeltaCounter.
Module Stats.
Record t := mk {
  staffed : nat;
  partial : nat;
  unstaffed : nat;
  total : nat
}.
End Stats.

(** [projects.filter(p => p.overallStatus === s).length] *)
Definition count (s : Status) (projects : list ProjectStatus.t) : nat :=
  length (filter (λ p, ProjectStatus.overallStatus p = Some s) projects).

(** The memoized [stats] of the component; [Object.values(projectStatus)]
    is the list of the entries. *)
Definition stats (projectStatus : gmap string ProjectStatus.t) : Stats.t :=
  let projects := (map_to_list projectStatus).*2 in
  Stats.mk (count staffed projects) (count partial projects)
    (count unstaffed projects) (length projects).

(** [const isResolved = totalDeficit === 0] *)
Definition isResolved (totalDeficit : Z) : bool :=
  bool_decide (totalDeficit = 0).
End DeltaCounter.

(** A project of a bucket that nobody staffs, and its entry. *)
Definition projectOrphan : Project.t :=
  Project.mk "p9" "Orphan" "Data" "Analyst" "Pune" {["Jan" := 30]} 30 None.

Definition orphanEntry : ProjectStatus.t :=
  ProjectStatus.mk projectOrphan 1
    {["Jan" := MonthStatus.mk unstaffed 30 0 30]} 30
    "data|analyst|pune" (Some unstaffed).

(** ** Comparing two runs *)

(** What the allocation loops write to an entry. *)
Definition writtenFields (p : ProjectStatus.t)
  : gmap string MonthStatus.t * Z :=
  (ProjectStatus.monthlyStatus p, ProjectStatus.totalDeficit p).

(** What a result reports on the staffing of a project. *)
Definition staffingOf (p : ProjectStatus.t)
  : gmap string MonthStatus.t * Z * option Status :=
  (ProjectStatus.monthlyStatus p, ProjectStatus.totalDeficit p,
   ProjectStatus.overallStatus p).

(** Two states that agree outside the bucket [key]: on the rows of the
    other buckets, and on what is written for the projects of the other
    buckets. *)
Definition agreeOutside (projectMap : gmap string Project.t) (key : string)
    (st st' : State.t) : Prop :=
  (∀ k, k ≠ key →
        State.remainingCapacity st !! k = State.remainingCapacity st' !! k)
  ∧ ∀ pid project,
      projectMap !! pid = Some project → projectKey project ≠ key →
      writtenFields <$> State.projectStatus st !! pid
      = writtenFields <$> State.projectStatus st' !! pid.

(** The ids that have a record of a bucket other than [key]. *)
Definition outsideBucket (projectMap : gmap string Project.t) (key : string)
    (pid : string) : bool :=
  match projectMap !! pid with
  | Some project => bool_decide (projectKey project ≠ key)
  | None => false
  end.

(** What the inner loop reads as available after a visit with [demand]
    that read [available]. *)
Definition availableAfter (demand available : Z) : Z :=
  if decide (demand = 0) then available
  else if decide (demand ≤ available) then available - demand
  else if decide (0 < available) then 0
  else available.

(** The second state has at least the hours of the first in every cell,
    and at most its deficits. *)
Definition noLessCapacity (st st' : State.t) : Prop :=
  (∀ k m, availableOf (State.remainingCapacity st) k m
          ≤ availableOf (State.remainingCapacity st') k m)
  ∧ (∀ pid, option_Forall2
              (λ p p', ProjectStatus.totalDeficit p'
                       ≤ ProjectStatus.totalDeficit p)
              (State.projectStatus st !! pid)
              (State.projectStatus st' !! pid))
  ∧ State.totalDeficit st' ≤ State.totalDeficit st.

(** A bucket for [projectOrphan], and a virtual resource for the bucket of
    [bucket100]. *)
Definition bucketPune : Bucket.t :=
  Bucket.mk "bucket_1" "Data" "Analyst" "Pune" {["Jan" := 50]} false.

Definition hireLondon : Resource.t :=
  Resource.mk "Digital" "Developer" "London" (Some 20).

(** The hours of a bucket for a month, as the loops read them. *)
Definition capacityOf (effectiveCapacity : gmap string Bucket.t)
    (key month : string) : Z :=
  default 0 (effectiveCapacity !! key
               ≫= λ b, Bucket.monthly_capacity b !! month).

(** Two tables of buckets with the same hours outside the bucket [key]. *)
Definition sameHoursOutside (key : string) (eff eff' : gmap string Bucket.t)
  : Prop :=
  ∀ k, k ≠ key →
       Bucket.monthly_capacity <$> eff !! k
       = Bucket.monthly_capacity <$> eff' !! k.

(** The second table has the buckets of the first and at least their hours,
    and differs in the bucket [key] only. *)
Definition noLessHours (key : string) (eff eff' : gmap string Bucket.t)
  : Prop :=
  (∀ k m, capacityOf eff k m ≤ capacityOf eff' k m)
  ∧ sameHoursOutside key eff eff'
  ∧ (is_Some (eff !! key) → is_Some (eff' !! key)).

(** * The callers of the engine

    The helpers of calculator.js that the components use, and the parts of
    the components that decide what the engine is called with and how its
    result is read: the scenario state of the dashboard with its handlers,
    the shift buttons and the colours of the heatmap, the total of the
    virtual-capacity panel and the list of the priority slider. *)

(** ** The display helpers of calculator.js *)

Definition getUtilizationColor (percentage : Z) : string :=
  if decide (100 < percentage) then "capacity-red"
  else if decide (85 ≤ percentage) then "capacity-amber"
  else "capacity-green".

Definition getUtilizationStatus (percentage : Z) : string :=
  if decide (100 < percentage) then "Overloaded"
  else if decide (85 ≤ percentage) then "At Capacity"
  else "Available".

(** [values.add(item[field])] under [if (item[field])]: the empty string is
    falsy, and a set keeps the first insertion of a value. *)
Definition addValue {A} (field : A → string) (values : list string)
    (item : A) : list string :=
  if decide (field item = "") then values
  else if decide (field item ∈ values) then values
  else values ++ [field item].

(** [Array.prototype.sort] without a comparator orders strings by their
    code units; the values of a set are distinct, so the sorted array does
    not depend on the sorting algorithm. *)
Definition codeUnitOrder (a b : string) : Prop := String.leb a b = true.

#[global] Instance codeUnitOrder_dec a b : Decision (codeUnitOrder a b) :=
  decide (String.leb a b = true).

Definition getUniqueValues {A} (items : list A) (field : A → string)
  : list string :=
  merge_sort codeUnitOrder (foldl (addValue field) [] items).

(** ** The heatmap (Heatmap.jsx) *)

Module Heatmap.
Definition getCellColor (utilization : Z) : string :=
  if decide (100 < utilization) then "bg-[var(--color-capacity-red)]"
  else if decide (85 ≤ utilization) then "bg-[var(--color-capacity-amber)]"
  else if decide (0 < utilization) then "bg-[var(--color-capacity-green)]"
  else "bg-[var(--color-bg-tertiary)]".

(** [bucket.monthly_utilization?.[month] || 0] and its two neighbours. *)
Definition utilizationAt (bucket : Utilization.t) (month : string) : Z :=
  default 0 (Utilization.monthly_utilization bucket !! month).

Definition consumedAt (bucket : Utilization.t) (month : string) : Z :=
  default 0 (Utilization.monthly_consumed bucket !! month).

Definition capacityAt (bucket : Utilization.t) (month : string) : Z :=
  default 0 (Bucket.monthly_capacity (Utilization.bucket bucket) !! month).

(** The colour of the remaining hours in the tooltip of a cell. *)
Definition remainingColor (bucket : Utilization.t) (month : string)
  : string :=
  if decide (capacityAt bucket month - consumedAt bucket month < 0)
  then "text-[var(--color-capacity-red)]"
  else "text-[var(--color-capacity-green)]".

(** The call of [onTimelineShift] that a click on a shift button makes, if
    it makes one. *)
Definition handleShiftProject (timelineShifts : gmap string Z)
    (projectId : string) (direction : Z) : option (string * Z) :=
  let currentShift := default 0 (timelineShifts !! projectId) in
  let newShift := currentShift + direction in
  if decide (-6 ≤ newShift ∧ newShift ≤ 6) then Some (projectId, newShift)
  else None.
End Heatmap.

(** ** The virtual-capacity panel (VirtualCapacity.jsx) *)

Module VirtualCapacity.
End VirtualCapacity.

(** ** The priority slider (PrioritySlider.jsx) *)

(** [projectMap] is an object literal filled by [projectMap[id] = record].
    Reading [projectMap[key]] gives the record assigned last under the key
    and, when there is none, what every object inherits under that name: a
    function, or the prototype itself for [__proto__], all of them truthy.
    The table of the own entries describes the object as long as no record
    was assigned under [__proto__], which sets the prototype instead. *)
Definition inheritedNames : list string :=
  ["__proto__"; "constructor"; "hasOwnProperty"; "isPrototypeOf";
   "propertyIsEnumerable"; "toLocaleString"; "toString"; "valueOf";
   "__defineGetter__"; "__defineSetter__"; "__lookupGetter__";
   "__lookupSetter__"].

Inductive member (A : Type) :=
  | Own (record : A)
  | Inherited (name : string).
Arguments Own {A} record.
Arguments Inherited {A} name.

Definition objectLookup {A} (object : gmap string A) (key : string)
  : option (member A) :=
  match object !! key with
  | Some record => Some (Own record)
  | None => if decide (key ∈ inheritedNames) then Some (Inherited key)
            else None
  end.

(** The ids for which the table of the own entries is all there is to
    [projectMap]: no record has the id [__proto__], and an id of the
    priority order that is an inherited name has a record. *)
Definition plainKeys (projects : list Project.t)
    (priorityOrder : list string) : Prop :=
  (∀ p, p ∈ projects → Project.id p ≠ "__proto__")
  ∧ ∀ pid, pid ∈ priorityOrder → pid ∈ inheritedNames →
           ∃ p, p ∈ projects ∧ Project.id p = pid.

Module PrioritySlider.
(** [priorityOrder.map(id => projectMap[id]).filter(Boolean)], over the map
    of the baseline projects: a row for every id that [projectMap] answers
    with a record or with something inherited. *)
Definition orderedProjects (projects : list Project.t)
    (priorityOrder : list string) : list (member Project.t) :=
  omap (objectLookup (buildProjectMap projects)) priorityOrder.

(** [project.id] of a row; what is inherited has none. *)
Definition rowId (row : member Project.t) : option string :=
  match row with
  | Own project => Some (Project.id project)
  | Inherited _ => None
  end.
End PrioritySlider.

(** ** The scenario state of the dashboard (Dashboard.jsx) *)

(** A virtual resource as the dashboard keeps it: the resource of the form
    with the [id] that [Date.now()] gave it. *)
Module VirtualResource.
Record t := mk {
  id : Z;
  resource : Resource.t
}.
End VirtualResource.

Module Dashboard.
(** The three levers. *)
Module Levers.
Record t := mk {
  priorityOrder : list string;
  virtualResources : list VirtualResource.t;
  timelineShifts : gmap string Z
}.
End Levers.

(** The initial state, which is also what [handleResetScenario] sets. *)
Definition initialLevers (baselineProjects : list Project.t) : Levers.t :=
  Levers.mk (map Project.id baselineProjects) [] ∅.

Definition handlePriorityChange (newOrder : list string) (s : Levers.t)
  : Levers.t :=
  Levers.mk newOrder (Levers.virtualResources s) (Levers.timelineShifts s).

(** [clock] is what [Date.now()] returns at the click. *)
Definition handleAddVirtualResource (clock : Z) (resource : Resource.t)
    (s : Levers.t) : Levers.t :=
  Levers.mk (Levers.priorityOrder s)
    (Levers.virtualResources s ++ [VirtualResource.mk clock resource])
    (Levers.timelineShifts s).

Definition handleRemoveVirtualResource (resourceId : Z) (s : Levers.t)
  : Levers.t :=
  Levers.mk (Levers.priorityOrder s)
    (filter (λ r, VirtualResource.id r ≠ resourceId)
            (Levers.virtualResources s))
    (Levers.timelineShifts s).

Definition handleTimelineShift (projectId : string) (shiftAmount : Z)
    (s : Levers.t) : Levers.t :=
  Levers.mk (Levers.priorityOrder s) (Levers.virtualResources s)
    (<[projectId := shiftAmount]> (Levers.timelineShifts s)).

Definition handleResetScenario (baselineProjects : list Project.t)
    (s : Levers.t) : Levers.t :=
  initialLevers baselineProjects.

(** A click on a shift button of the heatmap, which the dashboard wires to
    [handleTimelineShift]. *)
Definition clickShift (projectId : string) (direction : Z) (s : Levers.t)
  : Levers.t :=
  match Heatmap.handleShiftProject (Levers.timelineShifts s) projectId
          direction with
  | Some (pid, newShift) => handleTimelineShift pid newShift s
  | None => s
  end.

(** The memoized [scenarioResults]. *)
Definition scenarioResults (now : nat → Z) (baselineCapacity : list Bucket.t)
    (baselineProjects : list Project.t) (months : list string)
    (s : Levers.t) : Result.t :=
  calculateScenario now baselineCapacity baselineProjects
    (Levers.priorityOrder s)
    (map VirtualResource.resource (Levers.virtualResources s))
    (Levers.timelineShifts s) months.
End Dashboard.

(** The user's actions on the levers, and the state after a sequence of
    them. *)
Module Session.
Inductive Event :=
| Reorder (newOrder : list string)
| AddResource (clock : Z) (resource : Resource.t)
| RemoveResource (resourceId : Z)
| ClickShift (projectId : string) (direction : Z)
| Reset.

Definition handle (baselineProjects : list Project.t) (s : Dashboard.Levers.t)
    (e : Event) : Dashboard.Levers.t :=
  match e with
  | Reorder newOrder => Dashboard.handlePriorityChange newOrder s
  | AddResource clock resource =>
      Dashboard.handleAddVirtualResource clock resource s
  | RemoveResource resourceId =>
      Dashboard.handleRemoveVirtualResource resourceId s
  | ClickShift projectId direction =>
      Dashboard.clickShift projectId direction s
  | Reset => Dashboard.handleResetScenario baselineProjects s
  end.

Definition run (baselineProjects : list Project.t) (events : list Event)
  : Dashboard.Levers.t :=
  foldl (handle baselineProjects) (Dashboard.initialLevers baselineProjects)
        events.
End Session.

(** The shift that the engine and the heatmap read for a project:
    [timelineShifts[id] || 0]. *)
Definition shiftOf (timelineShifts : gmap string Z) (projectId : string)
  : Z :=
  default 0 (timelineShifts !! projectId).

(** The hours of a bucket for a month, missing entries counting as zero. *)
Definition hoursIn (month : string) (b : Bucket.t) : Z :=
  default 0 (Bucket.monthly_capacity b !! month).

(** ** Invariants that tie the status table to the remaining capacity *)

(** Every entry belongs to a project of the map and carries its key. *)
Definition keyed (projectMap : gmap string Project.t)
    (projectStatus : gmap string ProjectStatus.t) : Prop :=
  ∀ pid p, projectStatus !! pid = Some p →
    ∃ project, projectMap !! pid = Some project
               ∧ ProjectStatus.bucketKey p = projectKey project.

(** Where a month record is short of hours, the bucket has nothing left for
    that month. *)
Definition shortMeansEmpty (st : State.t) : Prop :=
  ∀ pid p m ms,
    State.projectStatus st !! pid = Some p →
    ProjectStatus.monthlyStatus p !! m = Some ms →
    0 < MonthStatus.deficit ms →
    availableOf (State.remainingCapacity st) (ProjectStatus.bucketKey p) m ≤ 0.

(** ** The demand on a bucket *)

(** What a visit of [pid] asks of the bucket [key] for [month]. *)
Definition demandIn (projectMap : gmap string Project.t) (key month : string)
    (pid : string) : Z :=
  match projectMap !! pid with
  | Some project =>
      if decide (projectKey project = key) then demandOf project month else 0
  | None => 0
  end.

(** What the visits of a priority order ask of the bucket for the month. *)
Definition queued (projectMap : gmap string Project.t) (key month : string)
    (priorityOrder : list string) : Z :=
  foldr (λ pid total, demandIn projectMap key month pid + total) 0
        priorityOrder.

(** The project has a record for the month that gives it [hours] and
    leaves no deficit. *)
Definition staffedAt (projectStatus : gmap string ProjectStatus.t)
    (pid month : string) (hours : Z) : Prop :=
  ∃ ms, recordAt projectStatus pid month = Some (Some ms)
        ∧ MonthStatus.deficit ms = 0
        ∧ MonthStatus.allocated ms = hours
        ∧ (MonthStatus.status ms = staffed ∨ MonthStatus.status ms = none).

(** ** The hours that a bucket gives away *)

(** The hours that an entry reports as allocated from the bucket [key] for
    [month]. *)
Definition allocatedIn (key month : string) (p : ProjectStatus.t) : Z :=
  if decide (ProjectStatus.bucketKey p = key)
  then from_option MonthStatus.allocated 0
         (ProjectStatus.monthlyStatus p !! month)
  else 0.

Definition noRecord (projectStatus : gmap string ProjectStatus.t)
    (pid month : string) : Prop :=
  ∀ ms, recordAt projectStatus pid month ≠ Some (Some ms).

(** The consumed hours of every bucket are the hours that the entries of
    its projects report as allocated. *)
Definition consumedIsAllocated (months : list string) (st : State.t)
  : Prop :=
  ∀ k u m, State.bucketUtilization st !! k = Some u → m ∈ months →
    Utilization.monthly_consumed u !! m
    = Some (mapSum (allocatedIn k m) (State.projectStatus st)).

(** ** The check of the file name (FileUpload.jsx) *)

Module FileUpload.
(** [s.lastIndexOf(c)] for a one-character [c]: -1 when it does not
    occur. *)
Fixpoint lastIndexOf (c : ascii) (s : string) : Z :=
  match s with
  | EmptyString => -1
  | String a rest =>
      let later := lastIndexOf c rest in
      if decide (0 ≤ later) then later + 1
      else if decide (a = c) then 0
      else -1
  end.

Fixpoint dropChars (n : nat) (s : string) : string :=
  match n, s with
  | O, _ => s
  | S n, String _ rest => dropChars n rest
  | S _, EmptyString => EmptyString
  end.

(** [s.substring(start)]: a negative start counts as 0. *)
Definition substring (start : Z) (s : string) : string :=
  dropChars (Z.to_nat start) s.

Definition validExtensions : list string := [".xlsm"; ".xlsx"; ".xls"].

(** [file.name.substring(file.name.lastIndexOf('.')).toLowerCase()] *)
Definition fileExtension (name : string) : string :=
  toLowerCase (substring (lastIndexOf "." name) name).

(** The upload goes on when [validExtensions.includes(fileExtension)]. *)
Definition accepted (name : string) : bool :=
  bool_decide (fileExtension name ∈ validExtensions).

Fixpoint occurs (c : ascii) (s : string) : bool :=
  match s with
  | EmptyString => false
  | String a rest => bool_decide (a = c) || occurs c rest
  end.
End FileUpload.

(** A second record with the id of [demand60 "p1"]. *)
Definition demand90 : Project.t :=
  Project.mk "p1" "Later" "Digital" "Developer" "London" {["Jan" := 90]} 90
    None.

(** * The engine on doubles

    The functions of the engine once more, with hours that are JavaScript
    numbers: the tables, the month records and the totals hold doubles, and
    every sum, difference and comparison is the one of IEEE 754.  What is
    not a number of hours (keys, ids, statuses, positions in the month list,
    shifts) is as before.  The entries of [monthly_demand] are visited in
    the order of the map; the order in which a shifted month receives its
    entries shows in a sum of doubles only when the month list repeats a
    label and the hours have fractions. *)

Module Doubles.

Module Bucket.
Record t := mk {
  id : string;
  team : string;
  role : string;
  location : string;
  monthly_capacity : gmap string Double.t;
  isVirtual : bool
}.
Definition with_capacity (b : t) (c : gmap string Double.t) : t :=
  mk (id b) (team b) (role b) (location b) c (isVirtual b).
End Bucket.

Module Resource.
Record t := mk {
  team : string;
  role : string;
  location : string;
  hoursPerMonth : option Double.t
}.
End Resource.

Module Project.
Record t := mk {
  id : string;
  name : string;
  team : string;
  role : string;
  location : string;
  monthly_demand : gmap string Double.t;
  total_demand : Double.t;
  timelineShift : option Z
}.
End Project.

Module MonthStatus.
Record t := mk {
  status : Status;
  demand : Double.t;
  allocated : Double.t;
  deficit : Double.t
}.
End MonthStatus.

Module ProjectStatus.
Record t := mk {
  project : Project.t;
  priority : nat;
  monthlyStatus : gmap string MonthStatus.t;
  totalDeficit : Double.t;
  bucketKey : string;
  overallStatus : option Status
}.
Definition set_month (month : string) (ms : MonthStatus.t) (p : t) : t :=
  mk (project p) (priority p) (<[month := ms]> (monthlyStatus p))
     (totalDeficit p) (bucketKey p) (overallStatus p).
Definition add_deficit (d : Double.t) (p : t) : t :=
  mk (project p) (priority p) (monthlyStatus p)
     (Double.add (totalDeficit p) d) (bucketKey p) (overallStatus p).
Definition set_overall (s : Status) (p : t) : t :=
  mk (project p) (priority p) (monthlyStatus p)
     (totalDeficit p) (bucketKey p) (Some s).
End ProjectStatus.

Module Utilization.
Record t := mk {
  bucket : Bucket.t;
  monthly_utilization : gmap string Double.t;
  monthly_consumed : gmap string Double.t;
  monthly_remaining : gmap string Double.t
}.
End Utilization.

(** [resource.hoursPerMonth || 160] *)
Definition hoursToAdd (r : Resource.t) : Double.t :=
  match Resource.hoursPerMonth r with
  | Some h => if Double.truthy h then h else Double.ofZ 160
  | None => Double.ofZ 160
  end.

Definition resourceKey (r : Resource.t) : string :=
  getBucketKey (Resource.team r) (Resource.role r) (Resource.location r).

Definition bucketKeyOf (b : Bucket.t) : string :=
  getBucketKey (Bucket.team b) (Bucket.role b) (Bucket.location b).

Definition addBaseline (eff : gmap string Bucket.t) (b : Bucket.t)
  : gmap string Bucket.t :=
  <[bucketKeyOf b := b]> eff.

(** [monthly_capacity[month] = (monthly_capacity[month] || 0) + hours] *)
Definition addHours (hours : Double.t) (cap : gmap string Double.t)
    (month : string) : gmap string Double.t :=
  <[month := Double.add (Double.or_zero (cap !! month)) hours]> cap.

Definition setHours (hours : Double.t) (cap : gmap string Double.t)
    (month : string) : gmap string Double.t :=
  <[month := hours]> cap.

Section Aggregator.
Variable now : nat → Z.

Definition addVirtual (months : list string)
    (st : gmap string Bucket.t * nat) (r : Resource.t)
  : gmap string Bucket.t * nat :=
  let '(eff, ticks) := st in
  let key := resourceKey r in
  match eff !! key with
  | Some b =>
      (<[key := Bucket.with_capacity b
                  (foldl (addHours (hoursToAdd r))
                         (Bucket.monthly_capacity b) months)]> eff,
       ticks)
  | None =>
      (<[key := Bucket.mk ("virtual_" +:+ pretty (now ticks))
                  (Resource.team r) (Resource.role r) (Resource.location r)
                  (foldl (setHours (hoursToAdd r)) ∅ months)
                  true]> eff,
       S ticks)
  end.

Definition calculateEffectiveCapacity
    (baselineCapacity : list Bucket.t) (virtualResources : list Resource.t)
    (months : list string) : gmap string Bucket.t :=
  (foldl (addVirtual months)
         (foldl addBaseline ∅ baselineCapacity, 0%nat)
         virtualResources).1.
End Aggregator.

(** [shiftedDemand[newMonth] = (shiftedDemand[newMonth] || 0) + hours] *)
Definition shiftEntry (months : list string) (shift : Z)
    (month : string) (hours : Double.t) (shiftedDemand : gmap string Double.t)
  : gmap string Double.t :=
  match monthIndex months !! month with
  | Some currentIdx =>
      let newIdx := Z.of_nat currentIdx + shift in
      if decide (0 ≤ newIdx ∧ newIdx < Z.of_nat (length months)) then
        match months !! Z.to_nat newIdx with
        | Some newMonth =>
            <[newMonth :=
                Double.add (Double.or_zero (shiftedDemand !! newMonth)) hours]>
              shiftedDemand
        | None => shiftedDemand
        end
      else shiftedDemand
  | None => shiftedDemand
  end.

Definition shiftDemand (months : list string) (shift : Z)
    (monthly_demand : gmap string Double.t) : gmap string Double.t :=
  map_fold (shiftEntry months shift) ∅ monthly_demand.

Definition shiftProject (timelineShifts : gmap string Z)
    (months : list string) (project : Project.t) : Project.t :=
  match timelineShifts !! Project.id project with
  | None => project
  | Some shift =>
      if decide (shift = 0) then project
      else Project.mk (Project.id project) (Project.name project)
             (Project.team project) (Project.role project)
             (Project.location project)
             (shiftDemand months shift (Project.monthly_demand project))
             (Project.total_demand project)
             (Some shift)
  end.

Definition applyTimelineShifts (projects : list Project.t)
    (timelineShifts : gmap string Z) (months : list string)
  : list Project.t :=
  map (shiftProject timelineShifts months) projects.

Module State.
Record t := mk {
  remainingCapacity : gmap string (gmap string Double.t);
  bucketUtilization : gmap string Utilization.t;
  projectStatus : gmap string ProjectStatus.t;
  totalDeficit : Double.t
}.
End State.

Module Result.
Record t := mk {
  effectiveCapacity : gmap string Bucket.t;
  bucketUtilization : gmap string Utilization.t;
  projectStatus : gmap string ProjectStatus.t;
  totalDeficit : Double.t;
  months : list string
}.
End Result.

Definition projectKey (p : Project.t) : string :=
  getBucketKey (Project.team p) (Project.role p) (Project.location p).

Definition buildProjectMap (shiftedProjects : list Project.t)
  : gmap string Project.t :=
  foldl (λ projectMap project, <[Project.id project := project]> projectMap)
        ∅ shiftedProjects.

Definition initRemaining (effectiveCapacity : gmap string Bucket.t)
  : gmap string (gmap string Double.t) :=
  Bucket.monthly_capacity <$> effectiveCapacity.

Definition initUtilizationMonth (bucket : Bucket.t)
    (u : Utilization.t) (month : string) : Utilization.t :=
  Utilization.mk (Utilization.bucket u)
    (<[month := Double.zero]> (Utilization.monthly_utilization u))
    (<[month := Double.zero]> (Utilization.monthly_consumed u))
    (<[month := Double.or_zero (Bucket.monthly_capacity bucket !! month)]>
       (Utilization.monthly_remaining u)).

Definition initUtilization (months : list string)
    (effectiveCapacity : gmap string Bucket.t)
  : gmap string Utilization.t :=
  (λ bucket, foldl (initUtilizationMonth bucket)
                   (Utilization.mk bucket ∅ ∅ ∅) months)
    <$> effectiveCapacity.

Definition addProjectStatus (projectMap : gmap string Project.t)
    (st : gmap string ProjectStatus.t * nat) (projectId : string)
  : gmap string ProjectStatus.t * nat :=
  let '(projectStatus, priority) := st in
  (match projectMap !! projectId with
   | None => projectStatus
   | Some project =>
       <[projectId := ProjectStatus.mk project (S priority) ∅ Double.zero
                        (projectKey project) None]> projectStatus
   end, S priority).

Definition initProjectStatus (projectMap : gmap string Project.t)
    (priorityOrder : list string) : gmap string ProjectStatus.t :=
  (foldl (addProjectStatus projectMap) (∅, 0%nat) priorityOrder).1.

(** [row[month] -= demand]; a missing cell makes it [NaN]. *)
Definition deduct (month : string) (demand : Double.t)
    (row : gmap string Double.t) : gmap string Double.t :=
  <[month := Double.sub (default Double.nan (row !! month)) demand]> row.

(** [monthly_consumed[month] += used] and the new value of
    [monthly_remaining[month]], computed from the old one. *)
Definition consume (month : string) (used : Double.t)
    (remaining : Double.t → Double.t) (u : Utilization.t) : Utilization.t :=
  Utilization.mk (Utilization.bucket u) (Utilization.monthly_utilization u)
    (<[month :=
         Double.add (default Double.nan (Utilization.monthly_consumed u !! month))
           used]>
       (Utilization.monthly_consumed u))
    (<[month :=
         remaining
           (default Double.nan (Utilization.monthly_remaining u !! month))]>
       (Utilization.monthly_remaining u)).

(** Step 6, the body of the inner loop: [demand === 0], then
    [available >= demand], then [available > 0]. *)
Definition allocate (projectMap : gmap string Project.t) (month : string)
    (st : State.t) (projectId : string) : State.t :=
  match projectMap !! projectId with
  | None => st
  | Some project =>
      let bucketKey := projectKey project in
      let demand :=
        Double.or_zero (Project.monthly_demand project !! month) in
      let available :=
        Double.or_zero
          (State.remainingCapacity st !! bucketKey ≫= (.!! month)) in
      if Double.eqb demand Double.zero then
        State.mk (State.remainingCapacity st) (State.bucketUtilization st)
          (alter (ProjectStatus.set_month month
                    (MonthStatus.mk none Double.zero Double.zero Double.zero))
                 projectId (State.projectStatus st))
          (State.totalDeficit st)
      else if Double.leb demand available then
        State.mk
          (alter (deduct month demand) bucketKey (State.remainingCapacity st))
          (alter (consume month demand (λ r, Double.sub r demand)) bucketKey
                 (State.bucketUtilization st))
          (alter (ProjectStatus.set_month month
                    (MonthStatus.mk staffed demand demand Double.zero))
                 projectId (State.projectStatus st))
          (State.totalDeficit st)
      else if Double.ltb Double.zero available then
        let deficit := Double.sub demand available in
        State.mk
          (alter (<[month := Double.zero]>) bucketKey
                 (State.remainingCapacity st))
          (alter (consume month available (λ _, Double.zero)) bucketKey
                 (State.bucketUtilization st))
          (alter (λ p, ProjectStatus.add_deficit deficit
                         (ProjectStatus.set_month month
                            (MonthStatus.mk partial demand available deficit)
                            p))
                 projectId (State.projectStatus st))
          (Double.add (State.totalDeficit st) deficit)
      else
        State.mk (State.remainingCapacity st) (State.bucketUtilization st)
          (alter (λ p, ProjectStatus.add_deficit demand
                         (ProjectStatus.set_month month
                            (MonthStatus.mk unstaffed demand Double.zero demand)
                            p))
                 projectId (State.projectStatus st))
          (Double.add (State.totalDeficit st) demand)
  end.

Definition allocateMonth (projectMap : gmap string Project.t)
    (priorityOrder : list string) (st : State.t) (month : string) : State.t :=
  foldl (allocate projectMap month) st priorityOrder.

Definition allocateAll (projectMap : gmap string Project.t)
    (priorityOrder : list string) (months : list string) (st : State.t)
  : State.t :=
  foldl (allocateMonth projectMap priorityOrder) st months.

Definition hasStatus (s : Status) (monthlyStatus : gmap string MonthStatus.t)
  : bool :=
  existsb (λ e, bool_decide (MonthStatus.status e.2 = s))
          (map_to_list monthlyStatus).

Definition summarize (p : ProjectStatus.t) : ProjectStatus.t :=
  let hasAnyStaffed := hasStatus staffed (ProjectStatus.monthlyStatus p) in
  let hasAnyUnstaffed :=
    hasStatus partial (ProjectStatus.monthlyStatus p)
    || hasStatus unstaffed (ProjectStatus.monthlyStatus p) in
  if hasAnyUnstaffed && hasAnyStaffed then ProjectStatus.set_overall partial p
  else if hasAnyUnstaffed then ProjectStatus.set_overall unstaffed p
  else ProjectStatus.set_overall staffed p.

(** The last loop: [Math.round((consumed / capacity) * 100)] when
    [capacity > 0]. *)
Definition setUtilization (capacity : gmap string Double.t)
    (u : Utilization.t) (month : string) : Utilization.t :=
  let cap := Double.or_zero (capacity !! month) in
  let consumed :=
    default Double.nan (Utilization.monthly_consumed u !! month) in
  Utilization.mk (Utilization.bucket u)
    (<[month := if Double.ltb Double.zero cap
                then Double.round
                       (Double.mul (Double.div consumed cap) (Double.ofZ 100))
                else Double.zero]>
       (Utilization.monthly_utilization u))
    (Utilization.monthly_consumed u)
    (Utilization.monthly_remaining u).

Definition finalUtilization (effectiveCapacity : gmap string Bucket.t)
    (months : list string) (bucketUtilization : gmap string Utilization.t)
  : gmap string Utilization.t :=
  map_imap (λ key u,
      Some (foldl (setUtilization
                     (from_option Bucket.monthly_capacity ∅
                        (effectiveCapacity !! key)))
                  u months))
    bucketUtilization.

Section Scenario.
Variable now : nat → Z.

Definition calculateScenario
    (baselineCapacity : list Bucket.t) (projects : list Project.t)
    (priorityOrder : list string) (virtualResources : list Resource.t)
    (timelineShifts : gmap string Z) (months : list string) : Result.t :=
  let effectiveCapacity :=
    calculateEffectiveCapacity now baselineCapacity virtualResources months in
  let shiftedProjects := applyTimelineShifts projects timelineShifts months in
  let projectMap := buildProjectMap shiftedProjects in
  let st :=
    allocateAll projectMap priorityOrder months
      (State.mk (initRemaining effectiveCapacity)
                (initUtilization months effectiveCapacity)
                (initProjectStatus projectMap priorityOrder)
                Double.zero) in
  Result.mk effectiveCapacity
    (finalUtilization effectiveCapacity months (State.bucketUtilization st))
    (summarize <$> State.projectStatus st)
    (State.totalDeficit st)
    months.
End Scenario.

(** The display helpers of the engine and the cells of the heatmap. *)
Definition getUtilizationColor (percentage : Double.t) : string :=
  if Double.ltb (Double.ofZ 100) percentage then "capacity-red"
  else if Double.leb (Double.ofZ 85) percentage then "capacity-amber"
  else "capacity-green".

Definition getUtilizationStatus (percentage : Double.t) : string :=
  if Double.ltb (Double.ofZ 100) percentage then "Overloaded"
  else if Double.leb (Double.ofZ 85) percentage then "At Capacity"
  else "Available".

Module Heatmap.
Definition getCellColor (utilization : Double.t) : string :=
  if Double.ltb (Double.ofZ 100) utilization
  then "bg-[var(--color-capacity-red)]"
  else if Double.leb (Double.ofZ 85) utilization
  then "bg-[var(--color-capacity-amber)]"
  else if Double.ltb Double.zero utilization
  then "bg-[var(--color-capacity-green)]"
  else "bg-[var(--color-bg-tertiary)]".

(** [bucket.monthly_utilization?.[month] || 0] and its two neighbours. *)
Definition utilizationAt (bucket : Utilization.t) (month : string)
  : Double.t :=
  Double.or_zero (Utilization.monthly_utilization bucket !! month).

Definition consumedAt (bucket : Utilization.t) (month : string) : Double.t :=
  Double.or_zero (Utilization.monthly_consumed bucket !! month).

Definition capacityAt (bucket : Utilization.t) (month : string) : Double.t :=
  Double.or_zero
    (Bucket.monthly_capacity (Utilization.bucket bucket) !! month).

(** The colour of the remaining hours in the tooltip of a cell:
    [capacity - consumed < 0]. *)
Definition remainingColor (bucket : Utilization.t) (month : string)
  : string :=
  if Double.ltb
       (Double.sub (capacityAt bucket month) (consumedAt bucket month))
       Double.zero
  then "text-[var(--color-capacity-red)]"
  else "text-[var(--color-capacity-green)]".
End Heatmap.

End Doubles.

(** ** Integer hours as doubles *)

Module AsDoubles.
Definition num (v : jsnum) : Double.t :=
  match v with
  | Num z => Double.ofZ z
  | NaN => Double.nan
  end.

Definition bucket (b : Bucket.t) : Doubles.Bucket.t :=
  Doubles.Bucket.mk (Bucket.id b) (Bucket.team b) (Bucket.role b)
    (Bucket.location b) (Double.ofZ <$> Bucket.monthly_capacity b)
    (Bucket.isVirtual b).

Definition resource (r : Resource.t) : Doubles.Resource.t :=
  Doubles.Resource.mk (Resource.team r) (Resource.role r)
    (Resource.location r) (Double.ofZ <$> Resource.hoursPerMonth r).

Definition project (p : Project.t) : Doubles.Project.t :=
  Doubles.Project.mk (Project.id p) (Project.name p) (Project.team p)
    (Project.role p) (Project.location p)
    (Double.ofZ <$> Project.monthly_demand p)
    (Double.ofZ (Project.total_demand p)) (Project.timelineShift p).

Definition month (ms : MonthStatus.t) : Doubles.MonthStatus.t :=
  Doubles.MonthStatus.mk (MonthStatus.status ms)
    (Double.ofZ (MonthStatus.demand ms))
    (Double.ofZ (MonthStatus.allocated ms))
    (Double.ofZ (MonthStatus.deficit ms)).

Definition status (p : ProjectStatus.t) : Doubles.ProjectStatus.t :=
  Doubles.ProjectStatus.mk (project (ProjectStatus.project p))
    (ProjectStatus.priority p) (month <$> ProjectStatus.monthlyStatus p)
    (Double.ofZ (ProjectStatus.totalDeficit p)) (ProjectStatus.bucketKey p)
    (ProjectStatus.overallStatus p).

Definition utilization (u : Utilization.t) : Doubles.Utilization.t :=
  Doubles.Utilization.mk (bucket (Utilization.bucket u))
    (Double.ofZ <$> Utilization.monthly_utilization u)
    (Double.ofZ <$> Utilization.monthly_consumed u)
    (Double.ofZ <$> Utilization.monthly_remaining u).

Definition state (st : State.t) : Doubles.State.t :=
  Doubles.State.mk
    ((λ row : gmap string jsnum, num <$> row) <$> State.remainingCapacity st)
    (utilization <$> State.bucketUtilization st)
    (status <$> State.projectStatus st)
    (Double.ofZ (State.totalDeficit st)).

Definition result (r : Result.t) : Doubles.Result.t :=
  Doubles.Result.mk (bucket <$> Result.effectiveCapacity r)
    (utilization <$> Result.bucketUtilization r)
    (status <$> Result.projectStatus r)
    (Double.ofZ (Result.totalDeficit r))
    (Result.months r).
End AsDoubles.

(** Hours that are integers between 0 and [bound]. *)
Definition hoursWithin (bound : Z) (hours : gmap string Z) : Prop :=
  map_Forall (λ _ h, 0 ≤ h ≤ bound) hours.

(** The inputs on which the arithmetic of the engine is exact: every
    capacity of the baseline, every [hoursPerMonth] and the summed demand of
    every project is an integer between 0 and [bound], and [bound] is small
    enough for the number of months, hires and ids that no sum formed by the
    engine reaches 2^53. *)
Definition integerHours (bound : Z) (baseline : list Bucket.t)
    (projects : list Project.t) (priorityOrder : list string)
    (virtuals : list Resource.t) (months : list string) : Prop :=
  0 ≤ bound
  ∧ (∀ b, b ∈ baseline → hoursWithin bound (Bucket.monthly_capacity b))
  ∧ (∀ r h, r ∈ virtuals → Resource.hoursPerMonth r = Some h → 0 ≤ h ≤ bound)
  ∧ (∀ p, p ∈ projects →
       nonneg (Project.monthly_demand p)
       ∧ mapSum id (Project.monthly_demand p) ≤ bound)
  ∧ (1 + Z.of_nat (length months)
         * Z.of_nat (length virtuals + length priorityOrder))
    * Z.max bound 160 < 2 ^ 53.

Definition capacitiesWithin (bound : Z) (eff : gmap string Bucket.t) : Prop :=
  map_Forall (λ _ b, hoursWithin bound (Bucket.monthly_capacity b)) eff.

Definition demandsWithin (bound : Z) (projectMap : gmap string Project.t)
  : Prop :=
  map_Forall (λ _ p, hoursWithin bound (Project.monthly_demand p)) projectMap.

(** What the exactness of a visit takes: the tables of the buckets are as
    [utilInv] says, a bucket with remaining hours has a utilization entry,
    and no total has passed [limit]. *)
Definition exactState (eff : gmap string Bucket.t) (months : list string)
    (limit : Z) (st : State.t) : Prop :=
  utilInv eff months st
  ∧ (∀ k, is_Some (State.remainingCapacity st !! k) →
          is_Some (State.bucketUtilization st !! k))
  ∧ 0 ≤ State.totalDeficit st ≤ limit
  ∧ ∀ pid p, State.projectStatus st !! pid = Some p →
             0 ≤ ProjectStatus.totalDeficit p ≤ limit.

(** ** Hours with fractions *)

(** A bucket of the London developers with one capacity for January. *)
Definition fractionBucket (hours : Double.t) : Doubles.Bucket.t :=
  Doubles.Bucket.mk "bucket_0" "Digital" "Developer" "London"
    {["Jan" := hours]} false.

(** A project of the London developers with one demand for January. *)
Definition fractionDemand (pid : string) (hours : Double.t)
  : Doubles.Project.t :=
  Doubles.Project.mk pid pid "Digital" "Developer" "London"
    {["Jan" := hours]} hours None.

(** * Properties *)

(** ** Doubles that hold integers *)

Lemma digits2_pos_bounds p :
  2 ^ (Z.pos (SpecFloat.digits2_pos p) - 1) ≤ Z.pos p
  < 2 ^ Z.pos (SpecFloat.digits2_pos p).
Proof.
  induction p as [p IH|p IH|]; cbn [SpecFloat.digits2_pos].
  - rewrite Pos2Z.inj_succ.
    replace (Z.succ (Z.pos (SpecFloat.digits2_pos p)) - 1)
      with (Z.succ (Z.pos (SpecFloat.digits2_pos p) - 1)) by lia.
    rewrite !Z.pow_succ_r by lia. lia.
  - rewrite Pos2Z.inj_succ.
    replace (Z.succ (Z.pos (SpecFloat.digits2_pos p)) - 1)
      with (Z.succ (Z.pos (SpecFloat.digits2_pos p) - 1)) by lia.
    rewrite !Z.pow_succ_r by lia. lia.
  - cbn. lia.
Qed.

Lemma digits2_pos_unique p d :
  2 ^ (d - 1) ≤ Z.pos p < 2 ^ d → Z.pos (SpecFloat.digits2_pos p) = d.
Proof.
  intros [Hlo Hhi]. pose proof (digits2_pos_bounds p) as [Hlo' Hhi'].
  set (d' := Z.pos (SpecFloat.digits2_pos p)) in *.
  assert (0 < d).
  { destruct (decide (0 < d)); [done|]. exfalso.
    destruct (decide (d = 0)) as [->|]; [cbn in Hhi; lia|].
    rewrite Z.pow_neg_r in Hhi by lia. lia. }
  assert (d' - 1 < d).
  { apply (Z.pow_lt_mono_r_iff 2); lia. }
  assert (d - 1 < d').
  { apply (Z.pow_lt_mono_r_iff 2); lia. }
  lia.
Qed.

Lemma pow2_xO n : 2 ^ Z.pos n~0 = 2 ^ Z.pos n * 2 ^ Z.pos n.
Proof. rewrite Pos2Z.inj_xO, <- Z.pow_add_r by lia. f_equal. lia. Qed.

Lemma pow2_xI n : 2 ^ Z.pos n~1 = 2 * (2 ^ Z.pos n * 2 ^ Z.pos n).
Proof.
  rewrite Pos2Z.inj_xI, <- Z.pow_add_r, <- Z.pow_succ_r by lia. f_equal. lia.
Qed.

Lemma pow2_pos n : 0 < 2 ^ Z.pos n.
Proof. apply Z.pow_pos_nonneg; lia. Qed.

Lemma shr_1_m mrs :
  0 ≤ SpecFloat.shr_m mrs →
  SpecFloat.shr_m (SpecFloat.shr_1 mrs) = SpecFloat.shr_m mrs `div` 2.
Proof.
  destruct mrs as [m r s]. cbn [SpecFloat.shr_m]. intros Hm.
  destruct m as [|p|p]; [done| |lia].
  destruct p as [p|p|]; cbn [SpecFloat.shr_1 SpecFloat.shr_m].
  - rewrite Pos2Z.inj_xI. apply Z.div_unique with (r := 1); lia.
  - rewrite Pos2Z.inj_xO. apply Z.div_unique with (r := 0); lia.
  - done.
Qed.

Lemma iter_shr_m n mrs :
  0 ≤ SpecFloat.shr_m mrs →
  SpecFloat.shr_m (SpecFloat.iter_pos SpecFloat.shr_1 n mrs)
  = SpecFloat.shr_m mrs `div` 2 ^ Z.pos n.
Proof.
  revert mrs. induction n as [n IH|n IH|]; intros mrs Hm;
    cbn [SpecFloat.iter_pos].
  - pose proof (pow2_pos n).
    assert (0 ≤ SpecFloat.shr_m (SpecFloat.shr_1 mrs)).
    { rewrite shr_1_m by done. apply Z.div_pos; lia. }
    assert (0 ≤ SpecFloat.shr_m
                  (SpecFloat.iter_pos SpecFloat.shr_1 n (SpecFloat.shr_1 mrs))).
    { rewrite IH by done. apply Z.div_pos; lia. }
    rewrite IH, IH, shr_1_m by done.
    rewrite pow2_xI, !Z.div_div by lia. done.
  - pose proof (pow2_pos n).
    assert (0 ≤ SpecFloat.shr_m (SpecFloat.iter_pos SpecFloat.shr_1 n mrs)).
    { rewrite IH by done. apply Z.div_pos; lia. }
    rewrite IH, IH by done. rewrite pow2_xO, Z.div_div by lia. done.
  - by rewrite shr_1_m.
Qed.

Lemma shr_1_exact t :
  0 ≤ t →
  SpecFloat.shr_1 (SpecFloat.Build_shr_record (2 * t) false false)
  = SpecFloat.Build_shr_record t false false.
Proof. intros Ht. destruct t as [|p|p]; [done|done|lia]. Qed.

Lemma iter_shr_exact n t :
  0 ≤ t →
  SpecFloat.iter_pos SpecFloat.shr_1 n
    (SpecFloat.Build_shr_record (t * 2 ^ Z.pos n) false false)
  = SpecFloat.Build_shr_record t false false.
Proof.
  revert t. induction n as [n IH|n IH|]; intros t Ht;
    cbn [SpecFloat.iter_pos].
  - pose proof (pow2_pos n). rewrite pow2_xI.
    replace (t * (2 * (2 ^ Z.pos n * 2 ^ Z.pos n)))
      with (2 * (t * 2 ^ Z.pos n * 2 ^ Z.pos n)) by lia.
    rewrite shr_1_exact by nia. rewrite IH by nia. by apply IH.
  - pose proof (pow2_pos n). rewrite pow2_xO, Z.mul_assoc.
    rewrite IH by nia. by apply IH.
  - replace (t * 2 ^ 1) with (2 * t) by lia. by apply shr_1_exact.
Qed.

Lemma iter_xO p n : Z.pos (Pos.iter xO p n) = Z.pos p * 2 ^ Z.pos n.
Proof.
  induction n as [|n IH] using Pos.peano_ind.
  - cbn. lia.
  - rewrite Pos.iter_succ, Pos2Z.inj_xO, IH, Pos2Z.inj_succ, Z.pow_succ_r by lia.
    lia.
Qed.

Lemma Zdigits2_unique z d :
  2 ^ (d - 1) ≤ z < 2 ^ d → 0 < z → SpecFloat.Zdigits2 z = d.
Proof.
  intros Hz Hpos. destruct z as [|p|p]; [lia| |lia].
  cbn [SpecFloat.Zdigits2]. by apply digits2_pos_unique.
Qed.

Lemma Zdigits2_bounds z :
  0 < z →
  2 ^ (SpecFloat.Zdigits2 z - 1) ≤ z < 2 ^ SpecFloat.Zdigits2 z
  ∧ 0 < SpecFloat.Zdigits2 z.
Proof.
  intros Hpos. destruct z as [|p|p]; [lia| |lia].
  cbn [SpecFloat.Zdigits2]. split; [apply digits2_pos_bounds|lia].
Qed.

Lemma fexp_normal e :
  -1021 ≤ e → SpecFloat.fexp Double.prec Double.emax e = e - 53.
Proof.
  intros He. unfold SpecFloat.fexp, SpecFloat.emin, Double.prec, Double.emax.
  lia.
Qed.

(** Shifting [t * 2 ^ n], of [53 + n] digits, to 53 digits loses nothing. *)
Lemma shr_fexp_exact t n e :
  2 ^ 52 ≤ t < 2 ^ 53 → 0 ≤ n → -1074 ≤ e + n →
  SpecFloat.shr_fexp Double.prec Double.emax (t * 2 ^ n) e SpecFloat.loc_Exact
  = (SpecFloat.Build_shr_record t false false, e + n).
Proof.
  intros Ht Hn He. unfold SpecFloat.shr_fexp.
  assert (0 < 2 ^ n) by (apply Z.pow_pos_nonneg; lia).
  rewrite (Zdigits2_unique (t * 2 ^ n) (53 + n)).
  - rewrite fexp_normal by lia.
    replace (53 + n + e - 53 - e) with n by lia.
    cbn [SpecFloat.shr_record_of_loc]. destruct n as [|k|k]; [| |lia].
    + cbn [SpecFloat.shr]. rewrite Z.pow_0_r, Z.mul_1_r, Z.add_0_r. done.
    + cbn [SpecFloat.shr]. by rewrite iter_shr_exact by lia.
  - replace (53 + n - 1) with (52 + n) by lia.
    rewrite !Z.pow_add_r by lia. nia.
  - nia.
Qed.

Lemma round_aux_exact sx t n e :
  2 ^ 52 ≤ t < 2 ^ 53 → 0 ≤ n → -1074 ≤ e + n ≤ 971 →
  SpecFloat.binary_round_aux Double.prec Double.emax sx (t * 2 ^ n) e
    SpecFloat.loc_Exact
  = SpecFloat.S754_finite sx (Z.to_pos t) (e + n).
Proof.
  intros Ht Hn He. unfold SpecFloat.binary_round_aux.
  rewrite shr_fexp_exact by lia.
  cbn [SpecFloat.shr_m SpecFloat.loc_of_shr_record
       SpecFloat.round_nearest_even].
  pose proof (shr_fexp_exact t 0 (e + n) Ht ltac:(lia) ltac:(lia)) as H0.
  rewrite Z.pow_0_r, Z.mul_1_r, Z.add_0_r in H0. rewrite H0.
  cbn [SpecFloat.shr_m]. destruct t as [|p|p]; [lia| |lia].
  unfold Double.emax, Double.prec.
  destruct (Z.leb_spec (e + n) (1024 - 53)); [|lia]. done.
Qed.

Lemma binary_round_exact sx z j :
  0 < z < 2 ^ 53 → 0 ≤ j →
  SpecFloat.binary_round Double.prec Double.emax sx (Z.to_pos (z * 2 ^ j)) (- j)
  = canonical sx z.
Proof.
  intros Hz Hj. unfold SpecFloat.binary_round, canonical.
  destruct (Zdigits2_bounds z) as [Hd Hd0]; [lia|].
  set (d := SpecFloat.Zdigits2 z) in *.
  assert (d ≤ 53).
  { destruct (decide (d ≤ 53)); [done|]. exfalso.
    assert (2 ^ 53 ≤ 2 ^ (d - 1)) by (apply Z.pow_le_mono_r; lia). lia. }
  assert (0 < 2 ^ j) by (apply Z.pow_pos_nonneg; lia).
  assert (0 < 2 ^ (53 - d)) by (apply Z.pow_pos_nonneg; lia).
  assert (Ht : 2 ^ 52 ≤ z * 2 ^ (53 - d) < 2 ^ 53).
  { assert (2 ^ 52 = 2 ^ (d - 1) * 2 ^ (53 - d)) as ->.
    { rewrite <- Z.pow_add_r by lia. f_equal. lia. }
    assert (2 ^ 53 = 2 ^ d * 2 ^ (53 - d)) as ->.
    { rewrite <- Z.pow_add_r by lia. f_equal. lia. }
    split; [apply Z.mul_le_mono_nonneg_r; lia|].
    apply Z.mul_lt_mono_pos_r; lia. }
  assert (Hdig : Z.pos (SpecFloat.digits2_pos (Z.to_pos (z * 2 ^ j))) = d + j).
  { apply digits2_pos_unique. rewrite Z2Pos.id by nia.
    replace (d + j - 1) with ((d - 1) + j) by lia.
    rewrite !Z.pow_add_r by lia. nia. }
  rewrite Hdig. rewrite fexp_normal by lia. unfold SpecFloat.shl_align.
  destruct (d + j + - j - 53 - - j) as [|k|k] eqn:Hk.
  - rewrite Z2Pos.id by nia.
    replace (z * 2 ^ j) with (z * 2 ^ (53 - d) * 2 ^ 0).
    2:{ replace j with (53 - d) by lia. lia. }
    rewrite round_aux_exact by lia. f_equal. lia.
  - rewrite Z2Pos.id by nia.
    replace (z * 2 ^ j) with (z * 2 ^ (53 - d) * 2 ^ (Z.pos k)).
    2:{ assert (2 ^ j = 2 ^ (53 - d) * 2 ^ Z.pos k) as ->; [|lia].
        rewrite <- Z.pow_add_r by lia. f_equal. lia. }
    rewrite round_aux_exact by lia. f_equal. lia.
  - rewrite iter_xO, Z2Pos.id by nia.
    replace (z * 2 ^ j * 2 ^ Z.pos k) with (z * 2 ^ (53 - d) * 2 ^ 0).
    2:{ assert (2 ^ (53 - d) = 2 ^ j * 2 ^ Z.pos k) as ->.
        { rewrite <- Z.pow_add_r by lia. f_equal. lia. }
        rewrite Z.pow_0_r. lia. }
    rewrite round_aux_exact by lia. f_equal. lia.
Qed.

Lemma ofZ_pos z : 0 < z < 2 ^ 53 → Double.ofZ z = canonical false z.
Proof.
  intros Hz. unfold Double.ofZ, SpecFloat.binary_normalize.
  destruct z as [|p|p]; [lia| |lia].
  pose proof (binary_round_exact false (Z.pos p) 0 Hz ltac:(lia)) as H.
  rewrite Z.pow_0_r, Z.mul_1_r in H. apply H.
Qed.

Lemma ofZ_neg z : 0 < z < 2 ^ 53 → Double.ofZ (- z) = canonical true z.
Proof.
  intros Hz. unfold Double.ofZ, SpecFloat.binary_normalize.
  destruct z as [|p|p]; [lia| |lia]. cbn [Z.opp].
  pose proof (binary_round_exact true (Z.pos p) 0 Hz ltac:(lia)) as H.
  rewrite Z.pow_0_r, Z.mul_1_r in H. apply H.
Qed.

Lemma canonical_parts z :
  0 < z < 2 ^ 53 →
  let d := SpecFloat.Zdigits2 z in
  0 < d ≤ 53
  ∧ 2 ^ (d - 1) ≤ z < 2 ^ d
  ∧ 2 ^ 52 ≤ z * 2 ^ (53 - d) < 2 ^ 53.
Proof.
  intros Hz d. destruct (Zdigits2_bounds z) as [Hd Hd0]; [lia|].
  fold d in Hd, Hd0.
  assert (d ≤ 53).
  { destruct (decide (d ≤ 53)); [done|]. exfalso.
    assert (2 ^ 53 ≤ 2 ^ (d - 1)) by (apply Z.pow_le_mono_r; lia). lia. }
  assert (0 < 2 ^ (53 - d)) by (apply Z.pow_pos_nonneg; lia).
  split; [lia|]. split; [done|].
  assert (2 ^ 52 = 2 ^ (d - 1) * 2 ^ (53 - d)) as ->.
  { rewrite <- Z.pow_add_r by lia. f_equal. lia. }
  assert (2 ^ 53 = 2 ^ d * 2 ^ (53 - d)) as ->.
  { rewrite <- Z.pow_add_r by lia. f_equal. lia. }
  split; [apply Z.mul_le_mono_nonneg_r; lia|].
  apply Z.mul_lt_mono_pos_r; lia.
Qed.

Lemma ofZ_0 : Double.ofZ 0 = Double.zero.
Proof. reflexivity. Qed.

Lemma normalize_exact z j :
  - 2 ^ 53 < z < 2 ^ 53 → 0 ≤ j →
  SpecFloat.binary_normalize Double.prec Double.emax (z * 2 ^ j) (- j) false
  = Double.ofZ z.
Proof.
  intros Hz Hj. assert (0 < 2 ^ j) by (apply Z.pow_pos_nonneg; lia).
  destruct (Z.lt_trichotomy z 0) as [Hneg|[->|Hpos]].
  - replace z with (- (- z)) by lia. rewrite ofZ_neg by lia.
    rewrite <- (binary_round_exact true (- z) j) by lia.
    unfold SpecFloat.binary_normalize.
    destruct (- - z * 2 ^ j) as [|p|p] eqn:Hp; [nia|nia|].
    do 2 f_equal. replace (- z * 2 ^ j) with (Z.pos p) by lia. done.
  - done.
  - rewrite ofZ_pos by lia.
    rewrite <- (binary_round_exact false z j) by lia.
    unfold SpecFloat.binary_normalize.
    destruct (z * 2 ^ j) as [|p|p] eqn:Hp; [nia| |nia]. done.
Qed.

Lemma shl_align_fst m e e' :
  e' ≤ e →
  Z.pos (SpecFloat.shl_align m e e').1 = Z.pos m * 2 ^ (e - e').
Proof.
  intros He. unfold SpecFloat.shl_align.
  destruct (e' - e) as [|k|k] eqn:Hk; cbn [fst].
  - replace (e - e') with 0 by lia. lia.
  - lia.
  - rewrite iter_xO. do 2 f_equal. lia.
Qed.

(** The aligned mantissas of two integers, as [SFadd] and [SFsub] form
    them. *)
Lemma aligned a b :
  0 < a < 2 ^ 53 → 0 < b < 2 ^ 53 →
  let ea := SpecFloat.Zdigits2 a - 53 in
  let eb := SpecFloat.Zdigits2 b - 53 in
  let ma := Z.to_pos (a * 2 ^ (53 - SpecFloat.Zdigits2 a)) in
  let mb := Z.to_pos (b * 2 ^ (53 - SpecFloat.Zdigits2 b)) in
  let j := - Z.min ea eb in
  0 ≤ j
  ∧ Z.pos (SpecFloat.shl_align ma ea (Z.min ea eb)).1 = a * 2 ^ j
  ∧ Z.pos (SpecFloat.shl_align mb eb (Z.min ea eb)).1 = b * 2 ^ j.
Proof.
  intros Ha Hb ea eb ma mb j.
  destruct (canonical_parts a Ha) as (Hda & _ & Hma).
  destruct (canonical_parts b Hb) as (Hdb & _ & Hmb).
  cbv zeta in *. split; [unfold j, ea, eb; lia|].
  rewrite !shl_align_fst by lia. unfold ma, mb. rewrite !Z2Pos.id by lia.
  rewrite <- !Z.mul_assoc, <- !Z.pow_add_r by (unfold ea, eb; lia).
  split; do 2 f_equal; unfold j, ea, eb; lia.
Qed.

Lemma add_exact a b :
  0 ≤ a → 0 ≤ b → a + b < 2 ^ 53 →
  Double.add (Double.ofZ a) (Double.ofZ b) = Double.ofZ (a + b).
Proof.
  intros Ha Hb Hsum.
  destruct (decide (a = 0)) as [->|Ha0].
  { rewrite ofZ_0, Z.add_0_l. destruct (decide (b = 0)) as [->|Hb0]; [done|].
    by rewrite ofZ_pos by lia. }
  destruct (decide (b = 0)) as [->|Hb0].
  { rewrite ofZ_0, Z.add_0_r. by rewrite ofZ_pos by lia. }
  rewrite (ofZ_pos a), (ofZ_pos b) by lia.
  unfold Double.add, canonical, SpecFloat.SFadd.
  destruct (aligned a b) as (Hj & -> & ->); [lia|lia|].
  cbv zeta. cbn [SpecFloat.cond_Zopp].
  set (j := - Z.min _ _) in *.
  replace (Z.min (SpecFloat.Zdigits2 a - 53) (SpecFloat.Zdigits2 b - 53))
    with (- j) by (unfold j; lia).
  rewrite <- Z.mul_add_distr_r. apply normalize_exact; lia.
Qed.

Lemma sub_exact a b :
  0 ≤ a < 2 ^ 53 → 0 ≤ b < 2 ^ 53 →
  Double.sub (Double.ofZ a) (Double.ofZ b) = Double.ofZ (a - b).
Proof.
  intros Ha Hb.
  destruct (decide (b = 0)) as [->|Hb0].
  { rewrite ofZ_0, Z.sub_0_r. destruct (decide (a = 0)) as [->|Ha0]; [done|].
    by rewrite ofZ_pos by lia. }
  destruct (decide (a = 0)) as [->|Ha0].
  { rewrite ofZ_0, Z.sub_0_l, ofZ_neg, ofZ_pos by lia. done. }
  rewrite (ofZ_pos a), (ofZ_pos b) by lia.
  unfold Double.sub, canonical, SpecFloat.SFsub.
  destruct (aligned a b) as (Hj & -> & ->); [lia|lia|].
  cbv zeta. cbn [SpecFloat.cond_Zopp].
  set (j := - Z.min _ _) in *.
  replace (Z.min (SpecFloat.Zdigits2 a - 53) (SpecFloat.Zdigits2 b - 53))
    with (- j) by (unfold j; lia).
  rewrite <- Z.mul_sub_distr_r. apply normalize_exact; lia.
Qed.

Lemma compare_exact a b :
  0 ≤ a < 2 ^ 53 → 0 ≤ b < 2 ^ 53 →
  SpecFloat.SFcompare (Double.ofZ a) (Double.ofZ b) = Some (a ?= b).
Proof.
  intros Ha Hb.
  destruct (decide (a = 0)) as [->|Ha0].
  { rewrite ofZ_0. destruct (decide (b = 0)) as [->|Hb0]; [done|].
    rewrite ofZ_pos by lia. unfold canonical, Double.zero.
    cbn [SpecFloat.SFcompare]. f_equal. symmetry. apply Z.compare_lt_iff.
    lia. }
  destruct (decide (b = 0)) as [->|Hb0].
  { rewrite ofZ_0, ofZ_pos by lia. unfold canonical, Double.zero.
    cbn [SpecFloat.SFcompare]. f_equal. symmetry.
    apply Z.compare_gt_iff. lia. }
  rewrite (ofZ_pos a), (ofZ_pos b) by lia.
  destruct (canonical_parts a) as (Hda & Hda' & Hma); [lia|].
  destruct (canonical_parts b) as (Hdb & Hdb' & Hmb); [lia|].
  cbv zeta in *. unfold canonical. cbn [SpecFloat.SFcompare]. f_equal.
  set (da := SpecFloat.Zdigits2 a) in *. set (db := SpecFloat.Zdigits2 b) in *.
  destruct (Z.compare_spec (da - 53) (db - 53)) as [Heq|Hlt|Hgt].
  - match goal with
    | |- Pos.compare_cont Eq ?x ?y = _ => change ((x ?= y)%positive = (a ?= b))
    end.
    rewrite Pos2Z.inj_compare, !Z2Pos.id by lia.
    replace db with da by lia.
    assert (0 < 2 ^ (53 - da)) by (apply Z.pow_pos_nonneg; lia).
    destruct (Z.compare_spec a b) as [->|?|?].
    + apply Z.compare_refl.
    + apply Z.compare_lt_iff. nia.
    + apply Z.compare_gt_iff. nia.
  - symmetry. apply Z.compare_lt_iff.
    assert (2 ^ da ≤ 2 ^ (db - 1)) by (apply Z.pow_le_mono_r; lia). lia.
  - symmetry. apply Z.compare_gt_iff.
    assert (2 ^ db ≤ 2 ^ (da - 1)) by (apply Z.pow_le_mono_r; lia). lia.
Qed.

Lemma leb_exact a b :
  0 ≤ a < 2 ^ 53 → 0 ≤ b < 2 ^ 53 →
  Double.leb (Double.ofZ a) (Double.ofZ b) = bool_decide (a ≤ b).
Proof.
  intros Ha Hb. unfold Double.leb, SpecFloat.SFleb.
  rewrite compare_exact by done.
  destruct (Z.compare_spec a b); case_bool_decide; (done || lia).
Qed.

Lemma ltb_exact a b :
  0 ≤ a < 2 ^ 53 → 0 ≤ b < 2 ^ 53 →
  Double.ltb (Double.ofZ a) (Double.ofZ b) = bool_decide (a < b).
Proof.
  intros Ha Hb. unfold Double.ltb, SpecFloat.SFltb.
  rewrite compare_exact by done.
  destruct (Z.compare_spec a b); case_bool_decide; (done || lia).
Qed.

Lemma eqb_exact a b :
  0 ≤ a < 2 ^ 53 → 0 ≤ b < 2 ^ 53 →
  Double.eqb (Double.ofZ a) (Double.ofZ b) = bool_decide (a = b).
Proof.
  intros Ha Hb. unfold Double.eqb, SpecFloat.SFeqb.
  rewrite compare_exact by done.
  destruct (Z.compare_spec a b); case_bool_decide; (done || lia).
Qed.

Lemma truthy_exact a :
  0 ≤ a < 2 ^ 53 → Double.truthy (Double.ofZ a) = bool_decide (a ≠ 0).
Proof.
  intros Ha. destruct (decide (a = 0)) as [->|Ha0]; [done|].
  rewrite ofZ_pos by lia. cbn. by rewrite bool_decide_true.
Qed.

Lemma ofZ_inj a b :
  0 ≤ a < 2 ^ 53 → 0 ≤ b < 2 ^ 53 → Double.ofZ a = Double.ofZ b → a = b.
Proof.
  intros Ha Hb Heq. pose proof (eqb_exact a b Ha Hb) as H.
  rewrite Heq in H. pose proof (eqb_exact b b Hb Hb) as H'.
  rewrite H' in H. rewrite bool_decide_true in H by done.
  symmetry in H. by apply bool_decide_eq_true in H.
Qed.

(** *** Rounded operations: quotient and percentage *)

Lemma shr_fexp_general m e l :
  0 < m →
  let d := SpecFloat.Zdigits2 m in
  53 ≤ d → -1074 ≤ e + d - 53 →
  SpecFloat.shr_m (SpecFloat.shr_fexp Double.prec Double.emax m e l).1
    = m `div` 2 ^ (d - 53)
  ∧ (SpecFloat.shr_fexp Double.prec Double.emax m e l).2 = e + d - 53.
Proof.
  intros Hm d Hd He. unfold SpecFloat.shr_fexp. fold d.
  rewrite fexp_normal by lia.
  replace (d + e - 53 - e) with (d - 53) by lia.
  assert (Hrec : SpecFloat.shr_m (SpecFloat.shr_record_of_loc m l) = m).
  { by destruct l as [|[]]. }
  destruct (d - 53) as [|k|k] eqn:Hk; [| |lia]; cbn [SpecFloat.shr fst snd].
  - rewrite Hrec, Z.pow_0_r, Z.div_1_r. split; [done|lia].
  - rewrite iter_shr_m by (rewrite Hrec; lia). rewrite Hrec. split; [done|lia].
Qed.

Lemma round_nearest_even_bounds t l :
  t ≤ SpecFloat.round_nearest_even t l ≤ t + 1.
Proof.
  unfold SpecFloat.round_nearest_even.
  destruct l as [|[]]; [lia| |lia|lia]. destruct (Z.even t); lia.
Qed.

Lemma round_aux_bounds sx m e l :
  0 < m →
  let d := SpecFloat.Zdigits2 m in
  53 ≤ d → -1074 ≤ e + d - 53 < 971 →
  ∃ m' e',
    SpecFloat.binary_round_aux Double.prec Double.emax sx m e l
      = SpecFloat.S754_finite sx m' e'
    ∧ 2 ^ 52 ≤ Z.pos m' < 2 ^ 53
    ∧ e + d - 53 ≤ e'
    ∧ Z.pos m' * 2 ^ (e' - (e + d - 53)) ≤ m `div` 2 ^ (d - 53) + 1.
Proof.
  intros Hm d Hd He.
  destruct (shr_fexp_general m e l Hm Hd ltac:(lia)) as [Hshr He'].
  fold d in Hshr, He'.
  destruct (Zdigits2_bounds m Hm) as [Hdig _]. fold d in Hdig.
  set (n := d - 53) in *. set (t := m `div` 2 ^ n) in *.
  assert (0 < 2 ^ n) by (apply Z.pow_pos_nonneg; lia).
  assert (Ht : 2 ^ 52 ≤ t < 2 ^ 53).
  { assert (2 ^ (d - 1) = 2 ^ n * 2 ^ 52) as Hlo.
    { rewrite <- Z.pow_add_r by lia. f_equal. lia. }
    assert (2 ^ d = 2 ^ n * 2 ^ 53) as Hhi.
    { rewrite <- Z.pow_add_r by lia. f_equal. lia. }
    split.
    - apply Z.div_le_lower_bound; lia.
    - apply Z.div_lt_upper_bound; lia. }
  unfold SpecFloat.binary_round_aux.
  destruct (SpecFloat.shr_fexp Double.prec Double.emax m e l) as [mrs' e1].
  cbn [fst snd] in Hshr, He'. subst e1. rewrite Hshr.
  pose proof (round_nearest_even_bounds t (SpecFloat.loc_of_shr_record mrs'))
    as Hr.
  set (m1 := SpecFloat.round_nearest_even t _) in *.
  destruct (decide (m1 < 2 ^ 53)) as [Hsmall|Hbig].
  - pose proof (shr_fexp_exact m1 0 (e + d - 53) ltac:(lia) ltac:(lia)
                  ltac:(lia)) as H0.
    rewrite Z.pow_0_r, Z.mul_1_r, Z.add_0_r in H0. rewrite H0.
    cbn [SpecFloat.shr_m]. destruct m1 as [|p|p] eqn:Hm1; [lia| |lia].
    unfold Double.emax, Double.prec.
    destruct (Z.leb_spec (e + d - 53) (1024 - 53)); [|lia].
    exists p, (e + d - 53). split; [done|]. split; [lia|]. split; [lia|].
    rewrite Z.sub_diag, Z.pow_0_r. lia.
  - assert (m1 = 2 ^ 52 * 2 ^ 1) as -> by lia.
    rewrite shr_fexp_exact by lia. cbn [SpecFloat.shr_m].
    unfold Double.emax, Double.prec.
    destruct (Z.leb_spec (e + d - 53 + 1) (1024 - 53)); [|lia].
    exists (Z.to_pos (2 ^ 52)), (e + d - 53 + 1).
    split; [done|]. split; [done|]. split; [lia|].
    replace (e + d - 53 + 1 - (e + d - 53)) with 1 by lia. lia.
Qed.

Lemma div_core m1 e1 m2 e2 :
  2 ^ 52 ≤ m1 < 2 ^ 53 → 2 ^ 52 ≤ m2 < 2 ^ 53 → -1021 ≤ e1 - e2 →
  SpecFloat.SFdiv_core_binary Double.prec Double.emax m1 e1 m2 e2
  = ((m1 * 2 ^ 53) `div` m2, e1 - e2 - 53,
     SpecFloat.new_location m2 ((m1 * 2 ^ 53) `mod` m2)).
Proof.
  intros H1 H2 He. unfold SpecFloat.SFdiv_core_binary.
  rewrite (Zdigits2_unique m1 53), (Zdigits2_unique m2 53) by lia.
  replace (53 + e1 - (53 + e2)) with (e1 - e2) by lia.
  rewrite fexp_normal by lia.
  replace (Z.min (e1 - e2 - 53) (e1 - e2)) with (e1 - e2 - 53) by lia.
  replace (e1 - e2 - (e1 - e2 - 53)) with 53 by lia.
  rewrite Z.shiftl_mul_pow2 by lia.
  unfold Z.div, Z.modulo.
  by destruct (Z.div_eucl (m1 * 2 ^ 53) m2).
Qed.

Lemma new_location_0 m : SpecFloat.new_location m 0 = SpecFloat.loc_Exact.
Proof. unfold SpecFloat.new_location. by destruct (Z.even m). Qed.

Lemma div_canonical a b :
  0 < a < 2 ^ 53 → 0 < b < 2 ^ 53 →
  let ma := a * 2 ^ (53 - SpecFloat.Zdigits2 a) in
  let mb := b * 2 ^ (53 - SpecFloat.Zdigits2 b) in
  Double.div (Double.ofZ a) (Double.ofZ b)
  = SpecFloat.binary_round_aux Double.prec Double.emax false
      ((ma * 2 ^ 53) `div` mb)
      (SpecFloat.Zdigits2 a - SpecFloat.Zdigits2 b - 53)
      (SpecFloat.new_location mb ((ma * 2 ^ 53) `mod` mb)).
Proof.
  intros Ha Hb ma mb. rewrite (ofZ_pos a), (ofZ_pos b) by done.
  destruct (canonical_parts a Ha) as (Hda & _ & Hma).
  destruct (canonical_parts b Hb) as (Hdb & _ & Hmb).
  cbv zeta in *. unfold canonical, Double.div, SpecFloat.SFdiv.
  rewrite !Z2Pos.id by lia. rewrite div_core by lia.
  cbn [xorb]. do 2 f_equal. lia.
Qed.

Lemma div_self a :
  0 < a < 2 ^ 53 → Double.div (Double.ofZ a) (Double.ofZ a) = Double.ofZ 1.
Proof.
  intros Ha. rewrite div_canonical by done.
  destruct (canonical_parts a Ha) as (Hda & _ & Hma). cbv zeta in *.
  set (ma := a * 2 ^ (53 - SpecFloat.Zdigits2 a)) in *.
  rewrite (Z.mul_comm ma), Z.mod_mul, Z.div_mul by lia.
  rewrite new_location_0, Z.sub_diag.
  apply (round_aux_exact false (2 ^ 52) 1 (0 - 53)); lia.
Qed.

(** A value [m * 2 ^ e] known to be at most [B * 2 ^ (- E)] in units of
    [2 ^ E]: the bound in units of its own exponent. *)
Lemma bound_transfer m e E B k :
  2 ^ 52 ≤ m → E ≤ e → E ≤ 0 → 0 < B < 2 ^ k → k ≤ 52 →
  m * 2 ^ (e - E) ≤ B * 2 ^ (- E) →
  e < k - 52 ∧ m ≤ B * 2 ^ (- e).
Proof.
  intros Hm HE HE0 HB Hk Hle.
  assert (0 < 2 ^ (e - E)) by (apply Z.pow_pos_nonneg; lia).
  assert (0 < 2 ^ (- E)) by (apply Z.pow_pos_nonneg; lia).
  assert (0 ≤ k).
  { destruct (decide (0 ≤ k)); [done|]. rewrite Z.pow_neg_r in HB; lia. }
  assert (0 < 2 ^ k) by (apply Z.pow_pos_nonneg; lia).
  assert (He : e < k - 52).
  { assert (52 + (e - E) < k + - E); [|lia].
    apply (Z.pow_lt_mono_r_iff 2); [lia|lia|].
    rewrite !Z.pow_add_r by lia. nia. }
  split; [done|].
  assert (2 ^ (- E) = 2 ^ (- e) * 2 ^ (e - E)) as Hsplit.
  { rewrite <- Z.pow_add_r by lia. f_equal. lia. }
  rewrite Hsplit, Z.mul_assoc in Hle.
  by apply Z.mul_le_mono_pos_r in Hle.
Qed.

Lemma div_at_most_one a b :
  0 < a → a < b → b < 2 ^ 53 →
  ∃ m e,
    Double.div (Double.ofZ a) (Double.ofZ b) = SpecFloat.S754_finite false m e
    ∧ 2 ^ 52 ≤ Z.pos m < 2 ^ 53
    ∧ -106 ≤ e ≤ -52
    ∧ Z.pos m ≤ 2 ^ (- e).
Proof.
  intros Ha Hab Hb. rewrite div_canonical by lia.
  destruct (canonical_parts a) as (Hda & _ & Hma); [lia|].
  destruct (canonical_parts b) as (Hdb & _ & Hmb); [lia|].
  cbv zeta in *.
  set (da := SpecFloat.Zdigits2 a) in *. set (db := SpecFloat.Zdigits2 b) in *.
  set (ma := a * 2 ^ (53 - da)) in *. set (mb := b * 2 ^ (53 - db)) in *.
  set (q := (ma * 2 ^ 53) `div` mb).
  set (K := 53 - da + db).
  assert (0 < 2 ^ (53 - da)) by (apply Z.pow_pos_nonneg; lia).
  assert (0 < 2 ^ (53 - db)) by (apply Z.pow_pos_nonneg; lia).
  assert (Hq : 2 ^ 52 ≤ q < 2 ^ 54).
  { split.
    - apply Z.div_le_lower_bound; lia.
    - apply Z.div_lt_upper_bound; lia. }
  assert (HqK : q < 2 ^ K).
  { apply Z.div_lt_upper_bound; [lia|].
    assert (2 ^ K = 2 ^ (53 - da) * 2 ^ db) as ->.
    { unfold K. by rewrite <- Z.pow_add_r by lia. }
    assert (2 ^ 53 = 2 ^ (53 - db) * 2 ^ db) as ->.
    { rewrite <- Z.pow_add_r by lia. f_equal. lia. }
    unfold ma, mb. assert (0 < 2 ^ db) by (apply Z.pow_pos_nonneg; lia).
    nia. }
  destruct (Zdigits2_bounds q) as [Hdq Hdq0]; [lia|].
  assert (Hdq' : 53 ≤ SpecFloat.Zdigits2 q ≤ 54).
  { split.
    - assert (52 < SpecFloat.Zdigits2 q); [|lia].
      apply (Z.pow_lt_mono_r_iff 2); lia.
    - assert (SpecFloat.Zdigits2 q - 1 < 54); [|lia].
      apply (Z.pow_lt_mono_r_iff 2); lia. }
  destruct (round_aux_bounds false q (da - db - 53)
              (SpecFloat.new_location mb ((ma * 2 ^ 53) `mod` mb)))
    as (m' & e' & Heq & Hm' & He' & Hbound); [lia|lia|lia|].
  set (n := SpecFloat.Zdigits2 q - 53) in *.
  replace (da - db - 53 + SpecFloat.Zdigits2 q - 53) with (n - K) in *
    by (unfold n, K; lia).
  assert (0 < 2 ^ n) by (apply Z.pow_pos_nonneg; lia).
  assert (Hn : 52 + n < K).
  { apply (Z.pow_lt_mono_r_iff 2); [lia|lia|].
    replace (52 + n) with (SpecFloat.Zdigits2 q - 1) by (unfold n; lia).
    lia. }
  assert (Ht : q `div` 2 ^ n + 1 ≤ 1 * 2 ^ (- (n - K))).
  { assert (q `div` 2 ^ n < 2 ^ (K - n)); [|
      replace (- (n - K)) with (K - n) by lia; lia].
    apply Z.div_lt_upper_bound; [lia|].
    rewrite <- Z.pow_add_r by lia. replace (n + (K - n)) with K by lia.
    done. }
  destruct (bound_transfer (Z.pos m') e' (n - K) 1 1) as [He1 Hm1];
    [lia|lia|lia|lia|lia|lia|].
  exists m', e'. split; [done|]. split; [done|].
  split; [unfold K in *; lia|lia].
Qed.

Lemma ofZ_100 :
  Double.ofZ 100 = SpecFloat.S754_finite false 7036874417766400 (-46).
Proof. vm_compute. reflexivity. Qed.

Lemma mul_100_at_most m e :
  2 ^ 52 ≤ Z.pos m < 2 ^ 53 → -106 ≤ e ≤ -52 → Z.pos m ≤ 2 ^ (- e) →
  ∃ m' e',
    Double.mul (SpecFloat.S754_finite false m e) (Double.ofZ 100)
      = SpecFloat.S754_finite false m' e'
    ∧ e' < 0
    ∧ Z.pos m' ≤ 100 * 2 ^ (- e').
Proof.
  intros Hm He Hle.
  destruct (decide (Z.pos m = 2 ^ (- e))) as [Heq|Hne].
  { assert (e = -52) as ->.
    { assert (52 ≤ - e < 53); [|lia].
      split; [apply (Z.pow_le_mono_r_iff 2)|apply (Z.pow_lt_mono_r_iff 2)];
        lia. }
    assert (m = 4503599627370496%positive) as -> by lia.
    exists 7036874417766400%positive, (-46).
    split; [vm_compute; reflexivity|]. split; [lia|].
    vm_compute. by intros ?. }
  rewrite ofZ_100. unfold Double.mul, SpecFloat.SFmul.
  cbn [xorb]. rewrite Pos2Z.inj_mul.
  change (Z.pos 7036874417766400) with (100 * 2 ^ 46).
  set (P := Z.pos m * (100 * 2 ^ 46)).
  assert (HP : 2 ^ 104 ≤ P < 2 ^ 106) by (unfold P; lia).
  assert (0 < 2 ^ (- e)) by (apply Z.pow_pos_nonneg; lia).
  assert (HPe : P < 100 * 2 ^ (46 - e)).
  { replace (46 - e) with (46 + - e) by lia. rewrite Z.pow_add_r by lia.
    unfold P. nia. }
  destruct (Zdigits2_bounds P) as [Hd Hd0]; [lia|].
  assert (Hd' : 105 ≤ SpecFloat.Zdigits2 P ≤ 106).
  { split.
    - assert (104 < SpecFloat.Zdigits2 P); [|lia].
      apply (Z.pow_lt_mono_r_iff 2); lia.
    - assert (SpecFloat.Zdigits2 P - 1 < 106); [|lia].
      apply (Z.pow_lt_mono_r_iff 2); lia. }
  destruct (round_aux_bounds false P (e + -46) SpecFloat.loc_Exact)
    as (m' & e' & Heq & Hm' & He' & Hbound); [lia|lia|lia|].
  set (n := SpecFloat.Zdigits2 P - 53) in *.
  set (E := e + -46 + SpecFloat.Zdigits2 P - 53) in *.
  assert (0 < 2 ^ n) by (apply Z.pow_pos_nonneg; lia).
  assert (Ht : P `div` 2 ^ n + 1 ≤ 100 * 2 ^ (- E)).
  { assert (P `div` 2 ^ n < 100 * 2 ^ (- E)); [|lia].
    apply Z.div_lt_upper_bound; [lia|].
    replace (2 ^ n * (100 * 2 ^ (- E))) with (100 * (2 ^ n * 2 ^ (- E))) by lia.
    rewrite <- Z.pow_add_r by (unfold E, n; lia).
    replace (n + - E) with (46 - e) by (unfold E, n; lia). done. }
  destruct (bound_transfer (Z.pos m') e' E 100 7) as [He1 Hm1];
    [lia|lia|unfold E; lia|lia|lia|lia|].
  exists m', e'. split; [done|]. split; [lia|done].
Qed.

Lemma roundToZ_at_most m e :
  e < 0 → Z.pos m ≤ 100 * 2 ^ (- e) →
  0 ≤ Double.roundToZ (SpecFloat.S754_finite false m e) ≤ 100.
Proof.
  intros He Hm. unfold Double.roundToZ. rewrite decide_False by lia.
  cbn [SpecFloat.cond_Zopp].
  assert (0 < 2 ^ (- e)) by (apply Z.pow_pos_nonneg; lia).
  assert (2 ^ (1 - e) = 2 * 2 ^ (- e)) as ->.
  { replace (1 - e) with (Z.succ (- e)) by lia. by rewrite Z.pow_succ_r by lia. }
  split.
  - apply Z.div_pos; lia.
  - apply Z.lt_succ_r, Z.div_lt_upper_bound; lia.
Qed.

Lemma round_percent_bounds consumed capacity :
  0 ≤ consumed ≤ capacity → 0 < capacity < 2 ^ 53 →
  0 ≤ round_percent consumed capacity ≤ 100.
Proof.
  intros Hc Hcap. unfold round_percent.
  destruct (decide (consumed = 0)) as [->|Hne].
  { rewrite ofZ_0, ofZ_pos by lia. vm_compute. split; by intros ?. }
  destruct (decide (consumed = capacity)) as [->|Hlt].
  { rewrite div_self by lia. vm_compute. split; by intros ?. }
  destruct (div_at_most_one consumed capacity) as (m & e & -> & Hm & He & Hle);
    [lia|lia|lia|].
  destruct (mul_100_at_most m e) as (m' & e' & -> & He' & Hle');
    [done|done|done|].
  by apply roundToZ_at_most.
Qed.

Lemma round_percent_full capacity :
  0 < capacity < 2 ^ 53 → round_percent capacity capacity = 100.
Proof.
  intros Hcap. unfold round_percent. rewrite div_self by lia.
  vm_compute. reflexivity.
Qed.

Example round_percent_92_of_160 : round_percent 92 160 = 57.
Proof. vm_compute. reflexivity. Qed.

Example round_percent_120_of_160 : round_percent 120 160 = 75.
Proof. vm_compute. reflexivity. Qed.

(** ** The worked example, by evaluation *)

Example worked_p1 :
  (ProjectStatus.monthlyStatus <$> Result.projectStatus worked !! "p1")
    ≫= (.!! "Jan") = Some (MonthStatus.mk staffed 60 60 0).
Proof. vm_compute. reflexivity. Qed.

Example worked_p2 :
  (ProjectStatus.monthlyStatus <$> Result.projectStatus worked !! "p2")
    ≫= (.!! "Jan") = Some (MonthStatus.mk partial 60 40 20).
Proof. vm_compute. reflexivity. Qed.

Example worked_total : Result.totalDeficit worked = 20.
Proof. vm_compute. reflexivity. Qed.

Example worked_utilization :
  (Utilization.monthly_utilization
     <$> Result.bucketUtilization worked !! "digital|developer|london")
    ≫= (.!! "Jan") = Some 100.
Proof. vm_compute. reflexivity. Qed.

(** ** One step of the inner loop *)

Lemma add_deficit_0 p : ProjectStatus.add_deficit 0 p = p.
Proof. destruct p; unfold ProjectStatus.add_deficit; simpl; f_equal; lia. Qed.

Lemma allocate_eq projectMap month st projectId project :
  projectMap !! projectId = Some project →
  let d := demandOf project month in
  let a := availableOf (State.remainingCapacity st) (projectKey project) month in
  allocate projectMap month st projectId =
  State.mk
    (remainingStep projectMap month (State.remainingCapacity st) projectId)
    (alter (utilAfter month d a) (projectKey project)
           (State.bucketUtilization st))
    (alter (writeMonth month (outcome d a)) projectId (State.projectStatus st))
    (State.totalDeficit st + MonthStatus.deficit (outcome d a)).
Proof.
  intros Hp d a. unfold allocate, remainingStep. rewrite Hp.
  fold (demandOf project month). fold d.
  fold (availableOf (State.remainingCapacity st) (projectKey project) month).
  fold a. unfold outcome, utilAfter, writeMonth.
  destruct st as [R BU PS total]; simpl in *.
  assert (Hrow : ∀ row, R !! projectKey project = Some row →
                        or_zero (row !! month) = a).
  { intros row Hrow. unfold a, availableOf. simpl. by rewrite Hrow. }
  assert (Hcell : ∀ row j, R !! projectKey project = Some row →
            partial_alter (cellAfter d) month row !! j =
            if decide (month = j) then
              (if decide (d = 0) then row !! month
               else if decide (d ≤ a) then Some (js_sub (row !! month) d)
               else if decide (0 < a) then Some (Num 0) else row !! month)
            else row !! j).
  { intros row j Hr. rewrite lookup_partial_alter. unfold cellAfter.
    by rewrite (Hrow _ Hr). }
  repeat case_decide; simpl; f_equal; try lia;
    try (symmetry; by apply alter_id);
    try (apply alter_ext; intros p _; by rewrite add_deficit_0).
  all: try (symmetry; apply alter_id; intros row Hr; apply map_eq; intros j;
            rewrite (Hcell _ _ Hr); repeat case_decide; congruence).
  all: apply alter_ext; intros row Hr; apply map_eq; intros j;
    rewrite (Hcell _ _ Hr); unfold deduct; rewrite lookup_insert;
    repeat case_decide; congruence.
Qed.

Lemma allocate_skip projectMap month st projectId :
  projectMap !! projectId = None → allocate projectMap month st projectId = st.
Proof. intros Hp. unfold allocate. by rewrite Hp. Qed.

Lemma outcome_wf d a : wfMonth (outcome d a).
Proof.
  unfold wfMonth, outcome. repeat case_decide; simpl; split; try lia;
    split; intros; congruence.
Qed.

Lemma outcome_demand d a : MonthStatus.demand (outcome d a) = d.
Proof. unfold outcome. repeat case_decide; simpl; congruence. Qed.

Lemma allocate_remaining projectMap month st projectId :
  State.remainingCapacity (allocate projectMap month st projectId)
  = remainingStep projectMap month (State.remainingCapacity st) projectId.
Proof.
  destruct (projectMap !! projectId) as [project|] eqn:Hp.
  - by rewrite (allocate_eq _ _ _ _ _ Hp).
  - rewrite allocate_skip by done. unfold remainingStep. by rewrite Hp.
Qed.

Lemma allocate_projectStatus projectMap month st projectId project :
  projectMap !! projectId = Some project →
  State.projectStatus (allocate projectMap month st projectId)
  = alter (writeMonth month
             (outcome (demandOf project month)
                (availableOf (State.remainingCapacity st)
                   (projectKey project) month)))
          projectId (State.projectStatus st).
Proof. intros Hp. by rewrite (allocate_eq _ _ _ _ _ Hp). Qed.

(** ** The loops preserve the invariants *)

Lemma writeMonth_lookup month ms p m :
  ProjectStatus.monthlyStatus (writeMonth month ms p) !! m
  = if decide (month = m) then Some ms
    else ProjectStatus.monthlyStatus p !! m.
Proof. unfold writeMonth. simpl. apply lookup_insert. Qed.

Lemma allocate_statusInv projectMap month st projectId :
  statusInv projectMap (State.projectStatus st) →
  statusInv projectMap
    (State.projectStatus (allocate projectMap month st projectId)).
Proof.
  intros Hinv. destruct (projectMap !! projectId) as [project|] eqn:Hp;
    [|by rewrite allocate_skip].
  rewrite (allocate_projectStatus _ _ _ _ _ Hp).
  intros pid p. rewrite lookup_alter. case_decide as Hpid; [|apply Hinv].
  subst pid. destruct (State.projectStatus st !! projectId) as [p0|] eqn:H0;
    [|done].
  simpl. intros [= <-]. destruct (Hinv _ _ H0) as (project' & Hp' & Hms).
  exists project'. split; [done|]. intros m ms.
  rewrite writeMonth_lookup. case_decide; [|apply Hms].
  intros [= <-]. subst m. split; [apply outcome_wf|].
  rewrite outcome_demand. congruence.
Qed.

Lemma allocateMonth_statusInv projectMap priorityOrder st month :
  statusInv projectMap (State.projectStatus st) →
  statusInv projectMap
    (State.projectStatus (allocateMonth projectMap priorityOrder st month)).
Proof.
  unfold allocateMonth. revert st.
  induction priorityOrder as [|pid l IH]; intros st H; [done|].
  simpl. by apply IH, allocate_statusInv.
Qed.

Lemma allocateAll_statusInv projectMap priorityOrder months st :
  statusInv projectMap (State.projectStatus st) →
  statusInv projectMap
    (State.projectStatus (allocateAll projectMap priorityOrder months st)).
Proof.
  unfold allocateAll. revert st.
  induction months as [|m l IH]; intros st H; [done|].
  simpl. by apply IH, allocateMonth_statusInv.
Qed.

Lemma addProjectStatus_fresh projectMap l acc n :
  (∀ pid p, acc !! pid = Some p → freshEntry projectMap pid p) →
  ∀ pid p, (foldl (addProjectStatus projectMap) (acc, n) l).1 !! pid = Some p →
           freshEntry projectMap pid p.
Proof.
  revert acc n. induction l as [|x l IH]; intros acc n Hacc; [done|].
  simpl. apply IH. destruct (projectMap !! x) as [project|] eqn:Hx; [|done].
  intros pid p. rewrite lookup_insert. case_decide; [|apply Hacc].
  intros [= <-]. subst. by repeat split.
Qed.

Lemma addProjectStatus_dom projectMap l acc n pid :
  is_Some ((foldl (addProjectStatus projectMap) (acc, n) l).1 !! pid)
  ↔ (pid ∈ l ∧ is_Some (projectMap !! pid)) ∨ is_Some (acc !! pid).
Proof.
  revert acc n. induction l as [|x l IH]; intros acc n; simpl.
  - rewrite elem_of_nil. tauto.
  - rewrite IH, elem_of_cons. destruct (projectMap !! x) as [project|] eqn:Hx.
    + rewrite lookup_insert. case_decide.
      * subst. rewrite Hx. split; eauto 6.
      * split; [tauto|]. intros [[[->|?] ?]|?]; tauto.
    + split; [tauto|]. intros [[[->|?] ?]|?]; try tauto.
      rewrite Hx in *. by destruct H as [? ?].
Qed.

Lemma initProjectStatus_fresh projectMap priorityOrder pid p :
  initProjectStatus projectMap priorityOrder !! pid = Some p →
  freshEntry projectMap pid p.
Proof. apply addProjectStatus_fresh. intros ??. by rewrite lookup_empty. Qed.

Lemma initProjectStatus_dom projectMap priorityOrder pid :
  is_Some (initProjectStatus projectMap priorityOrder !! pid)
  ↔ pid ∈ priorityOrder ∧ is_Some (projectMap !! pid).
Proof.
  unfold initProjectStatus. rewrite addProjectStatus_dom, lookup_empty.
  split; [|tauto]. intros [?|[? ?]]; [done|done].
Qed.

Lemma initProjectStatus_inv projectMap priorityOrder :
  statusInv projectMap (initProjectStatus projectMap priorityOrder).
Proof.
  intros pid p Hp. apply initProjectStatus_fresh in Hp as (Hpm & Hms & _).
  eexists. split; [done|]. intros m ms. by rewrite Hms, lookup_empty.
Qed.

(** Entries of [projectStatus] are never removed, and a month record, once
    written, stays. *)
Lemma allocate_dom projectMap month st projectId pid :
  is_Some (State.projectStatus (allocate projectMap month st projectId) !! pid)
  ↔ is_Some (State.projectStatus st !! pid).
Proof.
  destruct (projectMap !! projectId) as [project|] eqn:Hp;
    [|rewrite allocate_skip by done; done].
  rewrite (allocate_projectStatus _ _ _ _ _ Hp), lookup_alter.
  case_decide; [|done]. subst. apply fmap_is_Some.
Qed.

Lemma allocate_hasEntry projectMap month st projectId pid m :
  hasEntry (State.projectStatus st) pid m →
  hasEntry (State.projectStatus (allocate projectMap month st projectId)) pid m.
Proof.
  intros (p & Hp & Hm).
  destruct (projectMap !! projectId) as [project|] eqn:Hpr;
    [|rewrite allocate_skip by done; by exists p].
  rewrite (allocate_projectStatus _ _ _ _ _ Hpr). unfold hasEntry.
  rewrite lookup_alter. case_decide; [|by exists p]. subst.
  rewrite Hp. simpl. eexists. split; [done|].
  rewrite writeMonth_lookup. case_decide; [eauto|done].
Qed.

Lemma allocate_writes projectMap month st projectId :
  is_Some (projectMap !! projectId) →
  is_Some (State.projectStatus st !! projectId) →
  hasEntry (State.projectStatus (allocate projectMap month st projectId))
           projectId month.
Proof.
  intros [project Hpr] [p Hp].
  rewrite (allocate_projectStatus _ _ _ _ _ Hpr). unfold hasEntry.
  rewrite lookup_alter_eq, Hp. simpl. eexists. split; [done|].
  rewrite writeMonth_lookup. rewrite decide_True by done. eauto.
Qed.

Lemma allocateMonth_dom projectMap priorityOrder st month pid :
  is_Some (State.projectStatus
             (allocateMonth projectMap priorityOrder st month) !! pid)
  ↔ is_Some (State.projectStatus st !! pid).
Proof.
  unfold allocateMonth. revert st.
  induction priorityOrder as [|x l IH]; intros st; [done|].
  simpl. by rewrite IH, allocate_dom.
Qed.

Lemma allocateMonth_hasEntry projectMap priorityOrder st month pid m :
  hasEntry (State.projectStatus st) pid m →
  hasEntry (State.projectStatus
              (allocateMonth projectMap priorityOrder st month)) pid m.
Proof.
  unfold allocateMonth. revert st.
  induction priorityOrder as [|x l IH]; intros st H; [done|].
  simpl. by apply IH, allocate_hasEntry.
Qed.

Lemma allocateMonth_writes projectMap priorityOrder st month pid :
  pid ∈ priorityOrder →
  is_Some (projectMap !! pid) →
  is_Some (State.projectStatus st !! pid) →
  hasEntry (State.projectStatus
              (allocateMonth projectMap priorityOrder st month)) pid month.
Proof.
  unfold allocateMonth. revert st.
  induction priorityOrder as [|x l IH]; intros st Hin Hpm Hps;
    [by apply elem_of_nil in Hin|].
  simpl. apply elem_of_cons in Hin as [->|Hin].
  - apply (allocateMonth_hasEntry _ l), allocate_writes; done.
  - apply IH; [done..|]. by apply allocate_dom.
Qed.

Lemma allocateAll_dom projectMap priorityOrder months st pid :
  is_Some (State.projectStatus
             (allocateAll projectMap priorityOrder months st) !! pid)
  ↔ is_Some (State.projectStatus st !! pid).
Proof.
  unfold allocateAll. revert st.
  induction months as [|x l IH]; intros st; [done|].
  simpl. by rewrite IH, allocateMonth_dom.
Qed.

Lemma allocateAll_hasEntry projectMap priorityOrder months st pid m :
  hasEntry (State.projectStatus st) pid m →
  hasEntry (State.projectStatus
              (allocateAll projectMap priorityOrder months st)) pid m.
Proof.
  unfold allocateAll. revert st.
  induction months as [|x l IH]; intros st H; [done|].
  simpl. by apply IH, allocateMonth_hasEntry.
Qed.

Lemma allocateAll_writes projectMap priorityOrder months st pid month :
  month ∈ months →
  pid ∈ priorityOrder →
  is_Some (projectMap !! pid) →
  is_Some (State.projectStatus st !! pid) →
  hasEntry (State.projectStatus
              (allocateAll projectMap priorityOrder months st)) pid month.
Proof.
  unfold allocateAll. revert st.
  induction months as [|x l IH]; intros st Hin Hpid Hpm Hps;
    [by apply elem_of_nil in Hin|].
  simpl. apply elem_of_cons in Hin as [->|Hin].
  - apply (allocateAll_hasEntry _ _ l), allocateMonth_writes; done.
  - apply IH; [done..|]. by apply allocateMonth_dom.
Qed.

(** ** Conservation of hours *)

Lemma summarize_monthlyStatus p :
  ProjectStatus.monthlyStatus (summarize p) = ProjectStatus.monthlyStatus p.
Proof. unfold summarize. by repeat case_match. Qed.

Lemma summarize_totalDeficit p :
  ProjectStatus.totalDeficit (summarize p) = ProjectStatus.totalDeficit p.
Proof. unfold summarize. by repeat case_match. Qed.

Lemma scenario_projectStatus now baseline projects priorityOrder virtuals
    shifts months :
  Result.projectStatus
    (calculateScenario now baseline projects priorityOrder virtuals shifts
       months)
  = summarize <$>
    State.projectStatus
      (allocateAll (scenarioProjects projects shifts months) priorityOrder
         months
         (initState (calculateEffectiveCapacity now baseline virtuals months)
            (scenarioProjects projects shifts months) priorityOrder months)).
Proof. reflexivity. Qed.

(** Conservation on integers.  In every run of [calculateScenario], for
    every id of the priority order that has a project record and every month
    of the month list, the month record written into [projectStatus] reports
    the project's shifted demand for that month (0 when the month is absent
    from it) and satisfies [allocated + deficit = demand]. *)
Lemma conservation_integers (now : nat → Z) baseline projects priorityOrder
    virtuals shifts months pid month project :
  pid ∈ priorityOrder →
  month ∈ months →
  buildProjectMap (applyTimelineShifts projects shifts months) !! pid
    = Some project →
  ∃ p ms,
    Result.projectStatus
      (calculateScenario now baseline projects priorityOrder virtuals shifts
         months) !! pid = Some p
    ∧ ProjectStatus.monthlyStatus p !! month = Some ms
    ∧ MonthStatus.demand ms
      = default 0 (Project.monthly_demand project !! month)
    ∧ MonthStatus.allocated ms + MonthStatus.deficit ms
      = MonthStatus.demand ms.
Proof.
  intros Hpid Hmonth Hproject. rewrite scenario_projectStatus.
  set (pm := scenarioProjects projects shifts months).
  set (st0 := initState _ pm priorityOrder months).
  assert (Hdom : is_Some (State.projectStatus st0 !! pid)).
  { apply initProjectStatus_dom. split; [done|]. by exists project. }
  destruct (allocateAll_writes pm priorityOrder months st0 pid month)
    as (p & Hp & ms & Hms); [done|done|by exists project|done|].
  assert (Hinv : statusInv pm (State.projectStatus
                   (allocateAll pm priorityOrder months st0))).
  { apply allocateAll_statusInv, initProjectStatus_inv. }
  destruct (Hinv _ _ Hp) as (project' & Hp' & Hrec).
  destruct (Hrec _ _ Hms) as [[Hsum _] Hdem].
  assert (project' = project) by (unfold pm, scenarioProjects in Hp'; congruence).
  subst project'.
  exists (summarize p), ms. rewrite lookup_fmap, Hp, summarize_monthlyStatus.
  by repeat split.
Qed.

(** ** Months do not interact *)

Lemma availableOf_at R k month :
  availableOf R k month = or_zero (mjoin (remainingAt R k month)).
Proof. unfold availableOf, remainingAt. by destruct (R !! k). Qed.

Lemma remainingStep_at projectMap month R projectId k m :
  remainingAt (remainingStep projectMap month R projectId) k m
  = match projectMap !! projectId with
    | Some project =>
        if decide (projectKey project = k ∧ month = m)
        then cellAfter (demandOf project month) <$> remainingAt R k m
        else remainingAt R k m
    | None => remainingAt R k m
    end.
Proof.
  unfold remainingStep, remainingAt.
  destruct (projectMap !! projectId) as [project|]; [|done].
  rewrite lookup_alter. case_decide as Hk.
  - subst k. destruct (R !! projectKey project) as [row|]; simpl.
    + rewrite lookup_partial_alter.
      repeat case_decide; intuition congruence.
    + by case_decide.
  - rewrite decide_False by tauto. done.
Qed.

Lemma allocate_recordAt projectMap month st projectId pid m :
  recordAt (State.projectStatus (allocate projectMap month st projectId)) pid m
  = match projectMap !! projectId with
    | Some project =>
        if decide (projectId = pid ∧ month = m)
        then (λ _, Some (outcome (demandOf project month)
                           (availableOf (State.remainingCapacity st)
                              (projectKey project) month)))
               <$> recordAt (State.projectStatus st) pid m
        else recordAt (State.projectStatus st) pid m
    | None => recordAt (State.projectStatus st) pid m
    end.
Proof.
  destruct (projectMap !! projectId) as [project|] eqn:Hp;
    [|by rewrite allocate_skip].
  rewrite (allocate_projectStatus _ _ _ _ _ Hp). unfold recordAt.
  rewrite lookup_alter. case_decide as Hk.
  - subst pid. destruct (State.projectStatus st !! projectId) as [p|]; simpl.
    + unfold writeMonth. simpl. rewrite lookup_insert.
      repeat case_decide; intuition congruence.
    + by case_decide.
  - rewrite decide_False by tauto. done.
Qed.

Lemma sameMonth_refl month st : sameMonth month st st.
Proof. by split. Qed.

Lemma sameMonth_trans month st1 st2 st3 :
  sameMonth month st1 st2 → sameMonth month st2 st3 → sameMonth month st1 st3.
Proof. intros [H1 H2] [H3 H4]. split; intros; etrans; eauto. Qed.

Lemma allocate_other_month projectMap month st projectId m :
  month ≠ m → sameMonth m (allocate projectMap month st projectId) st.
Proof.
  intros Hne. split.
  - intros k. rewrite allocate_remaining, remainingStep_at.
    destruct (projectMap !! projectId); [|done].
    rewrite decide_False by tauto. done.
  - intros pid. rewrite allocate_recordAt.
    destruct (projectMap !! projectId); [|done].
    rewrite decide_False by tauto. done.
Qed.

Lemma allocate_same_month projectMap month st1 st2 projectId :
  sameMonth month st1 st2 →
  sameMonth month (allocate projectMap month st1 projectId)
                  (allocate projectMap month st2 projectId).
Proof.
  intros [HR HP]. split.
  - intros k. rewrite !allocate_remaining, !remainingStep_at.
    destruct (projectMap !! projectId); [|done]. by rewrite HR.
  - intros pid. rewrite !allocate_recordAt.
    destruct (projectMap !! projectId); [|done].
    rewrite !availableOf_at, HR, HP. done.
Qed.

Lemma allocateMonth_other_month projectMap priorityOrder st month m :
  month ≠ m → sameMonth m (allocateMonth projectMap priorityOrder st month) st.
Proof.
  intros Hne. unfold allocateMonth. revert st.
  induction priorityOrder as [|x l IH]; intros st; [apply sameMonth_refl|].
  simpl. eapply sameMonth_trans; [apply IH|]. by apply allocate_other_month.
Qed.

Lemma allocateMonth_same_month projectMap priorityOrder st1 st2 month :
  sameMonth month st1 st2 →
  sameMonth month (allocateMonth projectMap priorityOrder st1 month)
                  (allocateMonth projectMap priorityOrder st2 month).
Proof.
  unfold allocateMonth. revert st1 st2.
  induction priorityOrder as [|x l IH]; intros st1 st2 H; [done|].
  simpl. by apply IH, allocate_same_month.
Qed.

Lemma allocateAll_other_months projectMap priorityOrder months st m :
  m ∉ months → sameMonth m (allocateAll projectMap priorityOrder months st) st.
Proof.
  unfold allocateAll. revert st.
  induction months as [|x l IH]; intros st Hn; [apply sameMonth_refl|].
  apply not_elem_of_cons in Hn as [Hne Hn].
  simpl. eapply sameMonth_trans; [by apply IH|].
  by apply allocateMonth_other_month.
Qed.

Lemma allocateAll_app projectMap priorityOrder before after st :
  allocateAll projectMap priorityOrder (before ++ after) st
  = allocateAll projectMap priorityOrder after
      (allocateAll projectMap priorityOrder before st).
Proof. apply foldl_app. Qed.

(** The records of a month are those of its own pass, run on any state
    that holds the same data for the month. *)
Lemma allocateAll_month projectMap priorityOrder before month after st st' :
  month ∉ before → month ∉ after →
  sameMonth month st st' →
  sameMonth month
    (allocateAll projectMap priorityOrder (before ++ month :: after) st)
    (allocateMonth projectMap priorityOrder st' month).
Proof.
  intros Hb Ha Hst. rewrite allocateAll_app.
  change (allocateAll projectMap priorityOrder (month :: after) ?s)
    with (allocateAll projectMap priorityOrder after
            (allocateMonth projectMap priorityOrder s month)).
  eapply sameMonth_trans; [by apply allocateAll_other_months|].
  apply allocateMonth_same_month.
  eapply sameMonth_trans; [by apply allocateAll_other_months|done].
Qed.

Lemma recordAt_bind PS1 PS2 pid month :
  recordAt PS1 pid month = recordAt PS2 pid month →
  PS1 !! pid ≫= (λ p, ProjectStatus.monthlyStatus p !! month)
  = PS2 !! pid ≫= (λ p, ProjectStatus.monthlyStatus p !! month).
Proof.
  unfold recordAt. destruct (PS1 !! pid), (PS2 !! pid); simpl; congruence.
Qed.

Lemma recordAt_summarize PS pid month :
  recordAt (summarize <$> PS) pid month = recordAt PS pid month.
Proof.
  unfold recordAt. rewrite lookup_fmap. destruct (PS !! pid); [|done].
  simpl. by rewrite summarize_monthlyStatus.
Qed.

(** C3, amended.  No cross-month banking.  For a month that occurs once in the month
    list: when its pass begins, the remaining capacity of every bucket for
    that month is the effective capacity for that month, whatever the earlier
    months consumed; and the month records of every project in the result are
    the ones that the pass of this month computes from the initial state, or
    from any state that holds the same capacity for this month, whatever it
    holds for the other months. *)
Theorem no_cross_month_banking (now : nat → Z) baseline projects priorityOrder
    virtuals shifts before month after :
  month ∉ before →
  month ∉ after →
  let months := before ++ month :: after in
  let eff := calculateEffectiveCapacity now baseline virtuals months in
  let pm := buildProjectMap (applyTimelineShifts projects shifts months) in
  let start := initState eff pm priorityOrder months in
  (∀ k,
     State.remainingCapacity (allocateAll pm priorityOrder before start) !! k
       ≫= (.!! month)
     = eff !! k ≫= (λ b, Num <$> Bucket.monthly_capacity b !! month))
  ∧ (∀ st pid,
       sameMonth month start st →
       Result.projectStatus
         (calculateScenario now baseline projects priorityOrder virtuals
            shifts months) !! pid
         ≫= (λ p, ProjectStatus.monthlyStatus p !! month)
       = State.projectStatus (allocateMonth pm priorityOrder st month) !! pid
           ≫= (λ p, ProjectStatus.monthlyStatus p !! month)).
Proof.
  intros Hb Ha months eff pm start. split.
  - intros k.
    destruct (allocateAll_other_months pm priorityOrder before start month Hb)
      as [HR _].
    specialize (HR k). unfold remainingAt in HR.
    transitivity (State.remainingCapacity start !! k ≫= (.!! month)).
    { destruct (State.remainingCapacity
                  (allocateAll pm priorityOrder before start) !! k),
        (State.remainingCapacity start !! k); simpl in *; congruence. }
    unfold start, initState, initRemaining. simpl. rewrite lookup_fmap.
    destruct (eff !! k); simpl; [|done]. by rewrite lookup_fmap.
  - intros st pid Hst. rewrite scenario_projectStatus. apply recordAt_bind.
    rewrite recordAt_summarize.
    by apply (allocateAll_month pm priorityOrder before month after start
                st Hb Ha Hst).
Qed.

Example surplus_does_not_carry :
  Result.projectStatus
    (calculateScenario (λ _, 0) [bucketSurplus] [projectRamp] ["p1"] [] ∅
       janFeb) !! "p1"
    ≫= (λ p, ProjectStatus.monthlyStatus p !! "Feb")
  = Some (MonthStatus.mk partial 80 50 30).
Proof. vm_compute. reflexivity. Qed.

Lemma no_cross_month_banking_witness :
  ("Feb" ∉ ["Jan"]) ∧ ("Feb" ∉ @nil string) ∧
  let months := ["Jan"] ++ "Feb" :: [] in
  let eff := calculateEffectiveCapacity (λ _, 0) [bucketSurplus] [] months in
  let pm := buildProjectMap (applyTimelineShifts [projectRamp] ∅ months) in
  let start := initState eff pm ["p1"] months in
  (∀ k,
     State.remainingCapacity (allocateAll pm ["p1"] ["Jan"] start) !! k
       ≫= (.!! "Feb")
     = eff !! k ≫= (λ b, Num <$> Bucket.monthly_capacity b !! "Feb"))
  ∧ (∀ st pid,
       sameMonth "Feb" start st →
       Result.projectStatus
         (calculateScenario (λ _, 0) [bucketSurplus] [projectRamp] ["p1"] []
            ∅ months) !! pid
         ≫= (λ p, ProjectStatus.monthlyStatus p !! "Feb")
       = State.projectStatus (allocateMonth pm ["p1"] st "Feb") !! pid
           ≫= (λ p, ProjectStatus.monthlyStatus p !! "Feb")).
Proof.
  assert (H1 : "Feb" ∉ ["Jan"]).
  { apply not_elem_of_cons. split; [discriminate|apply not_elem_of_nil]. }
  assert (H2 : "Feb" ∉ @nil string) by apply not_elem_of_nil.
  split; [exact H1|]. split; [exact H2|].
  exact (no_cross_month_banking (λ _, 0) [bucketSurplus] [projectRamp] ["p1"]
           [] ∅ ["Jan"] "Feb" [] H1 H2).
Defined.

(** A month that the month list repeats is banked: the second pass over
    January begins with the 40 hours that the first pass left of the 100,
    not with the effective capacity, and the record of the project in the
    result is the one of the second pass, not the one that a pass computes
    from the initial state. *)
Lemma repeated_month_is_banked :
  let months := ["Jan"; "Jan"] in
  let eff := calculateEffectiveCapacity (λ _, 0) [bucket100] [] months in
  let pm := buildProjectMap (applyTimelineShifts [demand60 "p1"] ∅ months) in
  let start := initState eff pm ["p1"] months in
  State.remainingCapacity (allocateAll pm ["p1"] ["Jan"] start)
    !! "digital|developer|london" ≫= (.!! "Jan") = Some (Num 40)
  ∧ eff !! "digital|developer|london"
      ≫= (λ b, Num <$> Bucket.monthly_capacity b !! "Jan") = Some (Num 100)
  ∧ Result.projectStatus
      (calculateScenario (λ _, 0) [bucket100] [demand60 "p1"] ["p1"] [] ∅
         months) !! "p1"
      ≫= (λ p, ProjectStatus.monthlyStatus p !! "Jan")
    = Some (MonthStatus.mk partial 60 40 20)
  ∧ State.projectStatus (allocateMonth pm ["p1"] start "Jan") !! "p1"
      ≫= (λ p, ProjectStatus.monthlyStatus p !! "Jan")
    = Some (MonthStatus.mk staffed 60 60 0).
Proof. vm_compute. repeat split; reflexivity. Qed.

(** ** Status summarizer *)

Lemma hasStatus_true s (monthlyStatus : gmap string MonthStatus.t) :
  hasStatus s monthlyStatus = true
  ↔ ∃ m ms, monthlyStatus !! m = Some ms ∧ MonthStatus.status ms = s.
Proof.
  unfold hasStatus. rewrite existsb_exists. split.
  - intros ([m ms] & Hin & Hs). exists m, ms.
    apply list_elem_of_In, elem_of_map_to_list in Hin.
    split; [done|]. by apply bool_decide_eq_true in Hs.
  - intros (m & ms & Hm & Hs). exists (m, ms). split.
    + by apply list_elem_of_In, elem_of_map_to_list.
    + by apply bool_decide_eq_true.
Qed.

Lemma hasStatus_false s (monthlyStatus : gmap string MonthStatus.t) :
  hasStatus s monthlyStatus = false
  ↔ ∀ m ms, monthlyStatus !! m = Some ms → MonthStatus.status ms ≠ s.
Proof.
  rewrite <- not_true_iff_false, hasStatus_true. split.
  - intros Hn m ms Hm Hs. apply Hn. eauto.
  - intros Hall (m & ms & Hm & Hs). by apply (Hall m ms).
Qed.

Lemma hasStatus_demanding s monthlyStatus :
  s ≠ none →
  hasStatus s (demandingMonths monthlyStatus) = hasStatus s monthlyStatus.
Proof.
  intros Hs. apply eq_true_iff_eq. rewrite !hasStatus_true.
  unfold demandingMonths. split; intros (m & ms & Hm & Hst); exists m, ms.
  - apply map_lookup_filter_Some in Hm as [Hm _]. done.
  - split; [|done]. apply map_lookup_filter_Some. split; [done|].
    simpl. congruence.
Qed.

Lemma summarize_overallStatus p :
  ProjectStatus.overallStatus (summarize p)
  = Some (if (hasStatus partial (ProjectStatus.monthlyStatus p)
              || hasStatus unstaffed (ProjectStatus.monthlyStatus p))
          then if hasStatus staffed (ProjectStatus.monthlyStatus p)
               then partial else unstaffed
          else staffed).
Proof. unfold summarize. by repeat case_match. Qed.

(** C8.  For every project entry of the result: the overall status is
    ['staffed'] exactly when every month with nonzero demand is ['staffed'];
    otherwise it is ['unstaffed'] exactly when no month is ['staffed'], which
    is to say that every month with nonzero demand is ['partial'] or
    ['unstaffed']; otherwise it is ['partial'].  The overall status is the one
    computed from the month records other than ['none'] alone. *)
Theorem overall_status_rule (now : nat → Z) baseline projects priorityOrder
    virtuals shifts months pid p :
  Result.projectStatus
    (calculateScenario now baseline projects priorityOrder virtuals shifts
       months) !! pid = Some p →
  let records := ProjectStatus.monthlyStatus p in
  let allStaffed :=
    ∀ m ms, records !! m = Some ms → MonthStatus.demand ms ≠ 0 →
            MonthStatus.status ms = staffed in
  let noneStaffed :=
    ∀ m ms, records !! m = Some ms → MonthStatus.status ms ≠ staffed in
  (ProjectStatus.overallStatus p = Some staffed ↔ allStaffed)
  ∧ (ProjectStatus.overallStatus p = Some unstaffed
     ↔ ¬ allStaffed ∧ noneStaffed)
  ∧ (ProjectStatus.overallStatus p = Some partial
     ↔ ¬ allStaffed ∧ ¬ noneStaffed)
  ∧ (noneStaffed
     ↔ ∀ m ms, records !! m = Some ms → MonthStatus.demand ms ≠ 0 →
               MonthStatus.status ms = partial
               ∨ MonthStatus.status ms = unstaffed)
  ∧ ProjectStatus.overallStatus p
    = ProjectStatus.overallStatus
        (summarize (withMonthlyStatus (demandingMonths records) p)).
Proof.
  rewrite scenario_projectStatus, lookup_fmap. intros Hp.
  apply fmap_Some in Hp as (p0 & Hp0 & ->).
  set (pm := scenarioProjects projects shifts months) in *.
  assert (Hinv : statusInv pm (State.projectStatus
            (allocateAll pm priorityOrder months
               (initState (calculateEffectiveCapacity now baseline virtuals
                             months) pm priorityOrder months)))).
  { apply allocateAll_statusInv, initProjectStatus_inv. }
  destruct (Hinv _ _ Hp0) as (project & _ & Hrec). clear Hinv Hp0.
  rewrite summarize_monthlyStatus. intros records allStaffed noneStaffed.
  assert (Hwf : ∀ m ms, records !! m = Some ms →
                (MonthStatus.status ms = none ↔ MonthStatus.demand ms = 0)).
  { intros m ms Hm. by destruct (Hrec m ms Hm) as [[_ ?] _]. }
  assert (HU : hasStatus partial records || hasStatus unstaffed records = false
               ↔ allStaffed).
  { rewrite orb_false_iff, !hasStatus_false. split.
    - intros [H1 H2] m ms Hm Hd. specialize (H1 m ms Hm).
      specialize (H2 m ms Hm). specialize (Hwf m ms Hm).
      destruct (MonthStatus.status ms); tauto.
    - intros Hall. split; intros m ms Hm Hs; specialize (Hwf m ms Hm);
        assert (Hd : MonthStatus.demand ms ≠ 0)
          by (intros Hd; apply Hwf in Hd; congruence);
        specialize (Hall m ms Hm Hd); congruence. }
  assert (HS : hasStatus staffed records = false ↔ noneStaffed)
    by apply hasStatus_false.
  assert (Hov := summarize_overallStatus p0). fold records in Hov.
  assert (Hov' := summarize_overallStatus
                    (withMonthlyStatus (demandingMonths records)
                       (summarize p0))).
  simpl in Hov'. rewrite !hasStatus_demanding in Hov' by done.
  split; [|split; [|split; [|split]]].
  - rewrite Hov, <- HU.
    destruct (hasStatus partial records || hasStatus unstaffed records),
      (hasStatus staffed records); intuition congruence.
  - rewrite Hov, <- HU, <- HS.
    destruct (hasStatus partial records || hasStatus unstaffed records),
      (hasStatus staffed records); intuition congruence.
  - rewrite Hov, <- HU, <- HS.
    destruct (hasStatus partial records || hasStatus unstaffed records),
      (hasStatus staffed records); intuition congruence.
  - split.
    + intros Hn m ms Hm Hd. specialize (Hn m ms Hm). specialize (Hwf m ms Hm).
      destruct (MonthStatus.status ms); tauto.
    + intros Hn m ms Hm Hs. specialize (Hwf m ms Hm).
      assert (MonthStatus.demand ms ≠ 0).
      { intros Hd. apply Hwf in Hd. congruence. }
      destruct (Hn m ms Hm H); congruence.
  - rewrite Hov. symmetry. exact Hov'.
Qed.

Lemma overall_status_rule_witness :
  Result.projectStatus worked !! "p2" = Some workedP2 ∧
  let records := ProjectStatus.monthlyStatus workedP2 in
  let allStaffed :=
    ∀ m ms, records !! m = Some ms → MonthStatus.demand ms ≠ 0 →
            MonthStatus.status ms = staffed in
  let noneStaffed :=
    ∀ m ms, records !! m = Some ms → MonthStatus.status ms ≠ staffed in
  (ProjectStatus.overallStatus workedP2 = Some staffed ↔ allStaffed)
  ∧ (ProjectStatus.overallStatus workedP2 = Some unstaffed
     ↔ ¬ allStaffed ∧ noneStaffed)
  ∧ (ProjectStatus.overallStatus workedP2 = Some partial
     ↔ ¬ allStaffed ∧ ¬ noneStaffed)
  ∧ (noneStaffed
     ↔ ∀ m ms, records !! m = Some ms → MonthStatus.demand ms ≠ 0 →
               MonthStatus.status ms = partial
               ∨ MonthStatus.status ms = unstaffed)
  ∧ ProjectStatus.overallStatus workedP2
    = ProjectStatus.overallStatus
        (summarize (withMonthlyStatus (demandingMonths records) workedP2)).
Proof.
  assert (H : Result.projectStatus worked !! "p2" = Some workedP2).
  { vm_compute. reflexivity. }
  split; [exact H|].
  exact (overall_status_rule (λ _, 0) [bucket100]
           [demand60 "p1"; demand60 "p2"] ["p1"; "p2"] [] ∅ jan "p2"
           workedP2 H).
Defined.

(** ** Bucket keys *)

Lemma toLowerCase_app a b :
  toLowerCase (a +:+ b) = toLowerCase a +:+ toLowerCase b.
Proof. induction a as [|c a IH]; simpl; [done|]. by rewrite IH. Qed.

Lemma lower_ascii_bar c : lower_ascii c = bar ↔ c = bar.
Proof.
  destruct c as [[] [] [] [] [] [] [] []]; vm_compute; split; congruence.
Qed.

Lemma has_bar_lower s : has_bar (toLowerCase s) = has_bar s.
Proof.
  induction s as [|c s IH]; simpl; [done|]. rewrite IH. f_equal.
  apply bool_decide_ext, lower_ascii_bar.
Qed.

Lemma split_at_bar a a' b b' :
  has_bar a = false → has_bar a' = false →
  a +:+ String bar b = a' +:+ String bar b' → a = a' ∧ b = b'.
Proof.
  revert a'. induction a as [|c a IH]; intros [|c' a']; simpl.
  - intros _ _ [= ->]. done.
  - intros _ [Hc _]%orb_false_iff [= <- _].
    by apply bool_decide_eq_false in Hc.
  - intros [Hc _]%orb_false_iff _ [= -> _].
    by apply bool_decide_eq_false in Hc.
  - intros [_ Ha]%orb_false_iff [_ Ha']%orb_false_iff [= -> Heq].
    destruct (IH a' Ha Ha' Heq) as [-> ->]. done.
Qed.

Lemma getBucketKey_parts team role location :
  getBucketKey team role location
  = toLowerCase team +:+ String bar
      (toLowerCase role +:+ String bar (toLowerCase location)).
Proof. unfold getBucketKey. by rewrite !toLowerCase_app. Qed.

(** The claim as stated fails: two triples that differ in letter case only
    get the same key. *)
Lemma bucket_key_not_injective :
  ¬ (∀ team role location team' role' location',
       (team, role, location) ≠ (team', role', location') →
       getBucketKey team role location ≠ getBucketKey team' role' location').
Proof.
  intros H.
  apply (H "Digital" "UX Designer" "London" "digital" "ux designer" "london");
    [discriminate|reflexivity].
Qed.

(** C7, amended.  [getBucketKey] is defined on every triple of strings, and
    on triples whose team and role contain no ['|'] it identifies exactly the
    triples that are equal up to letter case. *)
Theorem bucket_key_injective_up_to_case team role location
    team' role' location' :
  has_bar team = false → has_bar role = false →
  has_bar team' = false → has_bar role' = false →
  getBucketKey team role location = getBucketKey team' role' location'
  ↔ toLowerCase team = toLowerCase team'
    ∧ toLowerCase role = toLowerCase role'
    ∧ toLowerCase location = toLowerCase location'.
Proof.
  intros Ht Hr Ht' Hr'. rewrite !getBucketKey_parts. split.
  - intros Heq.
    apply split_at_bar in Heq as [H1 Heq]; [|by rewrite has_bar_lower..].
    apply split_at_bar in Heq as [H2 H3]; [|by rewrite has_bar_lower..].
    done.
  - by intros (-> & -> & ->).
Qed.

Lemma bucket_key_injective_up_to_case_witness :
  has_bar "Digital" = false ∧ has_bar "Developer" = false ∧
  has_bar "digital" = false ∧ has_bar "developer" = false ∧
  (getBucketKey "Digital" "Developer" "Pune"
   = getBucketKey "digital" "developer" "pune"
   ↔ toLowerCase "Digital" = toLowerCase "digital"
     ∧ toLowerCase "Developer" = toLowerCase "developer"
     ∧ toLowerCase "Pune" = toLowerCase "pune").
Proof.
  repeat (split; [reflexivity|]).
  apply (bucket_key_injective_up_to_case "Digital" "Developer" "Pune"
           "digital" "developer" "pune"); reflexivity.
Defined.

(** ** Capacity aggregator *)

Lemma foldl_setHours hours cap months m :
  foldl (setHours hours) cap months !! m
  = if decide (m ∈ months) then Some hours else cap !! m.
Proof.
  revert cap. induction months as [|x l IH]; intros cap; cbn [foldl].
  - case_decide as Hm; [by apply elem_of_nil in Hm|done].
  - rewrite IH. unfold setHours. destruct (decide (m ∈ l)) as [Hl|Hl].
    + rewrite decide_True by (by right). done.
    + rewrite lookup_insert. destruct (decide (x = m)) as [->|Hne].
      * rewrite decide_True by (by left). done.
      * rewrite decide_False; [done|]. by intros [->|?]%elem_of_cons.
Qed.

Lemma foldl_addHours hours cap months m :
  NoDup months →
  foldl (addHours hours) cap months !! m
  = if decide (m ∈ months) then Some (default 0 (cap !! m) + hours)
    else cap !! m.
Proof.
  intros Hnd. revert cap.
  induction Hnd as [|x l Hx Hnd IH]; intros cap; cbn [foldl].
  - case_decide as Hm; [by apply elem_of_nil in Hm|done].
  - rewrite IH. unfold addHours. destruct (decide (m ∈ l)) as [Hl|Hl].
    + rewrite decide_True by (by right).
      rewrite lookup_insert_ne by (by intros ->). done.
    + rewrite lookup_insert. destruct (decide (x = m)) as [->|Hne].
      * rewrite decide_True by (by left). done.
      * rewrite decide_False; [done|]. by intros [->|?]%elem_of_cons.
Qed.

Lemma addVirtual_other now months eff ticks r k :
  resourceKey r ≠ k →
  (addVirtual now months (eff, ticks) r).1 !! k = eff !! k.
Proof.
  intros Hne. unfold addVirtual.
  destruct (eff !! resourceKey r); simpl; by rewrite lookup_insert_ne.
Qed.

Lemma addVirtual_pair now months st r :
  addVirtual now months st r
  = ((addVirtual now months st r).1, (addVirtual now months st r).2).
Proof. by destruct (addVirtual now months st r). Qed.

(** A bucket that is in the table keeps its identity; every virtual
    resource of its key adds its hours to every listed month. *)
Lemma addVirtual_existing now months virtuals eff ticks k b :
  NoDup months →
  eff !! k = Some b →
  ∃ b', (foldl (addVirtual now months) (eff, ticks) virtuals).1 !! k = Some b'
    ∧ Bucket.id b' = Bucket.id b
    ∧ Bucket.team b' = Bucket.team b
    ∧ Bucket.role b' = Bucket.role b
    ∧ Bucket.location b' = Bucket.location b
    ∧ Bucket.isVirtual b' = Bucket.isVirtual b
    ∧ (∀ m, m ∈ months →
         default 0 (Bucket.monthly_capacity b' !! m)
         = default 0 (Bucket.monthly_capacity b !! m) + virtualHours k virtuals)
    ∧ (∀ m, is_Some (Bucket.monthly_capacity b !! m) →
            is_Some (Bucket.monthly_capacity b' !! m))
    ∧ (∀ m, m ∉ months →
            Bucket.monthly_capacity b' !! m = Bucket.monthly_capacity b !! m).
Proof.
  intros Hnd. revert eff ticks b.
  induction virtuals as [|r rest IH]; intros eff ticks b Hb; cbn [foldl].
  - exists b. repeat split; try done. intros. simpl. lia.
  - rewrite addVirtual_pair. cbn [virtualHours].
    destruct (decide (resourceKey r = k)) as [Hk|Hk].
    + set (b1 := Bucket.with_capacity b
                   (foldl (addHours (hoursToAdd r))
                      (Bucket.monthly_capacity b) months)).
      assert (H1 : (addVirtual now months (eff, ticks) r).1 !! k = Some b1).
      { unfold addVirtual. rewrite Hk, Hb. simpl. apply lookup_insert_eq. }
      destruct (IH _ (addVirtual now months (eff, ticks) r).2 _ H1)
        as (b' & Hb' & ? & ? & ? & ? & ? & Hcap & Hsome & Hout).
      exists b'. repeat split; try done.
      * intros m Hm. rewrite (Hcap m Hm). unfold b1. simpl.
        rewrite foldl_addHours by done. rewrite decide_True by done.
        simpl. lia.
      * intros m Hm. apply Hsome. unfold b1. simpl.
        rewrite foldl_addHours by done. case_decide; [eauto|done].
      * intros m Hm. rewrite (Hout m Hm). unfold b1. simpl.
        rewrite foldl_addHours by done. by rewrite decide_False.
    + apply IH. by rewrite addVirtual_other.
Qed.

(** A key that is not in the table gets a bucket from the first virtual
    resource of that key; the later ones add to it. *)
Lemma addVirtual_synthesized now months virtuals eff ticks k :
  NoDup months →
  eff !! k = None →
  (∃ r, r ∈ virtuals ∧ resourceKey r = k) →
  ∃ b', (foldl (addVirtual now months) (eff, ticks) virtuals).1 !! k = Some b'
    ∧ Bucket.isVirtual b' = true
    ∧ (∀ m, m ∈ months →
         Bucket.monthly_capacity b' !! m = Some (virtualHours k virtuals))
    ∧ (∀ m, m ∉ months → Bucket.monthly_capacity b' !! m = None).
Proof.
  intros Hnd. revert eff ticks.
  induction virtuals as [|r rest IH]; intros eff ticks Hnone (r0 & Hin & Hr0).
  { by apply elem_of_nil in Hin. }
  cbn [foldl virtualHours]. rewrite addVirtual_pair.
  destruct (decide (resourceKey r = k)) as [Hk|Hk].
  - set (b1 := Bucket.mk ("virtual_" +:+ pretty (now ticks))
                 (Resource.team r) (Resource.role r) (Resource.location r)
                 (foldl (setHours (hoursToAdd r)) ∅ months) true).
    assert (H1 : (addVirtual now months (eff, ticks) r).1 !! k = Some b1).
    { unfold addVirtual. rewrite Hk, Hnone. simpl. apply lookup_insert_eq. }
    destruct (addVirtual_existing now months rest _
                (addVirtual now months (eff, ticks) r).2 k b1 Hnd H1)
      as (b' & Hb' & _ & _ & _ & _ & Hv & Hcap & Hsome & Hout).
    exists b'. repeat split; try done.
    + intros m Hm. specialize (Hcap m Hm). unfold b1 in Hcap. simpl in Hcap.
      rewrite foldl_setHours, decide_True in Hcap by done. simpl in Hcap.
      destruct (Hsome m) as [x Hx].
      { unfold b1. simpl. rewrite foldl_setHours, decide_True by done. eauto. }
      rewrite Hx in *. simpl in Hcap. by rewrite Hcap.
    + intros m Hm. rewrite (Hout m Hm). unfold b1. simpl.
      rewrite foldl_setHours, decide_False by done. apply lookup_empty.
  - apply elem_of_cons in Hin as [->|Hin]; [done|].
    apply IH; [by rewrite addVirtual_other|eauto].
Qed.

(** The claim as stated fails: a virtual resource with [hoursPerMonth = 0]
    gets 160 hours in every month. *)
Lemma zero_hours_default_160 :
  Resource.hoursPerMonth zeroHire = Some 0
  ∧ calculateEffectiveCapacity (λ _, 0) [] [zeroHire] jan
      !! resourceKey zeroHire
      ≫= (λ b, Bucket.monthly_capacity b !! "Jan") = Some 160.
Proof. split; [reflexivity|]. vm_compute. reflexivity. Qed.

(** C5, amended.  With the month labels distinct, and the hours of a virtual
    resource being its [hoursPerMonth], or 160 when that is 0 or missing:
    a key with a baseline bucket keeps that bucket's identity and, in every
    listed month, its capacity is the baseline capacity plus the hours of
    all virtual resources of that key; a key without a baseline bucket that
    some virtual resource has gets a bucket with [isVirtual = true] whose
    capacity, in every listed month, is the sum of the hours of all virtual
    resources of that key. *)
Theorem effective_capacity_contract (now : nat → Z) baseline virtuals months
    key :
  NoDup months →
  let eff := calculateEffectiveCapacity now baseline virtuals months in
  (∀ b, baselineTable baseline !! key = Some b →
     ∃ b', eff !! key = Some b'
       ∧ Bucket.id b' = Bucket.id b
       ∧ Bucket.isVirtual b' = Bucket.isVirtual b
       ∧ ∀ m, m ∈ months →
           default 0 (Bucket.monthly_capacity b' !! m)
           = default 0 (Bucket.monthly_capacity b !! m)
             + virtualHours key virtuals)
  ∧ (baselineTable baseline !! key = None →
     (∃ r, r ∈ virtuals ∧ resourceKey r = key) →
     ∃ b', eff !! key = Some b'
       ∧ Bucket.isVirtual b' = true
       ∧ ∀ m, m ∈ months →
           Bucket.monthly_capacity b' !! m = Some (virtualHours key virtuals)).
Proof.
  intros Hnd eff. unfold eff, calculateEffectiveCapacity. split.
  - intros b Hb.
    destruct (addVirtual_existing now months virtuals _ 0%nat key b Hnd Hb)
      as (b' & Hb' & ? & _ & _ & _ & ? & Hcap & _).
    exists b'. by repeat split.
  - intros Hnone Hex.
    destruct (addVirtual_synthesized now months virtuals _ 0%nat key Hnd
                Hnone Hex) as (b' & Hb' & ? & Hcap & _).
    exists b'. by repeat split.
Qed.

Example two_hires_accumulate :
  calculateEffectiveCapacity (λ _, 0) [bucket100] twoHires janFeb
    !! "digital|developer|london"
    ≫= (λ b, Bucket.monthly_capacity b !! "Jan") = Some 160.
Proof. vm_compute. reflexivity. Qed.

Lemma effective_capacity_contract_witness :
  NoDup janFeb ∧
  let key := "digital|developer|london" in
  let eff := calculateEffectiveCapacity (λ _, 0) [bucket100] twoHires janFeb in
  (∀ b, baselineTable [bucket100] !! key = Some b →
     ∃ b', eff !! key = Some b'
       ∧ Bucket.id b' = Bucket.id b
       ∧ Bucket.isVirtual b' = Bucket.isVirtual b
       ∧ ∀ m, m ∈ janFeb →
           default 0 (Bucket.monthly_capacity b' !! m)
           = default 0 (Bucket.monthly_capacity b !! m)
             + virtualHours key twoHires)
  ∧ (baselineTable [bucket100] !! key = None →
     (∃ r, r ∈ twoHires ∧ resourceKey r = key) →
     ∃ b', eff !! key = Some b'
       ∧ Bucket.isVirtual b' = true
       ∧ ∀ m, m ∈ janFeb →
           Bucket.monthly_capacity b' !! m = Some (virtualHours key twoHires)).
Proof.
  assert (H : NoDup janFeb).
  { apply NoDup_cons. split.
    - apply not_elem_of_cons. split; [discriminate|apply not_elem_of_nil].
    - apply NoDup_singleton. }
  split; [exact H|].
  exact (effective_capacity_contract (λ _, 0) [bucket100] twoHires janFeb
           "digital|developer|london" H).
Defined.

(** ** Demand shifter *)

Lemma shiftEntry_eq months shift month hours shiftedDemand :
  shiftEntry months shift month hours shiftedDemand
  = match destination months shift month with
    | Some newMonth =>
        <[newMonth := default 0 (shiftedDemand !! newMonth) + hours]>
          shiftedDemand
    | None => shiftedDemand
    end.
Proof.
  unfold shiftEntry, destination.
  destruct (monthIndex months !! month) as [i|]; simpl; [|done].
  case_decide; [|done]. by destruct (months !! Z.to_nat (Z.of_nat i + shift)).
Qed.

Lemma sumHours_empty : sumHours ∅ = 0.
Proof. apply map_fold_empty. Qed.

Lemma sumHours_insert (hours : gmap string Z) k h :
  hours !! k = None → sumHours (<[k := h]> hours) = h + sumHours hours.
Proof.
  intros Hk. unfold sumHours. apply map_fold_insert_L; [|done].
  intros. lia.
Qed.

Lemma landing_insert months shift newMonth demand k h :
  demand !! k = None →
  landing months shift newMonth (<[k := h]> demand)
  = if decide (destination months shift k = Some newMonth)
    then <[k := h]> (landing months shift newMonth demand)
    else landing months shift newMonth demand.
Proof.
  intros Hk. unfold landing. case_decide as Hd.
  - by rewrite map_filter_insert_True.
  - rewrite map_filter_insert_not; [done|]. simpl. by intros _.
Qed.

(** The shifted demand of a month is the sum of the entries that land on it;
    the month is absent when none does. *)
Lemma shiftDemand_lookup months shift demand newMonth :
  shiftDemand months shift demand !! newMonth
  = if decide (landing months shift newMonth demand = ∅) then None
    else Some (sumHours (landing months shift newMonth demand)).
Proof.
  unfold shiftDemand. revert newMonth.
  pose (P := λ (acc m : gmap string Z), ∀ newMonth,
          acc !! newMonth
          = if decide (landing months shift newMonth m = ∅) then None
            else Some (sumHours (landing months shift newMonth m))).
  change (P (map_fold (shiftEntry months shift) ∅ demand) demand).
  apply map_fold_weak_ind; unfold P; clear P.
  - intros nm. unfold landing. rewrite map_filter_empty.
    case_decide; [apply lookup_empty|done].
  - intros k h m acc Hk IH nm. rewrite shiftEntry_eq, landing_insert by done.
    destruct (destination months shift k) as [dest|] eqn:Hd.
    + rewrite lookup_insert. destruct (decide (dest = nm)) as [->|Hne].
      * destruct (decide (Some nm = Some nm)) as [_|?]; [|done].
        rewrite decide_False by apply insert_non_empty.
        rewrite sumHours_insert.
        2:{ unfold landing. apply map_lookup_filter_None. by left. }
        rewrite IH. case_decide as He.
        -- rewrite He, sumHours_empty. simpl. f_equal. lia.
        -- simpl. f_equal. lia.
      * destruct (decide (Some dest = Some nm)) as [?|_]; [congruence|].
        apply IH.
    + destruct (decide (None = Some nm)) as [?|_]; [done|]. apply IH.
Qed.

Lemma landing_delete months shift newMonth demand month :
  destination months shift month ≠ Some newMonth →
  landing months shift newMonth (delete month demand)
  = landing months shift newMonth demand.
Proof.
  intros Hd. unfold landing. rewrite map_filter_delete.
  apply delete_id, map_lookup_filter_None. right. intros h _. exact Hd.
Qed.

(** An entry without a destination does not show in the shifted demand. *)
Lemma shiftDemand_delete months shift demand month :
  destination months shift month = None →
  shiftDemand months shift (delete month demand)
  = shiftDemand months shift demand.
Proof.
  intros Hd. apply map_eq. intros nm. rewrite !shiftDemand_lookup.
  rewrite landing_delete; [done|]. by rewrite Hd.
Qed.

Lemma shiftEntry_comm months shift k1 h1 k2 h2 acc :
  shiftEntry months shift k1 h1 (shiftEntry months shift k2 h2 acc)
  = shiftEntry months shift k2 h2 (shiftEntry months shift k1 h1 acc).
Proof.
  rewrite !shiftEntry_eq.
  destruct (destination months shift k1) as [d1|],
    (destination months shift k2) as [d2|]; try done.
  apply map_eq. intros j. rewrite !lookup_insert.
  repeat case_decide; subst; simpl; try done; try congruence.
  f_equal. lia.
Qed.

Lemma foldl_shiftEntry months shift entries acc :
  foldl (λ shifted e, shiftEntry months shift e.1 e.2 shifted) acc entries
  = foldr (uncurry (shiftEntry months shift)) acc entries.
Proof.
  revert acc. induction entries as [|[k h] l IH]; intros acc; [done|].
  cbn [foldl foldr]. rewrite IH. simpl.
  apply (foldr_comm_acc _ (shiftEntry months shift k h)).
  intros [k' h'] y. apply shiftEntry_comm.
Qed.

(** [Object.entries] lists the entries in insertion order; the loop gives
    the same shifted demand in whatever order it visits them. *)
Lemma shiftDemand_any_order months shift demand entries :
  entries ≡ₚ map_to_list demand →
  foldl (λ shifted e, shiftEntry months shift e.1 e.2 shifted) ∅ entries
  = shiftDemand months shift demand.
Proof.
  intros Hperm. unfold shiftDemand.
  rewrite map_fold_foldr, foldl_shiftEntry.
  assert (Hcomm : ∀ e1 e2 acc,
            uncurry (shiftEntry months shift) e1
              (uncurry (shiftEntry months shift) e2 acc)
            = uncurry (shiftEntry months shift) e2
                (uncurry (shiftEntry months shift) e1 acc)).
  { intros [k1 h1] [k2 h2] acc. apply shiftEntry_comm. }
  exact (foldr_permutation_proper (=) _ ∅ Hcomm _ _ Hperm).
Qed.

Lemma shiftProject_shifted shifts months project shift :
  shifts !! Project.id project = Some shift → shift ≠ 0 →
  shiftProject shifts months project
  = Project.mk (Project.id project) (Project.name project)
      (Project.team project) (Project.role project) (Project.location project)
      (shiftDemand months shift (Project.monthly_demand project))
      (Project.total_demand project) (Some shift).
Proof. intros Hs Hne. unfold shiftProject. by rewrite Hs, decide_False. Qed.

Lemma shiftProject_dropEntry shifts months project shift month :
  shifts !! Project.id project = Some shift → shift ≠ 0 →
  destination months shift month = None →
  shiftProject shifts months (dropEntry month project)
  = shiftProject shifts months project.
Proof.
  intros Hs Hne Hd.
  rewrite (shiftProject_shifted _ _ _ shift), (shiftProject_shifted _ _ _ shift)
    by done.
  simpl. by rewrite shiftDemand_delete.
Qed.

Lemma applyTimelineShifts_dropEntry shifts months before project after shift
    month :
  shifts !! Project.id project = Some shift → shift ≠ 0 →
  destination months shift month = None →
  applyTimelineShifts (before ++ dropEntry month project :: after) shifts months
  = applyTimelineShifts (before ++ project :: after) shifts months.
Proof.
  intros Hs Hne Hd. unfold applyTimelineShifts.
  rewrite !map_app. cbn [map].
  by rewrite (shiftProject_dropEntry _ _ _ shift).
Qed.

Lemma scenario_dropEntry now baseline before project after priorityOrder
    virtuals shifts months shift month :
  shifts !! Project.id project = Some shift → shift ≠ 0 →
  destination months shift month = None →
  calculateScenario now baseline (before ++ dropEntry month project :: after)
    priorityOrder virtuals shifts months
  = calculateScenario now baseline (before ++ project :: after)
      priorityOrder virtuals shifts months.
Proof.
  intros Hs Hne Hd. unfold calculateScenario.
  by rewrite (applyTimelineShifts_dropEntry _ _ _ _ _ shift).
Qed.

Lemma destination_out_of_window months shift month i :
  monthIndex months !! month = Some i →
  ¬ (0 ≤ Z.of_nat i + shift ∧ Z.of_nat i + shift < Z.of_nat (length months)) →
  destination months shift month = None.
Proof.
  intros Hi Hout. unfold destination. rewrite Hi. simpl.
  by rewrite decide_False.
Qed.

Example shifted_past_the_end :
  Project.monthly_demand <$>
    (applyTimelineShifts [projectRamp] shiftRamp janFeb !! 0%nat)
  = Some {["Feb" := 10]}.
Proof. vm_compute. reflexivity. Qed.

(** C6.  Lossy shift at the boundary.  For a project shifted by a nonzero
    [shift]: a demand entry whose month has index [i] with [i + shift]
    outside the window leaves no trace, the whole result of the run is the
    one obtained without that entry; and the shifted demand of every month is
    the sum of all entries that land on it (absent when none does). *)
Theorem lossy_shift (now : nat → Z) baseline before project after
    priorityOrder virtuals shifts months shift :
  shifts !! Project.id project = Some shift →
  shift ≠ 0 →
  (∀ month i,
     monthIndex months !! month = Some i →
     ¬ (0 ≤ Z.of_nat i + shift
        ∧ Z.of_nat i + shift < Z.of_nat (length months)) →
     calculateScenario now baseline (before ++ project :: after)
       priorityOrder virtuals shifts months
     = calculateScenario now baseline
         (before ++ dropEntry month project :: after)
         priorityOrder virtuals shifts months)
  ∧ (∀ newMonth,
       Project.monthly_demand (shiftProject shifts months project) !! newMonth
       = if decide (landing months shift newMonth
                      (Project.monthly_demand project) = ∅)
         then None
         else Some (sumHours (landing months shift newMonth
                                (Project.monthly_demand project)))).
Proof.
  intros Hs Hne. split.
  - intros month i Hi Hout. symmetry.
    apply (scenario_dropEntry _ _ _ _ _ _ _ _ _ shift); [done..|].
    by apply (destination_out_of_window _ _ _ i).
  - intros newMonth. rewrite (shiftProject_shifted _ _ _ shift) by done.
    simpl. apply shiftDemand_lookup.
Qed.

Lemma lossy_shift_witness :
  shiftRamp !! Project.id projectRamp = Some 1 ∧ 1 ≠ 0 ∧
  (∀ month i,
     monthIndex janFeb !! month = Some i →
     ¬ (0 ≤ Z.of_nat i + 1 ∧ Z.of_nat i + 1 < Z.of_nat (length janFeb)) →
     calculateScenario (λ _, 0) [bucketSurplus] ([] ++ projectRamp :: [])
       ["p1"] [] shiftRamp janFeb
     = calculateScenario (λ _, 0) [bucketSurplus]
         ([] ++ dropEntry month projectRamp :: [])
         ["p1"] [] shiftRamp janFeb)
  ∧ (∀ newMonth,
       Project.monthly_demand (shiftProject shiftRamp janFeb projectRamp)
         !! newMonth
       = if decide (landing janFeb 1 newMonth
                      (Project.monthly_demand projectRamp) = ∅)
         then None
         else Some (sumHours (landing janFeb 1 newMonth
                                (Project.monthly_demand projectRamp)))).
Proof.
  assert (H1 : shiftRamp !! Project.id projectRamp = Some 1).
  { vm_compute. reflexivity. }
  assert (H2 : 1 ≠ 0) by lia.
  split; [exact H1|]. split; [exact H2|].
  exact (lossy_shift (λ _, 0) [bucketSurplus] [] projectRamp [] ["p1"] []
           shiftRamp janFeb 1 H1 H2).
Defined.

(** ** Months outside the month list *)

Lemma addMonthIndex_fold months index idx month :
  is_Some ((foldl addMonthIndex (index, idx) months).1 !! month)
  ↔ month ∈ months ∨ is_Some (index !! month).
Proof.
  revert index idx. induction months as [|x l IH]; intros index idx; simpl.
  - rewrite elem_of_nil. tauto.
  - rewrite IH, elem_of_cons, lookup_insert. case_decide.
    + subst. split; eauto.
    + split; [tauto|]. intros [[->|?]|?]; tauto.
Qed.

Lemma monthIndex_is_Some months month :
  is_Some (monthIndex months !! month) ↔ month ∈ months.
Proof.
  unfold monthIndex. rewrite addMonthIndex_fold, lookup_empty.
  split; [|tauto]. intros [?|[? ?]]; done.
Qed.

Lemma destination_unlisted months shift month :
  month ∉ months → destination months shift month = None.
Proof.
  intros Hn. unfold destination.
  destruct (monthIndex months !! month) as [i|] eqn:Hi; [|done].
  exfalso. apply Hn, monthIndex_is_Some. eauto.
Qed.

Lemma destination_listed months shift month newMonth :
  destination months shift month = Some newMonth → newMonth ∈ months.
Proof.
  unfold destination. destruct (monthIndex months !! month) as [i|]; [|done].
  simpl. case_decide; [|done]. apply list_elem_of_lookup_2.
Qed.

Lemma shiftDemand_unlisted months shift demand month :
  month ∉ months → shiftDemand months shift demand !! month = None.
Proof.
  intros Hn. rewrite shiftDemand_lookup. rewrite decide_True; [done|].
  apply map_empty_filter. intros k h _ Hd. simpl in Hd.
  by apply destination_listed in Hd.
Qed.

Example stray_entry_kept :
  applyTimelineShifts [projectStray] ∅ jan !! 0%nat
    ≫= (λ p, Project.monthly_demand p !! "Dec") = Some 7.
Proof. vm_compute. reflexivity. Qed.

Example stray_entry_dropped :
  applyTimelineShifts [projectStray] {["p1" := -1]} janFeb !! 0%nat
    ≫= (λ p, Project.monthly_demand p !! "Dec") = None.
Proof. vm_compute. reflexivity. Qed.

(** C10.  A project whose shift is absent or 0 is returned as it is, so its
    demand entries under labels outside the month list are kept; for a
    nonzero shift, the rewritten demand has no entry under a label outside
    the month list, and an entry under such a label contributes nothing to
    it. *)
Theorem shift_keeps_or_drops_unlisted_months before project after shifts
    months :
  let shifted := applyTimelineShifts (before ++ project :: after) shifts
                   months in
  ((shifts !! Project.id project = None
    ∨ shifts !! Project.id project = Some 0) →
   shifted !! length before = Some project)
  ∧ (∀ shift, shifts !! Project.id project = Some shift → shift ≠ 0 →
       ∃ project',
         shifted !! length before = Some project'
         ∧ ∀ month, month ∉ months →
             Project.monthly_demand project' !! month = None
             ∧ project' = shiftProject shifts months (dropEntry month project)).
Proof.
  intros shifted.
  assert (Hat : shifted !! length before
                = Some (shiftProject shifts months project)).
  { unfold shifted, applyTimelineShifts. rewrite map_app. cbn [map].
    rewrite lookup_app_r by (by rewrite length_map).
    by rewrite length_map, Nat.sub_diag. }
  split.
  - intros Hs. rewrite Hat. f_equal. unfold shiftProject.
    destruct Hs as [-> | ->]; [done|]. by rewrite decide_True.
  - intros shift Hs Hne. eexists. split; [exact Hat|].
    intros month Hm. split.
    + rewrite (shiftProject_shifted _ _ _ shift) by done. simpl.
      by apply shiftDemand_unlisted.
    + symmetry. apply (shiftProject_dropEntry _ _ _ shift); [done..|].
      by apply destination_unlisted.
Qed.

Lemma shift_keeps_or_drops_unlisted_months_witness :
  applyTimelineShifts ([] ++ projectStray :: []) ∅ jan
    !! length (@nil Project.t) = Some projectStray
  ∧ ∃ project',
      applyTimelineShifts ([] ++ projectStray :: []) {["p1" := -1]} janFeb
        !! length (@nil Project.t) = Some project'
      ∧ ∀ month, month ∉ janFeb →
          Project.monthly_demand project' !! month = None
          ∧ project' = shiftProject {["p1" := -1]} janFeb
                         (dropEntry month projectStray).
Proof.
  split.
  - apply (proj1 (shift_keeps_or_drops_unlisted_months [] projectStray [] ∅
                    jan)).
    left. vm_compute. reflexivity.
  - apply (proj2 (shift_keeps_or_drops_unlisted_months [] projectStray []
                    {["p1" := -1]} janFeb) (-1)).
    + vm_compute. reflexivity.
    + lia.
Defined.

(** ** Non-negative hours stay non-negative *)

Lemma hoursToAdd_nonneg r :
  (∀ h, Resource.hoursPerMonth r = Some h → 0 ≤ h) → 0 ≤ hoursToAdd r.
Proof.
  intros H. unfold hoursToAdd. destruct (Resource.hoursPerMonth r) as [h|];
    [|lia]. case_decide; [lia|]. by apply H.
Qed.

Lemma addHours_nonneg hours cap months :
  0 ≤ hours → nonneg cap → nonneg (foldl (addHours hours) cap months).
Proof.
  intros Hh. revert cap. induction months as [|x l IH]; intros cap Hc; [done|].
  cbn [foldl]. apply IH. unfold addHours. apply map_Forall_insert_2; [|done].
  destruct (cap !! x) as [c|] eqn:Hx; simpl; [|lia].
  specialize (Hc x c Hx). simpl in Hc. lia.
Qed.

Lemma setHours_nonneg hours cap months :
  0 ≤ hours → nonneg cap → nonneg (foldl (setHours hours) cap months).
Proof.
  intros Hh. revert cap. induction months as [|x l IH]; intros cap Hc; [done|].
  cbn [foldl]. apply IH. unfold setHours. by apply map_Forall_insert_2.
Qed.

Lemma addVirtual_nonneg now months virtuals eff ticks :
  (∀ r, r ∈ virtuals → ∀ h, Resource.hoursPerMonth r = Some h → 0 ≤ h) →
  map_Forall (λ _ b, nonneg (Bucket.monthly_capacity b)) eff →
  map_Forall (λ _ b, nonneg (Bucket.monthly_capacity b))
    (foldl (addVirtual now months) (eff, ticks) virtuals).1.
Proof.
  revert eff ticks. induction virtuals as [|r rest IH]; intros eff ticks Hv He;
    [done|].
  cbn [foldl]. rewrite addVirtual_pair. apply IH.
  { intros r' Hr'. apply Hv. by right. }
  assert (0 ≤ hoursToAdd r) by (apply hoursToAdd_nonneg, Hv; by left).
  unfold addVirtual. destruct (eff !! resourceKey r) as [b|] eqn:Hb; simpl.
  - apply map_Forall_insert_2; [|done]. simpl.
    apply addHours_nonneg; [done|]. by apply (He _ _ Hb).
  - apply map_Forall_insert_2; [|done]. simpl.
    apply setHours_nonneg; [done|]. apply map_Forall_empty.
Qed.

Lemma baselineTable_nonneg baseline :
  (∀ b, b ∈ baseline → nonneg (Bucket.monthly_capacity b)) →
  map_Forall (λ _ b, nonneg (Bucket.monthly_capacity b))
    (baselineTable baseline).
Proof.
  unfold baselineTable.
  assert (Hgen : ∀ eff,
    (∀ b, b ∈ baseline → nonneg (Bucket.monthly_capacity b)) →
    map_Forall (λ _ b, nonneg (Bucket.monthly_capacity b)) eff →
    map_Forall (λ _ b, nonneg (Bucket.monthly_capacity b))
      (foldl addBaseline eff baseline)).
  { induction baseline as [|b rest IH]; intros eff Hb He; [done|].
    cbn [foldl]. apply IH; [intros b' Hb'; apply Hb; by right|].
    unfold addBaseline. apply map_Forall_insert_2; [|done].
    apply Hb. by left. }
  intros Hb. apply Hgen; [done|]. apply map_Forall_empty.
Qed.

Lemma effectiveCapacity_nonneg now baseline virtuals months :
  (∀ b, b ∈ baseline → nonneg (Bucket.monthly_capacity b)) →
  (∀ r, r ∈ virtuals → ∀ h, Resource.hoursPerMonth r = Some h → 0 ≤ h) →
  map_Forall (λ _ b, nonneg (Bucket.monthly_capacity b))
    (calculateEffectiveCapacity now baseline virtuals months).
Proof.
  intros Hb Hv. unfold calculateEffectiveCapacity.
  apply addVirtual_nonneg; [done|]. by apply baselineTable_nonneg.
Qed.

Lemma shiftDemand_nonneg months shift demand :
  nonneg demand → nonneg (shiftDemand months shift demand).
Proof.
  unfold shiftDemand.
  pose (P := λ (acc m : gmap string Z), nonneg m → nonneg acc).
  change (P (map_fold (shiftEntry months shift) ∅ demand) demand).
  apply map_fold_weak_ind; unfold P; clear P.
  - intros _. apply map_Forall_empty.
  - intros k h m acc Hk IH Hn.
    apply map_Forall_insert in Hn as [Hh Hm]; [|done].
    specialize (IH Hm). rewrite shiftEntry_eq.
    destruct (destination months shift k) as [dest|]; [|done].
    apply map_Forall_insert_2; [|done].
    destruct (acc !! dest) as [c|] eqn:Hc; simpl; [|lia].
    specialize (IH dest c Hc). simpl in IH. lia.
Qed.

Lemma shiftProject_nonneg shifts months project :
  nonneg (Project.monthly_demand project) →
  nonneg (Project.monthly_demand (shiftProject shifts months project)).
Proof.
  intros Hn. unfold shiftProject.
  destruct (shifts !! Project.id project) as [shift|]; [|done].
  case_decide; [done|]. simpl. by apply shiftDemand_nonneg.
Qed.

Lemma buildProjectMap_elem shiftedProjects pid project :
  buildProjectMap shiftedProjects !! pid = Some project →
  project ∈ shiftedProjects.
Proof.
  unfold buildProjectMap.
  assert (Hgen : ∀ pm : gmap string Project.t,
    foldl (λ projectMap project, <[Project.id project := project]> projectMap)
      pm shiftedProjects !! pid = Some project →
    project ∈ shiftedProjects ∨ pm !! pid = Some project).
  { induction shiftedProjects as [|p rest IH]; intros pm; [by right|].
    cbn [foldl]. intros H. apply IH in H as [H|H]; [left; by right|].
    rewrite lookup_insert in H. case_decide; [|by right].
    left. injection H as ->. by left. }
  intros H. by apply Hgen in H as [H|H].
Qed.

Lemma scenarioProjects_nonneg projects shifts months pid project :
  (∀ p, p ∈ projects → nonneg (Project.monthly_demand p)) →
  scenarioProjects projects shifts months !! pid = Some project →
  nonneg (Project.monthly_demand project).
Proof.
  intros Hp Hpid. apply buildProjectMap_elem in Hpid.
  unfold applyTimelineShifts in Hpid.
  apply list_elem_of_fmap in Hpid as (p & -> & Hin).
  by apply shiftProject_nonneg, Hp.
Qed.

Lemma demandOf_nonneg project month :
  nonneg (Project.monthly_demand project) → 0 ≤ demandOf project month.
Proof.
  intros Hn. unfold demandOf.
  destruct (Project.monthly_demand project !! month) as [h|] eqn:Hm;
    simpl; [|lia]. by apply (Hn _ _ Hm).
Qed.

(** ** Consumed and remaining hours *)

Lemma initUtilization_fold bucket months u m :
  let u' := foldl (initUtilizationMonth bucket) u months in
  Utilization.bucket u' = Utilization.bucket u
  ∧ Utilization.monthly_consumed u' !! m
    = (if decide (m ∈ months) then Some 0
       else Utilization.monthly_consumed u !! m)
  ∧ Utilization.monthly_remaining u' !! m
    = (if decide (m ∈ months)
       then Some (default 0 (Bucket.monthly_capacity bucket !! m))
       else Utilization.monthly_remaining u !! m).
Proof.
  revert u. induction months as [|x l IH]; intros u; cbn [foldl].
  - repeat split; case_decide as H; try done; by apply elem_of_nil in H.
  - destruct (IH (initUtilizationMonth bucket u x)) as (Hb & Hc & Hr).
    cbv zeta. rewrite Hb, Hc, Hr. simpl. rewrite !lookup_insert.
    split; [done|].
    destruct (decide (m ∈ l)) as [Hl|Hl].
    + rewrite !decide_True by (by right). done.
    + destruct (decide (x = m)) as [->|Hne].
      * rewrite !decide_True by (by left). done.
      * rewrite !decide_False; [done|by intros [->|?]%elem_of_cons..].
Qed.

Lemma initState_utilInv eff projectMap priorityOrder months :
  map_Forall (λ _ b, nonneg (Bucket.monthly_capacity b)) eff →
  utilInv eff months (initState eff projectMap priorityOrder months).
Proof.
  intros Hnn k u. unfold initState, initUtilization, initRemaining. simpl.
  rewrite !lookup_fmap. destruct (eff !! k) as [b|] eqn:Hb; [|done].
  simpl. intros [= <-]. exists b, (Num <$> Bucket.monthly_capacity b).
  split; [done|]. split; [done|]. intros m Hm.
  destruct (initUtilization_fold b months (Utilization.mk b ∅ ∅ ∅) m)
    as (_ & Hc & Hr).
  rewrite decide_True in Hc, Hr by done.
  exists 0, (default 0 (Bucket.monthly_capacity b !! m)).
  split; [done|]. split; [done|]. split; [lia|]. split; [lia|].
  rewrite lookup_fmap.
  destruct (Bucket.monthly_capacity b !! m) as [h|] eqn:Hh; simpl; [|lia].
  pose proof (Hnn _ _ Hb _ _ Hh) as H0. simpl in H0. lia.
Qed.

Lemma consume_lookup month used f u m :
  Utilization.monthly_consumed (consume month used f u) !! m
  = (if decide (month = m)
     then Some (Utilization.monthly_consumed u !!! month + used)
     else Utilization.monthly_consumed u !! m)
  ∧ Utilization.monthly_remaining (consume month used f u) !! m
    = (if decide (month = m)
       then Some (f (Utilization.monthly_remaining u !!! month))
       else Utilization.monthly_remaining u !! m).
Proof. unfold consume. simpl. by rewrite !lookup_insert. Qed.

Lemma allocate_utilInv eff months projectMap month st projectId :
  (∀ project, projectMap !! projectId = Some project →
              nonneg (Project.monthly_demand project)) →
  utilInv eff months st →
  utilInv eff months (allocate projectMap month st projectId).
Proof.
  intros Hnn Hinv.
  destruct (projectMap !! projectId) as [project|] eqn:Hp;
    [|by rewrite allocate_skip].
  specialize (Hnn _ eq_refl).
  pose proof (demandOf_nonneg project month Hnn) as Hd.
  rewrite (allocate_eq _ _ _ _ _ Hp). unfold remainingStep. rewrite Hp.
  set (d := demandOf project month) in *.
  set (a := availableOf (State.remainingCapacity st) (projectKey project)
              month).
  intros k u. simpl. rewrite !lookup_alter.
  destruct (decide (projectKey project = k)) as [<-|Hk]; [|apply Hinv].
  destruct (State.bucketUtilization st !! projectKey project) as [u0|] eqn:Hu;
    [|done].
  simpl. intros [= <-].
  destruct (Hinv _ _ Hu) as (b & row & Hb & Hrow & Hms).
  assert (Ha : a = or_zero (row !! month)).
  { unfold a, availableOf. by rewrite Hrow. }
  exists b, (partial_alter (cellAfter d) month row).
  split; [done|]. split; [by rewrite Hrow|].
  intros m Hm. destruct (Hms m Hm) as (c & r & Hc & Hr & Hsum & Hc0 & Hr0 & Hor).
  rewrite lookup_partial_alter.
  destruct (decide (month = m)) as [->|Hne].
  - rewrite Ha. rewrite Hor in *. subst a.
    unfold utilAfter, cellAfter. rewrite Hor.
    destruct (decide (d = 0)).
    { exists c, r. by rewrite Hor. }
    destruct (decide (d ≤ r)).
    { destruct (consume_lookup m d (λ r, r - d) u0 m) as [-> ->].
      rewrite !decide_True by done.
      rewrite (lookup_total_correct _ _ _ Hc), (lookup_total_correct _ _ _ Hr).
      exists (c + d), (r - d). repeat split; try lia.
      destruct (row !! m) as [[z|]|]; simpl in *; lia. }
    destruct (decide (0 < r)).
    { destruct (consume_lookup m r (λ _, 0) u0 m) as [-> ->].
      rewrite !decide_True by done.
      rewrite (lookup_total_correct _ _ _ Hc).
      exists (c + r), 0. repeat split; simpl; lia. }
    exists c, r. by rewrite Hor.
  - exists c, r. unfold utilAfter.
    repeat case_decide;
      try (destruct (consume_lookup month d (λ r, r - d) u0 m) as [-> ->]);
      try (destruct (consume_lookup month a (λ _, 0) u0 m) as [-> ->]);
      rewrite ?decide_False by done; done.
Qed.

Lemma allocateMonth_utilInv eff months projectMap priorityOrder st month :
  map_Forall (λ _ project, nonneg (Project.monthly_demand project))
    projectMap →
  utilInv eff months st →
  utilInv eff months (allocateMonth projectMap priorityOrder st month).
Proof.
  intros Hnn. unfold allocateMonth. revert st.
  induction priorityOrder as [|x l IH]; intros st H; [done|].
  cbn [foldl]. apply IH, allocate_utilInv; [|done].
  intros project Hp. by apply (Hnn _ _ Hp).
Qed.

Lemma allocateAll_utilInv eff months projectMap priorityOrder processed st :
  map_Forall (λ _ project, nonneg (Project.monthly_demand project))
    projectMap →
  utilInv eff months st →
  utilInv eff months (allocateAll projectMap priorityOrder processed st).
Proof.
  intros Hnn. unfold allocateAll. revert st.
  induction processed as [|x l IH]; intros st H; [done|].
  cbn [foldl]. by apply IH, allocateMonth_utilInv.
Qed.

Lemma setUtilization_fold capacity months u m :
  let u' := foldl (setUtilization capacity) u months in
  Utilization.monthly_consumed u' = Utilization.monthly_consumed u
  ∧ Utilization.monthly_remaining u' = Utilization.monthly_remaining u
  ∧ Utilization.monthly_utilization u' !! m
    = (if decide (m ∈ months)
       then Some (if decide (0 < default 0 (capacity !! m))
                  then round_percent (Utilization.monthly_consumed u !!! m)
                         (default 0 (capacity !! m))
                  else 0)
       else Utilization.monthly_utilization u !! m).
Proof.
  revert u. induction months as [|x l IH]; intros u; cbn [foldl].
  - split; [done|]. split; [done|].
    case_decide as H; [by apply elem_of_nil in H|done].
  - destruct (IH (setUtilization capacity u x)) as (Hc & Hr & Hu).
    cbv zeta. rewrite Hc, Hr, Hu. unfold setUtilization.
    cbn [Utilization.monthly_consumed Utilization.monthly_remaining
         Utilization.monthly_utilization].
    split; [done|]. split; [done|]. rewrite lookup_insert.
    destruct (decide (m ∈ l)) as [Hl|Hl].
    + destruct (decide (m ∈ x :: l)) as [_|Hn]; [done|].
      exfalso. apply Hn. by right.
    + destruct (decide (x = m)) as [->|Hne].
      * destruct (decide (m ∈ m :: l)) as [_|Hn]; [done|].
        exfalso. apply Hn. by left.
      * destruct (decide (m ∈ x :: l)) as [[->|?]%elem_of_cons|_]; done.
Qed.

(** The utilization table on integer hours.  When the baseline capacities,
    the virtual [hoursPerMonth] values and the demands are non-negative and
    every effective capacity is below 2^53, then for every bucket of the
    utilization table and every listed month the consumed and the remaining
    hours are non-negative and add up to the effective capacity of that
    month, and the reported utilization is between 0 and 100. *)
Lemma utilization_integers (now : nat → Z) baseline projects
    priorityOrder virtuals shifts months :
  (∀ b, b ∈ baseline → nonneg (Bucket.monthly_capacity b)) →
  (∀ r, r ∈ virtuals → ∀ h, Resource.hoursPerMonth r = Some h → 0 ≤ h) →
  (∀ p, p ∈ projects → nonneg (Project.monthly_demand p)) →
  (∀ k b m h,
     calculateEffectiveCapacity now baseline virtuals months !! k = Some b →
     Bucket.monthly_capacity b !! m = Some h → h < 2 ^ 53) →
  let result := calculateScenario now baseline projects priorityOrder virtuals
                  shifts months in
  ∀ k u m,
    Result.bucketUtilization result !! k = Some u →
    m ∈ months →
    ∃ b consumed remaining utilization,
      Result.effectiveCapacity result !! k = Some b
      ∧ Utilization.monthly_consumed u !! m = Some consumed
      ∧ Utilization.monthly_remaining u !! m = Some remaining
      ∧ Utilization.monthly_utilization u !! m = Some utilization
      ∧ consumed + remaining = default 0 (Bucket.monthly_capacity b !! m)
      ∧ 0 ≤ consumed ∧ 0 ≤ remaining
      ∧ utilization
        = (if decide (0 < default 0 (Bucket.monthly_capacity b !! m))
           then round_percent consumed
                  (default 0 (Bucket.monthly_capacity b !! m))
           else 0)
      ∧ 0 ≤ utilization ≤ 100.
Proof.
  intros Hb Hv Hp Hsmall result k u m Hu Hm.
  unfold result, calculateScenario in *. simpl in *.
  set (eff := calculateEffectiveCapacity now baseline virtuals months) in *.
  set (pm := buildProjectMap (applyTimelineShifts projects shifts months)) in *.
  assert (Hinv : utilInv eff months
            (allocateAll pm priorityOrder months
               (initState eff pm priorityOrder months))).
  { apply allocateAll_utilInv.
    - intros pid project Hpid. by apply (scenarioProjects_nonneg _ _ _ _ _ Hp Hpid).
    - apply initState_utilInv. by apply effectiveCapacity_nonneg. }
  unfold initState in Hinv.
  unfold finalUtilization in Hu. rewrite map_lookup_imap in Hu.
  destruct (State.bucketUtilization _ !! k) as [u0|] eqn:Hu0; [|done].
  simpl in Hu. injection Hu as <-.
  destruct (Hinv _ _ Hu0) as (b & row & Hbk & _ & Hms).
  destruct (Hms m Hm) as (c & r & Hc & Hr & Hsum & Hc0 & Hr0 & _).
  rewrite Hbk. simpl.
  destruct (setUtilization_fold (Bucket.monthly_capacity b) months u0 m)
    as (Hc' & Hr' & Hu').
  cbv zeta in *. rewrite Hc', Hr', Hu'. rewrite decide_True by done.
  rewrite (lookup_total_correct _ _ _ Hc).
  exists b, c, r,
    (if decide (0 < default 0 (Bucket.monthly_capacity b !! m))
     then round_percent c (default 0 (Bucket.monthly_capacity b !! m))
     else 0).
  do 7 (split; [done|]). split; [done|].
  destruct (decide (0 < default 0 (Bucket.monthly_capacity b !! m)))
    as [Hpos|]; [|lia].
  apply round_percent_bounds; [lia|]. split; [done|].
  destruct (Bucket.monthly_capacity b !! m) as [h|] eqn:Hh;
    cbn [default from_option] in *; [|lia].
  unfold id. by apply (Hsmall k b m h).
Qed.

(** ** The tables that [+=] and [-=] read *)

Lemma initUtilization_defined months eff :
  tablesDefined months (initUtilization months eff).
Proof.
  intros k u m. unfold initUtilization. rewrite lookup_fmap.
  destruct (eff !! k) as [b|]; [|done]. simpl. intros [= <-] Hm.
  destruct (initUtilization_fold b months (Utilization.mk b ∅ ∅ ∅) m)
    as (_ & -> & ->).
  rewrite !decide_True by done. eauto.
Qed.

Lemma allocate_defined months projectMap month st projectId :
  tablesDefined months (State.bucketUtilization st) →
  tablesDefined months
    (State.bucketUtilization (allocate projectMap month st projectId)).
Proof.
  intros Hdef. destruct (projectMap !! projectId) as [project|] eqn:Hp;
    [|by rewrite allocate_skip].
  rewrite (allocate_eq _ _ _ _ _ Hp). simpl. intros k u m.
  rewrite lookup_alter. case_decide; [subst k|by apply Hdef].
  destruct (State.bucketUtilization st !! projectKey project) as [u0|] eqn:Hu;
    [|done].
  simpl. intros [= <-] Hm. destruct (Hdef _ _ _ Hu Hm) as [Hc Hr].
  unfold utilAfter. repeat case_decide; try done.
  - destruct (consume_lookup month (demandOf project month)
                (λ r, r - demandOf project month) u0 m) as [-> ->].
    case_decide; eauto.
  - destruct (consume_lookup month
                (availableOf (State.remainingCapacity st)
                   (projectKey project) month) (λ _, 0) u0 m) as [-> ->].
    case_decide; eauto.
Qed.

(** In every state that the loops of step 6 go through, the cells that
    [consume] reads are there. *)
Lemma allocateAll_defined eff projectMap priorityOrder months processed :
  tablesDefined months
    (State.bucketUtilization
       (allocateAll projectMap priorityOrder processed
          (initState eff projectMap priorityOrder months))).
Proof.
  assert (Hgen : ∀ st, tablesDefined months (State.bucketUtilization st) →
            tablesDefined months
              (State.bucketUtilization
                 (allocateAll projectMap priorityOrder processed st))).
  { unfold allocateAll. induction processed as [|m l IH]; intros st H; [done|].
    cbn [foldl]. apply IH. unfold allocateMonth. clear IH. revert st H.
    induction priorityOrder as [|x xs IH]; intros st H; [done|].
    cbn [foldl]. by apply IH, allocate_defined. }
  apply Hgen, initUtilization_defined.
Qed.

(** [undefined - demand] is [NaN], and [NaN || 0] is 0: after a negative
    demand was served from a bucket that has no capacity for the month, the
    next project finds nothing available. *)
Example nan_reads_as_zero :
  Result.projectStatus
    (calculateScenario (λ _, 0) [bucketNoJan] [projectCredit; projectA]
       ["B"; "A"] [] ∅ jan) !! "A"
    ≫= (λ p, ProjectStatus.monthlyStatus p !! "Jan")
  = Some (MonthStatus.mk unstaffed 10 0 10).
Proof. vm_compute. reflexivity. Qed.

(** ** Priority order *)

Lemma cellAfter_comm d1 d2 cell :
  0 ≤ d1 → 0 ≤ d2 →
  cellAfter d1 (cellAfter d2 cell) = cellAfter d2 (cellAfter d1 cell).
Proof.
  intros H1 H2. unfold cellAfter.
  destruct cell as [[z|]|]; simpl;
    repeat (case_decide; simpl in *; try lia; try done);
    f_equal; f_equal; lia.
Qed.

Lemma cellAfter_le d cell :
  0 ≤ d → or_zero (cellAfter d cell) ≤ or_zero cell.
Proof.
  intros H. unfold cellAfter.
  destruct cell as [[z|]|]; simpl; repeat (case_decide; simpl in *; try lia).
Qed.

Lemma remainingAt_ext (R1 R2 : gmap string (gmap string jsnum)) :
  (∀ k m, remainingAt R1 k m = remainingAt R2 k m) → R1 = R2.
Proof.
  intros H. apply map_eq. intros k. unfold remainingAt in H.
  destruct (R1 !! k) as [row1|] eqn:H1, (R2 !! k) as [row2|] eqn:H2.
  - f_equal. apply map_eq. intros m. specialize (H k m).
    rewrite H1, H2 in H. simpl in H. congruence.
  - specialize (H k ""). by rewrite H1, H2 in H.
  - specialize (H k ""). by rewrite H1, H2 in H.
  - done.
Qed.

Lemma remainingStep_comm projectMap month R p1 p2 :
  map_Forall (λ _ project, nonneg (Project.monthly_demand project))
    projectMap →
  remainingStep projectMap month (remainingStep projectMap month R p1) p2
  = remainingStep projectMap month (remainingStep projectMap month R p2) p1.
Proof.
  intros Hnn. apply remainingAt_ext. intros k m.
  rewrite !remainingStep_at.
  destruct (projectMap !! p1) as [q1|] eqn:Hq1,
    (projectMap !! p2) as [q2|] eqn:Hq2; try done.
  pose proof (demandOf_nonneg q1 month (Hnn _ _ Hq1)).
  pose proof (demandOf_nonneg q2 month (Hnn _ _ Hq2)).
  repeat case_decide; try done.
  destruct (remainingAt R k m) as [c|]; simpl; [|done].
  f_equal. by apply cellAfter_comm.
Qed.

Lemma remainingStep_fold_comm projectMap month R pid l :
  map_Forall (λ _ project, nonneg (Project.monthly_demand project))
    projectMap →
  foldl (remainingStep projectMap month)
        (remainingStep projectMap month R pid) l
  = remainingStep projectMap month
      (foldl (remainingStep projectMap month) R l) pid.
Proof.
  intros Hnn. revert R. induction l as [|x l IH]; intros R; [done|].
  cbn [foldl]. rewrite <- IH. f_equal. by apply remainingStep_comm.
Qed.

Lemma remainingStep_available projectMap month R pid k :
  map_Forall (λ _ project, nonneg (Project.monthly_demand project))
    projectMap →
  availableOf (remainingStep projectMap month R pid) k month
  ≤ availableOf R k month.
Proof.
  intros Hnn. rewrite !availableOf_at, remainingStep_at.
  destruct (projectMap !! pid) as [q|] eqn:Hq; [|done].
  case_decide; [|done].
  destruct (remainingAt R k month) as [c|]; simpl; [|done].
  apply cellAfter_le, demandOf_nonneg. by apply (Hnn _ _ Hq).
Qed.

Lemma remainingStep_fold_available projectMap month R l k :
  map_Forall (λ _ project, nonneg (Project.monthly_demand project))
    projectMap →
  availableOf (foldl (remainingStep projectMap month) R l) k month
  ≤ availableOf R k month.
Proof.
  intros Hnn. revert R. induction l as [|x l IH]; intros R; [done|].
  cbn [foldl]. etrans; [apply IH|]. by apply remainingStep_available.
Qed.

Lemma outcome_deficit_antitone d a a' :
  0 ≤ d → a' ≤ a →
  MonthStatus.deficit (outcome d a) ≤ MonthStatus.deficit (outcome d a').
Proof.
  intros Hd Ha. unfold outcome.
  repeat (case_decide; simpl; try lia).
Qed.

Lemma allocate_fold_remaining projectMap month st l :
  State.remainingCapacity (foldl (allocate projectMap month) st l)
  = foldl (remainingStep projectMap month) (State.remainingCapacity st) l.
Proof.
  revert st. induction l as [|x l IH]; intros st; [done|].
  cbn [foldl]. by rewrite IH, allocate_remaining.
Qed.

Lemma allocate_totalDeficitOf projectMap month st projectId pid :
  totalDeficitOf (State.projectStatus (allocate projectMap month st projectId))
    pid
  = match projectMap !! projectId with
    | Some project =>
        if decide (projectId = pid)
        then (λ t, t + MonthStatus.deficit
                         (outcome (demandOf project month)
                            (availableOf (State.remainingCapacity st)
                               (projectKey project) month)))
               <$> totalDeficitOf (State.projectStatus st) pid
        else totalDeficitOf (State.projectStatus st) pid
    | None => totalDeficitOf (State.projectStatus st) pid
    end.
Proof.
  destruct (projectMap !! projectId) as [project|] eqn:Hp;
    [|by rewrite allocate_skip].
  rewrite (allocate_projectStatus _ _ _ _ _ Hp). unfold totalDeficitOf.
  rewrite lookup_alter. case_decide; [|done]. subst.
  by destruct (State.projectStatus st !! pid).
Qed.

Lemma allocate_fold_totalDeficitOf projectMap month st l pid :
  pid ∉ l →
  totalDeficitOf (State.projectStatus (foldl (allocate projectMap month) st l))
    pid
  = totalDeficitOf (State.projectStatus st) pid.
Proof.
  revert st. induction l as [|x l IH]; intros st Hn; [done|].
  apply not_elem_of_cons in Hn as [Hne Hn].
  cbn [foldl]. rewrite IH by done. rewrite allocate_totalDeficitOf.
  destruct (projectMap !! x); [|done]. by rewrite decide_False.
Qed.

(** One month, under the two orders: the remaining capacity ends up the
    same, and the project that was moved forward adds no more deficit than
    before. *)
Lemma allocateMonth_moved_earlier projectMap month l1 l2 l3 A st st' t t' :
  map_Forall (λ _ project, nonneg (Project.monthly_demand project))
    projectMap →
  A ∉ l1 → A ∉ l2 → A ∉ l3 →
  State.remainingCapacity st = State.remainingCapacity st' →
  totalDeficitOf (State.projectStatus st) A = Some t →
  totalDeficitOf (State.projectStatus st') A = Some t' →
  t' ≤ t →
  let after := allocateMonth projectMap (l1 ++ l2 ++ A :: l3) st month in
  let after' := allocateMonth projectMap (l1 ++ A :: l2 ++ l3) st' month in
  State.remainingCapacity after = State.remainingCapacity after'
  ∧ ∃ u u', totalDeficitOf (State.projectStatus after) A = Some u
            ∧ totalDeficitOf (State.projectStatus after') A = Some u'
            ∧ u' ≤ u.
Proof.
  intros Hnn H1 H2 H3 HR Ht Ht' Hle after after'.
  unfold after, after', allocateMonth.
  rewrite !foldl_app. cbn [foldl]. rewrite !foldl_app.
  set (s1 := foldl (allocate projectMap month) st l1).
  set (s1' := foldl (allocate projectMap month) st' l1).
  assert (HR1 : State.remainingCapacity s1 = State.remainingCapacity s1').
  { unfold s1, s1'. by rewrite !allocate_fold_remaining, HR. }
  assert (Ht1 : totalDeficitOf (State.projectStatus s1) A = Some t).
  { unfold s1. by rewrite allocate_fold_totalDeficitOf. }
  assert (Ht1' : totalDeficitOf (State.projectStatus s1') A = Some t').
  { unfold s1'. by rewrite allocate_fold_totalDeficitOf. }
  clearbody s1 s1'. clear HR Ht Ht' st st' after after'.
  set (s2 := foldl (allocate projectMap month) s1 l2).
  assert (HR2 : State.remainingCapacity s2
                = foldl (remainingStep projectMap month)
                    (State.remainingCapacity s1) l2).
  { apply allocate_fold_remaining. }
  assert (Ht2 : totalDeficitOf (State.projectStatus s2) A = Some t).
  { unfold s2. by rewrite allocate_fold_totalDeficitOf. }
  clearbody s2. split.
  - rewrite !allocate_fold_remaining, !allocate_remaining, HR2, <- HR1.
    f_equal. symmetry. by apply remainingStep_fold_comm.
  - rewrite !allocate_fold_totalDeficitOf by done.
    rewrite !allocate_totalDeficitOf.
    destruct (projectMap !! A) as [project|] eqn:HA.
    + rewrite !decide_True by done. rewrite Ht2, Ht1'. simpl.
      eexists _, _. split; [done|]. split; [done|].
      assert (MonthStatus.deficit
                (outcome (demandOf project month)
                   (availableOf (State.remainingCapacity s1')
                      (projectKey project) month))
              ≤ MonthStatus.deficit
                  (outcome (demandOf project month)
                     (availableOf (State.remainingCapacity s2)
                        (projectKey project) month))); [|lia].
      apply outcome_deficit_antitone.
      * apply demandOf_nonneg. by apply (Hnn _ _ HA).
      * rewrite HR2, <- HR1. by apply remainingStep_fold_available.
    + rewrite Ht2, Ht1'. eauto.
Qed.

Lemma allocateAll_moved_earlier projectMap months l1 l2 l3 A st st' t t' :
  map_Forall (λ _ project, nonneg (Project.monthly_demand project))
    projectMap →
  A ∉ l1 → A ∉ l2 → A ∉ l3 →
  State.remainingCapacity st = State.remainingCapacity st' →
  totalDeficitOf (State.projectStatus st) A = Some t →
  totalDeficitOf (State.projectStatus st') A = Some t' →
  t' ≤ t →
  ∃ u u',
    totalDeficitOf
      (State.projectStatus
         (allocateAll projectMap (l1 ++ l2 ++ A :: l3) months st)) A = Some u
    ∧ totalDeficitOf
        (State.projectStatus
           (allocateAll projectMap (l1 ++ A :: l2 ++ l3) months st')) A
      = Some u'
    ∧ u' ≤ u.
Proof.
  intros Hnn H1 H2 H3. unfold allocateAll. revert st st' t t'.
  induction months as [|m l IH]; intros st st' t t' HR Ht Ht' Hle.
  - exists t, t'. by repeat split.
  - cbn [foldl].
    destruct (allocateMonth_moved_earlier projectMap m l1 l2 l3 A st st' t t'
                Hnn H1 H2 H3 HR Ht Ht' Hle) as (HR' & u & u' & Hu & Hu' & Hle').
    by apply (IH _ _ u u').
Qed.

Lemma initState_totalDeficitOf eff projectMap priorityOrder months pid :
  pid ∈ priorityOrder → is_Some (projectMap !! pid) →
  totalDeficitOf
    (State.projectStatus (initState eff projectMap priorityOrder months)) pid
  = Some 0.
Proof.
  intros Hin Hpm. unfold totalDeficitOf, initState. simpl.
  destruct (proj2 (initProjectStatus_dom projectMap priorityOrder pid))
    as [p Hp]; [done|].
  rewrite Hp. simpl. f_equal.
  by apply initProjectStatus_fresh in Hp as (_ & _ & ? & _).
Qed.

(** The claim as stated fails on a record with a negative demand: served
    first, it enlarges the remaining capacity, and moving [A] before it
    raises the deficit of [A] from 0 to 5. *)
Lemma negative_demand_breaks_monotonicity :
  totalDeficitOf
    (Result.projectStatus
       (calculateScenario (λ _, 0) [bucket5] [projectA; projectB]
          ([] ++ ["B"] ++ "A" :: []) [] ∅ jan)) "A" = Some 0
  ∧ totalDeficitOf
      (Result.projectStatus
         (calculateScenario (λ _, 0) [bucket5] [projectA; projectB]
            ([] ++ "A" :: ["B"] ++ []) [] ∅ jan)) "A" = Some 5.
Proof. split; vm_compute; reflexivity. Qed.

(** C4, amended.  When no demand is negative: if [A] occurs once in the
    priority order and is moved to an earlier position while the other ids
    keep their relative order, then [A] still has its entry in the result and
    its [totalDeficit] is not larger than before. *)
Theorem priority_monotonicity (now : nat → Z) baseline projects virtuals
    shifts months l1 l2 l3 A p :
  (∀ q, q ∈ projects → nonneg (Project.monthly_demand q)) →
  A ∉ l1 → A ∉ l2 → A ∉ l3 →
  Result.projectStatus
    (calculateScenario now baseline projects (l1 ++ l2 ++ A :: l3) virtuals
       shifts months) !! A = Some p →
  ∃ p',
    Result.projectStatus
      (calculateScenario now baseline projects (l1 ++ A :: l2 ++ l3) virtuals
         shifts months) !! A = Some p'
    ∧ ProjectStatus.totalDeficit p' ≤ ProjectStatus.totalDeficit p.
Proof.
  intros Hnn H1 H2 H3. rewrite !scenario_projectStatus, !lookup_fmap.
  set (pm := scenarioProjects projects shifts months).
  set (eff := calculateEffectiveCapacity now baseline virtuals months).
  intros Hp. apply fmap_Some in Hp as (p0 & Hp0 & ->).
  assert (Hpm : is_Some (pm !! A)).
  { assert (Hs : is_Some (State.projectStatus
                   (allocateAll pm (l1 ++ l2 ++ A :: l3) months
                      (initState eff pm (l1 ++ l2 ++ A :: l3) months)) !! A))
      by eauto.
    apply allocateAll_dom in Hs. by apply initProjectStatus_dom in Hs as [_ ?]. }
  assert (Hpmnn : map_Forall
            (λ _ project, nonneg (Project.monthly_demand project)) pm).
  { intros pid project Hpid. by apply (scenarioProjects_nonneg _ _ _ _ _ Hnn Hpid). }
  destruct (allocateAll_moved_earlier pm months l1 l2 l3 A
              (initState eff pm (l1 ++ l2 ++ A :: l3) months)
              (initState eff pm (l1 ++ A :: l2 ++ l3) months) 0 0)
    as (u & u' & Hu & Hu' & Hle); try done.
  - apply initState_totalDeficitOf; [|done].
    rewrite !elem_of_app, elem_of_cons. tauto.
  - apply initState_totalDeficitOf; [|done].
    rewrite elem_of_app, elem_of_cons. tauto.
  - unfold totalDeficitOf in Hu, Hu'. rewrite Hp0 in Hu. simpl in Hu.
    injection Hu as <-.
    apply fmap_Some in Hu' as (p0' & Hp0' & ->).
    exists (summarize p0'). rewrite Hp0'. split; [done|].
    by rewrite !summarize_totalDeficit.
Qed.

Lemma priority_monotonicity_witness :
  (∀ q, q ∈ [demand60 "p1"; demand60 "p2"] →
        nonneg (Project.monthly_demand q)) ∧
  ("p2" ∉ @nil string) ∧ ("p2" ∉ ["p1"]) ∧ ("p2" ∉ @nil string) ∧
  Result.projectStatus
    (calculateScenario (λ _, 0) [bucket100] [demand60 "p1"; demand60 "p2"]
       ([] ++ ["p1"] ++ "p2" :: []) [] ∅ jan) !! "p2" = Some workedP2 ∧
  ∃ p',
    Result.projectStatus
      (calculateScenario (λ _, 0) [bucket100] [demand60 "p1"; demand60 "p2"]
         ([] ++ "p2" :: ["p1"] ++ []) [] ∅ jan) !! "p2" = Some p'
    ∧ ProjectStatus.totalDeficit p' ≤ ProjectStatus.totalDeficit workedP2.
Proof.
  assert (H0 : ∀ q, q ∈ [demand60 "p1"; demand60 "p2"] →
                 nonneg (Project.monthly_demand q)).
  { intros q Hq.
    apply elem_of_cons in Hq as [->|Hq];
      [|apply list_elem_of_singleton in Hq as ->];
      apply map_Forall_singleton; lia. }
  assert (H1 : "p2" ∉ @nil string) by apply not_elem_of_nil.
  assert (H2 : "p2" ∉ ["p1"]).
  { apply not_elem_of_cons. split; [discriminate|apply not_elem_of_nil]. }
  assert (H3 : Result.projectStatus
                 (calculateScenario (λ _, 0) [bucket100]
                    [demand60 "p1"; demand60 "p2"]
                    ([] ++ ["p1"] ++ "p2" :: []) [] ∅ jan) !! "p2"
               = Some workedP2).
  { vm_compute. reflexivity. }
  split; [exact H0|]. split; [exact H1|]. split; [exact H2|].
  split; [exact H1|]. split; [exact H3|].
  exact (priority_monotonicity (λ _, 0) [bucket100]
           [demand60 "p1"; demand60 "p2"] [] ∅ jan [] ["p1"] [] "p2" workedP2
           H0 H1 H2 H1 H3).
Defined.

(** ** Determinism up to the clock *)

Lemma scenario_from now baseline projects priorityOrder virtuals shifts
    months :
  calculateScenario now baseline projects priorityOrder virtuals shifts months
  = scenarioFrom (calculateEffectiveCapacity now baseline virtuals months)
      projects priorityOrder shifts months.
Proof. reflexivity. Qed.

Lemma eraseId_capacity b b' :
  eraseId b = eraseId b' →
  Bucket.monthly_capacity b = Bucket.monthly_capacity b'.
Proof. unfold eraseId. by intros [= _ _ _ ? _]. Qed.

Lemma addVirtual_sameButClock now now' months baseline eff eff' ticks ticks'
    r :
  sameButClock baseline eff eff' →
  sameButClock baseline (addVirtual now months (eff, ticks) r).1
    (addVirtual now' months (eff', ticks') r).1.
Proof.
  intros Hsame k. unfold addVirtual.
  destruct (Hsame (resourceKey r)) as [He Hb].
  destruct (eff !! resourceKey r) as [b|] eqn:H1,
    (eff' !! resourceKey r) as [b'|] eqn:H2; try done; simpl in *.
  - rewrite !lookup_insert. case_decide as Hk; [|apply Hsame]. subst k.
    assert (He' : eraseId b = eraseId b') by congruence.
    unfold eraseId in He'. injection He' as Ht Hr Hl Hc Hv. split.
    + simpl. unfold eraseId, Bucket.with_capacity. simpl.
      by rewrite Ht, Hr, Hl, Hc, Hv.
    + intros Hbase. destruct (Hb Hbase) as [_ [= ->]]. eauto.
  - rewrite !lookup_insert. case_decide as Hk; [|apply Hsame]. subst k.
    split; [done|]. intros Hbase. by destruct (Hb Hbase) as [[? ?] _].
Qed.

Lemma addVirtual_fold_sameButClock now now' months baseline virtuals eff eff'
    ticks ticks' :
  sameButClock baseline eff eff' →
  sameButClock baseline
    (foldl (addVirtual now months) (eff, ticks) virtuals).1
    (foldl (addVirtual now' months) (eff', ticks') virtuals).1.
Proof.
  revert eff eff' ticks ticks'.
  induction virtuals as [|r rest IH]; intros eff eff' ticks ticks' H; [done|].
  cbn [foldl]. rewrite (addVirtual_pair now), (addVirtual_pair now').
  by apply IH, addVirtual_sameButClock.
Qed.

Lemma effectiveCapacity_sameButClock now now' baseline virtuals months :
  sameButClock (baselineTable baseline)
    (calculateEffectiveCapacity now baseline virtuals months)
    (calculateEffectiveCapacity now' baseline virtuals months).
Proof.
  unfold calculateEffectiveCapacity. apply addVirtual_fold_sameButClock.
  intros k. by repeat split.
Qed.

Lemma sameButClock_erased baseline eff eff' :
  sameButClock baseline eff eff' → eraseId <$> eff = eraseId <$> eff'.
Proof.
  intros H. apply map_eq. intros k. rewrite !lookup_fmap. apply H.
Qed.

Lemma initRemaining_erased eff :
  initRemaining (eraseId <$> eff) = initRemaining eff.
Proof. unfold initRemaining. rewrite <- map_fmap_compose. done. Qed.

Lemma initUtilization_erased_fold b months u :
  eraseUtilizationId (foldl (initUtilizationMonth b) u months)
  = foldl (initUtilizationMonth (eraseId b)) (eraseUtilizationId u) months.
Proof.
  revert u. induction months as [|m l IH]; intros u; [done|].
  cbn [foldl]. by rewrite IH.
Qed.

Lemma initUtilization_erased months eff :
  initUtilization months (eraseId <$> eff)
  = eraseUtilizationId <$> initUtilization months eff.
Proof.
  unfold initUtilization. rewrite <- !map_fmap_compose. apply map_fmap_ext.
  intros k b _. simpl. by rewrite initUtilization_erased_fold.
Qed.

Lemma initState_erased eff projectMap priorityOrder months :
  initState (eraseId <$> eff) projectMap priorityOrder months
  = eraseStateIds (initState eff projectMap priorityOrder months).
Proof.
  unfold initState, eraseStateIds. simpl.
  by rewrite initRemaining_erased, initUtilization_erased.
Qed.

Lemma utilAfter_erased month d a u :
  eraseUtilizationId (utilAfter month d a u)
  = utilAfter month d a (eraseUtilizationId u).
Proof. unfold utilAfter. by repeat case_decide. Qed.

Lemma allocate_erased projectMap month st projectId :
  allocate projectMap month (eraseStateIds st) projectId
  = eraseStateIds (allocate projectMap month st projectId).
Proof.
  destruct (projectMap !! projectId) as [project|] eqn:Hp;
    [|by rewrite !allocate_skip].
  rewrite !(allocate_eq _ _ _ _ _ Hp). unfold eraseStateIds. simpl.
  f_equal. apply map_eq. intros k.
  rewrite lookup_alter, !lookup_fmap, lookup_alter.
  case_decide; [subst k|done].
  destruct (State.bucketUtilization st !! projectKey project); simpl; [|done].
  by rewrite utilAfter_erased.
Qed.

Lemma allocateAll_erased projectMap priorityOrder months st :
  allocateAll projectMap priorityOrder months (eraseStateIds st)
  = eraseStateIds (allocateAll projectMap priorityOrder months st).
Proof.
  unfold allocateAll. revert st.
  induction months as [|m l IH]; intros st; [done|].
  cbn [foldl]. rewrite <- IH. f_equal. unfold allocateMonth.
  clear IH. revert st.
  induction priorityOrder as [|x xs IH]; intros st; [done|].
  cbn [foldl]. by rewrite allocate_erased, IH.
Qed.

Lemma setUtilization_erased_fold capacity months u :
  eraseUtilizationId (foldl (setUtilization capacity) u months)
  = foldl (setUtilization capacity) (eraseUtilizationId u) months.
Proof.
  revert u. induction months as [|m l IH]; intros u; [done|].
  cbn [foldl]. by rewrite IH.
Qed.

Lemma finalUtilization_erased eff months BU :
  finalUtilization (eraseId <$> eff) months (eraseUtilizationId <$> BU)
  = eraseUtilizationId <$> finalUtilization eff months BU.
Proof.
  unfold finalUtilization. apply map_eq. intros k.
  rewrite lookup_fmap, !map_lookup_imap, !lookup_fmap.
  destruct (BU !! k) as [u|]; simpl; [|done].
  rewrite setUtilization_erased_fold. by destruct (eff !! k).
Qed.

Lemma scenarioFrom_erased eff projects priorityOrder shifts months :
  eraseIds (scenarioFrom eff projects priorityOrder shifts months)
  = scenarioFrom (eraseId <$> eff) projects priorityOrder shifts months.
Proof.
  unfold scenarioFrom, eraseIds. simpl.
  rewrite initState_erased, allocateAll_erased. simpl.
  by rewrite finalUtilization_erased.
Qed.

(** The spread bucket of a utilization entry is the effective bucket. *)
Lemma allocate_bucket projectMap month st projectId k :
  Utilization.bucket
    <$> State.bucketUtilization (allocate projectMap month st projectId) !! k
  = Utilization.bucket <$> State.bucketUtilization st !! k.
Proof.
  destruct (projectMap !! projectId) as [project|] eqn:Hp;
    [|by rewrite allocate_skip].
  rewrite (allocate_eq _ _ _ _ _ Hp). simpl. rewrite lookup_alter.
  case_decide; [|done]. subst.
  destruct (State.bucketUtilization st !! projectKey project); [|done].
  simpl. f_equal. unfold utilAfter. by repeat case_decide.
Qed.

Lemma allocateAll_bucket projectMap priorityOrder months st k :
  Utilization.bucket
    <$> State.bucketUtilization
          (allocateAll projectMap priorityOrder months st) !! k
  = Utilization.bucket <$> State.bucketUtilization st !! k.
Proof.
  unfold allocateAll. revert st.
  induction months as [|m l IH]; intros st; [done|].
  cbn [foldl]. rewrite IH. unfold allocateMonth. clear IH. revert st.
  induction priorityOrder as [|x xs IH]; intros st; [done|].
  cbn [foldl]. by rewrite IH, allocate_bucket.
Qed.

Lemma scenarioFrom_bucket eff projects priorityOrder shifts months k :
  Utilization.bucket
    <$> Result.bucketUtilization
          (scenarioFrom eff projects priorityOrder shifts months) !! k
  = eff !! k.
Proof.
  unfold scenarioFrom, finalUtilization. simpl. rewrite map_lookup_imap.
  set (st := allocateAll _ _ _ _).
  pose proof (allocateAll_bucket (scenarioProjects projects shifts months)
                priorityOrder months
                (initState eff (scenarioProjects projects shifts months)
                   priorityOrder months) k) as Hb.
  fold st in Hb. unfold initState, initUtilization in Hb. simpl in Hb.
  rewrite lookup_fmap in Hb.
  destruct (State.bucketUtilization st !! k) as [u|]; simpl in *.
  - destruct (eff !! k) as [b|]; simpl in *; [|done].
    assert (Hfold : ∀ cap l v, Utilization.bucket
                      (foldl (setUtilization cap) v l) = Utilization.bucket v).
    { intros cap l. induction l as [|x xs IH]; intros v; [done|].
      cbn [foldl]. by rewrite IH. }
    rewrite Hfold.
    destruct (initUtilization_fold b months (Utilization.mk b ∅ ∅ ∅) "")
      as (Hbk & _). cbv zeta in Hbk. rewrite Hbk in Hb. simpl in Hb.
    congruence.
  - by destruct (eff !! k).
Qed.

(** ** No assignment reaches an object of the caller *)

Section Frame.
Import Store.
Variable h0 : store.


Lemma safe_ret {A} (Q : A → Prop) a : Q a → safe h0 Q (ret a).
Proof. intros HQ h Hg. split; [done|]. by intros ? [= <-]. Qed.

Lemma safe_throw {A} (Q : A → Prop) : safe h0 Q throw.
Proof. intros h Hg. split; [done|]. by intros ?. Qed.

Lemma safe_bind {A B} (Q : A → Prop) (R : B → Prop) c f :
  safe h0 Q c → (∀ a, Q a → safe h0 R (f a)) → safe h0 R (bind c f).
Proof.
  intros Hc Hf h Hg. unfold bind. destruct (Hc h Hg) as [Hg' HQ].
  destruct (c h) as [h' [a|]]; simpl in *.
  - by apply (Hf a (HQ a eq_refl)).
  - split; [done|]. by intros ?.
Qed.

Lemma safe_weaken {A} (Q Q' : A → Prop) c :
  safe h0 Q c → (∀ a, Q a → Q' a) → safe h0 Q' c.
Proof.
  intros Hc HQ h Hg. destruct (Hc h Hg) as [Hg' Ha].
  split; [done|]. intros a Hr. by apply HQ, Ha.
Qed.

Lemma safe_alloc o : owns (isNew h0) o → safe h0 (isNew h0) (alloc o).
Proof.
  intros Ho h [Hsub Hown]. unfold alloc. simpl.
  assert (Hl : h !! fresh (dom h) = None).
  { apply not_elem_of_dom, is_fresh. }
  assert (Hl0 : h0 !! fresh (dom h) = None).
  { by apply (lookup_weaken_None h0 h). }
  split; [|by intros ? [= <-]]. split.
  - by apply insert_subseteq_r.
  - intros l o'. rewrite lookup_insert. case_decide.
    + by intros [= <-] _.
    + apply Hown.
Qed.

Lemma safe_load l : safe h0 (λ o, isNew h0 l → owns (isNew h0) o) (load l).
Proof.
  intros h [Hsub Hown]. unfold load. simpl. split; [done|].
  intros o Ho Hl. by apply (Hown l).
Qed.

Lemma safe_assign l o :
  isNew h0 l → owns (isNew h0) o → safe h0 (λ _, True) (assign l o).
Proof.
  intros Hl Ho h [Hsub Hown]. unfold assign. simpl. split; [|done]. split.
  - by apply insert_subseteq_r.
  - intros l' o'. rewrite lookup_insert. case_decide.
    + by intros [= <-] _.
    + apply Hown.
Qed.

(** A typed load: a plain load, then a case on the shape of the object. *)
Local Ltac load_shape :=
  eapply safe_bind; [apply safe_load|];
  intros [] ?; by (apply safe_ret || apply safe_throw).

Lemma safe_loadHours l : safe h0 (λ _, True) (loadHours l).
Proof. load_shape. Qed.

Lemma safe_loadRow l : safe h0 (λ _, True) (loadRow l).
Proof. load_shape. Qed.

Lemma safe_loadMonths l : safe h0 (λ _, True) (loadMonths l).
Proof. load_shape. Qed.

Lemma safe_loadShifts l : safe h0 (λ _, True) (loadShifts l).
Proof. load_shape. Qed.

Lemma safe_loadResource l : safe h0 (λ _, True) (loadResource l).
Proof. load_shape. Qed.

Lemma safe_loadProject l : safe h0 (λ _, True) (loadProject l).
Proof. load_shape. Qed.

Lemma safe_loadBucket l :
  safe h0 (λ b, isNew h0 l → isNew h0 (BucketObj.monthly_capacity b))
       (loadBucket l).
Proof. load_shape. Qed.

Lemma safe_loadUtilization l :
  safe h0 (λ u, isNew h0 l →
                isNew h0 (UtilizationObj.monthly_utilization u)
                ∧ isNew h0 (UtilizationObj.monthly_consumed u)
                ∧ isNew h0 (UtilizationObj.monthly_remaining u))
       (loadUtilization l).
Proof. load_shape. Qed.

Lemma safe_loadStatus l :
  safe h0 (λ s, isNew h0 l → isNew h0 (StatusObj.monthlyStatus s))
       (loadStatus l).
Proof. load_shape. Qed.

Lemma safe_forEach {A} (l : list A) f :
  (∀ x, x ∈ l → safe h0 (λ _, True) (f x)) →
  safe h0 (λ _, True) (forEach l f).
Proof.
  induction l as [|x rest IH]; intros Hf; simpl.
  - by apply safe_ret.
  - eapply safe_bind; [apply Hf; by left|].
    intros _ _. apply IH. intros y Hy. apply Hf. by right.
Qed.

Lemma safe_foldM {A B} (I : B → Prop) (f : B → A → M B) b l :
  I b →
  (∀ b x, I b → x ∈ l → safe h0 I (f b x)) →
  safe h0 I (foldM f b l).
Proof.
  revert b. induction l as [|x rest IH]; intros b Hb Hf; simpl.
  - by apply safe_ret.
  - eapply safe_bind; [apply Hf; [done|by left]|].
    intros b' Hb'. apply IH; [done|].
    intros b'' y Hb'' Hy. apply Hf; [done|by right].
Qed.

Lemma safe_mapM {A B} (f : A → M B) l :
  (∀ x, safe h0 (λ _, True) (f x)) → safe h0 (λ _, True) (mapM f l).
Proof.
  intros Hf. induction l as [|x rest IH]; simpl.
  - by apply safe_ret.
  - eapply safe_bind; [apply Hf|]. intros y _.
    eapply safe_bind; [apply IH|]. intros ys _. by apply safe_ret.
Qed.

Lemma allNew_insert table k l :
  allNew h0 table → isNew h0 l → allNew h0 (<[k := l]> table).
Proof. intros Ht Hl. by apply map_Forall_insert_2. Qed.

Lemma allNew_entry table (e : string * loc) :
  allNew h0 table → e ∈ map_to_list table → isNew h0 e.2.
Proof.
  intros Ht He. destruct e as [k l]. apply elem_of_map_to_list in He.
  by apply (Ht k l).
Qed.

Lemma safe_addBaseline eff bucketRef :
  allNew h0 eff → safe h0 (allNew h0) (addBaseline eff bucketRef).
Proof.
  intros He. unfold addBaseline.
  eapply safe_bind; [apply safe_loadBucket|]. intros bucket _.
  eapply safe_bind; [apply safe_loadHours|]. intros capacity _.
  eapply safe_bind; [by apply safe_alloc|]. intros copy Hcopy.
  eapply safe_bind; [by apply safe_alloc|]. intros entry Hentry.
  apply safe_ret. by apply allNew_insert.
Qed.

Lemma safe_addVirtual now months st resourceRef :
  allNew h0 st.1 →
  safe h0 (λ st', allNew h0 st'.1) (addVirtual now months st resourceRef).
Proof.
  destruct st as [eff ticks]. simpl. intros He. unfold addVirtual.
  eapply safe_bind; [apply safe_loadResource|]. intros resource _.
  destruct (eff !! resourceKey resource) as [entry|] eqn:Hentry.
  - eapply safe_bind; [|intros _ _; by apply safe_ret].
    apply safe_forEach. intros month _.
    eapply safe_bind; [apply safe_loadBucket|]. intros bucket Hb.
    eapply safe_bind; [apply safe_loadHours|]. intros capacity _.
    apply safe_assign; [|done]. apply Hb. by apply (He _ _ Hentry).
  - eapply safe_bind; [by apply safe_alloc|]. intros mc Hmc.
    eapply safe_bind.
    { apply safe_forEach. intros month _.
      eapply safe_bind; [apply safe_loadHours|]. intros capacity _.
      by apply safe_assign. }
    intros _ _. eapply safe_bind; [by apply safe_alloc|]. intros entry He'.
    apply safe_ret. by apply allNew_insert.
Qed.

Lemma safe_calculateEffectiveCapacity now baseline virtuals months :
  safe h0 (allNew h0)
    (Store.calculateEffectiveCapacity now baseline virtuals months).
Proof.
  unfold Store.calculateEffectiveCapacity.
  eapply safe_bind.
  { apply (safe_foldM (allNew h0)); [apply map_Forall_empty|].
    intros eff bl He _. by apply safe_addBaseline. }
  intros eff He. eapply safe_bind.
  { apply (safe_foldM (λ st, allNew h0 st.1)); [done|].
    intros st rl Hst _. by apply safe_addVirtual. }
  intros st Hst. by apply safe_ret.
Qed.

Lemma safe_shiftProject timelineShifts months projectRef :
  safe h0 (λ _, True) (Store.shiftProject timelineShifts months projectRef).
Proof.
  unfold Store.shiftProject.
  eapply safe_bind; [apply safe_loadProject|]. intros project _.
  eapply safe_bind; [apply safe_loadShifts|]. intros shifts _.
  destruct (shifts !! ProjectObj.id project) as [shift|];
    [|by apply safe_ret].
  case_decide; [by apply safe_ret|].
  eapply safe_bind; [by apply safe_alloc|]. intros sd Hsd.
  eapply safe_bind; [apply safe_loadHours|]. intros demand _.
  eapply safe_bind.
  { apply safe_forEach. intros e _.
    eapply safe_bind; [apply safe_loadHours|]. intros shifted _.
    by apply safe_assign. }
  intros _ _. eapply safe_weaken; [by apply safe_alloc|done].
Qed.

Lemma safe_addRemaining remainingCapacity e :
  allNew h0 remainingCapacity →
  safe h0 (allNew h0) (addRemaining remainingCapacity e).
Proof.
  intros Hr. unfold addRemaining.
  eapply safe_bind; [apply safe_loadBucket|]. intros bucket _.
  eapply safe_bind; [apply safe_loadHours|]. intros capacity _.
  eapply safe_bind; [by apply safe_alloc|]. intros row Hrow.
  apply safe_ret. by apply allNew_insert.
Qed.

Lemma safe_initUtilizationMonth bucket entry month :
  isNew h0 entry →
  safe h0 (λ _, True) (Store.initUtilizationMonth bucket entry month).
Proof.
  intros He. unfold Store.initUtilizationMonth.
  eapply safe_bind; [apply safe_loadUtilization|]. intros u Hu.
  destruct (Hu He) as (Hut & Hc & Hr).
  eapply safe_bind; [apply safe_loadHours|]. intros consumed _.
  eapply safe_bind; [by apply safe_assign|]. intros _ _.
  eapply safe_bind; [apply safe_loadHours|]. intros capacity _.
  eapply safe_bind; [apply safe_loadHours|]. intros remaining _.
  eapply safe_bind; [by apply safe_assign|]. intros _ _.
  eapply safe_bind; [apply safe_loadHours|]. intros utilization _.
  by apply safe_assign.
Qed.

Lemma safe_addUtilization months bucketUtilization e :
  allNew h0 bucketUtilization →
  safe h0 (allNew h0) (addUtilization months bucketUtilization e).
Proof.
  intros Hb. unfold addUtilization.
  eapply safe_bind; [apply safe_loadBucket|]. intros bucket _.
  eapply safe_bind; [by apply safe_alloc|]. intros mu Hmu.
  eapply safe_bind; [by apply safe_alloc|]. intros mc Hmc.
  eapply safe_bind; [by apply safe_alloc|]. intros mr Hmr.
  eapply safe_bind; [by apply safe_alloc|]. intros entry Hentry.
  eapply safe_bind.
  { apply safe_forEach. intros month _.
    by apply safe_initUtilizationMonth. }
  intros _ _. apply safe_ret. by apply allNew_insert.
Qed.

Lemma safe_addProjectStatus projectMap st projectId :
  allNew h0 st.1 →
  safe h0 (λ st', allNew h0 st'.1)
    (Store.addProjectStatus projectMap st projectId).
Proof.
  destruct st as [projectStatus priority]. simpl. intros Hp.
  unfold Store.addProjectStatus.
  destruct (projectMap !! projectId) as [projectRef|]; [|by apply safe_ret].
  eapply safe_bind; [apply safe_loadProject|]. intros project _.
  eapply safe_bind; [by apply safe_alloc|]. intros ms Hms.
  eapply safe_bind; [by apply safe_alloc|]. intros entry Hentry.
  apply safe_ret. by apply allNew_insert.
Qed.

Lemma safe_setMonth projectStatus projectId month record :
  allNew h0 projectStatus →
  safe h0 (λ _, True) (setMonth projectStatus projectId month record).
Proof.
  intros Hp. unfold setMonth.
  destruct (projectStatus !! projectId) as [entry|] eqn:He;
    [|apply safe_throw].
  eapply safe_bind; [apply safe_loadStatus|]. intros s Hs.
  eapply safe_bind; [apply safe_loadMonths|]. intros records _.
  apply safe_assign; [|done]. apply Hs. by apply (Hp _ _ He).
Qed.

Lemma safe_addDeficit projectStatus projectId deficit :
  allNew h0 projectStatus →
  safe h0 (λ _, True) (addDeficit projectStatus projectId deficit).
Proof.
  intros Hp. unfold addDeficit.
  destruct (projectStatus !! projectId) as [entry|] eqn:He;
    [|apply safe_throw].
  eapply safe_bind; [apply safe_loadStatus|]. intros s Hs.
  apply safe_assign; [by apply (Hp _ _ He)|].
  simpl. apply Hs. by apply (Hp _ _ He).
Qed.

Lemma safe_readAvailable remainingCapacity bucketKey month :
  safe h0 (λ _, True) (readAvailable remainingCapacity bucketKey month).
Proof.
  unfold readAvailable.
  destruct (remainingCapacity !! bucketKey); [|by apply safe_ret].
  eapply safe_bind; [apply safe_loadRow|]. intros row _. by apply safe_ret.
Qed.

Lemma safe_updateRow remainingCapacity bucketKey f :
  allNew h0 remainingCapacity →
  safe h0 (λ _, True) (updateRow remainingCapacity bucketKey f).
Proof.
  intros Hr. unfold updateRow.
  destruct (remainingCapacity !! bucketKey) as [rowRef|] eqn:He;
    [|by apply safe_ret].
  eapply safe_bind; [apply safe_loadRow|]. intros row _.
  apply safe_assign; [|done]. by apply (Hr _ _ He).
Qed.

Lemma safe_updateUtilization bucketUtilization bucketKey month used f :
  allNew h0 bucketUtilization →
  safe h0 (λ _, True)
    (updateUtilization bucketUtilization bucketKey month used f).
Proof.
  intros Hb. unfold updateUtilization.
  destruct (bucketUtilization !! bucketKey) as [entry|] eqn:He;
    [|by apply safe_ret].
  eapply safe_bind; [apply safe_loadUtilization|]. intros u Hu.
  destruct (Hu (Hb _ _ He)) as (Hut & Hc & Hr).
  eapply safe_bind; [apply safe_loadHours|]. intros consumed _.
  eapply safe_bind; [by apply safe_assign|]. intros _ _.
  eapply safe_bind; [apply safe_loadHours|]. intros hours _.
  by apply safe_assign.
Qed.

Lemma safe_allocate projectMap remainingCapacity bucketUtilization
    projectStatus month totalDeficit projectId :
  allNew h0 remainingCapacity → allNew h0 bucketUtilization →
  allNew h0 projectStatus →
  safe h0 (λ _, True)
    (Store.allocate projectMap remainingCapacity bucketUtilization
       projectStatus month totalDeficit projectId).
Proof.
  intros Hr Hb Hp. unfold Store.allocate.
  destruct (projectMap !! projectId) as [projectRef|]; [|by apply safe_ret].
  eapply safe_bind; [apply safe_loadProject|]. intros project _.
  eapply safe_bind; [apply safe_loadHours|]. intros demands _.
  eapply safe_bind; [apply safe_readAvailable|]. intros available _.
  repeat case_decide;
    repeat (eapply safe_bind;
            [first [ by apply safe_setMonth | by apply safe_updateRow
                   | by apply safe_addDeficit
                   | by apply safe_updateUtilization ]
            | intros _ _ ]);
    by apply safe_ret.
Qed.

Lemma safe_summarize entry :
  isNew h0 entry → safe h0 (λ _, True) (Store.summarize entry).
Proof.
  intros He. unfold Store.summarize.
  eapply safe_bind; [apply safe_loadStatus|]. intros s Hs.
  eapply safe_bind; [apply safe_loadMonths|]. intros records _.
  apply safe_assign; [done|]. simpl. by apply Hs.
Qed.

Lemma safe_setUtilization effectiveCapacity key entry month :
  isNew h0 entry →
  safe h0 (λ _, True)
    (Store.setUtilization effectiveCapacity key entry month).
Proof.
  intros He. unfold Store.setUtilization.
  destruct (effectiveCapacity !! key); [|apply safe_throw].
  eapply safe_bind; [apply safe_loadBucket|]. intros bucket _.
  eapply safe_bind; [apply safe_loadHours|]. intros capacities _.
  eapply safe_bind; [apply safe_loadUtilization|]. intros u Hu.
  destruct (Hu He) as (Hut & _).
  eapply safe_bind; [apply safe_loadHours|]. intros consumed _.
  eapply safe_bind; [apply safe_loadHours|]. intros utilization _.
  by apply safe_assign.
Qed.

Lemma safe_calculateScenario now baseline projects priorityOrder virtuals
    timelineShifts months :
  safe h0 (λ _, True)
    (Store.calculateScenario now baseline projects priorityOrder virtuals
       timelineShifts months).
Proof.
  unfold Store.calculateScenario.
  eapply safe_bind; [apply safe_calculateEffectiveCapacity|].
  intros eff Heff.
  eapply safe_bind.
  { apply safe_mapM. intros pl. apply safe_shiftProject. }
  intros shiftedProjects _.
  eapply safe_bind.
  { apply (safe_foldM (λ _, True)); [done|]. intros pm pl _ _.
    unfold addProject.
    eapply safe_bind; [apply safe_loadProject|]. intros ??.
    by apply safe_ret. }
  intros projectMap _.
  eapply safe_bind.
  { apply (safe_foldM (allNew h0)); [apply map_Forall_empty|].
    intros rc e Hrc _. by apply safe_addRemaining. }
  intros remainingCapacity Hrc.
  eapply safe_bind.
  { apply (safe_foldM (allNew h0)); [apply map_Forall_empty|].
    intros bu e Hbu _. by apply safe_addUtilization. }
  intros bucketUtilization Hbu.
  eapply safe_bind.
  { apply (safe_foldM (λ st, allNew h0 st.1)); [apply map_Forall_empty|].
    intros st pid Hst _. by apply safe_addProjectStatus. }
  intros st Hst.
  eapply safe_bind.
  { apply (safe_foldM (λ _, True)); [done|]. intros total month _ _.
    apply (safe_foldM (λ _, True)); [done|]. intros total' pid _ _.
    by apply safe_allocate. }
  intros totalDeficit _.
  eapply safe_bind.
  { apply safe_forEach. intros e He. apply safe_summarize.
    by apply (allNew_entry st.1). }
  intros _ _.
  eapply safe_bind.
  { apply safe_forEach. intros e He. apply safe_forEach. intros month _.
    apply safe_setUtilization. by apply (allNew_entry bucketUtilization). }
  intros _ _. by apply safe_ret.
Qed.

End Frame.

(** Every object that is in the store when [calculateScenario] is called is
    in the store, unchanged, when the call ends, whether it returns or
    throws. *)
Lemma store_untouched now baseline projects priorityOrder virtuals
    timelineShifts months (h : Store.store) :
  h ⊆ (Store.calculateScenario now baseline projects priorityOrder virtuals
         timelineShifts months h).1.
Proof.
  destruct (safe_calculateScenario h now baseline projects priorityOrder
              virtuals timelineShifts months h) as [[Hsub _] _]; [|done].
  split; [done|]. intros l o Ho Hn. congruence.
Qed.

(** The store embedding on the worked example: the run returns, with the
    total deficit 20; the entry of the second project shares the demand
    object of the caller's project (reference 4), which the run leaves as it
    was. *)
Example worked_store_total :
  Store.Result.totalDeficit <$> workedRun.2 = Some 20.
Proof. vm_compute. reflexivity. Qed.

Example worked_store_p2 :
  match workedRun with
  | (h, Some r) =>
      match Store.Result.projectStatus r !! "p2" with
      | Some l => h !! l
      | None => None
      end
  | _ => None
  end
  = Some (Store.OStatus
            (Store.StatusObj.mk
               (Store.ProjectObj.mk "p2" "p2" "Digital" "Developer" "London"
                  4%nat 60 None)
               2 16%nat 20 "digital|developer|london" (Some unstaffed))).
Proof. vm_compute. reflexivity. Qed.

Example worked_store_demand_kept :
  workedRun.1 !! 4%nat = Some (Store.OHours {["Jan" := 60]}).
Proof. vm_compute. reflexivity. Qed.

(** ** Determinism and purity *)

(** The claim as stated fails: the id of a synthesized bucket is the clock
    reading, so two runs on the same inputs at different times differ. *)
Lemma clock_shows_in_result :
  calculateScenario (λ _, 1) [] [] [] [zeroHire] ∅ jan
  ≠ calculateScenario (λ _, 2) [] [] [] [zeroHire] ∅ jan.
Proof.
  intros H.
  apply (f_equal (λ r, Bucket.id <$> Result.effectiveCapacity r
                                       !! resourceKey zeroHire)) in H.
  vm_compute in H. discriminate.
Qed.

Lemma utilization_same u u' :
  eraseUtilizationId u = eraseUtilizationId u' →
  Utilization.bucket u = Utilization.bucket u' → u = u'.
Proof.
  intros H Hb.
  pose proof (f_equal Utilization.monthly_utilization H) as H1.
  pose proof (f_equal Utilization.monthly_consumed H) as H2.
  pose proof (f_equal Utilization.monthly_remaining H) as H3.
  destruct u, u'; simpl in *. congruence.
Qed.

(** C2, amended.  Two runs on the same inputs, whatever the clock shows
    during each, give results that are identical in every field except the
    [id] of the buckets synthesized for virtual resources: the results are
    equal once the bucket ids are blanked, and the entries of every baseline
    key are equal as they are.  And no run assigns to an object that existed
    before it: every object of the store the run starts from is in the store
    the run ends with, unchanged. *)
Theorem deterministic_up_to_clock_and_pure (now now' : nat → Z) baseline
    projects priorityOrder virtuals shifts months :
  let r := calculateScenario now baseline projects priorityOrder virtuals
             shifts months in
  let r' := calculateScenario now' baseline projects priorityOrder virtuals
              shifts months in
  eraseIds r = eraseIds r'
  ∧ (∀ k, is_Some (baselineTable baseline !! k) →
       Result.effectiveCapacity r !! k = Result.effectiveCapacity r' !! k
       ∧ Result.bucketUtilization r !! k = Result.bucketUtilization r' !! k)
  ∧ (∀ baselineRefs projectRefs virtualRefs shiftsRef (h : gmap nat Store.obj),
       h ⊆ (Store.calculateScenario now baselineRefs projectRefs priorityOrder
              virtualRefs shiftsRef months h).1).
Proof.
  intros r r'.
  pose proof (effectiveCapacity_sameButClock now now' baseline virtuals months)
    as Hsame.
  assert (Herased : eraseIds r = eraseIds r').
  { unfold r, r'. rewrite !scenario_from, !scenarioFrom_erased.
    by rewrite (sameButClock_erased _ _ _ Hsame). }
  split; [exact Herased|]. split.
  - intros k Hk. destruct (Hsame k) as [_ Hb]. destruct (Hb Hk) as [_ Heff].
    split; [exact Heff|].
    pose proof (scenarioFrom_bucket
                  (calculateEffectiveCapacity now baseline virtuals months)
                  projects priorityOrder shifts months k) as H1.
    pose proof (scenarioFrom_bucket
                  (calculateEffectiveCapacity now' baseline virtuals months)
                  projects priorityOrder shifts months k) as H2.
    rewrite <- !scenario_from in H1, H2. fold r in H1. fold r' in H2.
    apply (f_equal (λ x, Result.bucketUtilization x !! k)) in Herased.
    change ((eraseUtilizationId <$> Result.bucketUtilization r) !! k
            = (eraseUtilizationId <$> Result.bucketUtilization r') !! k)
      in Herased.
    rewrite !lookup_fmap in Herased.
    change (Result.effectiveCapacity r !! k) with
      (calculateEffectiveCapacity now baseline virtuals months !! k) in Heff.
    change (Result.effectiveCapacity r' !! k) with
      (calculateEffectiveCapacity now' baseline virtuals months !! k) in Heff.
    rewrite <- Heff in H2. rewrite <- H1 in H2.
    destruct (Result.bucketUtilization r !! k) as [u|],
      (Result.bucketUtilization r' !! k) as [u'|];
      cbn [fmap option_fmap option_map] in *; try done.
    f_equal. apply utilization_same; congruence.
  - intros. apply store_untouched.
Qed.

(** * Further properties of the engine *)

(** ** Sums over a table *)

Lemma mapSum_empty {A} (f : A → Z) : mapSum f ∅ = 0.
Proof. apply map_fold_empty. Qed.

Lemma mapSum_insert {A} (f : A → Z) (table : gmap string A) k x :
  table !! k = None → mapSum f (<[k := x]> table) = f x + mapSum f table.
Proof.
  intros Hk. unfold mapSum.
  rewrite (map_fold_insert_L (λ _ y total, f y + total) 0 k x table);
    [done| |done].
  intros. lia.
Qed.

Lemma mapSum_delete {A} (f : A → Z) (table : gmap string A) k x :
  table !! k = Some x → mapSum f table = f x + mapSum f (delete k table).
Proof.
  intros Hk. rewrite <- (insert_delete_id table k x) at 1 by done.
  apply mapSum_insert, lookup_delete_eq.
Qed.

Lemma mapSum_insert_Some {A} (f : A → Z) (table : gmap string A) k x y :
  table !! k = Some x →
  mapSum f (<[k := y]> table) = mapSum f table - f x + f y.
Proof.
  intros Hk. rewrite (mapSum_delete f table k x Hk).
  rewrite <- insert_delete_eq, mapSum_insert by apply lookup_delete_eq. lia.
Qed.

Lemma mapSum_alter {A} (f : A → Z) (g : A → A) (table : gmap string A) k x :
  table !! k = Some x →
  mapSum f (alter g k table) = mapSum f table - f x + f (g x).
Proof.
  intros Hk. rewrite (alter_alt_Some g table k x Hk).
  by apply mapSum_insert_Some.
Qed.

Lemma mapSum_fmap {A B} (f : B → Z) (g : A → B) (table : gmap string A) :
  mapSum f (g <$> table) = mapSum (f ∘ g) table.
Proof.
  induction table as [|k x table Hk IH] using map_ind.
  - by rewrite fmap_empty, !mapSum_empty.
  - rewrite fmap_insert, !mapSum_insert; [|done|by rewrite lookup_fmap, Hk].
    simpl. by rewrite IH.
Qed.

Lemma mapSum_zero {A} (f : A → Z) (table : gmap string A) :
  (∀ k x, table !! k = Some x → f x = 0) → mapSum f table = 0.
Proof.
  induction table as [|k x table Hk IH] using map_ind; intros Hf.
  - apply mapSum_empty.
  - rewrite mapSum_insert by done.
    rewrite (Hf k x) by apply lookup_insert_eq. rewrite IH; [done|].
    intros k' x' Hk'. apply (Hf k'). rewrite lookup_insert_ne; [done|].
    intros ->. congruence.
Qed.

Lemma mapSum_nonneg {A} (f : A → Z) (table : gmap string A) :
  (∀ k x, table !! k = Some x → 0 ≤ f x) → 0 ≤ mapSum f table.
Proof.
  induction table as [|k x table Hk IH] using map_ind; intros Hf.
  - by rewrite mapSum_empty.
  - rewrite mapSum_insert by done.
    pose proof (Hf k x (lookup_insert_eq _ _ _)).
    assert (0 ≤ mapSum f table); [|lia]. apply IH.
    intros k' x' Hk'. apply (Hf k'). rewrite lookup_insert_ne; [done|].
    intros ->. congruence.
Qed.

Lemma mapSum_zero_inv {A} (f : A → Z) (table : gmap string A) k x :
  (∀ k x, table !! k = Some x → 0 ≤ f x) →
  mapSum f table = 0 → table !! k = Some x → f x = 0.
Proof.
  intros Hf Hsum Hk. rewrite (mapSum_delete f table k x Hk) in Hsum.
  pose proof (Hf k x Hk).
  assert (0 ≤ mapSum f (delete k table)); [|lia].
  apply mapSum_nonneg. intros k' x' Hk'.
  apply lookup_delete_Some in Hk' as [_ Hk']. by apply (Hf k').
Qed.

(** ** Which projects get an entry *)

Lemma shiftProject_id shifts months project :
  Project.id (shiftProject shifts months project) = Project.id project.
Proof.
  unfold shiftProject. destruct (shifts !! Project.id project); [|done].
  by destruct (decide _).
Qed.

Lemma shiftProject_key shifts months project :
  projectKey (shiftProject shifts months project) = projectKey project.
Proof.
  unfold shiftProject. destruct (shifts !! Project.id project); [|done].
  by destruct (decide _).
Qed.

Lemma buildProjectMap_snoc l project :
  buildProjectMap (l ++ [project])
  = <[Project.id project := project]> (buildProjectMap l).
Proof. unfold buildProjectMap. by rewrite foldl_app. Qed.

Lemma buildProjectMap_dom shiftedProjects pid :
  is_Some (buildProjectMap shiftedProjects !! pid)
  ↔ ∃ project, project ∈ shiftedProjects ∧ Project.id project = pid.
Proof.
  induction shiftedProjects as [|project l IH] using rev_ind.
  - unfold buildProjectMap. cbn. rewrite lookup_empty. split.
    + by intros [? ?].
    + intros (? & H & _). by apply elem_of_nil in H.
  - rewrite buildProjectMap_snoc.
    destruct (decide (Project.id project = pid)) as [<-|Hne].
    + rewrite lookup_insert_eq. split; [|by eauto].
      intros _. exists project. split; [|done].
      apply elem_of_app. right. by apply list_elem_of_singleton.
    + rewrite lookup_insert_ne by done. rewrite IH. split.
      * intros (q & Hq & Hid). exists q. split; [|done].
        apply elem_of_app. by left.
      * intros (q & Hq & Hid). apply elem_of_app in Hq as [Hq|Hq]; [by eauto|].
        apply list_elem_of_singleton in Hq. by subst.
Qed.

Lemma scenarioProjects_dom projects shifts months pid :
  is_Some (scenarioProjects projects shifts months !! pid)
  ↔ ∃ project, project ∈ projects ∧ Project.id project = pid.
Proof.
  unfold scenarioProjects. rewrite buildProjectMap_dom.
  unfold applyTimelineShifts. split.
  - intros (q & Hq & Hid). apply list_elem_of_fmap in Hq as (p & -> & Hp).
    exists p. split; [done|]. by rewrite shiftProject_id in Hid.
  - intros (p & Hp & Hid). exists (shiftProject shifts months p). split.
    + apply list_elem_of_fmap. by exists p.
    + by rewrite shiftProject_id.
Qed.

Lemma scenario_entries now baseline projects priorityOrder virtuals shifts
    months pid :
  is_Some (Result.projectStatus
             (calculateScenario now baseline projects priorityOrder virtuals
                shifts months) !! pid)
  ↔ pid ∈ priorityOrder
    ∧ ∃ project, project ∈ projects ∧ Project.id project = pid.
Proof.
  rewrite scenario_projectStatus, lookup_fmap, fmap_is_Some.
  rewrite allocateAll_dom. unfold initState. cbn [State.projectStatus].
  by rewrite initProjectStatus_dom, scenarioProjects_dom.
Qed.

Lemma worked_plainKeys :
  plainKeys [demand60 "p1"; demand60 "p2"] ["p1"; "p2"].
Proof.
  split.
  - intros p Hp. apply elem_of_cons in Hp as [->|Hp];
      [|apply list_elem_of_singleton in Hp as ->]; discriminate.
  - intros pid Hpid Hname. exfalso.
    apply elem_of_cons in Hpid as [->|Hpid];
      [|apply list_elem_of_singleton in Hpid as ->];
      apply (bool_decide_eq_true_2 _) in Hname; vm_compute in Hname;
      discriminate.
Qed.

(** X1.  The status table of a result has an entry of its own for exactly
    the ids of the priority order that some project record carries, when no
    record has the id [__proto__] and every id of the order that is a name
    inherited by an object literal has a record: step 5 and step 6 then find
    under an id of the order a record of [projectMap]'s own or nothing, an
    id of the order without a record is skipped, and a project that the
    order does not list is not reported at all. *)
Theorem status_entries (now : nat → Z) baseline projects priorityOrder
    virtuals shifts months pid :
  plainKeys projects priorityOrder →
  (pid ∈ priorityOrder →
   objectLookup
     (buildProjectMap (applyTimelineShifts projects shifts months)) pid
   = Own <$>
     buildProjectMap (applyTimelineShifts projects shifts months) !! pid)
  ∧ (is_Some (Result.projectStatus
                (calculateScenario now baseline projects priorityOrder
                   virtuals shifts months) !! pid)
     ↔ pid ∈ priorityOrder
       ∧ ∃ project, project ∈ projects ∧ Project.id project = pid).
Proof.
  intros [Hproto Hnames]. split; [|apply scenario_entries].
  intros Hpid. unfold objectLookup.
  destruct (buildProjectMap _ !! pid) as [project|] eqn:Hp; [done|].
  case_decide as Hname; [|done]. exfalso.
  destruct (Hnames pid Hpid Hname) as (p & Hin & Hid).
  assert (is_Some (scenarioProjects projects shifts months !! pid))
    as [? ?]; [|unfold scenarioProjects in *; congruence].
  apply scenarioProjects_dom. by exists p.
Qed.

Lemma status_entries_witness :
  ("p2" ∈ ["p1"; "p2"] →
   objectLookup
     (buildProjectMap
        (applyTimelineShifts [demand60 "p1"; demand60 "p2"] ∅ jan)) "p2"
   = Own <$>
     buildProjectMap
       (applyTimelineShifts [demand60 "p1"; demand60 "p2"] ∅ jan) !! "p2")
  ∧ (is_Some (Result.projectStatus
                (calculateScenario (λ _, 0) [bucket100]
                   [demand60 "p1"; demand60 "p2"] ["p1"; "p2"] [] ∅ jan)
                !! "p2")
     ↔ "p2" ∈ ["p1"; "p2"]
       ∧ ∃ project, project ∈ [demand60 "p1"; demand60 "p2"]
                    ∧ Project.id project = "p2").
Proof.
  apply (status_entries (λ _, 0) [bucket100] [demand60 "p1"; demand60 "p2"]
           ["p1"; "p2"] [] ∅ jan "p2").
  apply worked_plainKeys.
Defined.

(** Without a record, an id of the order that every object inherits is
    answered by [projectMap] all the same. *)
Example inherited_name_is_answered :
  objectLookup (buildProjectMap [demand60 "p1"]) "constructor"
  = Some (Inherited "constructor").
Proof. vm_compute. reflexivity. Qed.

(** ** The fields of an entry that the loops leave alone *)

Lemma writeMonth_fixed month ms p :
  fixedFields (writeMonth month ms p) = fixedFields p.
Proof. done. Qed.

Lemma allocate_fixed projectMap month st projectId pid :
  fixedFields <$> State.projectStatus (allocate projectMap month st projectId)
                    !! pid
  = fixedFields <$> State.projectStatus st !! pid.
Proof.
  destruct (projectMap !! projectId) as [project|] eqn:Hp.
  - rewrite (allocate_projectStatus _ _ _ _ _ Hp).
    destruct (decide (projectId = pid)) as [->|Hne].
    + rewrite lookup_alter_eq. by destruct (State.projectStatus st !! pid).
    + by rewrite lookup_alter_ne.
  - by rewrite allocate_skip.
Qed.

Lemma allocateMonth_fixed projectMap priorityOrder st month pid :
  fixedFields <$> State.projectStatus
                    (allocateMonth projectMap priorityOrder st month) !! pid
  = fixedFields <$> State.projectStatus st !! pid.
Proof.
  unfold allocateMonth. revert st.
  induction priorityOrder as [|x l IH]; intros st; [done|].
  cbn [foldl]. by rewrite IH, allocate_fixed.
Qed.

Lemma allocateAll_fixed projectMap priorityOrder months st pid :
  fixedFields <$> State.projectStatus
                    (allocateAll projectMap priorityOrder months st) !! pid
  = fixedFields <$> State.projectStatus st !! pid.
Proof.
  unfold allocateAll. revert st.
  induction months as [|m l IH]; intros st; [done|].
  cbn [foldl]. by rewrite IH, allocateMonth_fixed.
Qed.

Lemma addProjectStatus_count projectMap l acc n :
  (foldl (addProjectStatus projectMap) (acc, n) l).2 = (n + length l)%nat.
Proof.
  revert acc n. induction l as [|x l IH]; intros acc n; cbn [foldl length].
  - cbn. lia.
  - unfold addProjectStatus at 2. rewrite IH. lia.
Qed.

Lemma addProjectStatus_keeps projectMap l acc n pid :
  pid ∉ l →
  (foldl (addProjectStatus projectMap) (acc, n) l).1 !! pid = acc !! pid.
Proof.
  revert acc n. induction l as [|x l IH]; intros acc n Hpid; [done|].
  apply not_elem_of_cons in Hpid as [Hne Hpid].
  cbn [foldl]. unfold addProjectStatus at 2. rewrite IH by done.
  destruct (projectMap !! x); [|done]. by rewrite lookup_insert_ne.
Qed.

Lemma addProjectStatus_last projectMap before pid after acc n project :
  pid ∉ after →
  projectMap !! pid = Some project →
  (foldl (addProjectStatus projectMap) (acc, n) (before ++ pid :: after)).1
    !! pid
  = Some (ProjectStatus.mk project (S (n + length before)) ∅ 0
            (projectKey project) None).
Proof.
  intros Hafter Hp. rewrite foldl_app. cbn [foldl].
  destruct (foldl (addProjectStatus projectMap) (acc, n) before)
    as [acc' n'] eqn:Hbefore.
  assert (n' = (n + length before)%nat) as ->.
  { by rewrite <- (addProjectStatus_count projectMap before acc n), Hbefore. }
  unfold addProjectStatus at 2. rewrite Hp.
  rewrite addProjectStatus_keeps by done. apply lookup_insert_eq.
Qed.

(** X2.  The entry of a project carries the rank of the last position of
    its id in the priority order (counted from 1), the project record that
    the run uses (the shifted one) and the bucket key of that record; the
    allocation loops and the summarizer leave these fields as step 5 wrote
    them. *)
Theorem entry_rank_and_record (now : nat → Z) baseline projects before pid
    after virtuals shifts months project :
  pid ∉ after →
  buildProjectMap (applyTimelineShifts projects shifts months) !! pid
    = Some project →
  ∃ p,
    Result.projectStatus
      (calculateScenario now baseline projects (before ++ pid :: after)
         virtuals shifts months) !! pid = Some p
    ∧ ProjectStatus.priority p = S (length before)
    ∧ ProjectStatus.project p = project
    ∧ ProjectStatus.bucketKey p = projectKey project.
Proof.
  intros Hafter Hp. rewrite scenario_projectStatus, lookup_fmap.
  pose proof (allocateAll_fixed (scenarioProjects projects shifts months)
                (before ++ pid :: after) months
                (initState
                   (calculateEffectiveCapacity now baseline virtuals months)
                   (scenarioProjects projects shifts months)
                   (before ++ pid :: after) months) pid) as Hfixed.
  unfold initState in Hfixed at 2. cbn [State.projectStatus] in Hfixed.
  unfold initProjectStatus in Hfixed.
  rewrite (addProjectStatus_last _ _ _ _ _ _ project Hafter Hp) in Hfixed.
  destruct (State.projectStatus _ !! pid) as [p|]; [|done].
  exists (summarize p). split; [done|].
  cbn in Hfixed. injection Hfixed as H1 H2 H3 _.
  unfold summarize.
  repeat destruct (_ : bool); cbn; by rewrite ?H1, ?H2, ?H3.
Qed.

Lemma entry_rank_and_record_witness :
  ∃ p,
    Result.projectStatus
      (calculateScenario (λ _, 0) [bucket100] [demand60 "p1"; demand60 "p2"]
         (["p1"] ++ "p2" :: []) [] ∅ jan) !! "p2" = Some p
    ∧ ProjectStatus.priority p = 2%nat
    ∧ ProjectStatus.project p = demand60 "p2"
    ∧ ProjectStatus.bucketKey p = projectKey (demand60 "p2").
Proof.
  apply (entry_rank_and_record (λ _, 0) [bucket100]
           [demand60 "p1"; demand60 "p2"] ["p1"] "p2" [] [] ∅ jan
           (demand60 "p2")).
  - apply not_elem_of_nil.
  - vm_compute. reflexivity.
Defined.

(** ** The grand total and the totals of the projects *)

Lemma initProjectStatus_ready projectMap priorityOrder :
  entriesReady projectMap priorityOrder
    (initProjectStatus projectMap priorityOrder).
Proof. intros pid Hin Hp. by apply initProjectStatus_dom. Qed.

Lemma allocate_ready projectMap priorityOrder month st projectId :
  entriesReady projectMap priorityOrder (State.projectStatus st) →
  entriesReady projectMap priorityOrder
    (State.projectStatus (allocate projectMap month st projectId)).
Proof. intros H pid Hin Hp. apply allocate_dom. by apply H. Qed.

Lemma allocate_total projectMap priorityOrder month st projectId :
  projectId ∈ priorityOrder →
  entriesReady projectMap priorityOrder (State.projectStatus st) →
  State.totalDeficit st
  = mapSum ProjectStatus.totalDeficit (State.projectStatus st) →
  State.totalDeficit (allocate projectMap month st projectId)
  = mapSum ProjectStatus.totalDeficit
      (State.projectStatus (allocate projectMap month st projectId)).
Proof.
  intros Hin Hready Htotal.
  destruct (projectMap !! projectId) as [project|] eqn:Hp.
  - destruct (Hready projectId Hin) as [p Hentry]; [by eauto|].
    rewrite (allocate_eq _ _ _ _ _ Hp). cbn [State.totalDeficit
      State.projectStatus].
    rewrite (mapSum_alter _ _ _ _ p Hentry), Htotal.
    unfold writeMonth, ProjectStatus.add_deficit. cbn. lia.
  - by rewrite allocate_skip.
Qed.

Lemma allocateMonth_total projectMap priorityOrder l month st :
  (∀ x, x ∈ l → x ∈ priorityOrder) →
  entriesReady projectMap priorityOrder (State.projectStatus st) →
  State.totalDeficit st
  = mapSum ProjectStatus.totalDeficit (State.projectStatus st) →
  let st' := allocateMonth projectMap l st month in
  entriesReady projectMap priorityOrder (State.projectStatus st')
  ∧ State.totalDeficit st'
    = mapSum ProjectStatus.totalDeficit (State.projectStatus st').
Proof.
  unfold allocateMonth. revert st.
  induction l as [|x l IH]; intros st Hl Hready Htotal; [done|].
  cbn [foldl]. apply IH.
  - intros y Hy. apply Hl. by right.
  - by apply allocate_ready.
  - apply (allocate_total _ priorityOrder); [|done..]. apply Hl. by left.
Qed.

Lemma allocateAll_total projectMap priorityOrder months st :
  entriesReady projectMap priorityOrder (State.projectStatus st) →
  State.totalDeficit st
  = mapSum ProjectStatus.totalDeficit (State.projectStatus st) →
  let st' := allocateAll projectMap priorityOrder months st in
  entriesReady projectMap priorityOrder (State.projectStatus st')
  ∧ State.totalDeficit st'
    = mapSum ProjectStatus.totalDeficit (State.projectStatus st').
Proof.
  unfold allocateAll. revert st.
  induction months as [|m l IH]; intros st Hready Htotal; [done|].
  cbn [foldl].
  destruct (allocateMonth_total projectMap priorityOrder priorityOrder m st)
    as [Hready' Htotal']; [done..|].
  by apply IH.
Qed.

Lemma initProjectStatus_total projectMap priorityOrder :
  mapSum ProjectStatus.totalDeficit
    (initProjectStatus projectMap priorityOrder) = 0.
Proof.
  apply mapSum_zero. intros pid p Hp.
  by destruct (initProjectStatus_fresh _ _ _ _ Hp) as (_ & _ & ? & _).
Qed.

Lemma scenario_totalDeficit now baseline projects priorityOrder virtuals
    shifts months :
  Result.totalDeficit
    (calculateScenario now baseline projects priorityOrder virtuals shifts
       months)
  = State.totalDeficit
      (allocateAll (scenarioProjects projects shifts months) priorityOrder
         months
         (initState (calculateEffectiveCapacity now baseline virtuals months)
            (scenarioProjects projects shifts months) priorityOrder months)).
Proof. done. Qed.

Lemma mapSum_ext {A} (f g : A → Z) (table : gmap string A) :
  (∀ k x, table !! k = Some x → f x = g x) → mapSum f table = mapSum g table.
Proof.
  induction table as [|k x table Hk IH] using map_ind; intros Hfg.
  - by rewrite !mapSum_empty.
  - rewrite !mapSum_insert by done.
    rewrite (Hfg k x) by apply lookup_insert_eq. rewrite IH; [done|].
    intros k' x' Hk'. apply (Hfg k'). rewrite lookup_insert_ne; [done|].
    intros ->. congruence.
Qed.

Lemma mapSum_summarize projectStatus :
  mapSum ProjectStatus.totalDeficit (summarize <$> projectStatus)
  = mapSum ProjectStatus.totalDeficit projectStatus.
Proof.
  rewrite mapSum_fmap. apply mapSum_ext. intros k p _.
  apply summarize_totalDeficit.
Qed.

Lemma scenario_total_sum now baseline projects priorityOrder virtuals shifts
    months :
  let result := calculateScenario now baseline projects priorityOrder virtuals
                  shifts months in
  Result.totalDeficit result
  = mapSum ProjectStatus.totalDeficit (Result.projectStatus result).
Proof.
  cbv zeta. rewrite scenario_totalDeficit, scenario_projectStatus.
  rewrite mapSum_summarize.
  apply allocateAll_total.
  - apply initProjectStatus_ready.
  - unfold initState. cbn [State.totalDeficit State.projectStatus].
    by rewrite initProjectStatus_total.
Qed.

(** ** Invariants of the status entries *)

Lemma allocate_entries (Φ : string → ProjectStatus.t → Prop) projectMap month
    st projectId :
  (∀ pid project p m a,
     projectMap !! pid = Some project → Φ pid p →
     Φ pid (writeMonth m (outcome (demandOf project m) a) p)) →
  (∀ pid p, State.projectStatus st !! pid = Some p → Φ pid p) →
  ∀ pid p,
    State.projectStatus (allocate projectMap month st projectId) !! pid
      = Some p → Φ pid p.
Proof.
  intros Hstep Hinv. destruct (projectMap !! projectId) as [project|] eqn:Hp;
    [|by rewrite allocate_skip].
  rewrite (allocate_projectStatus _ _ _ _ _ Hp).
  intros pid p. rewrite lookup_alter. case_decide as Hpid; [|apply Hinv].
  subst pid. destruct (State.projectStatus st !! projectId) as [p0|] eqn:H0;
    [|done].
  simpl. intros [= <-]. apply Hstep; [done|]. by apply Hinv.
Qed.

Lemma allocateMonth_entries (Φ : string → ProjectStatus.t → Prop) projectMap
    priorityOrder st month :
  (∀ pid project p m a,
     projectMap !! pid = Some project → Φ pid p →
     Φ pid (writeMonth m (outcome (demandOf project m) a) p)) →
  (∀ pid p, State.projectStatus st !! pid = Some p → Φ pid p) →
  ∀ pid p,
    State.projectStatus (allocateMonth projectMap priorityOrder st month)
      !! pid = Some p → Φ pid p.
Proof.
  intros Hstep. unfold allocateMonth. revert st.
  induction priorityOrder as [|x l IH]; intros st Hinv; [done|].
  cbn [foldl]. apply IH. by apply allocate_entries.
Qed.

Lemma allocateAll_entries (Φ : string → ProjectStatus.t → Prop) projectMap
    priorityOrder months st :
  (∀ pid project p m a,
     projectMap !! pid = Some project → Φ pid p →
     Φ pid (writeMonth m (outcome (demandOf project m) a) p)) →
  (∀ pid p, State.projectStatus st !! pid = Some p → Φ pid p) →
  ∀ pid p,
    State.projectStatus (allocateAll projectMap priorityOrder months st)
      !! pid = Some p → Φ pid p.
Proof.
  intros Hstep. unfold allocateAll. revert st.
  induction months as [|m l IH]; intros st Hinv; [done|].
  cbn [foldl]. apply IH. by apply allocateMonth_entries.
Qed.

Lemma outcome_hours d a :
  0 ≤ d →
  0 ≤ MonthStatus.allocated (outcome d a)
  ∧ MonthStatus.allocated (outcome d a) ≤ d
  ∧ 0 ≤ MonthStatus.deficit (outcome d a)
  ∧ MonthStatus.deficit (outcome d a) ≤ d
  ∧ MonthStatus.status (outcome d a)
    = statusOfHours (MonthStatus.allocated (outcome d a))
        (MonthStatus.deficit (outcome d a)).
Proof.
  intros Hd. unfold outcome, statusOfHours.
  repeat (destruct (decide _); cbn [MonthStatus.allocated MonthStatus.deficit
    MonthStatus.status]); repeat split; try done; lia.
Qed.

Lemma outcome_short d a :
  MonthStatus.status (outcome d a) = partial
  ∨ MonthStatus.status (outcome d a) = unstaffed →
  0 ≤ d → 0 < MonthStatus.deficit (outcome d a).
Proof.
  unfold outcome. repeat (destruct (decide _); cbn); intros [?|?] ?;
    try done; lia.
Qed.

Lemma outcome_not_short d a :
  MonthStatus.status (outcome d a) ≠ partial →
  MonthStatus.status (outcome d a) ≠ unstaffed →
  MonthStatus.deficit (outcome d a) = 0.
Proof. unfold outcome. by repeat (destruct (decide _); cbn). Qed.

Lemma outcomeRecords_step projectMap pid project p m a :
  projectMap !! pid = Some project → outcomeRecords projectMap pid p →
  outcomeRecords projectMap pid
    (writeMonth m (outcome (demandOf project m) a) p).
Proof.
  intros Hp (project' & Hp' & Hms). exists project. split; [done|].
  intros m' ms. rewrite writeMonth_lookup. case_decide as Hm.
  - intros [= <-]. subst m'. by exists a.
  - intros Hm'. destruct (Hms _ _ Hm') as [a' ->]. exists a'. congruence.
Qed.

Lemma initProjectStatus_outcomeRecords projectMap priorityOrder pid p :
  initProjectStatus projectMap priorityOrder !! pid = Some p →
  outcomeRecords projectMap pid p.
Proof.
  intros Hp. destruct (initProjectStatus_fresh _ _ _ _ Hp)
    as (Hproject & Hempty & _).
  exists (ProjectStatus.project p). split; [done|]. intros m ms.
  by rewrite Hempty, lookup_empty.
Qed.

Lemma scenario_outcomeRecords now baseline projects priorityOrder virtuals
    shifts months pid p :
  Result.projectStatus
    (calculateScenario now baseline projects priorityOrder virtuals shifts
       months) !! pid = Some p →
  outcomeRecords (scenarioProjects projects shifts months) pid p.
Proof.
  rewrite scenario_projectStatus, lookup_fmap.
  destruct (State.projectStatus _ !! pid) as [p0|] eqn:H0; [|done].
  intros [= <-].
  assert (outcomeRecords (scenarioProjects projects shifts months) pid p0)
    as (project & Hproject & Hms).
  { revert H0. apply allocateAll_entries.
    - intros. by apply outcomeRecords_step.
    - intros pid' p'. apply initProjectStatus_outcomeRecords. }
  exists project. split; [done|]. by rewrite summarize_monthlyStatus.
Qed.

Lemma demand60_nonneg q :
  q ∈ [demand60 "p1"; demand60 "p2"] → nonneg (Project.monthly_demand q).
Proof.
  intros Hq.
  apply elem_of_cons in Hq as [->|Hq];
    [|apply list_elem_of_singleton in Hq as ->];
    apply map_Forall_singleton; lia.
Qed.

(** X4.  When no demand is negative, the hours of every month record of a
    result lie between zero and the demand, and the status of the record is
    read off its hours: short of hours or not, some hours allocated or
    none. *)
Theorem month_record_bounds (now : nat → Z) baseline projects priorityOrder
    virtuals shifts months pid p m ms :
  (∀ q, q ∈ projects → nonneg (Project.monthly_demand q)) →
  Result.projectStatus
    (calculateScenario now baseline projects priorityOrder virtuals shifts
       months) !! pid = Some p →
  ProjectStatus.monthlyStatus p !! m = Some ms →
  0 ≤ MonthStatus.allocated ms ∧ MonthStatus.allocated ms ≤ MonthStatus.demand ms
  ∧ 0 ≤ MonthStatus.deficit ms ∧ MonthStatus.deficit ms ≤ MonthStatus.demand ms
  ∧ MonthStatus.status ms
    = statusOfHours (MonthStatus.allocated ms) (MonthStatus.deficit ms).
Proof.
  intros Hnonneg Hp Hms.
  destruct (scenario_outcomeRecords _ _ _ _ _ _ _ _ _ Hp)
    as (project & Hproject & Hrecords).
  destruct (Hrecords _ _ Hms) as [a ->]. rewrite outcome_demand.
  apply outcome_hours, demandOf_nonneg.
  by apply (scenarioProjects_nonneg projects shifts months pid).
Qed.

Lemma month_record_bounds_witness :
  let ms := MonthStatus.mk partial 60 40 20 in
  0 ≤ MonthStatus.allocated ms ∧ MonthStatus.allocated ms ≤ MonthStatus.demand ms
  ∧ 0 ≤ MonthStatus.deficit ms ∧ MonthStatus.deficit ms ≤ MonthStatus.demand ms
  ∧ MonthStatus.status ms
    = statusOfHours (MonthStatus.allocated ms) (MonthStatus.deficit ms).
Proof.
  apply (month_record_bounds (λ _, 0) [bucket100]
           [demand60 "p1"; demand60 "p2"] ["p1"; "p2"] [] ∅ jan "p2"
           workedP2 "Jan").
  - apply demand60_nonneg.
  - vm_compute. reflexivity.
  - vm_compute. reflexivity.
Defined.

(** ** The total of a project and its month records *)

Lemma allocate_other_entry projectMap month st projectId pid :
  projectId ≠ pid →
  State.projectStatus (allocate projectMap month st projectId) !! pid
  = State.projectStatus st !! pid.
Proof.
  intros Hne. destruct (projectMap !! projectId) as [project|] eqn:Hp.
  - rewrite (allocate_projectStatus _ _ _ _ _ Hp). by rewrite lookup_alter_ne.
  - by rewrite allocate_skip.
Qed.

Lemma allocateMonth_other_entry projectMap l month st pid :
  pid ∉ l →
  State.projectStatus (allocateMonth projectMap l st month) !! pid
  = State.projectStatus st !! pid.
Proof.
  unfold allocateMonth. revert st.
  induction l as [|x l IH]; intros st Hpid; [done|].
  apply not_elem_of_cons in Hpid as [Hne Hpid].
  cbn [foldl]. rewrite IH by done. by apply allocate_other_entry.
Qed.

Lemma allocateMonth_visit_once projectMap before pid after month st :
  pid ∉ before → pid ∉ after →
  let st' := allocateMonth projectMap (before ++ pid :: after) st month in
  match projectMap !! pid with
  | Some project =>
      ∃ a, State.projectStatus st' !! pid
           = writeMonth month (outcome (demandOf project month) a)
               <$> State.projectStatus st !! pid
  | None => State.projectStatus st' !! pid = State.projectStatus st !! pid
  end.
Proof.
  intros Hbefore Hafter. cbv zeta. unfold allocateMonth.
  rewrite foldl_app. cbn [foldl].
  change (foldl (allocate projectMap month) ?s after)
    with (allocateMonth projectMap after s month).
  change (foldl (allocate projectMap month) st before)
    with (allocateMonth projectMap before st month).
  rewrite allocateMonth_other_entry by done.
  destruct (projectMap !! pid) as [project|] eqn:Hp.
  - rewrite (allocate_projectStatus _ _ _ _ _ Hp), lookup_alter_eq.
    rewrite allocateMonth_other_entry by done. by eexists.
  - rewrite allocate_skip by done. by apply allocateMonth_other_entry.
Qed.

Lemma monthsAddUp_month projectMap before pid after month rest st :
  pid ∉ before → pid ∉ after → month ∉ rest →
  monthsAddUp (month :: rest) (State.projectStatus st) pid →
  monthsAddUp rest
    (State.projectStatus
       (allocateMonth projectMap (before ++ pid :: after) st month)) pid.
Proof.
  intros Hbefore Hafter Hrest Hinv.
  pose proof (allocateMonth_visit_once projectMap before pid after month st
                Hbefore Hafter) as Hvisit.
  cbv zeta in Hvisit. intros p Hp.
  destruct (projectMap !! pid) as [project|].
  - destruct Hvisit as [a Hvisit]. rewrite Hvisit in Hp.
    destruct (State.projectStatus st !! pid) as [p0|] eqn:H0; [|done].
    injection Hp as <-. destruct (Hinv p0 H0) as [Hsum Hnone].
    split.
    + unfold writeMonth, ProjectStatus.add_deficit, ProjectStatus.set_month.
      cbn. rewrite mapSum_insert; [lia|]. apply Hnone. by left.
    + intros m Hm. rewrite writeMonth_lookup. case_decide as Heq.
      * by subst m.
      * apply Hnone. by right.
  - rewrite Hvisit in Hp. destruct (Hinv p Hp) as [Hsum Hnone].
    split; [done|]. intros m Hm. apply Hnone. by right.
Qed.

Lemma monthsAddUp_all projectMap before pid after months st :
  pid ∉ before → pid ∉ after → NoDup months →
  monthsAddUp months (State.projectStatus st) pid →
  monthsAddUp []
    (State.projectStatus
       (allocateAll projectMap (before ++ pid :: after) months st)) pid.
Proof.
  intros Hbefore Hafter. unfold allocateAll. revert st.
  induction months as [|m l IH]; intros st Hnodup Hinv; [done|].
  apply NoDup_cons in Hnodup as [Hm Hnodup].
  cbn [foldl]. apply IH; [done|]. by apply monthsAddUp_month.
Qed.

Lemma scenario_monthsAddUp now baseline projects before pid after virtuals
    shifts months p :
  NoDup months → pid ∉ before → pid ∉ after →
  Result.projectStatus
    (calculateScenario now baseline projects (before ++ pid :: after) virtuals
       shifts months) !! pid = Some p →
  ProjectStatus.totalDeficit p
  = mapSum MonthStatus.deficit (ProjectStatus.monthlyStatus p).
Proof.
  intros Hnodup Hbefore Hafter.
  rewrite scenario_projectStatus, lookup_fmap.
  destruct (State.projectStatus _ !! pid) as [p0|] eqn:H0; [|done].
  intros [= <-]. rewrite summarize_totalDeficit, summarize_monthlyStatus.
  revert H0. apply monthsAddUp_all; [done..|].
  unfold initState. cbn [State.projectStatus]. intros p' Hp'.
  destruct (initProjectStatus_fresh _ _ _ _ Hp') as (_ & Hempty & Hzero & _).
  rewrite Hempty, Hzero, mapSum_empty. split; [done|]. intros m _.
  apply lookup_empty.
Qed.

(** The same month twice in the list: the second visit overwrites the
    record of the first and adds its deficit once more. *)
Example repeated_month_counts_twice :
  (λ p, (ProjectStatus.totalDeficit p,
         mapSum MonthStatus.deficit (ProjectStatus.monthlyStatus p)))
    <$> Result.projectStatus
          (calculateScenario (λ _, 0) [bucket100]
             [demand60 "p1"; demand60 "p2"] ["p1"; "p2"] [] ∅
             ["Jan"; "Jan"]) !! "p2"
  = Some (80, 60).
Proof. vm_compute. reflexivity. Qed.

(** X5.  With the months listed once and the id of a project once in the
    priority order, the total of the project's entry is the sum of the
    deficits of its month records. *)
Theorem project_total_is_sum_of_months (now : nat → Z) baseline projects
    before pid after virtuals shifts months p :
  NoDup months → pid ∉ before → pid ∉ after →
  Result.projectStatus
    (calculateScenario now baseline projects (before ++ pid :: after) virtuals
       shifts months) !! pid = Some p →
  ProjectStatus.totalDeficit p
  = mapSum MonthStatus.deficit (ProjectStatus.monthlyStatus p).
Proof. apply scenario_monthsAddUp. Qed.

Lemma project_total_is_sum_of_months_witness :
  ProjectStatus.totalDeficit workedP2
  = mapSum MonthStatus.deficit (ProjectStatus.monthlyStatus workedP2).
Proof.
  apply (project_total_is_sum_of_months (λ _, 0) [bucket100]
           [demand60 "p1"; demand60 "p2"] ["p1"] "p2" [] [] ∅ jan workedP2).
  - apply NoDup_singleton.
  - apply not_elem_of_cons. split; [discriminate|apply not_elem_of_nil].
  - apply not_elem_of_nil.
  - vm_compute. reflexivity.
Defined.

(** ** The counter of the header *)

Lemma count_cons s p projects :
  DeltaCounter.count s (p :: projects)
  = ((if decide (ProjectStatus.overallStatus p = Some s) then 1 else 0)
     + DeltaCounter.count s projects)%nat.
Proof.
  unfold DeltaCounter.count. rewrite filter_cons.
  by destruct (decide _).
Qed.

Lemma count_partition projects :
  Forall (λ p, ∃ s, ProjectStatus.overallStatus p = Some s ∧ s ≠ none)
    projects →
  (DeltaCounter.count staffed projects + DeltaCounter.count partial projects
   + DeltaCounter.count unstaffed projects)%nat = length projects.
Proof.
  induction 1 as [|p l (s & Hs & Hne) _ IH]; [done|].
  rewrite !count_cons. cbn [length]. rewrite <- IH, Hs.
  destruct s; [done|..];
    repeat (destruct (decide _) as [[=]|?]; try done); lia.
Qed.

Lemma count_le s projects :
  (DeltaCounter.count s projects ≤ length projects)%nat.
Proof.
  induction projects as [|p l IH]; [done|].
  rewrite count_cons. cbn [length]. destruct (decide _); lia.
Qed.

Lemma count_all s projects :
  DeltaCounter.count s projects = length projects
  ↔ Forall (λ p, ProjectStatus.overallStatus p = Some s) projects.
Proof.
  induction projects as [|p l IH]; [by split|].
  rewrite count_cons, Forall_cons. cbn [length].
  pose proof (count_le s l). destruct (decide _) as [Hs|Hs].
  - rewrite <- IH. split; [intros; split; [done|lia]|intros [_ ?]; lia].
  - split; [lia|]. by intros [? _].
Qed.

Lemma values_Forall {A} (P : A → Prop) (table : gmap string A) :
  Forall P (map_to_list table).*2 ↔ ∀ k x, table !! k = Some x → P x.
Proof.
  rewrite Forall_fmap, Forall_forall. split.
  - intros H k x Hk. by apply (H (k, x)), elem_of_map_to_list.
  - intros H [k x] Hk. apply (H k). by apply elem_of_map_to_list.
Qed.

(** X6.  The three counters of the header add up to its total on every
    result of the engine: the summarizer gives every entry one of the three
    overall statuses. *)
Theorem counters_add_up (now : nat → Z) baseline projects priorityOrder
    virtuals shifts months :
  let stats :=
    DeltaCounter.stats
      (Result.projectStatus
         (calculateScenario now baseline projects priorityOrder virtuals
            shifts months)) in
  (DeltaCounter.Stats.staffed stats + DeltaCounter.Stats.partial stats
   + DeltaCounter.Stats.unstaffed stats)%nat
  = DeltaCounter.Stats.total stats.
Proof.
  cbv zeta. unfold DeltaCounter.stats.
  cbn [DeltaCounter.Stats.staffed DeltaCounter.Stats.partial
       DeltaCounter.Stats.unstaffed DeltaCounter.Stats.total].
  apply count_partition, values_Forall. intros pid p.
  rewrite scenario_projectStatus, lookup_fmap.
  destruct (State.projectStatus _ !! pid) as [p0|]; [|done].
  intros [= <-]. rewrite summarize_overallStatus. eexists. split; [done|].
  by repeat destruct (hasStatus _ _).
Qed.

Lemma deficitShows_step project p m a :
  0 ≤ demandOf project m → deficitShows p →
  deficitShows (writeMonth m (outcome (demandOf project m) a) p).
Proof.
  intros Hd [Hnonneg Hshort].
  destruct (outcome_hours (demandOf project m) a Hd) as (_ & _ & Hdef & _).
  split.
  - unfold writeMonth, ProjectStatus.add_deficit. cbn. lia.
  - intros m' ms. rewrite writeMonth_lookup.
    unfold writeMonth, ProjectStatus.add_deficit. cbn.
    case_decide as Hm.
    + intros [= <-] Hstatus. pose proof (outcome_short _ _ Hstatus Hd). lia.
    + intros Hms Hstatus. pose proof (Hshort _ _ Hms Hstatus). lia.
Qed.

Lemma scenario_deficitShows now baseline projects priorityOrder virtuals
    shifts months pid p :
  (∀ q, q ∈ projects → nonneg (Project.monthly_demand q)) →
  Result.projectStatus
    (calculateScenario now baseline projects priorityOrder virtuals shifts
       months) !! pid = Some p →
  deficitShows p.
Proof.
  intros Hnonneg. rewrite scenario_projectStatus, lookup_fmap.
  destruct (State.projectStatus _ !! pid) as [p0|] eqn:H0; [|done].
  intros [= <-].
  assert (deficitShows p0) as Hp0.
  { revert H0.
    apply (allocateAll_entries (λ _ p, deficitShows p)).
    - intros pid' project p' m a Hproject. apply deficitShows_step.
      apply demandOf_nonneg.
      by apply (scenarioProjects_nonneg projects shifts months pid').
    - intros pid' p' Hp'.
      destruct (initProjectStatus_fresh _ _ _ _ Hp')
        as (_ & Hempty & Hzero & _).
      split; [lia|]. intros m ms. by rewrite Hempty, lookup_empty. }
  unfold deficitShows.
  by rewrite summarize_totalDeficit, summarize_monthlyStatus.
Qed.

Lemma overallStatus_staffed now baseline projects priorityOrder virtuals
    shifts months pid p :
  Result.projectStatus
    (calculateScenario now baseline projects priorityOrder virtuals shifts
       months) !! pid = Some p →
  ProjectStatus.overallStatus p = Some staffed
  ↔ ∀ m ms, ProjectStatus.monthlyStatus p !! m = Some ms →
            MonthStatus.status ms ≠ partial
            ∧ MonthStatus.status ms ≠ unstaffed.
Proof.
  rewrite scenario_projectStatus, lookup_fmap.
  destruct (State.projectStatus _ !! pid) as [p0|]; [|done].
  intros [= <-]. rewrite summarize_overallStatus, summarize_monthlyStatus.
  destruct (hasStatus partial _) eqn:Hpartial;
    destruct (hasStatus unstaffed _) eqn:Hunstaffed; cbn [orb].
  1-3: split; [by destruct (hasStatus staffed _)|intros Hall].
  - apply hasStatus_true in Hpartial as (m & ms & Hms & Hs).
    by destruct (Hall _ _ Hms).
  - apply hasStatus_true in Hpartial as (m & ms & Hms & Hs).
    by destruct (Hall _ _ Hms).
  - apply hasStatus_true in Hunstaffed as (m & ms & Hms & Hs).
    by destruct (Hall _ _ Hms).
  - split; [|done]. intros _ m ms Hms. split.
    + by apply (proj1 (hasStatus_false _ _) Hpartial m).
    + by apply (proj1 (hasStatus_false _ _) Hunstaffed m).
Qed.

(** X7.  The green tick of the header and its counters.  When no demand is
    negative, a total deficit of zero means that every reported project is
    staffed; with the months and the ids of the priority order listed once,
    the converse holds too. *)
Theorem resolved_iff_all_staffed (now : nat → Z) baseline projects
    priorityOrder virtuals shifts months :
  (∀ q, q ∈ projects → nonneg (Project.monthly_demand q)) →
  let result := calculateScenario now baseline projects priorityOrder virtuals
                  shifts months in
  let stats := DeltaCounter.stats (Result.projectStatus result) in
  (DeltaCounter.isResolved (Result.totalDeficit result) = true →
   DeltaCounter.Stats.staffed stats = DeltaCounter.Stats.total stats)
  ∧ (NoDup months → NoDup priorityOrder →
     DeltaCounter.Stats.staffed stats = DeltaCounter.Stats.total stats →
     DeltaCounter.isResolved (Result.totalDeficit result) = true).
Proof.
  intros Hnonneg. cbv zeta. unfold DeltaCounter.stats, DeltaCounter.isResolved.
  cbn [DeltaCounter.Stats.staffed DeltaCounter.Stats.total].
  rewrite count_all, values_Forall, bool_decide_eq_true.
  rewrite scenario_total_sum. split.
  - intros Hzero pid p Hp.
    apply (overallStatus_staffed _ _ _ _ _ _ _ _ _ Hp). intros m ms Hms.
    destruct (scenario_deficitShows _ _ _ _ _ _ _ _ _ Hnonneg Hp)
      as [_ Hshort].
    assert (ProjectStatus.totalDeficit p = 0) as Hp0.
    { apply (mapSum_zero_inv _ _ pid p) in Hzero; [done| |done].
      intros pid' p' Hp'.
      by destruct (scenario_deficitShows _ _ _ _ _ _ _ _ _ Hnonneg Hp'). }
    split; intros Hs; pose proof (Hshort m ms Hms); intuition lia.
  - intros Hmonths Horder Hall. apply mapSum_zero. intros pid p Hp.
    assert (pid ∈ priorityOrder) as Hin.
    { assert (is_Some (Result.projectStatus
                (calculateScenario now baseline projects priorityOrder
                   virtuals shifts months) !! pid)) as Hsome by eauto.
      rewrite scenario_projectStatus, lookup_fmap, fmap_is_Some in Hsome.
      rewrite allocateAll_dom in Hsome. unfold initState in Hsome.
      cbn [State.projectStatus] in Hsome.
      by apply initProjectStatus_dom in Hsome as [? _]. }
    apply list_elem_of_split in Hin as (before & after & Heq).
    rewrite Heq in Horder, Hp.
    apply NoDup_app in Horder as (_ & Hbefore & Hafter).
    apply NoDup_cons in Hafter as [Hafter _].
    assert (pid ∉ before) as Hbefore'.
    { intros Hin. apply (Hbefore pid Hin). by left. }
    rewrite (scenario_monthsAddUp _ _ _ _ _ _ _ _ _ _ Hmonths Hbefore' Hafter
               Hp).
    apply mapSum_zero. intros m ms Hms.
    destruct (scenario_outcomeRecords _ _ _ _ _ _ _ _ _ Hp)
      as (project & _ & Hrecords).
    destruct (Hrecords _ _ Hms) as [a ->].
    rewrite <- Heq in Hp.
    pose proof (proj1 (overallStatus_staffed _ _ _ _ _ _ _ _ _ Hp)
                  (Hall _ _ Hp) _ _ Hms) as [H1 H2].
    by apply outcome_not_short.
Qed.

Lemma resolved_iff_all_staffed_witness :
  let result := calculateScenario (λ _, 0) [bucket100]
                  [demand60 "p1"; demand60 "p2"] ["p1"; "p2"] twoHires ∅
                  jan in
  let stats := DeltaCounter.stats (Result.projectStatus result) in
  (DeltaCounter.isResolved (Result.totalDeficit result) = true →
   DeltaCounter.Stats.staffed stats = DeltaCounter.Stats.total stats)
  ∧ (NoDup jan → NoDup ["p1"; "p2"] →
     DeltaCounter.Stats.staffed stats = DeltaCounter.Stats.total stats →
     DeltaCounter.isResolved (Result.totalDeficit result) = true).
Proof.
  apply (resolved_iff_all_staffed (λ _, 0) [bucket100]
           [demand60 "p1"; demand60 "p2"] ["p1"; "p2"] twoHires ∅ jan).
  apply demand60_nonneg.
Defined.

(** ** The keys of the tables of buckets *)

Lemma baselineTable_dom baseline acc k :
  is_Some (foldl addBaseline acc baseline !! k)
  ↔ is_Some (acc !! k) ∨ ∃ b, b ∈ baseline ∧ bucketKeyOf b = k.
Proof.
  revert acc. induction baseline as [|b l IH]; intros acc.
  - cbn. split; [by left|]. intros [?|(b & Hb & _)]; [done|].
    by apply elem_of_nil in Hb.
  - cbn [foldl]. rewrite IH. unfold addBaseline at 1.
    destruct (decide (bucketKeyOf b = k)) as [<-|Hne].
    + rewrite lookup_insert_eq. split; [|by eauto].
      intros _. right. exists b. split; [by left|done].
    + rewrite lookup_insert_ne by done. split.
      * intros [?|(b' & Hb' & Hk)]; [by left|].
        right. exists b'. split; [by right|done].
      * intros [?|(b' & Hb' & Hk)]; [by left|].
        apply elem_of_cons in Hb' as [->|Hb']; [done|]. right. by exists b'.
Qed.

Lemma addVirtual_dom now months virtuals eff ticks k :
  is_Some ((foldl (addVirtual now months) (eff, ticks) virtuals).1 !! k)
  ↔ is_Some (eff !! k) ∨ ∃ r, r ∈ virtuals ∧ resourceKey r = k.
Proof.
  revert eff ticks. induction virtuals as [|r l IH]; intros eff ticks.
  - cbn. split; [by left|]. intros [?|(r & Hr & _)]; [done|].
    by apply elem_of_nil in Hr.
  - cbn [foldl]. rewrite (addVirtual_pair now months (eff, ticks) r), IH.
    destruct (decide (resourceKey r = k)) as [<-|Hne].
    + assert (is_Some ((addVirtual now months (eff, ticks) r).1
                         !! resourceKey r)) as Hsome.
      { unfold addVirtual. destruct (eff !! resourceKey r);
          cbn [fst]; rewrite lookup_insert_eq; by eauto. }
      split; [|by left]. intros _. right. exists r. split; [by left|done].
    + rewrite addVirtual_other by done. split.
      * intros [?|(r' & Hr' & Hk)]; [by left|].
        right. exists r'. split; [by right|done].
      * intros [?|(r' & Hr' & Hk)]; [by left|].
        apply elem_of_cons in Hr' as [->|Hr']; [done|]. right. by exists r'.
Qed.

Lemma effectiveCapacity_dom now baseline virtuals months k :
  is_Some (calculateEffectiveCapacity now baseline virtuals months !! k)
  ↔ (∃ b, b ∈ baseline ∧ bucketKeyOf b = k)
    ∨ (∃ r, r ∈ virtuals ∧ resourceKey r = k).
Proof.
  unfold calculateEffectiveCapacity. rewrite addVirtual_dom, baselineTable_dom.
  rewrite lookup_empty. split; [|tauto].
  intros [[H|H]|H]; [by destruct H|tauto..].
Qed.

(** X8.  The utilization table of a result has one row for every bucket of
    the effective capacity and no other, each row carries its bucket, and
    the buckets are those of the keys of the baseline buckets and of the
    virtual resources. *)
Theorem utilization_rows (now : nat → Z) baseline projects priorityOrder
    virtuals shifts months k :
  let result := calculateScenario now baseline projects priorityOrder virtuals
                  shifts months in
  Utilization.bucket <$> Result.bucketUtilization result !! k
  = Result.effectiveCapacity result !! k
  ∧ (is_Some (Result.effectiveCapacity result !! k)
     ↔ (∃ b, b ∈ baseline ∧ bucketKeyOf b = k)
       ∨ (∃ r, r ∈ virtuals ∧ resourceKey r = k)).
Proof.
  cbv zeta. split.
  - rewrite scenario_from. apply scenarioFrom_bucket.
  - apply effectiveCapacity_dom.
Qed.

(** ** A project whose bucket does not exist *)

Lemma allocate_entries_at (Ψ : gmap string (gmap string jsnum) → Prop)
    (Φ : string → ProjectStatus.t → Prop) projectMap month st projectId :
  (∀ R pid m, Ψ R → Ψ (remainingStep projectMap m R pid)) →
  (∀ R pid project p m,
     projectMap !! pid = Some project → Ψ R → Φ pid p →
     Φ pid (writeMonth m (outcome (demandOf project m)
                            (availableOf R (projectKey project) m)) p)) →
  Ψ (State.remainingCapacity st) →
  (∀ pid p, State.projectStatus st !! pid = Some p → Φ pid p) →
  let st' := allocate projectMap month st projectId in
  Ψ (State.remainingCapacity st')
  ∧ ∀ pid p, State.projectStatus st' !! pid = Some p → Φ pid p.
Proof.
  intros HΨ HΦ HR Hinv. cbv zeta. split.
  { rewrite allocate_remaining. by apply HΨ. }
  destruct (projectMap !! projectId) as [project|] eqn:Hp;
    [|by rewrite allocate_skip].
  rewrite (allocate_projectStatus _ _ _ _ _ Hp).
  intros pid p. rewrite lookup_alter. case_decide as Hpid; [|apply Hinv].
  subst pid. destruct (State.projectStatus st !! projectId) as [p0|] eqn:H0;
    [|done].
  simpl. intros [= <-]. apply HΦ; [done..|]. by apply Hinv.
Qed.

Lemma allocateMonth_entries_at (Ψ : gmap string (gmap string jsnum) → Prop)
    (Φ : string → ProjectStatus.t → Prop) projectMap priorityOrder month st :
  (∀ R pid m, Ψ R → Ψ (remainingStep projectMap m R pid)) →
  (∀ R pid project p m,
     projectMap !! pid = Some project → Ψ R → Φ pid p →
     Φ pid (writeMonth m (outcome (demandOf project m)
                            (availableOf R (projectKey project) m)) p)) →
  Ψ (State.remainingCapacity st) →
  (∀ pid p, State.projectStatus st !! pid = Some p → Φ pid p) →
  let st' := allocateMonth projectMap priorityOrder st month in
  Ψ (State.remainingCapacity st')
  ∧ ∀ pid p, State.projectStatus st' !! pid = Some p → Φ pid p.
Proof.
  intros HΨ HΦ. unfold allocateMonth. revert st.
  induction priorityOrder as [|x l IH]; intros st HR Hinv; [done|].
  cbn [foldl].
  destruct (allocate_entries_at Ψ Φ projectMap month st x HΨ HΦ HR Hinv).
  by apply IH.
Qed.

Lemma allocateAll_entries_at (Ψ : gmap string (gmap string jsnum) → Prop)
    (Φ : string → ProjectStatus.t → Prop) projectMap priorityOrder months st :
  (∀ R pid m, Ψ R → Ψ (remainingStep projectMap m R pid)) →
  (∀ R pid project p m,
     projectMap !! pid = Some project → Ψ R → Φ pid p →
     Φ pid (writeMonth m (outcome (demandOf project m)
                            (availableOf R (projectKey project) m)) p)) →
  Ψ (State.remainingCapacity st) →
  (∀ pid p, State.projectStatus st !! pid = Some p → Φ pid p) →
  let st' := allocateAll projectMap priorityOrder months st in
  Ψ (State.remainingCapacity st')
  ∧ ∀ pid p, State.projectStatus st' !! pid = Some p → Φ pid p.
Proof.
  intros HΨ HΦ. unfold allocateAll. revert st.
  induction months as [|m l IH]; intros st HR Hinv; [done|].
  cbn [foldl].
  destruct (allocateMonth_entries_at Ψ Φ projectMap priorityOrder m st HΨ HΦ
              HR Hinv).
  by apply IH.
Qed.

Lemma remainingStep_missing projectMap month R projectId k :
  R !! k = None → remainingStep projectMap month R projectId !! k = None.
Proof.
  intros Hk. unfold remainingStep. destruct (projectMap !! projectId); [|done].
  by apply lookup_alter_None.
Qed.

(** X9.  A project whose bucket key is the key of no baseline bucket and of
    no virtual resource finds no hours at all: every month record of it is
    the outcome of a visit that has nothing available, so a month with a
    positive demand is unstaffed with the whole demand as deficit. *)
Theorem missing_bucket_is_unstaffed (now : nat → Z) baseline projects
    priorityOrder virtuals shifts months pid project p m ms :
  (∀ b, b ∈ baseline → bucketKeyOf b ≠ projectKey project) →
  (∀ r, r ∈ virtuals → resourceKey r ≠ projectKey project) →
  buildProjectMap (applyTimelineShifts projects shifts months) !! pid
    = Some project →
  Result.projectStatus
    (calculateScenario now baseline projects priorityOrder virtuals shifts
       months) !! pid = Some p →
  ProjectStatus.monthlyStatus p !! m = Some ms →
  ms = outcome (demandOf project m) 0
  ∧ (0 < demandOf project m →
     ms = MonthStatus.mk unstaffed (demandOf project m) 0
            (demandOf project m)).
Proof.
  intros Hbaseline Hvirtuals Hproject Hp Hms.
  assert (ms = outcome (demandOf project m) 0) as ->.
  2:{ split; [done|]. intros Hd. unfold outcome.
      repeat (destruct (decide _); try lia). done. }
  revert Hp Hms. rewrite scenario_projectStatus, lookup_fmap.
  destruct (State.projectStatus _ !! pid) as [p0|] eqn:H0; [|done].
  intros [= <-]. rewrite summarize_monthlyStatus. revert m ms.
  pose (K := projectKey project).
  pose (Ψ := λ R : gmap string (gmap string jsnum), R !! K = None).
  pose (Φ := λ (pid' : string) (q : ProjectStatus.t),
          pid' = pid → ∀ m ms, ProjectStatus.monthlyStatus q !! m = Some ms →
                         ms = outcome (demandOf project m) 0).
  enough (Φ pid p0) as HΦ by (by apply HΦ).
  revert H0.
  apply (allocateAll_entries_at Ψ Φ).
  - intros R pid' m' HR. by apply remainingStep_missing.
  - intros R pid' project' q m' Hproject' HR Hq -> m ms.
    assert (project' = project) as -> by (unfold scenarioProjects in *;
                                            congruence).
    rewrite writeMonth_lookup. case_decide as Hm.
    + intros [= <-]. subst m'. unfold availableOf.
      fold K. by rewrite HR.
    + by apply Hq.
  - unfold Ψ, initState, initRemaining. cbn [State.remainingCapacity].
    rewrite lookup_fmap.
    destruct (calculateEffectiveCapacity now baseline virtuals months !! K)
      eqn:Heff; [|done].
    assert (is_Some (calculateEffectiveCapacity now baseline virtuals months
                       !! K)) as Hsome by eauto.
    apply effectiveCapacity_dom in Hsome as [(b & Hb & Hk)|(r & Hr & Hk)].
    + by destruct (Hbaseline b Hb).
    + by destruct (Hvirtuals r Hr).
  - unfold initState. cbn [State.projectStatus]. intros pid' q Hq _ m ms.
    destruct (initProjectStatus_fresh _ _ _ _ Hq) as (_ & Hempty & _).
    by rewrite Hempty, lookup_empty.
Qed.

Lemma missing_bucket_is_unstaffed_witness :
  MonthStatus.mk unstaffed 30 0 30 = outcome (demandOf projectOrphan "Jan") 0
  ∧ (0 < demandOf projectOrphan "Jan" →
     MonthStatus.mk unstaffed 30 0 30
     = MonthStatus.mk unstaffed (demandOf projectOrphan "Jan") 0
         (demandOf projectOrphan "Jan")).
Proof.
  apply (missing_bucket_is_unstaffed (λ _, 0) [bucket100] [projectOrphan]
           ["p9"] [] ∅ jan "p9" projectOrphan orphanEntry "Jan").
  - intros b ->%list_elem_of_singleton H. vm_compute in H. discriminate.
  - intros r Hr. by apply elem_of_nil in Hr.
  - vm_compute. reflexivity.
  - vm_compute. reflexivity.
  - vm_compute. reflexivity.
Defined.

(** ** The first project of the order *)

Lemma availableOf_initRemaining eff k m :
  availableOf (initRemaining eff) k m
  = default 0 (eff !! k ≫= λ b, Bucket.monthly_capacity b !! m).
Proof.
  unfold availableOf, initRemaining. rewrite lookup_fmap.
  destruct (eff !! k) as [b|]; [|done]. cbn. rewrite lookup_fmap.
  by destruct (Bucket.monthly_capacity b !! m).
Qed.

Lemma recordAt_lookup PS pid m :
  recordAt PS pid m
  = (λ p, ProjectStatus.monthlyStatus p !! m) <$> PS !! pid.
Proof. done. Qed.

(** X10.  The project at the head of the priority order meets the whole
    effective capacity of its bucket in every month: its record for a month
    is the outcome of its demand against that capacity, whatever the other
    projects ask for and whatever happened in the other months. *)
Theorem head_of_order_meets_full_capacity (now : nat → Z) baseline projects
    pid rest virtuals shifts before month after project :
  pid ∉ rest → month ∉ before → month ∉ after →
  let months := before ++ month :: after in
  let result := calculateScenario now baseline projects (pid :: rest) virtuals
                  shifts months in
  buildProjectMap (applyTimelineShifts projects shifts months) !! pid
    = Some project →
  Result.projectStatus result !! pid
    ≫= (λ p, ProjectStatus.monthlyStatus p !! month)
  = Some (outcome (demandOf project month)
            (default 0 (Result.effectiveCapacity result !! projectKey project
                          ≫= λ b, Bucket.monthly_capacity b !! month))).
Proof.
  intros Hrest Hbefore Hafter months result Hproject. subst result.
  rewrite scenario_projectStatus.
  cbn [Result.effectiveCapacity calculateScenario].
  set (eff := calculateEffectiveCapacity now baseline virtuals months).
  set (pm := scenarioProjects projects shifts months).
  set (start := initState eff pm (pid :: rest) months).
  pose proof (allocateAll_month pm (pid :: rest) before month after start
                start Hbefore Hafter (sameMonth_refl _ _)) as [_ Hrecords].
  specialize (Hrecords pid). fold months in Hrecords.
  rewrite <- recordAt_summarize in Hrecords.
  apply recordAt_bind in Hrecords. rewrite Hrecords.
  unfold allocateMonth. cbn [foldl].
  change (foldl (allocate pm month) ?s rest)
    with (allocateMonth pm rest s month).
  rewrite allocateMonth_other_entry by done.
  rewrite (allocate_projectStatus _ _ _ _ _ Hproject), lookup_alter_eq.
  assert (is_Some (State.projectStatus start !! pid)) as [p0 Hp0].
  { apply initProjectStatus_dom. split; [by left|by eauto]. }
  rewrite Hp0. cbn [fmap option_fmap option_map mbind option_bind].
  rewrite writeMonth_lookup.
  destruct (decide (month = month)); [|done].
  subst start. unfold initState. cbn [State.remainingCapacity].
  by rewrite availableOf_initRemaining.
Qed.

Lemma head_of_order_meets_full_capacity_witness :
  let months := [] ++ "Jan" :: [] in
  let result := calculateScenario (λ _, 0) [bucket100]
                  [demand60 "p1"; demand60 "p2"] ("p1" :: ["p2"]) [] ∅
                  months in
  Result.projectStatus result !! "p1"
    ≫= (λ p, ProjectStatus.monthlyStatus p !! "Jan")
  = Some (outcome (demandOf (demand60 "p1") "Jan")
            (default 0 (Result.effectiveCapacity result
                          !! projectKey (demand60 "p1")
                          ≫= λ b, Bucket.monthly_capacity b !! "Jan"))).
Proof.
  apply (head_of_order_meets_full_capacity (λ _, 0) [bucket100]
           [demand60 "p1"; demand60 "p2"] "p1" ["p2"] [] ∅ [] "Jan" []
           (demand60 "p1")).
  - apply not_elem_of_cons. split; [discriminate|apply not_elem_of_nil].
  - apply not_elem_of_nil.
  - apply not_elem_of_nil.
  - vm_compute. reflexivity.
Defined.

(** ** Buckets do not interfere *)

Lemma agreeOutside_refl projectMap key st : agreeOutside projectMap key st st.
Proof. by split. Qed.

Lemma agreeOutside_sym projectMap key st st' :
  agreeOutside projectMap key st st' → agreeOutside projectMap key st' st.
Proof.
  intros [HR HP]. split.
  - intros k Hk. symmetry. by apply HR.
  - intros pid project Hp Hk. symmetry. by apply (HP pid project).
Qed.

Lemma agreeOutside_trans projectMap key st1 st2 st3 :
  agreeOutside projectMap key st1 st2 → agreeOutside projectMap key st2 st3 →
  agreeOutside projectMap key st1 st3.
Proof.
  intros [HR HP] [HR' HP']. split.
  - intros k Hk. rewrite HR by done. by apply HR'.
  - intros pid project Hp Hk. rewrite (HP pid project) by done.
    by apply (HP' pid project).
Qed.

Lemma allocate_agree projectMap key month st st' projectId :
  agreeOutside projectMap key st st' →
  agreeOutside projectMap key (allocate projectMap month st projectId)
    (allocate projectMap month st' projectId).
Proof.
  intros [HR HP].
  destruct (projectMap !! projectId) as [project|] eqn:Hp;
    [|by rewrite !allocate_skip].
  split.
  - intros k Hk. rewrite !allocate_remaining. unfold remainingStep.
    rewrite Hp, !lookup_alter. case_decide as Heq; [|by apply HR].
    subst k. by rewrite (HR _ Hk).
  - intros pid project' Hp' Hk.
    rewrite !(allocate_projectStatus _ _ _ _ _ Hp), !lookup_alter.
    case_decide as Hpid; [|by apply (HP pid project')].
    subst pid. assert (project' = project) as -> by congruence.
    unfold availableOf. rewrite (HR (projectKey project) Hk).
    pose proof (HP projectId project Hp Hk) as Hentry.
    destruct (State.projectStatus st !! projectId) as [p|],
             (State.projectStatus st' !! projectId) as [p'|];
      try done.
    cbn in *. injection Hentry as H1 H2.
    unfold writtenFields, writeMonth, ProjectStatus.add_deficit,
      ProjectStatus.set_month. cbn. by rewrite H1, H2.
Qed.

Lemma allocate_agree_left projectMap key month st st' projectId :
  outsideBucket projectMap key projectId = false →
  agreeOutside projectMap key st st' →
  agreeOutside projectMap key (allocate projectMap month st projectId) st'.
Proof.
  unfold outsideBucket. intros Houtside [HR HP].
  destruct (projectMap !! projectId) as [project|] eqn:Hp;
    [|by rewrite !allocate_skip].
  apply bool_decide_eq_false in Houtside.
  assert (projectKey project = key) as Hkey.
  { by destruct (decide (projectKey project = key)). }
  split.
  - intros k Hk. rewrite !allocate_remaining. unfold remainingStep.
    rewrite Hp, lookup_alter_ne by congruence. by apply HR.
  - intros pid project' Hp' Hk.
    rewrite !(allocate_projectStatus _ _ _ _ _ Hp), lookup_alter_ne.
    + by apply (HP pid project').
    + intros <-. congruence.
Qed.

Lemma allocateMonth_agree projectMap key month l st st' :
  agreeOutside projectMap key st st' →
  agreeOutside projectMap key (allocateMonth projectMap l st month)
    (allocateMonth projectMap l st' month).
Proof.
  unfold allocateMonth. revert st st'.
  induction l as [|x l IH]; intros st st' Hagree; [done|].
  cbn [foldl]. by apply IH, allocate_agree.
Qed.

Lemma allocateMonth_filter projectMap key month l st st' :
  agreeOutside projectMap key st st' →
  agreeOutside projectMap key (allocateMonth projectMap l st month)
    (allocateMonth projectMap
       (filter (λ pid, outsideBucket projectMap key pid) l) st' month).
Proof.
  unfold allocateMonth. revert st st'.
  induction l as [|x l IH]; intros st st' Hagree; [done|].
  cbn [foldl]. rewrite filter_cons.
  destruct (decide _) as [Hx|Hx].
  - cbn [foldl]. by apply IH, allocate_agree.
  - apply IH, allocate_agree_left; [|done].
    by destruct (outsideBucket projectMap key x).
Qed.

Lemma allocateAll_filter projectMap key months l st st' :
  agreeOutside projectMap key st st' →
  agreeOutside projectMap key (allocateAll projectMap l months st)
    (allocateAll projectMap
       (filter (λ pid, outsideBucket projectMap key pid) l) months st').
Proof.
  unfold allocateAll. revert st st'.
  induction months as [|m ms IH]; intros st st' Hagree; [done|].
  cbn [foldl]. by apply IH, allocateMonth_filter.
Qed.

Lemma allocateAll_agree projectMap key months l st st' :
  agreeOutside projectMap key st st' →
  agreeOutside projectMap key (allocateAll projectMap l months st)
    (allocateAll projectMap l months st').
Proof.
  unfold allocateAll. revert st st'.
  induction months as [|m ms IH]; intros st st' Hagree; [done|].
  cbn [foldl]. by apply IH, allocateMonth_agree.
Qed.

Lemma initProjectStatus_written projectMap priorityOrder pid :
  writtenFields <$> initProjectStatus projectMap priorityOrder !! pid
  = if decide (pid ∈ priorityOrder ∧ is_Some (projectMap !! pid))
    then Some (∅, 0) else None.
Proof.
  pose proof (initProjectStatus_dom projectMap priorityOrder pid) as Hdom.
  destruct (initProjectStatus projectMap priorityOrder !! pid) as [p|] eqn:Hp.
  - rewrite decide_True by (apply Hdom; eauto).
    destruct (initProjectStatus_fresh _ _ _ _ Hp) as (_ & Hempty & Hzero & _).
    cbn. unfold writtenFields. by rewrite Hempty, Hzero.
  - rewrite decide_False; [done|]. intros H. apply Hdom in H. by destruct H.
Qed.

Lemma initState_filter eff projectMap key priorityOrder months :
  agreeOutside projectMap key
    (initState eff projectMap priorityOrder months)
    (initState eff projectMap
       (filter (λ pid, outsideBucket projectMap key pid) priorityOrder)
       months).
Proof.
  split; [done|]. intros pid project Hp Hk.
  unfold initState. cbn [State.projectStatus].
  rewrite !initProjectStatus_written.
  assert (outsideBucket projectMap key pid = true) as Hout.
  { unfold outsideBucket. rewrite Hp. by apply bool_decide_eq_true. }
  destruct (decide (pid ∈ priorityOrder ∧ _)) as [[Hin ?]|Hno].
  - rewrite decide_True; [done|]. split; [|done].
    apply list_elem_of_filter. split; [by rewrite Hout|done].
  - rewrite decide_False; [done|]. intros [Hin ?]. apply Hno.
    apply list_elem_of_filter in Hin as [_ Hin]. by split.
Qed.

Lemma summarize_staffingOf p p' :
  writtenFields p = writtenFields p' →
  staffingOf (summarize p) = staffingOf (summarize p').
Proof.
  intros [= H1 H2]. unfold staffingOf.
  by rewrite !summarize_monthlyStatus, !summarize_totalDeficit,
    !summarize_overallStatus, H1, H2.
Qed.

Lemma agreeOutside_staffingOf projectMap key st st' pid project :
  agreeOutside projectMap key st st' →
  projectMap !! pid = Some project → projectKey project ≠ key →
  staffingOf <$> (summarize <$> State.projectStatus st) !! pid
  = staffingOf <$> (summarize <$> State.projectStatus st') !! pid.
Proof.
  intros [_ HP] Hp Hk. specialize (HP pid project Hp Hk).
  rewrite !lookup_fmap.
  destruct (State.projectStatus st !! pid) as [p|],
           (State.projectStatus st' !! pid) as [p'|]; try done.
  cbn in *. f_equal. apply summarize_staffingOf. congruence.
Qed.

(** X11.  Buckets do not interfere.  What a result reports on the staffing
    of the projects outside a bucket (month records, total, overall status)
    depends on the priority order only through the order of the projects
    outside that bucket: the ids of the bucket, and the ids without a
    record, may be moved, added or removed. *)
Theorem buckets_do_not_interfere (now : nat → Z) baseline projects
    priorityOrder priorityOrder' virtuals shifts months key pid project :
  let pm := buildProjectMap (applyTimelineShifts projects shifts months) in
  filter (λ pid, outsideBucket pm key pid) priorityOrder
  = filter (λ pid, outsideBucket pm key pid) priorityOrder' →
  pm !! pid = Some project →
  projectKey project ≠ key →
  staffingOf <$>
    Result.projectStatus
      (calculateScenario now baseline projects priorityOrder virtuals shifts
         months) !! pid
  = staffingOf <$>
    Result.projectStatus
      (calculateScenario now baseline projects priorityOrder' virtuals shifts
         months) !! pid.
Proof.
  intros pm. change pm with (scenarioProjects projects shifts months).
  clear pm. intros Hfilter Hp Hk. rewrite !scenario_projectStatus.
  apply (agreeOutside_staffingOf (scenarioProjects projects shifts months)
           key _ _ pid project); [|done..].
  eapply agreeOutside_trans.
  - apply allocateAll_filter, initState_filter.
  - rewrite Hfilter. apply agreeOutside_sym.
    apply allocateAll_filter, initState_filter.
Qed.

Lemma buckets_do_not_interfere_witness :
  staffingOf <$>
    Result.projectStatus
      (calculateScenario (λ _, 0) [bucket100; bucketPune]
         [demand60 "p1"; projectOrphan] ["p1"; "p9"] [] ∅ jan) !! "p9"
  = staffingOf <$>
    Result.projectStatus
      (calculateScenario (λ _, 0) [bucket100; bucketPune]
         [demand60 "p1"; projectOrphan] ["p9"] [] ∅ jan) !! "p9".
Proof.
  apply (buckets_do_not_interfere (λ _, 0) [bucket100; bucketPune]
           [demand60 "p1"; projectOrphan] ["p1"; "p9"] ["p9"] [] ∅ jan
           "digital|developer|london" "p9" projectOrphan).
  - vm_compute. reflexivity.
  - vm_compute. reflexivity.
  - intros H. vm_compute in H. discriminate.
Defined.

(** ** One more virtual resource *)

Lemma addVirtual_capacity now months eff ticks r k :
  Bucket.monthly_capacity <$> (addVirtual now months (eff, ticks) r).1 !! k
  = if decide (resourceKey r = k)
    then Some (match Bucket.monthly_capacity <$> eff !! k with
               | Some cap => foldl (addHours (hoursToAdd r)) cap months
               | None => foldl (setHours (hoursToAdd r)) ∅ months
               end)
    else Bucket.monthly_capacity <$> eff !! k.
Proof.
  destruct (decide (resourceKey r = k)) as [<-|Hne].
  - unfold addVirtual. destruct (eff !! resourceKey r) as [b|];
      cbn [fst]; by rewrite lookup_insert_eq.
  - by rewrite addVirtual_other.
Qed.

Lemma addVirtual_sameHoursOutside now now' months key eff eff' ticks ticks' r :
  sameHoursOutside key eff eff' →
  sameHoursOutside key (addVirtual now months (eff, ticks) r).1
    (addVirtual now' months (eff', ticks') r).1.
Proof.
  intros H k Hk. rewrite !addVirtual_capacity.
  destruct (decide _); by rewrite (H k Hk).
Qed.

Lemma addVirtual_fold_sameHoursOutside now now' months key virtuals eff eff'
    ticks ticks' :
  sameHoursOutside key eff eff' →
  sameHoursOutside key
    (foldl (addVirtual now months) (eff, ticks) virtuals).1
    (foldl (addVirtual now' months) (eff', ticks') virtuals).1.
Proof.
  revert eff eff' ticks ticks'.
  induction virtuals as [|r l IH]; intros eff eff' ticks ticks' H; [done|].
  cbn [foldl].
  rewrite (addVirtual_pair now months (eff, ticks) r),
    (addVirtual_pair now' months (eff', ticks') r).
  by apply IH, addVirtual_sameHoursOutside.
Qed.

Lemma addVirtual_one_sameHoursOutside now months eff ticks r :
  sameHoursOutside (resourceKey r) eff
    (addVirtual now months (eff, ticks) r).1.
Proof. intros k Hk. by rewrite addVirtual_other. Qed.

Lemma effectiveCapacity_sameHoursOutside now baseline before r after months :
  sameHoursOutside (resourceKey r)
    (calculateEffectiveCapacity now baseline (before ++ after) months)
    (calculateEffectiveCapacity now baseline (before ++ r :: after) months).
Proof.
  unfold calculateEffectiveCapacity. rewrite !foldl_app. cbn [foldl].
  destruct (foldl (addVirtual now months) _ before) as [eff ticks].
  rewrite (addVirtual_pair now months (eff, ticks) r).
  apply addVirtual_fold_sameHoursOutside, addVirtual_one_sameHoursOutside.
Qed.

Lemma initState_sameHoursOutside projectMap key eff eff' priorityOrder months :
  sameHoursOutside key eff eff' →
  agreeOutside projectMap key
    (initState eff projectMap priorityOrder months)
    (initState eff' projectMap priorityOrder months).
Proof.
  intros H. split; [|done]. intros k Hk. unfold initState, initRemaining.
  cbn [State.remainingCapacity]. rewrite !lookup_fmap.
  specialize (H k Hk).
  destruct (eff !! k), (eff' !! k); try done. cbn in *. congruence.
Qed.

(** X12.  A virtual resource is local to its bucket: with or without it,
    wherever it stands in the list, a result reports the same staffing for
    every project of another bucket. *)
Theorem virtual_resource_is_local (now : nat → Z) baseline projects
    priorityOrder before r after shifts months pid project :
  buildProjectMap (applyTimelineShifts projects shifts months) !! pid
    = Some project →
  projectKey project ≠ resourceKey r →
  staffingOf <$>
    Result.projectStatus
      (calculateScenario now baseline projects priorityOrder
         (before ++ r :: after) shifts months) !! pid
  = staffingOf <$>
    Result.projectStatus
      (calculateScenario now baseline projects priorityOrder
         (before ++ after) shifts months) !! pid.
Proof.
  intros Hp Hk. rewrite !scenario_projectStatus.
  apply (agreeOutside_staffingOf (scenarioProjects projects shifts months)
           (resourceKey r) _ _ pid project); [|done..].
  apply allocateAll_agree, initState_sameHoursOutside.
  intros k Hk'. symmetry.
  by apply effectiveCapacity_sameHoursOutside.
Qed.

Lemma virtual_resource_is_local_witness :
  staffingOf <$>
    Result.projectStatus
      (calculateScenario (λ _, 0) [bucket100; bucketPune]
         [demand60 "p1"; projectOrphan] ["p1"; "p9"] ([] ++ hireLondon :: [])
         ∅ jan) !! "p9"
  = staffingOf <$>
    Result.projectStatus
      (calculateScenario (λ _, 0) [bucket100; bucketPune]
         [demand60 "p1"; projectOrphan] ["p1"; "p9"] ([] ++ []) ∅ jan)
      !! "p9".
Proof.
  apply (virtual_resource_is_local (λ _, 0) [bucket100; bucketPune]
           [demand60 "p1"; projectOrphan] ["p1"; "p9"] [] hireLondon [] ∅ jan
           "p9" projectOrphan).
  - vm_compute. reflexivity.
  - intros H. vm_compute in H. discriminate.
Defined.

Lemma capacityOf_alt eff k m :
  capacityOf eff k m
  = default 0 ((Bucket.monthly_capacity <$> eff !! k) ≫= (.!! m)).
Proof. unfold capacityOf. by destruct (eff !! k). Qed.

Lemma addHours_lookup hours cap month m :
  default 0 (addHours hours cap month !! m)
  = if decide (month = m) then default 0 (cap !! m) + hours
    else default 0 (cap !! m).
Proof.
  unfold addHours. destruct (decide (month = m)) as [->|Hne].
  - by rewrite lookup_insert_eq.
  - by rewrite lookup_insert_ne.
Qed.

Lemma foldl_addHours_mono hours cap cap' months :
  (∀ m, default 0 (cap !! m) ≤ default 0 (cap' !! m)) →
  ∀ m, default 0 (foldl (addHours hours) cap months !! m)
       ≤ default 0 (foldl (addHours hours) cap' months !! m).
Proof.
  revert cap cap'. induction months as [|x l IH]; intros cap cap' H; [done|].
  cbn [foldl]. apply IH. intros m. rewrite !addHours_lookup.
  specialize (H m). destruct (decide _); lia.
Qed.

Lemma foldl_addHours_ge hours cap months m :
  0 ≤ hours →
  default 0 (cap !! m) + (if decide (m ∈ months) then hours else 0)
  ≤ default 0 (foldl (addHours hours) cap months !! m).
Proof.
  intros Hh. revert cap. induction months as [|x l IH]; intros cap.
  - cbn [foldl]. rewrite decide_False by apply not_elem_of_nil. lia.
  - cbn [foldl]. specialize (IH (addHours hours cap x)).
    rewrite addHours_lookup in IH.
    destruct (decide (m ∈ x :: l)) as [Hin|Hin];
      destruct (decide (m ∈ l)) as [Hl|Hl];
      destruct (decide (x = m)) as [Hx|Hx]; try lia; exfalso;
      first [ apply elem_of_cons in Hin as [?|?]; by subst
            | apply Hin; by right
            | apply Hin; subst; by left ].
Qed.

Lemma addVirtual_noLess now now' months key eff eff' ticks ticks' r :
  0 ≤ hoursToAdd r →
  noLessHours key eff eff' →
  noLessHours key (addVirtual now months (eff, ticks) r).1
    (addVirtual now' months (eff', ticks') r).1.
Proof.
  intros Hh (Hle & Hsame & Hdom). split; [|split].
  - intros k m. rewrite !capacityOf_alt, !addVirtual_capacity.
    pose proof (Hle k) as Hle'. setoid_rewrite capacityOf_alt in Hle'.
    destruct (decide (resourceKey r = k)) as [Hk|Hk]; [|by apply Hle'].
    destruct (Bucket.monthly_capacity <$> eff !! k) as [cap|] eqn:Hcap;
      destruct (Bucket.monthly_capacity <$> eff' !! k) as [cap'|] eqn:Hcap';
      cbn in *.
    + by apply foldl_addHours_mono.
    + exfalso. clear Hle'. destruct (decide (k = key)) as [->|Hne].
      * destruct Hdom as [b Hb]; [by destruct (eff !! key)|].
        by rewrite Hb in Hcap'.
      * specialize (Hsame k Hne). congruence.
    + rewrite foldl_setHours, lookup_empty.
      pose proof (foldl_addHours_ge (hoursToAdd r) cap' months m Hh).
      specialize (Hle' m).
      destruct (decide (m ∈ months)); cbn in *; lia.
    + done.
  - by apply addVirtual_sameHoursOutside.
  - intros Hsome.
    assert (is_Some (Bucket.monthly_capacity
                       <$> (addVirtual now months (eff, ticks) r).1 !! key))
      as Hsome' by (by apply fmap_is_Some).
    apply fmap_is_Some in Hsome'. clear Hsome'.
    apply (fmap_is_Some Bucket.monthly_capacity).
    apply (fmap_is_Some Bucket.monthly_capacity) in Hsome.
    rewrite addVirtual_capacity in *.
    destruct (decide _); [by eauto|].
    apply fmap_is_Some. apply Hdom. by apply fmap_is_Some in Hsome.
Qed.

Lemma addVirtual_one_noLess now months eff ticks r :
  0 ≤ hoursToAdd r →
  noLessHours (resourceKey r) eff (addVirtual now months (eff, ticks) r).1.
Proof.
  intros Hh. split; [|split].
  - intros k m. rewrite !capacityOf_alt, addVirtual_capacity.
    destruct (decide (resourceKey r = k)) as [Hk|Hk]; [|done].
    destruct (Bucket.monthly_capacity <$> eff !! k) as [cap|]; cbn.
    + pose proof (foldl_addHours_ge (hoursToAdd r) cap months m Hh).
      destruct (decide (m ∈ months)); lia.
    + rewrite foldl_setHours, lookup_empty.
      destruct (decide (m ∈ months)); cbn; lia.
  - apply addVirtual_one_sameHoursOutside.
  - intros _. apply (fmap_is_Some Bucket.monthly_capacity).
    rewrite addVirtual_capacity. rewrite decide_True by done. by eauto.
Qed.

Lemma addVirtual_fold_noLess now now' months key virtuals eff eff' ticks
    ticks' :
  (∀ r, r ∈ virtuals → 0 ≤ hoursToAdd r) →
  noLessHours key eff eff' →
  noLessHours key
    (foldl (addVirtual now months) (eff, ticks) virtuals).1
    (foldl (addVirtual now' months) (eff', ticks') virtuals).1.
Proof.
  revert eff eff' ticks ticks'.
  induction virtuals as [|r l IH]; intros eff eff' ticks ticks' Hh H; [done|].
  cbn [foldl].
  rewrite (addVirtual_pair now months (eff, ticks) r),
    (addVirtual_pair now' months (eff', ticks') r).
  apply IH.
  - intros r' Hr'. apply Hh. by right.
  - apply addVirtual_noLess; [|done]. apply Hh. by left.
Qed.

Lemma effectiveCapacity_noLess now baseline before r after months :
  (∀ r', r' ∈ r :: after → 0 ≤ hoursToAdd r') →
  noLessHours (resourceKey r)
    (calculateEffectiveCapacity now baseline (before ++ after) months)
    (calculateEffectiveCapacity now baseline (before ++ r :: after) months).
Proof.
  intros Hh. unfold calculateEffectiveCapacity. rewrite !foldl_app.
  cbn [foldl].
  destruct (foldl (addVirtual now months) _ before) as [eff ticks].
  rewrite (addVirtual_pair now months (eff, ticks) r).
  apply addVirtual_fold_noLess.
  - intros r' Hr'. apply Hh. by right.
  - apply addVirtual_one_noLess. apply Hh. by left.
Qed.

Lemma or_zero_cellAfter d cell :
  0 ≤ d → or_zero (cellAfter d cell) = availableAfter d (or_zero cell).
Proof.
  intros Hd. unfold cellAfter, availableAfter.
  destruct (decide (d = 0)); [done|].
  destruct (decide (d ≤ or_zero cell)).
  - destruct cell as [[z|]|]; cbn in *; lia.
  - by destruct (decide (0 < or_zero cell)).
Qed.

Lemma availableAfter_zero d : 0 ≤ d → availableAfter d 0 = 0.
Proof.
  intros Hd. unfold availableAfter. repeat (destruct (decide _)); lia.
Qed.

Lemma availableAfter_mono d a a' :
  0 ≤ d → a ≤ a' → availableAfter d a ≤ availableAfter d a'.
Proof.
  intros Hd Ha. unfold availableAfter. repeat (destruct (decide _)); lia.
Qed.

Lemma availableOf_remainingStep projectMap month R projectId k m :
  (∀ project, projectMap !! projectId = Some project →
              nonneg (Project.monthly_demand project)) →
  availableOf (remainingStep projectMap month R projectId) k m
  = match projectMap !! projectId with
    | Some project =>
        if decide (projectKey project = k ∧ month = m)
        then availableAfter (demandOf project month) (availableOf R k m)
        else availableOf R k m
    | None => availableOf R k m
    end.
Proof.
  intros Hnonneg. rewrite !availableOf_at, remainingStep_at.
  destruct (projectMap !! projectId) as [project|] eqn:Hp; [|done].
  destruct (decide _); [|done].
  assert (0 ≤ demandOf project month) as Hd
    by (by apply demandOf_nonneg, Hnonneg).
  destruct (remainingAt R k m) as [cell|]; cbn.
  - by apply or_zero_cellAfter.
  - by rewrite availableAfter_zero.
Qed.

Lemma allocate_noLess projectMap month st st' projectId :
  (∀ project, projectMap !! projectId = Some project →
              nonneg (Project.monthly_demand project)) →
  noLessCapacity st st' →
  noLessCapacity (allocate projectMap month st projectId)
    (allocate projectMap month st' projectId).
Proof.
  intros Hnonneg (HR & HP & Ht).
  destruct (projectMap !! projectId) as [project|] eqn:Hp;
    [|by rewrite !allocate_skip].
  assert (0 ≤ demandOf project month) as Hd
    by (by apply demandOf_nonneg, Hnonneg).
  pose proof (outcome_deficit_antitone (demandOf project month) _ _ Hd
                (HR (projectKey project) month)) as Hdeficit.
  split; [|split].
  - intros k m. rewrite !allocate_remaining.
    rewrite !availableOf_remainingStep by (by rewrite Hp).
    rewrite Hp. destruct (decide _); [|done].
    by apply availableAfter_mono.
  - intros pid. rewrite !(allocate_projectStatus _ _ _ _ _ Hp), !lookup_alter.
    case_decide as Hpid; [|done]. subst pid.
    destruct (HP projectId) as [p p' Hle|]; constructor.
    unfold writeMonth, ProjectStatus.add_deficit. cbn. lia.
  - rewrite !(allocate_eq _ _ _ _ _ Hp). cbn [State.totalDeficit]. lia.
Qed.

Lemma allocateMonth_noLess projectMap month l st st' :
  map_Forall (λ _ project, nonneg (Project.monthly_demand project))
    projectMap →
  noLessCapacity st st' →
  noLessCapacity (allocateMonth projectMap l st month)
    (allocateMonth projectMap l st' month).
Proof.
  intros Hnonneg. unfold allocateMonth. revert st st'.
  induction l as [|x l IH]; intros st st' H; [done|].
  cbn [foldl]. apply IH, allocate_noLess; [|done].
  intros project Hp. by apply (Hnonneg x).
Qed.

Lemma allocateAll_noLess projectMap months l st st' :
  map_Forall (λ _ project, nonneg (Project.monthly_demand project))
    projectMap →
  noLessCapacity st st' →
  noLessCapacity (allocateAll projectMap l months st)
    (allocateAll projectMap l months st').
Proof.
  intros Hnonneg. unfold allocateAll. revert st st'.
  induction months as [|m ms IH]; intros st st' H; [done|].
  cbn [foldl]. by apply IH, allocateMonth_noLess.
Qed.

Lemma initState_noLess key eff eff' projectMap priorityOrder months :
  noLessHours key eff eff' →
  noLessCapacity (initState eff projectMap priorityOrder months)
    (initState eff' projectMap priorityOrder months).
Proof.
  intros (Hle & _). unfold initState. split; [|split].
  - intros k m. cbn [State.remainingCapacity].
    rewrite !availableOf_initRemaining. apply Hle.
  - intros pid. cbn [State.projectStatus].
    destruct (initProjectStatus projectMap priorityOrder !! pid);
      constructor; lia.
  - done.
Qed.

(** X13.  More hands never hurt.  When no demand is negative, a virtual
    resource with non-negative hours, put anywhere in a list whose later
    resources have non-negative hours, raises neither the grand total of
    deficit nor the total of any project. *)
Theorem more_capacity_never_hurts (now : nat → Z) baseline projects
    priorityOrder before r after shifts months :
  (∀ q, q ∈ projects → nonneg (Project.monthly_demand q)) →
  (∀ r', r' ∈ r :: after →
         ∀ h, Resource.hoursPerMonth r' = Some h → 0 ≤ h) →
  let without := calculateScenario now baseline projects priorityOrder
                   (before ++ after) shifts months in
  let with_r := calculateScenario now baseline projects priorityOrder
                  (before ++ r :: after) shifts months in
  Result.totalDeficit with_r ≤ Result.totalDeficit without
  ∧ ∀ pid p,
      Result.projectStatus without !! pid = Some p →
      ∃ p', Result.projectStatus with_r !! pid = Some p'
            ∧ ProjectStatus.totalDeficit p' ≤ ProjectStatus.totalDeficit p.
Proof.
  intros Hdemand Hhours. cbv zeta.
  rewrite !scenario_totalDeficit, !scenario_projectStatus.
  assert (noLessCapacity
            (allocateAll (scenarioProjects projects shifts months)
               priorityOrder months
               (initState
                  (calculateEffectiveCapacity now baseline (before ++ after)
                     months)
                  (scenarioProjects projects shifts months) priorityOrder
                  months))
            (allocateAll (scenarioProjects projects shifts months)
               priorityOrder months
               (initState
                  (calculateEffectiveCapacity now baseline
                     (before ++ r :: after) months)
                  (scenarioProjects projects shifts months) priorityOrder
                  months))) as (_ & HP & Ht).
  { apply allocateAll_noLess.
    - intros pid project Hp.
      by apply (scenarioProjects_nonneg projects shifts months pid).
    - apply (initState_noLess (resourceKey r)).
      apply effectiveCapacity_noLess. intros r' Hr'.
      apply hoursToAdd_nonneg. by apply Hhours. }
  split; [done|]. intros pid p. rewrite !lookup_fmap.
  destruct (HP pid) as [p0 p0' Hle|]; [|done].
  cbn. intros [= <-]. exists (summarize p0'). split; [done|].
  by rewrite !summarize_totalDeficit.
Qed.

Lemma more_capacity_never_hurts_witness :
  let without := calculateScenario (λ _, 0) [bucket100]
                   [demand60 "p1"; demand60 "p2"] ["p1"; "p2"] ([] ++ [])
                   ∅ jan in
  let with_r := calculateScenario (λ _, 0) [bucket100]
                  [demand60 "p1"; demand60 "p2"] ["p1"; "p2"]
                  ([] ++ hireLondon :: []) ∅ jan in
  Result.totalDeficit with_r ≤ Result.totalDeficit without
  ∧ ∀ pid p,
      Result.projectStatus without !! pid = Some p →
      ∃ p', Result.projectStatus with_r !! pid = Some p'
            ∧ ProjectStatus.totalDeficit p' ≤ ProjectStatus.totalDeficit p.
Proof.
  apply (more_capacity_never_hurts (λ _, 0) [bucket100]
           [demand60 "p1"; demand60 "p2"] ["p1"; "p2"] [] hireLondon [] ∅
           jan).
  - apply demand60_nonneg.
  - intros r' ->%list_elem_of_singleton h [= <-]. lia.
Defined.

(** ** Where the shifter puts the hours *)

Lemma addMonthIndex_lookup months index idx month i :
  (foldl addMonthIndex (index, idx) months).1 !! month = Some i →
  (∃ pos, months !! pos = Some month ∧ i = (idx + pos)%nat)
  ∨ index !! month = Some i.
Proof.
  revert index idx. induction months as [|x l IH]; intros index idx.
  - cbn. by right.
  - cbn [foldl]. unfold addMonthIndex at 2. intros H.
    apply IH in H as [(pos & Hpos & ->)|H].
    + left. exists (S pos). split; [done|lia].
    + destruct (decide (x = month)) as [->|Hne].
      * rewrite lookup_insert_eq in H. injection H as <-.
        left. exists 0%nat. split; [done|lia].
      * rewrite lookup_insert_ne in H by done. by right.
Qed.

Lemma monthIndex_position months month i :
  monthIndex months !! month = Some i → months !! i = Some month.
Proof.
  intros H. apply addMonthIndex_lookup in H as [(pos & Hpos & ->)|H].
  - done.
  - by rewrite lookup_empty in H.
Qed.

Lemma monthIndex_at months month i :
  NoDup months → months !! i = Some month →
  monthIndex months !! month = Some i.
Proof.
  intros Hnodup Hi.
  destruct (proj2 (monthIndex_is_Some months month)) as [i' Hi'].
  { by apply list_elem_of_lookup_2 in Hi. }
  rewrite Hi'. f_equal. apply monthIndex_position in Hi'.
  by apply (NoDup_lookup months i' i month).
Qed.

Lemma destination_inv months shift month newMonth :
  destination months shift month = Some newMonth →
  ∃ i j, months !! i = Some month ∧ months !! j = Some newMonth
         ∧ Z.of_nat j = Z.of_nat i + shift.
Proof.
  unfold destination.
  destruct (monthIndex months !! month) as [i|] eqn:Hi; [|done].
  cbn. case_decide as Hwindow; [|done]. intros Hj.
  exists i, (Z.to_nat (Z.of_nat i + shift)).
  split; [by apply monthIndex_position|]. split; [done|lia].
Qed.

Lemma destination_at months shift month newMonth i j :
  NoDup months →
  months !! i = Some month → months !! j = Some newMonth →
  Z.of_nat j = Z.of_nat i + shift →
  destination months shift month = Some newMonth.
Proof.
  intros Hnodup Hi Hj Hij. unfold destination.
  rewrite (monthIndex_at _ _ _ Hnodup Hi). cbn.
  pose proof (lookup_lt_Some _ _ _ Hj).
  rewrite decide_True by lia.
  by replace (Z.to_nat (Z.of_nat i + shift)) with j by lia.
Qed.

Lemma landing_lookup months shift newMonth demand k :
  landing months shift newMonth demand !! k
  = if decide (destination months shift k = Some newMonth)
    then demand !! k else None.
Proof.
  unfold landing. destruct (decide _) as [Hd|Hd].
  - destruct (demand !! k) as [h|] eqn:Hk.
    + by apply map_lookup_filter_Some.
    + apply map_lookup_filter_None. by left.
  - apply map_lookup_filter_None. right. by intros h _.
Qed.

Lemma landing_single months shift month newMonth demand i j :
  NoDup months →
  months !! i = Some month → months !! j = Some newMonth →
  Z.of_nat j = Z.of_nat i + shift →
  landing months shift newMonth demand
  = match demand !! month with
    | Some h => {[month := h]}
    | None => ∅
    end.
Proof.
  intros Hnodup Hi Hj Hij. apply map_eq. intros k.
  rewrite landing_lookup.
  destruct (decide (k = month)) as [->|Hne].
  - rewrite decide_True by (by apply (destination_at _ _ _ _ i j)).
    destruct (demand !! month); [by rewrite lookup_singleton_eq|done].
  - rewrite decide_False.
    + destruct (demand !! month); [by rewrite lookup_singleton_ne|done].
    + intros Hd. apply destination_inv in Hd as (i' & j' & Hi' & Hj' & Hij').
      assert (j' = j) as -> by (by apply (NoDup_lookup months j' j newMonth)).
      assert (i' = i) as -> by lia. congruence.
Qed.

Lemma landing_nothing months shift newMonth demand j :
  NoDup months →
  months !! j = Some newMonth →
  ¬ (0 ≤ Z.of_nat j - shift ∧ Z.of_nat j - shift < Z.of_nat (length months)) →
  landing months shift newMonth demand = ∅.
Proof.
  intros Hnodup Hj Hwindow. apply map_eq. intros k.
  rewrite landing_lookup, lookup_empty. rewrite decide_False; [done|].
  intros Hd. apply destination_inv in Hd as (i' & j' & Hi' & Hj' & Hij').
  assert (j' = j) as -> by (by apply (NoDup_lookup months j' j newMonth)).
  pose proof (lookup_lt_Some _ _ _ Hi'). lia.
Qed.

(** X14.  With the months listed once, a shift by [shift] moves the demand
    of a project month by month: the shifted record has, for the month at
    position [i + shift], exactly the entry that the record had for the
    month at position [i], and no entry for a listed month whose source
    position falls outside the list. *)
Theorem shift_moves_demand shifts months project shift :
  NoDup months →
  shifts !! Project.id project = Some shift →
  shift ≠ 0 →
  let shifted := Project.monthly_demand (shiftProject shifts months project) in
  (∀ i j month newMonth,
     months !! i = Some month → months !! j = Some newMonth →
     Z.of_nat j = Z.of_nat i + shift →
     shifted !! newMonth = Project.monthly_demand project !! month)
  ∧ (∀ j newMonth,
       months !! j = Some newMonth →
       ¬ (0 ≤ Z.of_nat j - shift
          ∧ Z.of_nat j - shift < Z.of_nat (length months)) →
       shifted !! newMonth = None).
Proof.
  intros Hnodup Hshift Hne. cbv zeta.
  rewrite (shiftProject_shifted _ _ _ _ Hshift Hne).
  cbn [Project.monthly_demand]. split.
  - intros i j month newMonth Hi Hj Hij. rewrite shiftDemand_lookup.
    rewrite (landing_single _ _ _ _ _ i j Hnodup Hi Hj Hij).
    destruct (Project.monthly_demand project !! month) as [h|].
    + rewrite decide_False by apply insert_non_empty.
      f_equal. unfold sumHours.
      rewrite map_fold_singleton. lia.
    + by rewrite decide_True.
  - intros j newMonth Hj Hwindow. rewrite shiftDemand_lookup.
    by rewrite (landing_nothing _ _ _ _ j Hnodup Hj Hwindow), decide_True.
Qed.

Lemma shift_moves_demand_witness :
  let shifted :=
    Project.monthly_demand (shiftProject shiftRamp janFeb projectRamp) in
  (∀ i j month newMonth,
     janFeb !! i = Some month → janFeb !! j = Some newMonth →
     Z.of_nat j = Z.of_nat i + 1 →
     shifted !! newMonth = Project.monthly_demand projectRamp !! month)
  ∧ (∀ j newMonth,
       janFeb !! j = Some newMonth →
       ¬ (0 ≤ Z.of_nat j - 1 ∧ Z.of_nat j - 1 < Z.of_nat (length janFeb)) →
       shifted !! newMonth = None).
Proof.
  apply (shift_moves_demand shiftRamp janFeb projectRamp 1).
  - apply NoDup_cons. split.
    + apply not_elem_of_cons. split; [discriminate|apply not_elem_of_nil].
    + apply NoDup_singleton.
  - vm_compute. reflexivity.
  - lia.
Defined.

(** * The callers of the engine *)

(** ** The dashboard's levers *)


Lemma filter_fresh_id (resources : list VirtualResource.t) resourceId :
  (∀ r, r ∈ resources → VirtualResource.id r ≠ resourceId) →
  filter (λ r, VirtualResource.id r ≠ resourceId) resources = resources.
Proof.
  induction resources as [|r l IH]; intros Hfresh; [done|].
  rewrite filter_cons_True by (apply Hfresh; by left).
  f_equal. apply IH. intros r' Hr'. apply Hfresh. by right.
Qed.

(** X16.  Adding a virtual resource and removing it again restores the
    levers, and with them the result, when the id that the clock gave the
    resource is the id of no other resource of the list; a removal takes
    away every resource that carries the id. *)
Theorem add_then_remove_resource (now : nat → Z) baselineCapacity
    baselineProjects months clock resource s :
  (∀ r, r ∈ Dashboard.Levers.virtualResources s →
        VirtualResource.id r ≠ clock) →
  let s' := Dashboard.handleRemoveVirtualResource clock
              (Dashboard.handleAddVirtualResource clock resource s) in
  s' = s
  ∧ Dashboard.scenarioResults now baselineCapacity baselineProjects months s'
    = Dashboard.scenarioResults now baselineCapacity baselineProjects months s.
Proof.
  intros Hfresh. cbv zeta.
  assert (Dashboard.handleRemoveVirtualResource clock
            (Dashboard.handleAddVirtualResource clock resource s) = s) as ->;
    [|done].
  destruct s as [order resources shifts].
  unfold Dashboard.handleRemoveVirtualResource,
    Dashboard.handleAddVirtualResource.
  cbn [Dashboard.Levers.priorityOrder Dashboard.Levers.virtualResources
       Dashboard.Levers.timelineShifts] in *.
  f_equal. rewrite filter_app, filter_cons_False, filter_nil, app_nil_r.
  - by apply filter_fresh_id.
  - cbn. by intros H.
Qed.

Lemma add_then_remove_resource_witness :
  let s := Dashboard.handleAddVirtualResource 1000 zeroHire
             (Dashboard.initialLevers [demand60 "p1"; demand60 "p2"]) in
  let s' := Dashboard.handleRemoveVirtualResource 2000
              (Dashboard.handleAddVirtualResource 2000 hireLondon s) in
  s' = s
  ∧ Dashboard.scenarioResults (λ _, 0) [bucket100]
      [demand60 "p1"; demand60 "p2"] jan s'
    = Dashboard.scenarioResults (λ _, 0) [bucket100]
        [demand60 "p1"; demand60 "p2"] jan s.
Proof.
  apply (add_then_remove_resource (λ _, 0) [bucket100]
           [demand60 "p1"; demand60 "p2"] jan 2000 hireLondon).
  intros r ->%list_elem_of_singleton. cbn. lia.
Defined.

(** Two resources added within the same millisecond share their id, and
    removing one removes both. *)
Example same_clock_removes_both :
  Dashboard.Levers.virtualResources
    (Dashboard.handleRemoveVirtualResource 1000
       (Dashboard.handleAddVirtualResource 1000 hireLondon
          (Dashboard.handleAddVirtualResource 1000 zeroHire
             (Dashboard.initialLevers []))))
  = [].
Proof. vm_compute. reflexivity. Qed.

(** ** The shift buttons *)

Lemma handle_within_six baselineProjects s e :
  map_Forall (λ _ shift, -6 ≤ shift ∧ shift ≤ 6)
    (Dashboard.Levers.timelineShifts s) →
  map_Forall (λ _ shift, -6 ≤ shift ∧ shift ≤ 6)
    (Dashboard.Levers.timelineShifts (Session.handle baselineProjects s e)).
Proof.
  intros Hs. destruct e as [order|clock r|rid|pid d|];
    [done..| |apply map_Forall_empty].
  unfold Session.handle, Dashboard.clickShift, Heatmap.handleShiftProject.
  destruct (decide _) as [Hwindow|]; [|done].
  unfold Dashboard.handleTimelineShift.
  cbn [Dashboard.Levers.timelineShifts]. by apply map_Forall_insert_2.
Qed.

(** X17.  Whatever the user does, in any order, no project is ever shifted
    by more than six months either way: the buttons refuse the click that
    would leave the window, and a reset clears the shifts. *)
Theorem shifts_stay_within_six baselineProjects events :
  map_Forall (λ _ shift, -6 ≤ shift ∧ shift ≤ 6)
    (Dashboard.Levers.timelineShifts (Session.run baselineProjects events)).
Proof.
  unfold Session.run.
  assert (map_Forall (λ _ shift, -6 ≤ shift ∧ shift ≤ 6)
            (Dashboard.Levers.timelineShifts
               (Dashboard.initialLevers baselineProjects))) as Hinit
    by apply map_Forall_empty.
  revert Hinit. generalize (Dashboard.initialLevers baselineProjects).
  induction events as [|e l IH]; intros s Hs; [done|].
  cbn [foldl]. by apply IH, handle_within_six.
Qed.

Lemma shiftProject_shiftOf shifts shifts' months project :
  shiftOf shifts (Project.id project) = shiftOf shifts' (Project.id project) →
  shiftProject shifts months project = shiftProject shifts' months project.
Proof.
  unfold shiftOf, shiftProject.
  destruct (shifts !! Project.id project) as [a|],
           (shifts' !! Project.id project) as [b|]; cbn.
  - by intros ->.
  - intros ->. by rewrite decide_True.
  - intros <-. by rewrite decide_True.
  - done.
Qed.

Lemma applyTimelineShifts_shiftOf projects shifts shifts' months :
  (∀ pid, shiftOf shifts pid = shiftOf shifts' pid) →
  applyTimelineShifts projects shifts months
  = applyTimelineShifts projects shifts' months.
Proof.
  intros H. unfold applyTimelineShifts. apply map_ext. intros project.
  by apply shiftProject_shiftOf.
Qed.

Lemma scenario_shiftOf now baseline projects priorityOrder virtuals shifts
    shifts' months :
  (∀ pid, shiftOf shifts pid = shiftOf shifts' pid) →
  calculateScenario now baseline projects priorityOrder virtuals shifts months
  = calculateScenario now baseline projects priorityOrder virtuals shifts'
      months.
Proof.
  intros H. unfold calculateScenario.
  by rewrite (applyTimelineShifts_shiftOf projects shifts shifts' months H).
Qed.

(** X18.  The engine reads the table of shifts through
    [timelineShifts[id] || 0] only: two tables that give every project the
    same shift, a missing entry counting as zero, give the same result. *)
Theorem missing_shift_is_zero_shift (now : nat → Z) baseline projects
    priorityOrder virtuals shifts shifts' months :
  (∀ pid, shiftOf shifts pid = shiftOf shifts' pid) →
  calculateScenario now baseline projects priorityOrder virtuals shifts months
  = calculateScenario now baseline projects priorityOrder virtuals shifts'
      months.
Proof. apply scenario_shiftOf. Qed.

Lemma missing_shift_is_zero_shift_witness :
  calculateScenario (λ _, 0) [bucketSurplus] [projectRamp] ["p1"] []
    {["p1" := 0]} janFeb
  = calculateScenario (λ _, 0) [bucketSurplus] [projectRamp] ["p1"] [] ∅
      janFeb.
Proof.
  apply (missing_shift_is_zero_shift (λ _, 0) [bucketSurplus] [projectRamp]
           ["p1"] [] {["p1" := 0]} ∅ janFeb).
  intros pid. unfold shiftOf. rewrite lookup_empty.
  destruct (decide (pid = "p1")) as [->|Hne].
  - by rewrite lookup_singleton_eq.
  - by rewrite lookup_singleton_ne.
Defined.

Lemma clickShift_shifts projectId direction s :
  Dashboard.Levers.timelineShifts (Dashboard.clickShift projectId direction s)
  = let newShift :=
      shiftOf (Dashboard.Levers.timelineShifts s) projectId + direction in
    if decide (-6 ≤ newShift ∧ newShift ≤ 6)
    then <[projectId := newShift]> (Dashboard.Levers.timelineShifts s)
    else Dashboard.Levers.timelineShifts s.
Proof.
  unfold Dashboard.clickShift, Heatmap.handleShiftProject, shiftOf.
  cbv zeta. by destruct (decide _).
Qed.

Lemma clickShift_others projectId direction s :
  Dashboard.Levers.priorityOrder (Dashboard.clickShift projectId direction s)
  = Dashboard.Levers.priorityOrder s
  ∧ Dashboard.Levers.virtualResources
      (Dashboard.clickShift projectId direction s)
    = Dashboard.Levers.virtualResources s.
Proof.
  unfold Dashboard.clickShift, Heatmap.handleShiftProject.
  by destruct (decide _).
Qed.

(** X19.  A click on a shift button and a click back.  When both shifts are
    inside the window of six months, the two clicks leave every project
    with the shift it had, and the result is the one of before; the table
    itself may have gained an entry with a zero. *)
Theorem shift_there_and_back (now : nat → Z) baselineCapacity baselineProjects
    months s projectId direction :
  let current := shiftOf (Dashboard.Levers.timelineShifts s) projectId in
  -6 ≤ current ∧ current ≤ 6 →
  -6 ≤ current + direction ∧ current + direction ≤ 6 →
  let s' := Dashboard.clickShift projectId (- direction)
              (Dashboard.clickShift projectId direction s) in
  (∀ pid, shiftOf (Dashboard.Levers.timelineShifts s') pid
          = shiftOf (Dashboard.Levers.timelineShifts s) pid)
  ∧ Dashboard.scenarioResults now baselineCapacity baselineProjects months s'
    = Dashboard.scenarioResults now baselineCapacity baselineProjects months s.
Proof.
  intros current Hcurrent Hnext s'.
  assert (∀ pid, shiftOf (Dashboard.Levers.timelineShifts s') pid
                 = shiftOf (Dashboard.Levers.timelineShifts s) pid) as Hsame.
  { intros pid. subst s'. rewrite !clickShift_shifts.
    fold current. rewrite (decide_True _ _ Hnext).
    unfold shiftOf at 1 2. rewrite lookup_insert_eq.
    cbn [default from_option]. unfold id.
    rewrite decide_True by lia. unfold shiftOf.
    destruct (decide (projectId = pid)) as [->|Hne].
    - rewrite lookup_insert_eq. subst current. unfold shiftOf.
      destruct (Dashboard.Levers.timelineShifts s !! pid);
        cbn [default from_option]; unfold id; lia.
    - by rewrite !lookup_insert_ne. }
  split; [done|]. unfold Dashboard.scenarioResults.
  assert (Dashboard.Levers.priorityOrder s' = Dashboard.Levers.priorityOrder s
          ∧ Dashboard.Levers.virtualResources s'
            = Dashboard.Levers.virtualResources s) as [-> ->].
  { subst s'.
    destruct (clickShift_others projectId (- direction)
                (Dashboard.clickShift projectId direction s)) as [-> ->].
    apply clickShift_others. }
  by apply scenario_shiftOf.
Qed.

Lemma shift_there_and_back_witness :
  let s := Dashboard.initialLevers [projectRamp] in
  let s' := Dashboard.clickShift "p1" (- 1) (Dashboard.clickShift "p1" 1 s) in
  (∀ pid, shiftOf (Dashboard.Levers.timelineShifts s') pid
          = shiftOf (Dashboard.Levers.timelineShifts s) pid)
  ∧ Dashboard.scenarioResults (λ _, 0) [bucketSurplus] [projectRamp] janFeb s'
    = Dashboard.scenarioResults (λ _, 0) [bucketSurplus] [projectRamp] janFeb
        s.
Proof.
  apply (shift_there_and_back (λ _, 0) [bucketSurplus] [projectRamp] janFeb
           (Dashboard.initialLevers [projectRamp]) "p1" 1).
  - vm_compute. split; discriminate.
  - vm_compute. split; discriminate.
Defined.

(** At the edge of the window the click is refused, and the click back
    moves the project. *)
Example refused_click_is_not_undone :
  shiftOf
    (Dashboard.Levers.timelineShifts
       (Dashboard.clickShift "p1" (-1)
          (Dashboard.clickShift "p1" 1
             (Dashboard.handleTimelineShift "p1" 6
                (Dashboard.initialLevers [projectRamp]))))) "p1" = 5.
Proof. vm_compute. reflexivity. Qed.

(** ** The colours of the heatmap *)

Lemma scenario_utilization now baseline projects priorityOrder virtuals shifts
    months k u m :
  (∀ b, b ∈ baseline → nonneg (Bucket.monthly_capacity b)) →
  (∀ r, r ∈ virtuals → ∀ h, Resource.hoursPerMonth r = Some h → 0 ≤ h) →
  (∀ p, p ∈ projects → nonneg (Project.monthly_demand p)) →
  Result.bucketUtilization
    (calculateScenario now baseline projects priorityOrder virtuals shifts
       months) !! k = Some u →
  m ∈ months →
  ∃ consumed,
    Utilization.monthly_consumed u !! m = Some consumed
    ∧ 0 ≤ consumed
    ∧ consumed
      ≤ default 0 (Bucket.monthly_capacity (Utilization.bucket u) !! m)
    ∧ Utilization.monthly_utilization u !! m
      = Some (if decide (0 < default 0 (Bucket.monthly_capacity
                                          (Utilization.bucket u) !! m))
              then round_percent consumed
                     (default 0 (Bucket.monthly_capacity
                                   (Utilization.bucket u) !! m))
              else 0).
Proof.
  intros Hb Hv Hp Hu Hm.
  assert (Utilization.bucket <$> Some u
          = calculateEffectiveCapacity now baseline virtuals months !! k)
    as Hbucket.
  { rewrite <- Hu, scenario_from. apply scenarioFrom_bucket. }
  unfold calculateScenario in Hu. cbn [Result.bucketUtilization] in Hu.
  set (eff := calculateEffectiveCapacity now baseline virtuals months) in *.
  set (pm := buildProjectMap (applyTimelineShifts projects shifts months))
    in *.
  assert (Hinv : utilInv eff months
            (allocateAll pm priorityOrder months
               (initState eff pm priorityOrder months))).
  { apply allocateAll_utilInv.
    - intros pid project Hpid.
      by apply (scenarioProjects_nonneg _ _ _ _ _ Hp Hpid).
    - apply initState_utilInv. by apply effectiveCapacity_nonneg. }
  unfold initState in Hinv.
  unfold finalUtilization in Hu. rewrite map_lookup_imap in Hu.
  destruct (State.bucketUtilization _ !! k) as [u0|] eqn:Hu0; [|done].
  cbn in Hu. injection Hu as <-.
  destruct (Hinv _ _ Hu0) as (b & row & Hbk & _ & Hms).
  destruct (Hms m Hm) as (c & r & Hc & Hr & Hsum & Hc0 & Hr0 & _).
  rewrite Hbk in *. cbn in Hbucket. injection Hbucket as Hbucket.
  cbn [from_option].
  destruct (setUtilization_fold (Bucket.monthly_capacity b) months u0 m)
    as (Hc' & Hr' & Hu').
  cbv zeta in *. rewrite Hbucket, Hc', Hu'. rewrite decide_True by done.
  rewrite (lookup_total_correct _ _ _ Hc).
  exists c. split; [done|]. split; [done|]. split; [lia|done].
Qed.

Lemma bucket100_nonneg b :
  b ∈ [bucket100] → nonneg (Bucket.monthly_capacity b).
Proof. intros ->%list_elem_of_singleton. apply map_Forall_singleton. lia. Qed.

Lemma twoHires_nonneg r :
  r ∈ twoHires → ∀ h, Resource.hoursPerMonth r = Some h → 0 ≤ h.
Proof.
  intros Hr h Hh. unfold twoHires in Hr.
  apply elem_of_cons in Hr as [->|Hr];
    [|apply list_elem_of_singleton in Hr as ->];
    injection Hh as <-; lia.
Qed.

(** A negative demand is booked as hours handed back, and the utilization
    leaves the range on the other side. *)
Example negative_demand_negative_utilization :
  Heatmap.utilizationAt
    (default workedUtilization
       (Result.bucketUtilization
          (calculateScenario (λ _, 0) [bucket5] [projectB; projectA]
             ["A"; "B"] [] ∅ jan) !! "digital|developer|london")) "Jan"
  = -100.
Proof. vm_compute. reflexivity. Qed.

(** ** The total of the virtual-capacity panel *)






(** ** The list of the priority slider *)

Lemma buildProjectMap_id shiftedProjects pid project :
  buildProjectMap shiftedProjects !! pid = Some project →
  Project.id project = pid.
Proof.
  induction shiftedProjects as [|p l IH] using rev_ind.
  - unfold buildProjectMap. cbn. by rewrite lookup_empty.
  - rewrite buildProjectMap_snoc.
    destruct (decide (Project.id p = pid)) as [<-|Hne].
    + rewrite lookup_insert_eq. by intros [= <-].
    + by rewrite lookup_insert_ne.
Qed.

Lemma filter_ext_in {A} (P Q : A → Prop) `{!∀ x, Decision (P x)}
    `{!∀ x, Decision (Q x)} (l : list A) :
  (∀ x, x ∈ l → P x ↔ Q x) → filter P l = filter Q l.
Proof.
  induction l as [|x l IH]; intros HPQ; [done|].
  rewrite !filter_cons.
  assert (filter P l = filter Q l) as ->.
  { apply IH. intros y Hy. apply HPQ. by right. }
  pose proof (HPQ x ltac:(by left)) as Hx.
  destruct (decide (P x)), (decide (Q x)); tauto.
Qed.

Lemma objectLookup_own projects priorityOrder pid :
  plainKeys projects priorityOrder → pid ∈ priorityOrder →
  objectLookup (buildProjectMap projects) pid
  = Own <$> buildProjectMap projects !! pid.
Proof.
  intros [_ Hnames] Hpid. unfold objectLookup.
  destruct (buildProjectMap projects !! pid) as [project|] eqn:Hp; [done|].
  case_decide as Hname; [|done]. exfalso.
  destruct (Hnames pid Hpid Hname) as (p & Hin & Hid).
  assert (is_Some (buildProjectMap projects !! pid)) as [? ?]; [|congruence].
  apply buildProjectMap_dom. by exists p.
Qed.

Lemma orderedProjects_ids projects priorityOrder :
  plainKeys projects priorityOrder →
  map PrioritySlider.rowId
    (PrioritySlider.orderedProjects projects priorityOrder)
  = Some <$>
    filter (λ pid, is_Some (buildProjectMap projects !! pid)) priorityOrder.
Proof.
  intros Hplain. unfold PrioritySlider.orderedProjects.
  assert (Hgen : ∀ l, (∀ pid, pid ∈ l → pid ∈ priorityOrder) →
    map PrioritySlider.rowId (omap (objectLookup (buildProjectMap projects)) l)
    = Some <$>
      filter (λ pid, is_Some (buildProjectMap projects !! pid)) l).
  { induction l as [|pid l IH]; intros Hsub; [done|].
    cbn [omap list_omap]. rewrite filter_cons.
    rewrite (objectLookup_own projects priorityOrder pid Hplain)
      by (apply Hsub; by left).
    assert (Hrest : ∀ pid', pid' ∈ l → pid' ∈ priorityOrder).
    { intros pid' Hin. apply Hsub. by right. }
    destruct (buildProjectMap projects !! pid) as [project|] eqn:Hp.
    - rewrite decide_True by eauto. cbn [fmap option_fmap option_map map].
      cbn [list_fmap PrioritySlider.rowId].
      rewrite (buildProjectMap_id _ _ _ Hp). f_equal. by apply IH.
    - rewrite decide_False by (by intros [? ?]). by apply IH. }
  by apply Hgen.
Qed.

(** X22.  The priority slider lists the projects that the result reports,
    in the order of the levers.  When no record has the id [__proto__] and
    every id of the order that is a name inherited by an object literal has
    a record, [projectMap] answers an id of the order with a record of its
    own or not at all, and the ids of the rows of the slider are the ids of
    the priority order that have a status entry. *)
Theorem slider_lists_reported_projects (now : nat → Z) baseline projects
    priorityOrder virtuals shifts months :
  plainKeys projects priorityOrder →
  (∀ pid, pid ∈ priorityOrder →
          objectLookup (buildProjectMap projects) pid
          = Own <$> buildProjectMap projects !! pid)
  ∧ map PrioritySlider.rowId
      (PrioritySlider.orderedProjects projects priorityOrder)
    = Some <$>
      filter
        (λ pid, is_Some
                  (Result.projectStatus
                     (calculateScenario now baseline projects priorityOrder
                        virtuals shifts months) !! pid))
        priorityOrder.
Proof.
  intros Hplain. split.
  - intros pid Hpid. by apply (objectLookup_own projects priorityOrder).
  - rewrite orderedProjects_ids by done. f_equal.
    apply filter_ext_in. intros pid Hpid.
    rewrite scenario_entries, buildProjectMap_dom. tauto.
Qed.

Lemma slider_lists_reported_projects_witness :
  (∀ pid, pid ∈ ["p1"; "p2"] →
          objectLookup (buildProjectMap [demand60 "p1"; demand60 "p2"]) pid
          = Own <$> buildProjectMap [demand60 "p1"; demand60 "p2"] !! pid)
  ∧ map PrioritySlider.rowId
      (PrioritySlider.orderedProjects [demand60 "p1"; demand60 "p2"]
         ["p1"; "p2"])
    = Some <$>
      filter
        (λ pid, is_Some
                  (Result.projectStatus
                     (calculateScenario (λ _, 0) [bucket100]
                        [demand60 "p1"; demand60 "p2"] ["p1"; "p2"] [] ∅
                        jan) !! pid))
        ["p1"; "p2"].
Proof.
  apply (slider_lists_reported_projects (λ _, 0) [bucket100]
           [demand60 "p1"; demand60 "p2"] ["p1"; "p2"] [] ∅ jan).
  apply worked_plainKeys.
Defined.

(** An id of the order that no record carries and that every object
    inherits gets a row: one without an id. *)
Example inherited_name_gets_a_row :
  map PrioritySlider.rowId
    (PrioritySlider.orderedProjects [demand60 "p1"] ["constructor"; "p1"])
  = [None; Some "p1"].
Proof. vm_compute. reflexivity. Qed.

(** ** The values of the dropdowns *)

Lemma addValue_fold {A} (field : A → string) (items : list A) values :
  NoDup values →
  let values' := foldl (addValue field) values items in
  NoDup values'
  ∧ ∀ x, x ∈ values'
         ↔ x ∈ values ∨ (x ≠ "" ∧ ∃ item, item ∈ items ∧ field item = x).
Proof.
  revert values. induction items as [|item l IH]; intros values Hnodup.
  - cbn. split; [done|]. intros x. split; [by left|].
    intros [?|(_ & item & Hitem & _)]; [done|]. by apply elem_of_nil in Hitem.
  - cbn [foldl].
    assert (NoDup (addValue field values item)
            ∧ ∀ x, x ∈ addValue field values item
                   ↔ x ∈ values ∨ (x ≠ "" ∧ field item = x)) as [Hnodup' Hin].
    { unfold addValue. destruct (decide (field item = "")) as [Hempty|Hfull].
      - split; [done|]. intros x. split; [by left|].
        intros [?|[? ?]]; [done|congruence].
      - destruct (decide (field item ∈ values)) as [Hold|Hnew].
        + split; [done|]. intros x. split; [by left|].
          intros [?|[? Hx]]; [done|by subst x].
        + split.
          * apply NoDup_app. split; [done|]. split; [|apply NoDup_singleton].
            intros x Hx Hx'. apply list_elem_of_singleton in Hx'.
            by subst x.
          * intros x. rewrite elem_of_app, list_elem_of_singleton. split.
            -- intros [?|Hx]; [by left|]. right. by subst x.
            -- intros [?|[_ Hx]]; [by left|by right]. }
    destruct (IH _ Hnodup') as [Hfinal Hmem]. cbv zeta. split; [done|].
    intros x. rewrite Hmem, Hin. split.
    + intros [[?|[Hx Hf]]|(Hx & item' & Hitem' & Hf)].
      * by left.
      * right. split; [done|]. exists item. split; [by left|done].
      * right. split; [done|]. exists item'. split; [by right|done].
    + intros [?|(Hx & item' & Hitem' & Hf)]; [by left; left|].
      apply elem_of_cons in Hitem' as [->|Hitem'].
      * left. right. done.
      * right. split; [done|]. by exists item'.
Qed.

Lemma codeUnitOrder_total : Total codeUnitOrder.
Proof. intros a b. apply String.leb_total. Qed.

(** X23.  The values that a dropdown offers: [getUniqueValues] returns the
    non-empty values of the field over the items, each once, in ascending
    order of code units. *)
Theorem unique_values {A} (items : list A) (field : A → string) :
  Sorted codeUnitOrder (getUniqueValues items field)
  ∧ NoDup (getUniqueValues items field)
  ∧ ∀ x, x ∈ getUniqueValues items field
         ↔ x ≠ "" ∧ ∃ item, item ∈ items ∧ field item = x.
Proof.
  unfold getUniqueValues.
  destruct (addValue_fold field items [] (NoDup_nil_2)) as [Hnodup Hmem].
  cbv zeta in *. split; [|split].
  - apply (Sorted_merge_sort codeUnitOrder (Total0 := codeUnitOrder_total)).
  - by rewrite merge_sort_Permutation.
  - intros x. rewrite merge_sort_Permutation, Hmem. split; [|by right].
    intros [Hx|?]; [|done]. by apply elem_of_nil in Hx.
Qed.

Example unique_teams :
  getUniqueValues
    [bucketPune; bucket100; bucket5;
     Bucket.mk "bucket_2" "" "Developer" "London" ∅ false]
    Bucket.team
  = ["Data"; "Digital"].
Proof. vm_compute. reflexivity. Qed.

(** * More of the allocation *)

(** ** Nobody is short while hours are left *)

Lemma keyed_step (projectMap : gmap string Project.t) pid project p m a :
  projectMap !! pid = Some project →
  (∃ project, projectMap !! pid = Some project
              ∧ ProjectStatus.bucketKey p = projectKey project) →
  ∃ project', projectMap !! pid = Some project'
    ∧ ProjectStatus.bucketKey
        (writeMonth m (outcome (demandOf project m) a) p)
      = projectKey project'.
Proof. intros _ H. exact H. Qed.

Lemma initProjectStatus_keyed projectMap priorityOrder :
  keyed projectMap (initProjectStatus projectMap priorityOrder).
Proof.
  intros pid p Hp.
  destruct (initProjectStatus_fresh _ _ _ _ Hp) as (Hproject & _ & _ & Hk & _).
  by exists (ProjectStatus.project p).
Qed.

Lemma allocate_keyed projectMap month st projectId :
  keyed projectMap (State.projectStatus st) →
  keyed projectMap
    (State.projectStatus (allocate projectMap month st projectId)).
Proof.
  intros H. unfold keyed.
  apply (allocate_entries
           (λ pid p, ∃ project, projectMap !! pid = Some project
                       ∧ ProjectStatus.bucketKey p = projectKey project)
           projectMap month st projectId).
  - intros pid project p m a Hp Hk. by apply (keyed_step _ _ project).
  - exact H.
Qed.

Lemma availableAfter_le d a : 0 ≤ d → availableAfter d a ≤ a.
Proof.
  intros Hd. unfold availableAfter. repeat (destruct (decide _)); lia.
Qed.

Lemma availableAfter_short d a :
  0 ≤ d → 0 < MonthStatus.deficit (outcome d a) → availableAfter d a ≤ 0.
Proof.
  intros Hd. unfold availableAfter, outcome.
  repeat (destruct (decide _); cbn [MonthStatus.deficit]); lia.
Qed.

Lemma allocate_shortMeansEmpty projectMap month st projectId :
  (∀ project, projectMap !! projectId = Some project →
              nonneg (Project.monthly_demand project)) →
  keyed projectMap (State.projectStatus st) →
  shortMeansEmpty st →
  shortMeansEmpty (allocate projectMap month st projectId).
Proof.
  intros Hnonneg Hkeyed Hinv.
  destruct (projectMap !! projectId) as [project|] eqn:Hp;
    [|by rewrite allocate_skip].
  assert (0 ≤ demandOf project month) as Hd
    by (by apply demandOf_nonneg, Hnonneg).
  intros pid p m ms.
  rewrite allocate_remaining, (allocate_projectStatus _ _ _ _ _ Hp).
  rewrite availableOf_remainingStep by (by rewrite Hp). rewrite Hp.
  rewrite lookup_alter. intros Hentry Hms Hshort.
  destruct (decide (projectId = pid)) as [->|Hne].
  - destruct (State.projectStatus st !! pid) as [p0|] eqn:Hp0; [|done].
    cbn in Hentry. injection Hentry as <-.
    destruct (Hkeyed _ _ Hp0) as (project' & Hp' & Hkey).
    assert (project' = project) as -> by congruence.
    change (ProjectStatus.bucketKey (writeMonth _ _ p0))
      with (ProjectStatus.bucketKey p0).
    rewrite writeMonth_lookup in Hms.
    destruct (decide (month = m)) as [->|Hm].
    + injection Hms as <-. rewrite Hkey.
      rewrite decide_True by done. by apply availableAfter_short.
    + rewrite decide_False by (by intros [_ ?]).
      by apply (Hinv pid p0 m ms).
  - pose proof (Hinv pid p m ms Hentry Hms Hshort) as Hold.
    destruct (decide _); [|done].
    pose proof (availableAfter_le (demandOf project month)
                  (availableOf (State.remainingCapacity st)
                     (ProjectStatus.bucketKey p) m) Hd). lia.
Qed.

Lemma allocateMonth_shortMeansEmpty projectMap l month st :
  map_Forall (λ _ project, nonneg (Project.monthly_demand project))
    projectMap →
  keyed projectMap (State.projectStatus st) →
  shortMeansEmpty st →
  let st' := allocateMonth projectMap l st month in
  keyed projectMap (State.projectStatus st') ∧ shortMeansEmpty st'.
Proof.
  intros Hnonneg. unfold allocateMonth. revert st.
  induction l as [|x l IH]; intros st Hkeyed Hinv; [done|].
  cbn [foldl]. apply IH.
  - by apply allocate_keyed.
  - apply allocate_shortMeansEmpty; [|done..].
    intros project Hp. by apply (Hnonneg x).
Qed.

Lemma allocateAll_shortMeansEmpty projectMap l months st :
  map_Forall (λ _ project, nonneg (Project.monthly_demand project))
    projectMap →
  keyed projectMap (State.projectStatus st) →
  shortMeansEmpty st →
  let st' := allocateAll projectMap l months st in
  keyed projectMap (State.projectStatus st') ∧ shortMeansEmpty st'.
Proof.
  intros Hnonneg. unfold allocateAll. revert st.
  induction months as [|m ms IH]; intros st Hkeyed Hinv; [done|].
  cbn [foldl].
  destruct (allocateMonth_shortMeansEmpty projectMap l m st Hnonneg Hkeyed
              Hinv).
  by apply IH.
Qed.

(** Nobody is short while hours are left, on integer hours.  When no hours
    are negative and every effective capacity is below 2^53, if a project's
    record for a listed month reports a deficit, the bucket of the project
    has no hours left for that month: its remaining hours are zero, its
    consumed hours are its capacity, and its utilization is 100 when it has
    any capacity. *)
Lemma short_project_integers (now : nat → Z) baseline projects
    priorityOrder virtuals shifts months pid p m ms u :
  (∀ b, b ∈ baseline → nonneg (Bucket.monthly_capacity b)) →
  (∀ r, r ∈ virtuals → ∀ h, Resource.hoursPerMonth r = Some h → 0 ≤ h) →
  (∀ q, q ∈ projects → nonneg (Project.monthly_demand q)) →
  (∀ k b m h,
     calculateEffectiveCapacity now baseline virtuals months !! k = Some b →
     Bucket.monthly_capacity b !! m = Some h → h < 2 ^ 53) →
  let result := calculateScenario now baseline projects priorityOrder virtuals
                  shifts months in
  Result.projectStatus result !! pid = Some p →
  ProjectStatus.monthlyStatus p !! m = Some ms →
  0 < MonthStatus.deficit ms →
  m ∈ months →
  Result.bucketUtilization result !! ProjectStatus.bucketKey p = Some u →
  Utilization.monthly_remaining u !! m = Some 0
  ∧ Utilization.monthly_consumed u !! m
    = Some (hoursIn m (Utilization.bucket u))
  ∧ (0 < hoursIn m (Utilization.bucket u) →
     Utilization.monthly_utilization u !! m = Some 100).
Proof.
  intros Hb Hv Hq Hsmall result Hp Hms Hshort Hm Hu. subst result.
  assert (Utilization.bucket <$> Some u
          = calculateEffectiveCapacity now baseline virtuals months
              !! ProjectStatus.bucketKey p) as Hbucket.
  { rewrite <- Hu, scenario_from. apply scenarioFrom_bucket. }
  rewrite scenario_projectStatus, lookup_fmap in Hp.
  unfold calculateScenario in Hu. cbn [Result.bucketUtilization] in Hu.
  change (buildProjectMap (applyTimelineShifts projects shifts months))
    with (scenarioProjects projects shifts months) in Hu.
  set (eff := calculateEffectiveCapacity now baseline virtuals months) in *.
  set (pm := scenarioProjects projects shifts months) in *.
  change (State.mk (initRemaining eff) (initUtilization months eff)
            (initProjectStatus pm priorityOrder) 0)
    with (initState eff pm priorityOrder months) in Hu.
  set (final := allocateAll pm priorityOrder months
                  (initState eff pm priorityOrder months)) in *.
  assert (map_Forall (λ _ project, nonneg (Project.monthly_demand project))
            pm) as Hnonneg.
  { intros pid' project Hpid.
    by apply (scenarioProjects_nonneg _ _ _ _ _ Hq Hpid). }
  assert (utilInv eff months final) as Hutil.
  { apply allocateAll_utilInv; [done|].
    apply initState_utilInv. by apply effectiveCapacity_nonneg. }
  assert (shortMeansEmpty final) as Hempty.
  { apply allocateAll_shortMeansEmpty; [done| |].
    - apply initProjectStatus_keyed.
    - intros pid' p' m' ms' Hp'.
      destruct (initProjectStatus_fresh _ _ _ _ Hp') as (_ & Hnone & _).
      by rewrite Hnone, lookup_empty. }
  destruct (State.projectStatus final !! pid) as [p0|] eqn:Hp0; [|done].
  cbn in Hp. injection Hp as <-.
  rewrite summarize_monthlyStatus in Hms.
  assert (ProjectStatus.bucketKey (summarize p0) = ProjectStatus.bucketKey p0)
    as Hkey.
  { unfold summarize. by repeat destruct (_ : bool). }
  rewrite Hkey in *.
  pose proof (Hempty pid p0 m ms Hp0 Hms Hshort) as Havail.
  unfold finalUtilization in Hu. rewrite map_lookup_imap in Hu.
  destruct (State.bucketUtilization final !! ProjectStatus.bucketKey p0)
    as [u0|] eqn:Hu0; [|done].
  cbn in Hu. injection Hu as <-.
  destruct (Hutil _ _ Hu0) as (b & row & Hbk & Hrow & Hmonths).
  destruct (Hmonths m Hm) as (c & r & Hc & Hr & Hsum & Hc0 & Hr0 & Hread).
  unfold availableOf in Havail. rewrite Hrow in Havail. cbn in Havail.
  rewrite Hbk in *. cbn in Hbucket. injection Hbucket as Hbucket.
  cbn [from_option].
  destruct (setUtilization_fold (Bucket.monthly_capacity b) months u0 m)
    as (Hc' & Hr' & Hu').
  cbv zeta in *. rewrite Hbucket, Hc', Hr', Hu'. rewrite decide_True by done.
  rewrite (lookup_total_correct _ _ _ Hc). unfold hoursIn.
  assert (r = 0) as -> by lia.
  assert (c = default 0 (Bucket.monthly_capacity b !! m)) as -> by lia.
  split; [done|]. split; [done|]. intros Hcap.
  rewrite decide_True by done. rewrite round_percent_full; [done|].
  split; [done|].
  destruct (Bucket.monthly_capacity b !! m) as [h|] eqn:Hh;
    cbn [default from_option] in *; [|lia].
  unfold id. by apply (Hsmall (ProjectStatus.bucketKey p0) b m h).
Qed.

(** ** The hours of a shifted project *)

Lemma shiftDemand_insert months shift demand k h :
  demand !! k = None →
  shiftDemand months shift (<[k := h]> demand)
  = shiftEntry months shift k h (shiftDemand months shift demand).
Proof.
  intros Hk. unfold shiftDemand. apply map_fold_insert_L; [|done].
  intros. apply shiftEntry_comm.
Qed.

Lemma sumHours_insert_Some (hours : gmap string Z) k h h' :
  hours !! k = Some h →
  sumHours (<[k := h']> hours) = sumHours hours - h + h'.
Proof. apply (mapSum_insert_Some (λ x, x)). Qed.

Lemma sumHours_shiftEntry months shift k h acc :
  sumHours (shiftEntry months shift k h acc)
  = sumHours acc + (if destination months shift k is Some _ then h else 0).
Proof.
  rewrite shiftEntry_eq. destruct (destination months shift k) as [m'|];
    [|lia].
  destruct (acc !! m') as [old|] eqn:Hold.
  - rewrite (sumHours_insert_Some _ _ old) by done. cbn. lia.
  - rewrite sumHours_insert by done. cbn. lia.
Qed.

Lemma sumHours_shiftDemand months shift demand :
  sumHours (shiftDemand months shift demand)
  = sumHours (filter (λ e, is_Some (destination months shift e.1)) demand).
Proof.
  induction demand as [|k h demand Hk IH] using map_ind.
  - unfold shiftDemand. by rewrite map_fold_empty, map_filter_empty.
  - rewrite shiftDemand_insert, sumHours_shiftEntry, IH by done.
    destruct (destination months shift k) as [m'|] eqn:Hd.
    + rewrite map_filter_insert_True by (cbn; rewrite Hd; eauto).
      rewrite sumHours_insert; [lia|].
      apply map_lookup_filter_None. by left.
    + rewrite map_filter_insert_not by (cbn; rewrite Hd; by intros ? [? ?]).
      lia.
Qed.

Lemma sumHours_filter_le (P : string * Z → Prop) `{!∀ e, Decision (P e)}
    (hours : gmap string Z) :
  nonneg hours → sumHours (filter P hours) ≤ sumHours hours.
Proof.
  induction hours as [|k h hours Hk IH] using map_ind; intros Hnonneg.
  - by rewrite map_filter_empty.
  - apply map_Forall_insert in Hnonneg as [Hh Hnonneg]; [|done].
    specialize (IH Hnonneg). rewrite (sumHours_insert hours) by done.
    destruct (decide (P (k, h))).
    + rewrite map_filter_insert_True by done.
      rewrite sumHours_insert; [lia|].
      apply map_lookup_filter_None. by left.
    + rewrite map_filter_insert_not' ; [lia|done|].
      intros y Hy. congruence.
Qed.

Lemma filter_all (P : string * Z → Prop) `{!∀ e, Decision (P e)}
    (hours : gmap string Z) :
  (∀ k h, hours !! k = Some h → P (k, h)) → filter P hours = hours.
Proof.
  intros HP. apply map_eq. intros k.
  destruct (hours !! k) as [h|] eqn:Hk.
  - apply map_lookup_filter_Some. split; [done|]. by apply HP.
  - apply map_lookup_filter_None. by left.
Qed.

(** X25.  A shift conserves the hours that stay inside the window.  The
    hours of a shifted project add up to the hours of the entries that have
    a destination; so nothing is lost when every entry has one, and
    otherwise, for a demand without negative hours, the total can only
    shrink ([total_demand] keeps the old total in either case). *)
Theorem shift_conserves_hours_in_window shifts months project shift :
  shifts !! Project.id project = Some shift →
  shift ≠ 0 →
  let demand := Project.monthly_demand project in
  let shifted := shiftProject shifts months project in
  sumHours (Project.monthly_demand shifted)
  = sumHours (filter (λ e, is_Some (destination months shift e.1)) demand)
  ∧ ((∀ month, is_Some (demand !! month) →
               is_Some (destination months shift month)) →
     sumHours (Project.monthly_demand shifted) = sumHours demand)
  ∧ (nonneg demand →
     sumHours (Project.monthly_demand shifted) ≤ sumHours demand)
  ∧ Project.total_demand shifted = Project.total_demand project.
Proof.
  intros Hshift Hne. cbv zeta.
  rewrite (shiftProject_shifted _ _ _ _ Hshift Hne).
  cbn [Project.monthly_demand Project.total_demand].
  rewrite sumHours_shiftDemand. split; [done|]. split; [|split; [|done]].
  - intros Hall. rewrite filter_all; [done|].
    intros k h Hk. cbn. apply Hall. by eauto.
  - apply sumHours_filter_le.
Qed.

Lemma shift_conserves_hours_in_window_witness :
  let demand := Project.monthly_demand projectRamp in
  let shifted := shiftProject shiftRamp janFeb projectRamp in
  sumHours (Project.monthly_demand shifted)
  = sumHours (filter (λ e, is_Some (destination janFeb 1 e.1)) demand)
  ∧ ((∀ month, is_Some (demand !! month) →
               is_Some (destination janFeb 1 month)) →
     sumHours (Project.monthly_demand shifted) = sumHours demand)
  ∧ (nonneg demand →
     sumHours (Project.monthly_demand shifted) ≤ sumHours demand)
  ∧ Project.total_demand shifted = Project.total_demand projectRamp.
Proof.
  apply (shift_conserves_hours_in_window shiftRamp janFeb projectRamp 1).
  - vm_compute. reflexivity.
  - lia.
Defined.

(** ** When the capacity suffices *)

Lemma demandIn_nonneg projectMap key month pid :
  map_Forall (λ _ project, nonneg (Project.monthly_demand project))
    projectMap →
  0 ≤ demandIn projectMap key month pid.
Proof.
  intros Hnonneg. unfold demandIn.
  destruct (projectMap !! pid) as [project|] eqn:Hp; [|done].
  destruct (decide _); [|done]. apply demandOf_nonneg. by apply (Hnonneg pid).
Qed.

Lemma queued_nonneg projectMap key month l :
  map_Forall (λ _ project, nonneg (Project.monthly_demand project))
    projectMap →
  0 ≤ queued projectMap key month l.
Proof.
  intros Hnonneg. induction l as [|x l IH]; [done|].
  cbn. pose proof (demandIn_nonneg projectMap key month x Hnonneg).
  unfold queued in IH. lia.
Qed.

Lemma outcome_enough d a :
  d ≤ a →
  MonthStatus.deficit (outcome d a) = 0
  ∧ MonthStatus.allocated (outcome d a) = d
  ∧ (MonthStatus.status (outcome d a) = staffed
     ∨ MonthStatus.status (outcome d a) = none).
Proof.
  intros Hd. unfold outcome.
  destruct (decide (d = 0)) as [->|?]; [by auto|].
  rewrite decide_True by done. by auto.
Qed.

Lemma allocateMonth_enough projectMap key month l st visited :
  map_Forall (λ _ project, nonneg (Project.monthly_demand project))
    projectMap →
  entriesReady projectMap (visited ++ l) (State.projectStatus st) →
  queued projectMap key month l
  ≤ availableOf (State.remainingCapacity st) key month →
  (∀ pid project,
     pid ∈ visited → projectMap !! pid = Some project →
     projectKey project = key →
     staffedAt (State.projectStatus st) pid month (demandOf project month)) →
  ∀ pid project,
    pid ∈ visited ++ l → projectMap !! pid = Some project →
    projectKey project = key →
    staffedAt (State.projectStatus (allocateMonth projectMap l st month))
      pid month (demandOf project month).
Proof.
  intros Hnonneg. unfold allocateMonth. revert st visited.
  induction l as [|x l IH]; intros st visited Hready Hqueue Hvisited.
  { intros pid project. rewrite app_nil_r. apply Hvisited. }
  cbn [foldl]. intros pid project Hpid.
  apply (IH (allocate projectMap month st x) (visited ++ [x])).
  - rewrite <- app_assoc. by apply allocate_ready.
  - rewrite allocate_remaining.
    rewrite availableOf_remainingStep
      by (intros q Hq; by apply (Hnonneg x)).
    cbn [queued foldr] in Hqueue. fold (queued projectMap key month l) in Hqueue.
    pose proof (queued_nonneg projectMap key month l Hnonneg) as Hl.
    unfold demandIn in Hqueue.
    destruct (projectMap !! x) as [q|] eqn:Hq; [|lia].
    destruct (decide (projectKey q = key)) as [Hk|Hk].
    + rewrite decide_True by done. unfold availableAfter.
      destruct (decide (demandOf q month = 0)); [lia|].
      rewrite decide_True by lia. lia.
    + rewrite decide_False by (by intros [? _]). lia.
  - intros pid' project' Hpid' Hproject' Hkey'.
    unfold staffedAt. rewrite allocate_recordAt.
    destruct (projectMap !! x) as [q|] eqn:Hq.
    + destruct (decide (x = pid' ∧ month = month)) as [[-> _]|Hne].
      * assert (q = project') as -> by congruence.
        destruct (Hready pid') as [p Hp].
        { apply elem_of_app. right. by left. }
        { by eauto. }
        unfold recordAt at 1. rewrite Hp. cbn.
        eexists. split; [done|]. apply outcome_enough.
        cbn [queued foldr] in Hqueue.
        fold (queued projectMap key month l) in Hqueue.
        pose proof (queued_nonneg projectMap key month l Hnonneg) as Hl.
        unfold demandIn in Hqueue. rewrite Hq, decide_True in Hqueue by done.
        rewrite Hkey'. lia.
      * apply Hvisited; [|done..].
        apply elem_of_app in Hpid' as [?|Hx]; [done|].
        apply list_elem_of_singleton in Hx. subst. by destruct Hne.
    + apply Hvisited; [|done..].
      apply elem_of_app in Hpid' as [?|Hx]; [done|].
      apply list_elem_of_singleton in Hx. subst. congruence.
  - by rewrite <- app_assoc.
Qed.

(** When the capacity suffices, everybody is staffed, on integers.  If the
    effective capacity of a bucket for a month covers what all the visits of
    the priority order ask of it, every project of the bucket that the order
    lists gets its whole demand for that month, whatever its rank. *)
Lemma enough_capacity_integers (now : nat → Z) baseline projects
    priorityOrder virtuals shifts before month after key pid project :
  (∀ q, q ∈ projects → nonneg (Project.monthly_demand q)) →
  month ∉ before → month ∉ after →
  let months := before ++ month :: after in
  let pm := buildProjectMap (applyTimelineShifts projects shifts months) in
  let result := calculateScenario now baseline projects priorityOrder virtuals
                  shifts months in
  queued pm key month priorityOrder
  ≤ capacityOf (Result.effectiveCapacity result) key month →
  pid ∈ priorityOrder →
  pm !! pid = Some project →
  projectKey project = key →
  staffedAt (Result.projectStatus result) pid month (demandOf project month).
Proof.
  intros Hq Hbefore Hafter months pm result Henough Hpid Hproject Hkey.
  subst result. unfold staffedAt.
  rewrite scenario_projectStatus, recordAt_summarize.
  cbn [Result.effectiveCapacity calculateScenario] in Henough.
  change pm with (scenarioProjects projects shifts months) in *. clear pm.
  set (pm := scenarioProjects projects shifts months) in *.
  set (eff := calculateEffectiveCapacity now baseline virtuals months) in *.
  set (start := initState eff pm priorityOrder months).
  pose proof (allocateAll_month pm priorityOrder before month after start
                start Hbefore Hafter (sameMonth_refl _ _)) as [_ Hrecords].
  fold months in Hrecords. rewrite Hrecords.
  apply (allocateMonth_enough pm key month priorityOrder start []);
    try done.
  - intros pid' project' Hnonneg.
    by apply (scenarioProjects_nonneg _ _ _ _ _ Hq Hnonneg).
  - apply initProjectStatus_ready.
  - subst start. unfold initState. cbn [State.remainingCapacity].
    by rewrite availableOf_initRemaining.
  - intros pid' project' Hin. by apply elem_of_nil in Hin.
Qed.

(** ** The hours that a bucket gives away *)

Lemma utilAfter_consumed month d a u m c :
  Utilization.monthly_consumed u !! m = Some c →
  Utilization.monthly_consumed (utilAfter month d a u) !! m
  = Some (c + (if decide (month = m)
               then MonthStatus.allocated (outcome d a) else 0)).
Proof.
  intros Hc. unfold utilAfter, outcome, consume.
  destruct (decide (month = m)) as [->|Hm];
    repeat (destruct (decide _); cbn [MonthStatus.allocated
      Utilization.monthly_consumed]);
    rewrite ?lookup_insert_eq, ?lookup_insert_ne, ?Hc by done;
    rewrite ?(lookup_total_correct _ _ _ Hc); f_equal; lia.
Qed.

Lemma allocatedIn_writeMonth key month o p m :
  allocatedIn key m (writeMonth month o p)
  = if decide (month = m)
    then (if decide (ProjectStatus.bucketKey p = key)
          then MonthStatus.allocated o else 0)
    else allocatedIn key m p.
Proof.
  unfold allocatedIn.
  change (ProjectStatus.bucketKey (writeMonth month o p))
    with (ProjectStatus.bucketKey p).
  rewrite writeMonth_lookup. by repeat destruct (decide _).
Qed.

Lemma allocate_consumedIsAllocated projectMap priorityOrder months month st
    x :
  x ∈ priorityOrder →
  entriesReady projectMap priorityOrder (State.projectStatus st) →
  keyed projectMap (State.projectStatus st) →
  noRecord (State.projectStatus st) x month →
  consumedIsAllocated months st →
  consumedIsAllocated months (allocate projectMap month st x).
Proof.
  intros Hx Hready Hkeyed Hfresh Hinv.
  destruct (projectMap !! x) as [project|] eqn:Hp;
    [|by rewrite allocate_skip].
  destruct (Hready x Hx) as [p Hentry]; [by eauto|].
  destruct (Hkeyed x p Hentry) as (project' & Hp' & Hkey).
  assert (project' = project) as -> by congruence.
  assert (ProjectStatus.monthlyStatus p !! month = None) as Hnone.
  { destruct (ProjectStatus.monthlyStatus p !! month) as [ms|] eqn:Hms;
      [|done].
    destruct (Hfresh ms). unfold recordAt. rewrite Hentry. cbn.
    by rewrite Hms. }
  intros k u' m. rewrite (allocate_eq _ _ _ _ _ Hp).
  cbn [State.bucketUtilization State.projectStatus].
  rewrite (mapSum_alter _ _ _ _ p Hentry), allocatedIn_writeMonth.
  rewrite lookup_alter. intros Hu' Hm.
  assert (allocatedIn k month p = 0) as Hold.
  { unfold allocatedIn. rewrite Hnone.
    destruct (decide (ProjectStatus.bucketKey p = k)); reflexivity. }
  destruct (decide (projectKey project = k)) as [Hk|Hk].
  - destruct (State.bucketUtilization st !! projectKey project) as [u|] eqn:Hu;
      [|done].
    cbn in Hu'. injection Hu' as <-. rewrite <- Hk in *.
    rewrite (utilAfter_consumed _ _ _ _ _ _ (Hinv _ u m Hu Hm)). f_equal.
    destruct (decide (month = m)) as [->|Hne]; [|lia].
    rewrite decide_True by done. lia.
  - rewrite (Hinv _ _ m Hu' Hm). f_equal.
    destruct (decide (month = m)) as [->|Hne]; [|lia].
    rewrite decide_False by congruence. lia.
Qed.

Lemma allocate_noRecord projectMap month st x pid m :
  x ≠ pid ∨ month ≠ m →
  noRecord (State.projectStatus st) pid m →
  noRecord (State.projectStatus (allocate projectMap month st x)) pid m.
Proof.
  intros Hne Hfresh ms. rewrite allocate_recordAt.
  destruct (projectMap !! x); [|apply Hfresh].
  rewrite decide_False by tauto. apply Hfresh.
Qed.

Lemma allocateMonth_consumedIsAllocated projectMap priorityOrder months l
    month st :
  NoDup l →
  (∀ x, x ∈ l → x ∈ priorityOrder) →
  entriesReady projectMap priorityOrder (State.projectStatus st) →
  keyed projectMap (State.projectStatus st) →
  (∀ x, x ∈ l → noRecord (State.projectStatus st) x month) →
  consumedIsAllocated months st →
  let st' := allocateMonth projectMap l st month in
  entriesReady projectMap priorityOrder (State.projectStatus st')
  ∧ keyed projectMap (State.projectStatus st')
  ∧ consumedIsAllocated months st'.
Proof.
  unfold allocateMonth. revert st.
  induction l as [|x l IH]; intros st Hnodup Hl Hready Hkeyed Hfresh Hinv;
    [done|].
  apply NoDup_cons in Hnodup as [Hx Hnodup]. cbn [foldl]. apply IH.
  - done.
  - intros y Hy. apply Hl. by right.
  - by apply allocate_ready.
  - by apply allocate_keyed.
  - intros y Hy. apply allocate_noRecord.
    + left. intros ->. done.
    + apply Hfresh. by right.
  - apply (allocate_consumedIsAllocated _ priorityOrder); try done.
    + apply Hl. by left.
    + apply Hfresh. by left.
Qed.

Lemma allocateAll_consumedIsAllocated projectMap priorityOrder listed months
    st :
  NoDup months → NoDup priorityOrder →
  entriesReady projectMap priorityOrder (State.projectStatus st) →
  keyed projectMap (State.projectStatus st) →
  (∀ m pid, m ∈ months → noRecord (State.projectStatus st) pid m) →
  consumedIsAllocated listed st →
  consumedIsAllocated listed
    (allocateAll projectMap priorityOrder months st).
Proof.
  intros Hmonths Horder. unfold allocateAll. revert st Hmonths.
  induction months as [|m l IH]; intros st Hmonths Hready Hkeyed Hfresh Hinv;
    [done|].
  apply NoDup_cons in Hmonths as [Hm Hmonths]. cbn [foldl].
  destruct (allocateMonth_consumedIsAllocated projectMap priorityOrder listed
              priorityOrder m st) as (Hready' & Hkeyed' & Hinv'); try done.
  { intros x _. apply Hfresh. by left. }
  apply IH; try done.
  intros m' pid Hm' ms.
  destruct (allocateMonth_other_month projectMap priorityOrder st m m')
    as [_ Hrecords].
  { intros ->. done. }
  rewrite Hrecords. apply Hfresh. by right.
Qed.

Lemma allocatedIn_summarize key month p :
  allocatedIn key month (summarize p) = allocatedIn key month p.
Proof.
  unfold allocatedIn. rewrite summarize_monthlyStatus.
  assert (ProjectStatus.bucketKey (summarize p) = ProjectStatus.bucketKey p)
    as ->; [|done].
  unfold summarize. by repeat destruct (_ : bool).
Qed.

(** X27.  The hours that a bucket gives away are the hours that its projects
    get.  With the months and the ids of the priority order listed once, the
    consumed hours of a bucket for a listed month are the sum of the hours
    that the status entries of its projects report as allocated for that
    month. *)
Theorem consumed_is_sum_of_allocated (now : nat → Z) baseline projects
    priorityOrder virtuals shifts months k u m :
  NoDup months → NoDup priorityOrder →
  let result := calculateScenario now baseline projects priorityOrder virtuals
                  shifts months in
  Result.bucketUtilization result !! k = Some u →
  m ∈ months →
  Utilization.monthly_consumed u !! m
  = Some (mapSum (allocatedIn k m) (Result.projectStatus result)).
Proof.
  intros Hmonths Horder result Hu Hm. subst result.
  rewrite scenario_projectStatus, mapSum_fmap.
  rewrite (mapSum_ext _ (allocatedIn k m))
    by (intros; apply allocatedIn_summarize).
  unfold calculateScenario in Hu. cbn [Result.bucketUtilization] in Hu.
  change (buildProjectMap (applyTimelineShifts projects shifts months))
    with (scenarioProjects projects shifts months) in Hu.
  set (eff := calculateEffectiveCapacity now baseline virtuals months) in *.
  set (pm := scenarioProjects projects shifts months) in *.
  change (State.mk (initRemaining eff) (initUtilization months eff)
            (initProjectStatus pm priorityOrder) 0)
    with (initState eff pm priorityOrder months) in Hu.
  assert (consumedIsAllocated months
            (allocateAll pm priorityOrder months
               (initState eff pm priorityOrder months))) as Hinv.
  { apply allocateAll_consumedIsAllocated; try done.
    - apply initProjectStatus_ready.
    - apply initProjectStatus_keyed.
    - intros m' pid _ ms. unfold recordAt, initState.
      cbn [State.projectStatus].
      destruct (initProjectStatus pm priorityOrder !! pid) as [p|] eqn:Hp;
        [|done].
      destruct (initProjectStatus_fresh _ _ _ _ Hp) as (_ & Hnone & _).
      cbn. by rewrite Hnone, lookup_empty.
    - intros k' u' m' Hu' Hm'. unfold initState in *.
      cbn [State.bucketUtilization State.projectStatus] in *.
      unfold initUtilization in Hu'. rewrite lookup_fmap in Hu'.
      destruct (eff !! k') as [b|]; [|done]. cbn in Hu'.
      injection Hu' as <-.
      destruct (initUtilization_fold b months (Utilization.mk b ∅ ∅ ∅) m')
        as (_ & Hc & _).
      cbv zeta in Hc. rewrite Hc, decide_True by done. f_equal.
      symmetry. apply mapSum_zero. intros pid p Hp.
      destruct (initProjectStatus_fresh _ _ _ _ Hp) as (_ & Hnone & _).
      unfold allocatedIn. rewrite Hnone, lookup_empty.
      destruct (decide (ProjectStatus.bucketKey p = k')); reflexivity. }
  set (final := allocateAll pm priorityOrder months
                  (initState eff pm priorityOrder months)) in *.
  unfold finalUtilization in Hu. rewrite map_lookup_imap in Hu.
  destruct (State.bucketUtilization final !! k) as [u0|] eqn:Hu0; [|done].
  cbn in Hu. injection Hu as <-.
  destruct (setUtilization_fold
              (from_option Bucket.monthly_capacity ∅ (eff !! k)) months u0 m)
    as (Hc' & _).
  cbv zeta in Hc'. rewrite Hc'. by apply Hinv.
Qed.

Lemma consumed_is_sum_of_allocated_witness :
  let result := calculateScenario (λ _, 0) [bucket100]
                  [demand60 "p1"; demand60 "p2"] ["p1"; "p2"] twoHires ∅
                  jan in
  Utilization.monthly_consumed workedUtilization !! "Jan"
  = Some (mapSum (allocatedIn "digital|developer|london" "Jan")
            (Result.projectStatus result)).
Proof.
  apply (consumed_is_sum_of_allocated (λ _, 0) [bucket100]
           [demand60 "p1"; demand60 "p2"] ["p1"; "p2"] twoHires ∅ jan
           "digital|developer|london" workedUtilization "Jan").
  - apply NoDup_singleton.
  - apply NoDup_cons. split.
    + apply not_elem_of_cons. split; [discriminate|apply not_elem_of_nil].
    + apply NoDup_singleton.
  - vm_compute. reflexivity.
  - by left.
Defined.

(** * The check of the file name *)

Lemma lower_ascii_dot c : lower_ascii c = "."%char ↔ c = "."%char.
Proof.
  destruct c as [[] [] [] [] [] [] [] []]; vm_compute; split; congruence.
Qed.

Lemma lastIndexOf_lower s :
  FileUpload.lastIndexOf "." (toLowerCase s) = FileUpload.lastIndexOf "." s.
Proof.
  induction s as [|a s IH]; [done|].
  cbn [toLowerCase FileUpload.lastIndexOf]. rewrite IH.
  destruct (decide (0 ≤ FileUpload.lastIndexOf "." s)); [done|].
  destruct (decide (a = "."%char)) as [->|Ha].
  - by rewrite decide_True by (by apply lower_ascii_dot).
  - by rewrite decide_False by (by rewrite lower_ascii_dot).
Qed.

Lemma dropChars_lower n s :
  FileUpload.dropChars n (toLowerCase s)
  = toLowerCase (FileUpload.dropChars n s).
Proof.
  revert s. induction n as [|n IH]; intros [|a s]; cbn; try done.
Qed.

Lemma lastIndexOf_none c s :
  FileUpload.occurs c s = false → FileUpload.lastIndexOf c s = -1.
Proof.
  induction s as [|a s IH]; [done|].
  cbn [FileUpload.occurs FileUpload.lastIndexOf].
  intros [Ha Hs]%orb_false_elim. rewrite (IH Hs).
  apply bool_decide_eq_false in Ha.
  rewrite decide_False by lia. by rewrite decide_False.
Qed.

Lemma lastIndexOf_bounds c s :
  -1 ≤ FileUpload.lastIndexOf c s
  ∧ FileUpload.lastIndexOf c s < Z.of_nat (String.length s).
Proof.
  induction s as [|a s IH]; [cbn; lia|].
  cbn [FileUpload.lastIndexOf String.length].
  repeat destruct (decide _); lia.
Qed.

Lemma lastIndexOf_app c stem rest :
  FileUpload.occurs c rest = false →
  FileUpload.lastIndexOf c (stem +:+ String c rest)
  = Z.of_nat (String.length stem).
Proof.
  intros Hrest. induction stem as [|a stem IH].
  - change ("" +:+ String c rest) with (String c rest).
    cbn [FileUpload.lastIndexOf String.length].
    rewrite (lastIndexOf_none _ _ Hrest).
    rewrite decide_False by lia. by rewrite decide_True.
  - change (String a stem +:+ String c rest)
      with (String a (stem +:+ String c rest)).
    cbn [FileUpload.lastIndexOf String.length]. rewrite IH.
    rewrite decide_True by lia. lia.
Qed.

Lemma dropChars_app stem ext :
  FileUpload.dropChars (String.length stem) (stem +:+ ext) = ext.
Proof. induction stem as [|a stem IH]; [by destruct ext|done]. Qed.

Lemma dropChars_suffix n s :
  ∃ stem, s = stem +:+ FileUpload.dropChars n s.
Proof.
  revert s. induction n as [|n IH]; intros s.
  - by exists "".
  - destruct s as [|a s]; [by exists ""|].
    destruct (IH s) as [stem Hstem]. exists (String a stem).
    change (String a s = String a (stem +:+ FileUpload.dropChars n s)).
    by rewrite <- Hstem.
Qed.

Lemma validExtensions_shape ext :
  ext ∈ FileUpload.validExtensions →
  ∃ rest, ext = String "." rest ∧ FileUpload.occurs "." rest = false.
Proof.
  unfold FileUpload.validExtensions. intros Hext.
  repeat (apply elem_of_cons in Hext as [->|Hext]; [by eexists|]).
  by apply elem_of_nil in Hext.
Qed.

(** X28.  The names that the upload accepts are those that, in lower case,
    end with one of the three extensions: the text from the last dot on is
    compared, so a name without a dot, or with anything after the
    extension, is refused. *)
Theorem accepted_file_names name :
  FileUpload.accepted name = true
  ↔ ∃ stem ext, ext ∈ FileUpload.validExtensions
                ∧ toLowerCase name = stem +:+ ext.
Proof.
  unfold FileUpload.accepted. rewrite bool_decide_eq_true. split.
  - intros Hext. unfold FileUpload.fileExtension, FileUpload.substring in Hext.
    destruct (dropChars_suffix
                (Z.to_nat (FileUpload.lastIndexOf "." name)) name)
      as [stem Hstem].
    exists (toLowerCase stem), (toLowerCase
      (FileUpload.dropChars (Z.to_nat (FileUpload.lastIndexOf "." name))
         name)).
    split; [done|]. by rewrite <- toLowerCase_app, <- Hstem.
  - intros (stem & ext & Hext & Hname).
    destruct (validExtensions_shape ext Hext) as (rest & -> & Hrest).
    unfold FileUpload.fileExtension, FileUpload.substring.
    rewrite <- lastIndexOf_lower, <- dropChars_lower, Hname.
    rewrite (lastIndexOf_app _ _ _ Hrest), Nat2Z.id.
    by rewrite dropChars_app.
Qed.

Example accepted_upper_case : FileUpload.accepted "Plan.XLSX" = true.
Proof. vm_compute. reflexivity. Qed.

Example refused_without_dot : FileUpload.accepted "xlsx" = false.
Proof. vm_compute. reflexivity. Qed.

Example refused_backup : FileUpload.accepted "plan.xlsx.bak" = false.
Proof. vm_compute. reflexivity. Qed.

(** * Records that share an id, buckets that share a key *)

Lemma insert_shadowed {A} (key : A → string) (l : list A) k v
    (table : gmap string A) :
  (∃ x, x ∈ l ∧ key x = k) →
  foldl (λ acc x, <[key x := x]> acc) (<[k := v]> table) l
  = foldl (λ acc x, <[key x := x]> acc) table l.
Proof.
  revert table. induction l as [|y l IH]; intros table (x & Hx & Hk).
  - by apply elem_of_nil in Hx.
  - cbn [foldl]. destruct (decide (key y = k)) as [Hy|Hy].
    + by rewrite Hy, insert_insert_eq.
    + rewrite insert_insert_ne by done. apply IH.
      apply elem_of_cons in Hx as [->|Hx]; [done|]. by exists x.
Qed.

Lemma buildProjectMap_shadowed before project after :
  (∃ later, later ∈ after ∧ Project.id later = Project.id project) →
  buildProjectMap (before ++ project :: after)
  = buildProjectMap (before ++ after).
Proof.
  intros Hlater. unfold buildProjectMap. rewrite !foldl_app. cbn [foldl].
  by apply (insert_shadowed Project.id).
Qed.

(** X29.  Of two project records with the same id the later one is used and
    the earlier one is ignored: taking the earlier record out of the data
    changes nothing in the result. *)
Theorem shadowed_project_is_ignored (now : nat → Z) baseline before project
    after priorityOrder virtuals shifts months :
  (∃ later, later ∈ after ∧ Project.id later = Project.id project) →
  calculateScenario now baseline (before ++ project :: after) priorityOrder
    virtuals shifts months
  = calculateScenario now baseline (before ++ after) priorityOrder virtuals
      shifts months.
Proof.
  intros (later & Hlater & Hid). unfold calculateScenario.
  assert (buildProjectMap
            (applyTimelineShifts (before ++ project :: after) shifts months)
          = buildProjectMap
              (applyTimelineShifts (before ++ after) shifts months)) as ->;
    [|done].
  unfold applyTimelineShifts. rewrite !map_app. cbn [map].
  apply buildProjectMap_shadowed.
  exists (shiftProject shifts months later). split.
  - apply list_elem_of_fmap. by exists later.
  - by rewrite !shiftProject_id.
Qed.

Lemma shadowed_project_is_ignored_witness :
  calculateScenario (λ _, 0) [bucket100]
    ([] ++ demand60 "p1" :: [demand90]) ["p1"] [] ∅ jan
  = calculateScenario (λ _, 0) [bucket100] ([] ++ [demand90]) ["p1"] [] ∅
      jan.
Proof.
  apply (shadowed_project_is_ignored (λ _, 0) [bucket100] []
           (demand60 "p1") [demand90] ["p1"] [] ∅ jan).
  exists demand90. split; [by left|]. vm_compute. reflexivity.
Defined.

(** X30.  Of two baseline buckets with the same key the later one replaces
    the earlier one, hours included: the capacities are not added up, and
    taking the earlier bucket out of the data changes nothing in the
    result. *)
Theorem shadowed_bucket_is_ignored (now : nat → Z) before bucket after
    projects priorityOrder virtuals shifts months :
  (∃ later, later ∈ after ∧ bucketKeyOf later = bucketKeyOf bucket) →
  calculateScenario now (before ++ bucket :: after) projects priorityOrder
    virtuals shifts months
  = calculateScenario now (before ++ after) projects priorityOrder virtuals
      shifts months.
Proof.
  intros Hlater. unfold calculateScenario.
  assert (calculateEffectiveCapacity now (before ++ bucket :: after) virtuals
            months
          = calculateEffectiveCapacity now (before ++ after) virtuals months)
    as ->; [|done].
  unfold calculateEffectiveCapacity. do 2 f_equal.
  rewrite !foldl_app. cbn [foldl]. unfold addBaseline at 2. f_equal.
  by apply (insert_shadowed bucketKeyOf).
Qed.

Lemma shadowed_bucket_is_ignored_witness :
  calculateScenario (λ _, 0) ([] ++ bucket5 :: [bucket100])
    [demand60 "p1"; demand60 "p2"] ["p1"; "p2"] [] ∅ jan
  = calculateScenario (λ _, 0) ([] ++ [bucket100])
      [demand60 "p1"; demand60 "p2"] ["p1"; "p2"] [] ∅ jan.
Proof.
  apply (shadowed_bucket_is_ignored (λ _, 0) [] bucket5 [bucket100]
           [demand60 "p1"; demand60 "p2"] ["p1"; "p2"] [] ∅ jan).
  exists bucket100. split; [by left|]. vm_compute. reflexivity.
Defined.

(** * The engine on doubles and the engine on integers *)

(** ** Hours within a bound *)

Lemma hoursWithin_weaken bound bound' hours :
  bound ≤ bound' → hoursWithin bound hours → hoursWithin bound' hours.
Proof.
  intros Hle Hw. eapply map_Forall_impl; [exact Hw|].
  intros k h Hh. simpl in *. lia.
Qed.

Lemma hoursWithin_cell bound hours month :
  hoursWithin bound hours → 0 ≤ default 0 (hours !! month) ≤ Z.max 0 bound.
Proof.
  intros Hw. destruct (hours !! month) as [h|] eqn:Hh; simpl; [|lia].
  specialize (Hw month h Hh). simpl in Hw. lia.
Qed.

Lemma addHours_within hours cap months bound :
  0 ≤ hours → 0 ≤ bound → hoursWithin bound cap →
  hoursWithin (bound + Z.of_nat (length months) * hours)
    (foldl (addHours hours) cap months).
Proof.
  intros Hh. revert cap bound.
  induction months as [|x l IH]; intros cap bound Hb Hc.
  - cbn [foldl length]. change (Z.of_nat 0) with 0.
    by rewrite Z.mul_0_l, Z.add_0_r.
  - cbn [foldl length]. rewrite Nat2Z.inj_succ.
    replace (bound + Z.succ (Z.of_nat (length l)) * hours)
      with (bound + hours + Z.of_nat (length l) * hours) by lia.
    apply IH; [lia|]. unfold addHours. apply map_Forall_insert_2.
    + destruct (cap !! x) as [c|] eqn:Hx; simpl; [|lia].
      specialize (Hc x c Hx). simpl in Hc. lia.
    + by apply (hoursWithin_weaken bound); [lia|].
Qed.

Lemma setHours_within hours months :
  0 ≤ hours → hoursWithin hours (foldl (setHours hours) ∅ months).
Proof.
  intros Hh.
  assert (Hgen : ∀ cap, hoursWithin hours cap →
            hoursWithin hours (foldl (setHours hours) cap months)).
  { induction months as [|x l IH]; intros cap Hc; [done|].
    cbn [foldl]. apply IH. unfold setHours.
    apply map_Forall_insert_2; [simpl; lia|done]. }
  apply Hgen, map_Forall_empty.
Qed.

Lemma hoursToAdd_within bound r :
  (∀ h, Resource.hoursPerMonth r = Some h → 0 ≤ h ≤ bound) →
  0 < hoursToAdd r ≤ Z.max bound 160.
Proof.
  intros Hr. unfold hoursToAdd.
  destruct (Resource.hoursPerMonth r) as [h|]; [|lia].
  specialize (Hr h eq_refl). case_decide; lia.
Qed.

Lemma capacitiesWithin_weaken bound bound' eff :
  bound ≤ bound' → capacitiesWithin bound eff → capacitiesWithin bound' eff.
Proof.
  intros Hle Hw. eapply map_Forall_impl; [exact Hw|].
  intros k b Hb. by apply (hoursWithin_weaken bound).
Qed.

Lemma addVirtual_within now months eff ticks r bound hire :
  0 ≤ bound → 0 ≤ hoursToAdd r ≤ hire →
  capacitiesWithin bound eff →
  capacitiesWithin (bound + Z.of_nat (length months) * hire)
    (addVirtual now months (eff, ticks) r).1.
Proof.
  intros Hb Hr He.
  assert (0 ≤ Z.of_nat (length months) * hoursToAdd r
          ≤ Z.of_nat (length months) * hire) by nia.
  unfold addVirtual. destruct (eff !! resourceKey r) as [b|] eqn:Hk; cbn [fst].
  - apply map_Forall_insert_2.
    + cbn. apply (hoursWithin_weaken
                    (bound + Z.of_nat (length months) * hoursToAdd r));
        [lia|].
      apply addHours_within; [lia|done|]. by apply (He _ _ Hk).
    + by apply (capacitiesWithin_weaken bound); [lia|].
  - apply map_Forall_insert_2.
    + cbn. destruct months as [|x l].
      * cbn. apply map_Forall_empty.
      * apply (hoursWithin_weaken (hoursToAdd r)).
        { cbn [length] in *. rewrite Nat2Z.inj_succ in *. nia. }
        apply setHours_within. lia.
    + by apply (capacitiesWithin_weaken bound); [lia|].
Qed.

Lemma addVirtual_fold_within now months virtuals eff ticks bound hire :
  0 ≤ bound → 0 ≤ hire →
  (∀ r, r ∈ virtuals → 0 ≤ hoursToAdd r ≤ hire) →
  capacitiesWithin bound eff →
  capacitiesWithin
    (bound + Z.of_nat (length months) * Z.of_nat (length virtuals) * hire)
    (foldl (addVirtual now months) (eff, ticks) virtuals).1.
Proof.
  intros Hb Hh. revert eff ticks bound Hb.
  induction virtuals as [|r rest IH]; intros eff ticks bound Hb Hv He.
  - cbn [foldl length fst]. change (Z.of_nat 0) with 0.
    by rewrite Z.mul_0_r, Z.mul_0_l, Z.add_0_r.
  - cbn [foldl length]. rewrite addVirtual_pair, Nat2Z.inj_succ.
    replace (bound + Z.of_nat (length months)
                     * Z.succ (Z.of_nat (length rest)) * hire)
      with (bound + Z.of_nat (length months) * hire
            + Z.of_nat (length months) * Z.of_nat (length rest) * hire)
      by lia.
    apply IH.
    + nia.
    + intros r' Hr'. apply Hv. by right.
    + apply addVirtual_within; [done| |done]. apply Hv. by left.
Qed.

Lemma baselineTable_within bound baseline :
  (∀ b, b ∈ baseline → hoursWithin bound (Bucket.monthly_capacity b)) →
  capacitiesWithin bound (baselineTable baseline).
Proof.
  unfold baselineTable.
  assert (Hgen : ∀ eff,
    (∀ b, b ∈ baseline → hoursWithin bound (Bucket.monthly_capacity b)) →
    capacitiesWithin bound eff →
    capacitiesWithin bound (foldl addBaseline eff baseline)).
  { induction baseline as [|b rest IH]; intros eff Hb He; [done|].
    cbn [foldl]. apply IH; [intros b' Hb'; apply Hb; by right|].
    unfold addBaseline. apply map_Forall_insert_2; [|done].
    apply Hb. by left. }
  intros Hb. apply Hgen; [done|]. apply map_Forall_empty.
Qed.

Lemma effectiveCapacity_within now bound baseline virtuals months :
  0 ≤ bound →
  (∀ b, b ∈ baseline → hoursWithin bound (Bucket.monthly_capacity b)) →
  (∀ r h, r ∈ virtuals → Resource.hoursPerMonth r = Some h → 0 ≤ h ≤ bound) →
  capacitiesWithin
    (bound + Z.of_nat (length months) * Z.of_nat (length virtuals)
             * Z.max bound 160)
    (calculateEffectiveCapacity now baseline virtuals months).
Proof.
  intros H0 Hb Hv. unfold calculateEffectiveCapacity.
  apply addVirtual_fold_within; [done|lia| |by apply baselineTable_within].
  intros r Hr. destruct (hoursToAdd_within bound r); [|lia].
  intros h Hh. by apply (Hv r h).
Qed.

(** ** Cells read and written *)

Lemma or_zero_ofZ (v : option Z) :
  (∀ z, v = Some z → 0 ≤ z < 2 ^ 53) →
  Double.or_zero (Double.ofZ <$> v) = Double.ofZ (default 0 v).
Proof.
  intros Hv. destruct v as [z|]; [|done]. cbn.
  rewrite truthy_exact by auto. case_bool_decide as Hz; [done|].
  assert (z = 0) as -> by (destruct (decide (z = 0)); [done|by elim Hz]).
  done.
Qed.

Lemma or_zero_num (v : option jsnum) :
  (∀ z, v = Some (Num z) → 0 ≤ z < 2 ^ 53) →
  Double.or_zero (AsDoubles.num <$> v) = Double.ofZ (or_zero v).
Proof.
  intros Hv. destruct v as [[z|]|]; [|done|done]. cbn.
  rewrite truthy_exact by auto. case_bool_decide as Hz; [done|].
  assert (z = 0) as -> by (destruct (decide (z = 0)); [done|by elim Hz]).
  done.
Qed.

Lemma or_zero_within bound (hours : gmap string Z) month :
  hoursWithin bound hours → bound < 2 ^ 53 →
  Double.or_zero ((Double.ofZ <$> hours) !! month)
  = Double.ofZ (default 0 (hours !! month)).
Proof.
  intros Hw Hb. rewrite lookup_fmap. apply or_zero_ofZ.
  intros z Hz. specialize (Hw month z Hz). simpl in Hw. lia.
Qed.

(** ** The demand shifter *)

Lemma doubles_shiftEntry_eq months shift month hours shiftedDemand :
  Doubles.shiftEntry months shift month hours shiftedDemand
  = match destination months shift month with
    | Some newMonth =>
        <[newMonth :=
            Double.add (Double.or_zero (shiftedDemand !! newMonth)) hours]>
          shiftedDemand
    | None => shiftedDemand
    end.
Proof.
  unfold Doubles.shiftEntry, destination.
  destruct (monthIndex months !! month) as [i|]; simpl; [|done].
  case_decide; [|done]. by destruct (months !! Z.to_nat (Z.of_nat i + shift)).
Qed.

Lemma shiftEntry_exact months shift month hours acc bound :
  0 ≤ hours → hoursWithin bound acc → 0 ≤ bound → bound + hours < 2 ^ 53 →
  Doubles.shiftEntry months shift month (Double.ofZ hours) (Double.ofZ <$> acc)
  = Double.ofZ <$> shiftEntry months shift month hours acc
  ∧ hoursWithin (bound + hours) (shiftEntry months shift month hours acc).
Proof.
  intros Hh Hw Hb Hsum. rewrite doubles_shiftEntry_eq, shiftEntry_eq.
  destruct (destination months shift month) as [dest|].
  - pose proof (hoursWithin_cell bound acc dest Hw) as Hcell. split.
    + rewrite fmap_insert. f_equal.
      rewrite (or_zero_within bound) by (done || lia).
      apply add_exact; lia.
    + apply map_Forall_insert_2; [simpl; lia|].
      by apply (hoursWithin_weaken bound); [lia|].
  - split; [done|]. by apply (hoursWithin_weaken bound); [lia|].
Qed.

(** The sum of the hours of a list of entries. *)
Lemma mapSum_foldr (hours : gmap string Z) :
  mapSum id hours = foldr (λ e total, e.2 + total) 0 (map_to_list hours).
Proof.
  unfold mapSum. rewrite map_fold_foldr.
  induction (map_to_list hours) as [|[k h] l IH]; [done|].
  cbn [foldr]. rewrite IH. reflexivity.
Qed.

Lemma shiftDemand_list_exact months shift (l : list (string * Z)) :
  Forall (λ e, 0 ≤ e.2) l →
  foldr (λ e total, e.2 + total) 0 l < 2 ^ 53 →
  foldr (uncurry (Doubles.shiftEntry months shift)) ∅
    (prod_map id Double.ofZ <$> l)
  = Double.ofZ <$> foldr (uncurry (shiftEntry months shift)) ∅ l
  ∧ hoursWithin (foldr (λ e total, e.2 + total) 0 l)
      (foldr (uncurry (shiftEntry months shift)) ∅ l)
  ∧ 0 ≤ foldr (λ e total, e.2 + total) 0 l.
Proof.
  induction l as [|[k h] l IH]; intros Hnn Hsum.
  - cbn. split; [by rewrite fmap_empty|]. split; [apply map_Forall_empty|lia].
  - apply Forall_cons in Hnn as [Hh Hl]. cbn in Hh, Hsum.
    cbn [foldr fmap list_fmap prod_map uncurry fst snd id].
    destruct IH as (Heq & Hw & H0); [done| |].
    { cbn in *. lia. }
    rewrite Heq.
    destruct (shiftEntry_exact months shift k h
                (foldr (uncurry (shiftEntry months shift)) ∅ l)
                (foldr (λ e total, e.2 + total) 0 l))
      as [Hstep Hw']; [done|done|done|lia|].
    split; [done|]. split; [|lia].
    replace (h + foldr (λ e total, e.2 + total) 0 l)
      with (foldr (λ e total, e.2 + total) 0 l + h) by lia.
    done.
Qed.

Lemma nonneg_list (hours : gmap string Z) :
  nonneg hours → Forall (λ e, 0 ≤ e.2) (map_to_list hours).
Proof.
  intros Hn. apply Forall_forall. intros [k h] Hkh.
  apply elem_of_map_to_list in Hkh. apply (Hn k h Hkh).
Qed.

Lemma shiftDemand_exact months shift (demand : gmap string Z) :
  nonneg demand → mapSum id demand < 2 ^ 53 →
  Doubles.shiftDemand months shift (Double.ofZ <$> demand)
  = Double.ofZ <$> shiftDemand months shift demand.
Proof.
  intros Hn Hsum. unfold Doubles.shiftDemand, shiftDemand.
  rewrite !map_fold_foldr, map_to_list_fmap.
  apply shiftDemand_list_exact; [by apply nonneg_list|].
  by rewrite <- mapSum_foldr.
Qed.

Lemma shiftDemand_within months shift (demand : gmap string Z) :
  nonneg demand → mapSum id demand < 2 ^ 53 →
  hoursWithin (mapSum id demand) (shiftDemand months shift demand).
Proof.
  intros Hn Hsum. unfold shiftDemand.
  rewrite map_fold_foldr, mapSum_foldr.
  apply shiftDemand_list_exact; [by apply nonneg_list|].
  by rewrite <- mapSum_foldr.
Qed.

Lemma mapSum_cell (hours : gmap string Z) :
  nonneg hours → hoursWithin (mapSum id hours) hours.
Proof.
  intros Hn k h Hk. simpl. pose proof (Hn k h Hk) as H0. simpl in H0.
  rewrite (mapSum_delete id hours k h Hk). unfold id at 1.
  assert (0 ≤ mapSum id (delete k hours)); [|lia].
  apply mapSum_nonneg. intros k' h' Hk'.
  apply lookup_delete_Some in Hk' as [_ Hk']. apply (Hn k' h' Hk').
Qed.

Lemma shiftProject_within bound shifts months project :
  nonneg (Project.monthly_demand project) →
  mapSum id (Project.monthly_demand project) ≤ bound → bound < 2 ^ 53 →
  hoursWithin bound
    (Project.monthly_demand (shiftProject shifts months project)).
Proof.
  intros Hn Hsum Hb. unfold shiftProject.
  destruct (shifts !! Project.id project) as [shift|].
  - case_decide.
    + by apply (hoursWithin_weaken (mapSum id (Project.monthly_demand project)));
        [|apply mapSum_cell].
    + cbn. apply (hoursWithin_weaken
                    (mapSum id (Project.monthly_demand project))); [done|].
      apply shiftDemand_within; [done|lia].
  - by apply (hoursWithin_weaken (mapSum id (Project.monthly_demand project)));
      [|apply mapSum_cell].
Qed.

Lemma shiftProject_exact shifts months project :
  nonneg (Project.monthly_demand project) →
  mapSum id (Project.monthly_demand project) < 2 ^ 53 →
  Doubles.shiftProject shifts months (AsDoubles.project project)
  = AsDoubles.project (shiftProject shifts months project).
Proof.
  intros Hn Hsum. unfold Doubles.shiftProject, shiftProject.
  cbn [AsDoubles.project Doubles.Project.id].
  destruct (shifts !! Project.id project) as [shift|]; [|done].
  case_decide; [done|]. unfold AsDoubles.project at 2. cbn.
  by rewrite shiftDemand_exact.
Qed.

Lemma applyTimelineShifts_exact bound projects shifts months :
  (∀ p, p ∈ projects →
     nonneg (Project.monthly_demand p)
     ∧ mapSum id (Project.monthly_demand p) ≤ bound) →
  bound < 2 ^ 53 →
  Doubles.applyTimelineShifts (AsDoubles.project <$> projects) shifts months
  = AsDoubles.project <$> applyTimelineShifts projects shifts months.
Proof.
  intros Hp Hb. unfold Doubles.applyTimelineShifts, applyTimelineShifts.
  induction projects as [|p l IH]; [done|].
  cbn [fmap list_fmap map].
  destruct (Hp p) as [Hn Hsum]; [by left|].
  rewrite shiftProject_exact by (done || lia). f_equal.
  apply IH. intros q Hq. apply Hp. by right.
Qed.

Lemma buildProjectMap_exact (l : list Project.t) :
  Doubles.buildProjectMap (AsDoubles.project <$> l)
  = AsDoubles.project <$> buildProjectMap l.
Proof.
  unfold Doubles.buildProjectMap, buildProjectMap.
  assert (Hgen : ∀ pm : gmap string Project.t,
    foldl (λ projectMap project,
             <[Doubles.Project.id project := project]> projectMap)
      (AsDoubles.project <$> pm) (AsDoubles.project <$> l)
    = AsDoubles.project <$>
      foldl (λ projectMap project, <[Project.id project := project]> projectMap)
        pm l).
  { induction l as [|p rest IH]; intros pm; [done|].
    cbn [fmap list_fmap foldl]. rewrite <- IH. f_equal.
    by rewrite fmap_insert. }
  rewrite <- Hgen. by rewrite fmap_empty.
Qed.

Lemma scenarioProjects_within bound projects shifts months :
  (∀ p, p ∈ projects →
     nonneg (Project.monthly_demand p)
     ∧ mapSum id (Project.monthly_demand p) ≤ bound) →
  bound < 2 ^ 53 →
  demandsWithin bound (scenarioProjects projects shifts months).
Proof.
  intros Hp Hb pid project Hpid. apply buildProjectMap_elem in Hpid.
  unfold applyTimelineShifts in Hpid.
  apply list_elem_of_fmap in Hpid as (p & -> & Hin).
  destruct (Hp p Hin) as [Hn Hsum]. by apply shiftProject_within.
Qed.

(** ** The capacity aggregator *)

Lemma hoursToAdd_exact r :
  (∀ h, Resource.hoursPerMonth r = Some h → 0 ≤ h < 2 ^ 53) →
  Doubles.hoursToAdd (AsDoubles.resource r) = Double.ofZ (hoursToAdd r).
Proof.
  intros Hr. unfold Doubles.hoursToAdd, hoursToAdd. cbn.
  destruct (Resource.hoursPerMonth r) as [h|]; [|done]. cbn.
  rewrite truthy_exact by auto.
  case_bool_decide; case_decide; (done || lia).
Qed.

Lemma addHours_exact hours cap months bound :
  0 ≤ hours → 0 ≤ bound → hoursWithin bound cap →
  bound + Z.of_nat (length months) * hours < 2 ^ 53 →
  foldl (Doubles.addHours (Double.ofZ hours)) (Double.ofZ <$> cap) months
  = Double.ofZ <$> foldl (addHours hours) cap months.
Proof.
  intros Hh. revert cap bound.
  induction months as [|x l IH]; intros cap bound Hb Hc Hsum; [done|].
  cbn [foldl length] in *. rewrite Nat2Z.inj_succ in Hsum.
  pose proof (hoursWithin_cell bound cap x Hc) as Hcell.
  assert (Doubles.addHours (Double.ofZ hours) (Double.ofZ <$> cap) x
          = Double.ofZ <$> addHours hours cap x) as ->.
  { unfold Doubles.addHours, addHours. rewrite fmap_insert. f_equal.
    rewrite (or_zero_within bound) by (done || nia).
    apply add_exact; nia. }
  apply (IH _ (bound + hours)); [lia| |nia].
  pose proof (addHours_within hours cap [x] bound Hh Hb Hc) as H1.
  cbn [foldl length] in H1. by rewrite Z.mul_1_l in H1.
Qed.

Lemma setHours_exact hours months (cap : gmap string Z) :
  foldl (Doubles.setHours (Double.ofZ hours)) (Double.ofZ <$> cap) months
  = Double.ofZ <$> foldl (setHours hours) cap months.
Proof.
  revert cap. induction months as [|x l IH]; intros cap; [done|].
  cbn [foldl]. rewrite <- IH. f_equal. unfold Doubles.setHours, setHours.
  by rewrite fmap_insert.
Qed.

Lemma addVirtual_exact now months eff ticks r bound :
  0 ≤ bound → capacitiesWithin bound eff →
  (∀ h, Resource.hoursPerMonth r = Some h → 0 ≤ h < 2 ^ 53) →
  bound + Z.of_nat (length months) * hoursToAdd r < 2 ^ 53 →
  Doubles.addVirtual now months (AsDoubles.bucket <$> eff, ticks)
    (AsDoubles.resource r)
  = (AsDoubles.bucket <$> (addVirtual now months (eff, ticks) r).1,
     (addVirtual now months (eff, ticks) r).2).
Proof.
  intros Hb He Hr Hsum.
  assert (0 < hoursToAdd r).
  { unfold hoursToAdd. destruct (Resource.hoursPerMonth r) as [h|]; [|lia].
    specialize (Hr h eq_refl). case_decide; lia. }
  unfold Doubles.addVirtual, addVirtual.
  change (Doubles.resourceKey (AsDoubles.resource r)) with (resourceKey r).
  rewrite lookup_fmap, hoursToAdd_exact by done.
  destruct (eff !! resourceKey r) as [b|] eqn:Hk; cbn [fmap option_fmap option_map fst snd].
  - f_equal. rewrite fmap_insert. f_equal.
    unfold Doubles.Bucket.with_capacity, Bucket.with_capacity,
      AsDoubles.bucket. cbn. f_equal.
    apply (addHours_exact _ _ _ bound); [lia|done| |done].
    by apply (He _ _ Hk).
  - f_equal. rewrite fmap_insert. f_equal.
    unfold AsDoubles.bucket. cbn. f_equal.
    rewrite <- setHours_exact. by rewrite fmap_empty.
Qed.

Lemma addVirtual_fold_exact now months virtuals eff ticks bound hire :
  0 ≤ bound → 0 ≤ hire →
  (∀ r, r ∈ virtuals → 0 ≤ hoursToAdd r ≤ hire) →
  (∀ r h, r ∈ virtuals → Resource.hoursPerMonth r = Some h →
          0 ≤ h < 2 ^ 53) →
  capacitiesWithin bound eff →
  bound + Z.of_nat (length months) * Z.of_nat (length virtuals) * hire
    < 2 ^ 53 →
  (foldl (Doubles.addVirtual now months) (AsDoubles.bucket <$> eff, ticks)
     (AsDoubles.resource <$> virtuals)).1
  = AsDoubles.bucket <$>
    (foldl (addVirtual now months) (eff, ticks) virtuals).1.
Proof.
  intros Hb Hh. revert eff ticks bound Hb.
  induction virtuals as [|r rest IH]; intros eff ticks bound Hb Hv Hr He Hsum;
    [done|].
  cbn [foldl length fmap list_fmap] in *. rewrite Nat2Z.inj_succ in Hsum.
  destruct (Hv r) as [Hr0 Hr1]; [by left|].
  assert (0 ≤ Z.of_nat (length months) * Z.of_nat (length rest) * hire)
    by nia.
  assert (Z.of_nat (length months) * hoursToAdd r
          ≤ Z.of_nat (length months) * hire) by nia.
  rewrite (addVirtual_exact _ _ _ _ _ bound); [|done|done| |nia].
  2:{ intros h. apply Hr. by left. }
  rewrite (addVirtual_pair now months (eff, ticks) r).
  apply (IH _ _ (bound + Z.of_nat (length months) * hire)).
  - nia.
  - intros r' Hr'. apply Hv. by right.
  - intros r' h Hr'. apply Hr. by right.
  - by apply addVirtual_within.
  - nia.
Qed.

Lemma baselineTable_exact (baseline : list Bucket.t) :
  foldl Doubles.addBaseline ∅ (AsDoubles.bucket <$> baseline)
  = AsDoubles.bucket <$> baselineTable baseline.
Proof.
  unfold baselineTable.
  assert (Hgen : ∀ eff : gmap string Bucket.t,
    foldl Doubles.addBaseline (AsDoubles.bucket <$> eff)
      (AsDoubles.bucket <$> baseline)
    = AsDoubles.bucket <$> foldl addBaseline eff baseline).
  { induction baseline as [|b rest IH]; intros eff; [done|].
    cbn [fmap list_fmap foldl]. rewrite <- IH. f_equal.
    unfold Doubles.addBaseline, addBaseline. by rewrite fmap_insert. }
  rewrite <- Hgen. by rewrite fmap_empty.
Qed.

Lemma calculateEffectiveCapacity_exact now bound baseline virtuals months :
  0 ≤ bound →
  (∀ b, b ∈ baseline → hoursWithin bound (Bucket.monthly_capacity b)) →
  (∀ r h, r ∈ virtuals → Resource.hoursPerMonth r = Some h → 0 ≤ h ≤ bound) →
  bound + Z.of_nat (length months) * Z.of_nat (length virtuals)
          * Z.max bound 160 < 2 ^ 53 →
  Doubles.calculateEffectiveCapacity now (AsDoubles.bucket <$> baseline)
    (AsDoubles.resource <$> virtuals) months
  = AsDoubles.bucket <$> calculateEffectiveCapacity now baseline virtuals months.
Proof.
  intros H0 Hb Hv Hsum.
  unfold Doubles.calculateEffectiveCapacity, calculateEffectiveCapacity.
  rewrite baselineTable_exact.
  assert (0 ≤ Z.of_nat (length months) * Z.of_nat (length virtuals)
              * Z.max bound 160) by nia.
  apply (addVirtual_fold_exact _ _ _ _ _ bound (Z.max bound 160));
    [done|lia| | |by apply baselineTable_within|done].
  - intros r Hr. destruct (hoursToAdd_within bound r); [|lia].
    intros h Hh. by apply (Hv r h).
  - intros r h Hr Hh. specialize (Hv r h Hr Hh). lia.
Qed.

(** ** The tracking structures *)

Lemma num_Num (hours : gmap string Z) :
  AsDoubles.num <$> (Num <$> hours) = Double.ofZ <$> hours.
Proof. by rewrite <- map_fmap_compose. Qed.

Lemma initRemaining_exact (eff : gmap string Bucket.t) :
  Doubles.initRemaining (AsDoubles.bucket <$> eff)
  = (λ row : gmap string jsnum, AsDoubles.num <$> row) <$> initRemaining eff.
Proof.
  unfold Doubles.initRemaining, initRemaining. apply map_eq. intros k.
  rewrite !lookup_fmap. destruct (eff !! k) as [b|]; [|done]. cbn.
  by rewrite num_Num.
Qed.

Lemma initUtilizationMonth_exact bound b u month :
  hoursWithin bound (Bucket.monthly_capacity b) → bound < 2 ^ 53 →
  Doubles.initUtilizationMonth (AsDoubles.bucket b) (AsDoubles.utilization u)
    month
  = AsDoubles.utilization (initUtilizationMonth b u month).
Proof.
  intros Hw Hb. unfold Doubles.initUtilizationMonth, initUtilizationMonth,
    AsDoubles.utilization. cbn.
  rewrite !fmap_insert, (or_zero_within bound) by done. done.
Qed.

Lemma initUtilization_exact bound months (eff : gmap string Bucket.t) :
  capacitiesWithin bound eff → bound < 2 ^ 53 →
  Doubles.initUtilization months (AsDoubles.bucket <$> eff)
  = AsDoubles.utilization <$> initUtilization months eff.
Proof.
  intros He Hb. unfold Doubles.initUtilization, initUtilization.
  apply map_eq. intros k. rewrite !lookup_fmap.
  destruct (eff !! k) as [b|] eqn:Hk; [|done]. cbn. f_equal.
  assert (Hgen : ∀ u,
    foldl (Doubles.initUtilizationMonth (AsDoubles.bucket b))
      (AsDoubles.utilization u) months
    = AsDoubles.utilization (foldl (initUtilizationMonth b) u months)).
  { induction months as [|x l IH]; intros u; [done|].
    cbn [foldl]. rewrite (initUtilizationMonth_exact bound); [apply IH| |done].
    by apply (He _ _ Hk). }
  rewrite <- Hgen. unfold AsDoubles.utilization. cbn.
  by rewrite !fmap_empty.
Qed.

Lemma addProjectStatus_exact (projectMap : gmap string Project.t) ps n pid :
  Doubles.addProjectStatus (AsDoubles.project <$> projectMap)
    (AsDoubles.status <$> ps, n) pid
  = (AsDoubles.status <$> (addProjectStatus projectMap (ps, n) pid).1,
     (addProjectStatus projectMap (ps, n) pid).2).
Proof.
  unfold Doubles.addProjectStatus, addProjectStatus. rewrite lookup_fmap.
  destruct (projectMap !! pid) as [project|]; cbn; [|done].
  f_equal. rewrite fmap_insert. f_equal.
Qed.

Lemma initProjectStatus_exact (projectMap : gmap string Project.t)
    priorityOrder :
  Doubles.initProjectStatus (AsDoubles.project <$> projectMap) priorityOrder
  = AsDoubles.status <$> initProjectStatus projectMap priorityOrder.
Proof.
  unfold Doubles.initProjectStatus, initProjectStatus.
  assert (Hgen : ∀ (ps : gmap string ProjectStatus.t) n,
    (foldl (Doubles.addProjectStatus (AsDoubles.project <$> projectMap))
       (AsDoubles.status <$> ps, n) priorityOrder).1
    = AsDoubles.status <$>
      (foldl (addProjectStatus projectMap) (ps, n) priorityOrder).1).
  { induction priorityOrder as [|pid l IH]; intros ps n; [done|].
    cbn [foldl]. rewrite addProjectStatus_exact.
    destruct (addProjectStatus projectMap (ps, n) pid) as [ps' n'].
    apply IH. }
  rewrite <- Hgen. by rewrite fmap_empty.
Qed.

(** ** One visit of the inner loop *)

Lemma remaining_cell_exact (R : gmap string (gmap string jsnum)) k month :
  ((λ row : gmap string jsnum, AsDoubles.num <$> row) <$> R) !! k
     ≫= (.!! month)
  = AsDoubles.num <$> (R !! k ≫= (.!! month)).
Proof.
  rewrite lookup_fmap. destruct (R !! k) as [row|]; [|done]. cbn.
  by rewrite lookup_fmap.
Qed.

Lemma exactState_cells eff months limit st bound k u month :
  exactState eff months limit st → capacitiesWithin bound eff →
  month ∈ months →
  State.bucketUtilization st !! k = Some u →
  ∃ row c r,
    State.remainingCapacity st !! k = Some row
    ∧ Utilization.monthly_consumed u !! month = Some c
    ∧ Utilization.monthly_remaining u !! month = Some r
    ∧ 0 ≤ c ∧ 0 ≤ r ∧ c + r ≤ Z.max 0 bound
    ∧ or_zero (row !! month) = r.
Proof.
  intros (Hutil & _) He Hm Hu.
  destruct (Hutil k u Hu) as (b & row & Hb & Hrow & Hcells).
  destruct (Hcells month Hm) as (c & r & Hc & Hr & Hsum & Hc0 & Hr0 & Hread).
  exists row, c, r. do 5 (split; [done|]). split; [|done].
  pose proof (hoursWithin_cell bound _ month (He k b Hb)). lia.
Qed.

Lemma exactState_available eff months limit st bound k month :
  exactState eff months limit st → capacitiesWithin bound eff →
  month ∈ months → bound < 2 ^ 53 →
  let a := or_zero (State.remainingCapacity st !! k ≫= (.!! month)) in
  0 ≤ a ≤ Z.max 0 bound
  ∧ Double.or_zero
      (((λ row : gmap string jsnum, AsDoubles.num <$> row)
          <$> State.remainingCapacity st) !! k ≫= (.!! month))
    = Double.ofZ a.
Proof.
  intros Hex He Hm Hb a. rewrite remaining_cell_exact. unfold a.
  destruct (State.remainingCapacity st !! k) as [row|] eqn:Hrow; cbn.
  - destruct Hex as (Hutil & Hdom & Htot).
    destruct (Hdom k) as [u Hu]; [by rewrite Hrow|].
    destruct (exactState_cells eff months limit st bound k u month)
      as (row' & c & r & Hrow' & Hc & Hr & Hc0 & Hr0 & Hsum & Hread);
      [done|done|done|done|].
    assert (row' = row) as -> by congruence.
    split; [lia|]. apply or_zero_num. intros z Hz.
    rewrite Hz in Hread. cbn in Hread. lia.
  - split; [lia|done].
Qed.

Lemma outcome_deficit_bounds d a :
  0 ≤ d → 0 ≤ a → 0 ≤ MonthStatus.deficit (outcome d a) ≤ d.
Proof. intros Hd Ha. unfold outcome. repeat case_decide; simpl; lia. Qed.

Lemma allocate_exactState eff months limit bound demandBound projectMap month
    st projectId :
  exactState eff months limit st → capacitiesWithin bound eff →
  demandsWithin demandBound projectMap → 0 ≤ demandBound →
  month ∈ months → bound < 2 ^ 53 →
  exactState eff months (limit + demandBound)
    (allocate projectMap month st projectId).
Proof.
  intros Hex He Hd Hd0 Hm Hb.
  destruct (projectMap !! projectId) as [project|] eqn:Hp.
  2:{ rewrite allocate_skip by done. destruct Hex as (? & ? & ? & Hps).
      split; [done|]. split; [done|]. split; [lia|].
      intros pid p Hpid. specialize (Hps pid p Hpid). lia. }
  assert (Hnn : nonneg (Project.monthly_demand project)).
  { intros m h Hh. pose proof (Hd _ _ Hp m h Hh) as H. simpl in *. lia. }
  destruct (exactState_available eff months limit st bound (projectKey project)
              month Hex He Hm Hb) as [Ha _].
  pose proof (hoursWithin_cell demandBound _ month (Hd _ _ Hp)) as Hdem.
  fold (demandOf project month) in Hdem.
  fold (availableOf (State.remainingCapacity st) (projectKey project) month)
    in Ha.
  pose proof (outcome_deficit_bounds (demandOf project month)
                (availableOf (State.remainingCapacity st) (projectKey project)
                   month) ltac:(lia) ltac:(lia)) as Hdef.
  split; [|split; [|split]].
  - apply allocate_utilInv; [|by destruct Hex].
    intros project' Hp'. by assert (project' = project) as -> by congruence.
  - destruct Hex as (_ & Hdom & _). intros k.
    rewrite (allocate_eq _ _ _ _ _ Hp). cbn. unfold remainingStep.
    rewrite Hp, !lookup_alter. intros Hk.
    assert (is_Some (State.remainingCapacity st !! k)) as Hk'.
    { case_decide; [|done]. subst k. by apply fmap_is_Some in Hk. }
    specialize (Hdom k Hk'). case_decide; [|done]. subst k.
    by apply fmap_is_Some.
  - destruct Hex as (_ & _ & Htot & _).
    rewrite (allocate_eq _ _ _ _ _ Hp). cbn. lia.
  - destruct Hex as (_ & _ & _ & Hps). intros pid p.
    rewrite (allocate_eq _ _ _ _ _ Hp). cbn. rewrite lookup_alter.
    case_decide.
    + subst pid. destruct (State.projectStatus st !! projectId) as [p0|]
        eqn:Hp0; [|done].
      cbn. intros [= <-]. specialize (Hps _ _ Hp0). cbn. lia.
    + intros Hpid. specialize (Hps _ _ Hpid). lia.
Qed.

Lemma deduct_exact month d (row : gmap string jsnum) :
  0 ≤ d < 2 ^ 53 →
  (∀ z, row !! month = Some (Num z) → 0 ≤ z < 2 ^ 53) →
  AsDoubles.num <$> deduct month d row
  = Doubles.deduct month (Double.ofZ d) (AsDoubles.num <$> row).
Proof.
  intros Hd Hrow. unfold deduct, Doubles.deduct.
  rewrite fmap_insert, lookup_fmap. f_equal.
  destruct (row !! month) as [[z|]|]; cbn; [|done|done].
  symmetry. apply sub_exact; auto.
Qed.

Lemma consume_exact month used (f : Z → Z) (g : Double.t → Double.t) u c r :
  Utilization.monthly_consumed u !! month = Some c →
  Utilization.monthly_remaining u !! month = Some r →
  0 ≤ c → 0 ≤ used → c + used < 2 ^ 53 →
  g (Double.ofZ r) = Double.ofZ (f r) →
  AsDoubles.utilization (consume month used f u)
  = Doubles.consume month (Double.ofZ used) g (AsDoubles.utilization u).
Proof.
  intros Hc Hr Hc0 Hu0 Hsum Hg. unfold consume, Doubles.consume,
    AsDoubles.utilization. cbn.
  rewrite !fmap_insert, !lookup_fmap, Hc, Hr. cbn.
  rewrite (lookup_total_correct _ _ _ Hc), (lookup_total_correct _ _ _ Hr).
  by rewrite add_exact, Hg by lia.
Qed.

Lemma set_month_exact month ms p :
  AsDoubles.status (ProjectStatus.set_month month ms p)
  = Doubles.ProjectStatus.set_month month (AsDoubles.month ms)
      (AsDoubles.status p).
Proof.
  unfold AsDoubles.status, ProjectStatus.set_month,
    Doubles.ProjectStatus.set_month. cbn. by rewrite fmap_insert.
Qed.

Lemma add_deficit_exact d p :
  0 ≤ d → 0 ≤ ProjectStatus.totalDeficit p →
  ProjectStatus.totalDeficit p + d < 2 ^ 53 →
  AsDoubles.status (ProjectStatus.add_deficit d p)
  = Doubles.ProjectStatus.add_deficit (Double.ofZ d) (AsDoubles.status p).
Proof.
  intros Hd Hp Hsum. unfold AsDoubles.status, ProjectStatus.add_deficit,
    Doubles.ProjectStatus.add_deficit. cbn. by rewrite add_exact.
Qed.

Lemma allocate_exact eff months limit bound demandBound projectMap month st
    projectId :
  exactState eff months limit st → capacitiesWithin bound eff →
  demandsWithin demandBound projectMap → 0 ≤ demandBound →
  month ∈ months → bound < 2 ^ 53 → limit + demandBound < 2 ^ 53 →
  Doubles.allocate (AsDoubles.project <$> projectMap) month
    (AsDoubles.state st) projectId
  = AsDoubles.state (allocate projectMap month st projectId).
Proof.
  intros Hex He Hd Hd0 Hm Hb Hlimit.
  unfold Doubles.allocate, allocate. rewrite lookup_fmap.
  destruct (projectMap !! projectId) as [project|] eqn:Hp; [|done].
  cbn [fmap option_fmap option_map].
  change (Doubles.projectKey (AsDoubles.project project))
    with (projectKey project).
  set (k := projectKey project).
  destruct (exactState_available eff months limit st bound k month Hex He Hm Hb)
    as [Ha Havail].
  pose proof Hex as (Hutil & Hdom & Htot & Hps).
  pose proof (hoursWithin_cell demandBound _ month (Hd _ _ Hp)) as Hdem.
  assert (0 ≤ limit) by lia.
  assert (Hdemand :
    Double.or_zero
      (Doubles.Project.monthly_demand (AsDoubles.project project) !! month)
    = Double.ofZ (default 0 (Project.monthly_demand project !! month))).
  { cbn. apply (or_zero_within demandBound); [by apply (Hd _ _ Hp)|lia]. }
  cbn [AsDoubles.state Doubles.State.remainingCapacity
       Doubles.State.bucketUtilization Doubles.State.projectStatus
       Doubles.State.totalDeficit].
  rewrite Hdemand, Havail.
  set (d := default 0 (Project.monthly_demand project !! month)) in *.
  set (a := or_zero (State.remainingCapacity st !! k ≫= (.!! month))) in *.
  change Double.zero with (Double.ofZ 0).
  rewrite eqb_exact, leb_exact, ltb_exact by lia.
  assert (Hstatus : ∀ ms q,
    State.projectStatus st !! projectId = Some q →
    0 ≤ MonthStatus.deficit ms ≤ d →
    AsDoubles.status
      (ProjectStatus.add_deficit (MonthStatus.deficit ms)
         (ProjectStatus.set_month month ms q))
    = Doubles.ProjectStatus.add_deficit (Double.ofZ (MonthStatus.deficit ms))
        (Doubles.ProjectStatus.set_month month (AsDoubles.month ms)
           (AsDoubles.status q))).
  { intros ms q Hq Hms. specialize (Hps _ _ Hq).
    rewrite add_deficit_exact by (cbn; lia). by rewrite set_month_exact. }
  case_bool_decide as Hzero.
  { rewrite decide_True by done. unfold AsDoubles.state. cbn. f_equal.
    symmetry. apply fmap_alter. intros q _. by rewrite set_month_exact. }
  rewrite decide_False by done.
  case_bool_decide as Hfull.
  { rewrite decide_True by done. unfold AsDoubles.state. cbn. f_equal.
    - symmetry. apply fmap_alter. intros row Hrow. apply deduct_exact; [lia|].
      intros z Hz. unfold a in Ha. rewrite Hrow in Ha. cbn in Ha.
      rewrite Hz in Ha. cbn in Ha. lia.
    - symmetry. apply fmap_alter. intros u Hu.
      destruct (exactState_cells eff months limit st bound k u month)
        as (row & c & r & Hrow & Hc & Hr & Hc0 & Hr0 & Hsum & Hread);
        [done|done|done|done|].
      assert (a = r) as Har.
      { unfold a. rewrite Hrow. cbn. done. }
      apply (consume_exact _ _ _ _ _ c r); [done|done|lia|lia|lia|].
      apply sub_exact; lia.
    - symmetry. apply fmap_alter. intros q _. by rewrite set_month_exact. }
  rewrite decide_False by done.
  case_bool_decide as Hsome.
  { rewrite decide_True by done. unfold AsDoubles.state. cbn.
    rewrite sub_exact by lia. f_equal.
    - symmetry. apply fmap_alter. intros row Hrow. by rewrite fmap_insert.
    - symmetry. apply fmap_alter. intros u Hu.
      destruct (exactState_cells eff months limit st bound k u month)
        as (row & c & r & Hrow & Hc & Hr & Hc0 & Hr0 & Hsum & Hread);
        [done|done|done|done|].
      assert (a = r) as Har.
      { unfold a. rewrite Hrow. cbn. done. }
      by apply (consume_exact _ _ _ _ _ c r); [done|done|lia|lia|lia|].
    - symmetry. apply fmap_alter. intros q Hq.
      apply (Hstatus (MonthStatus.mk partial d a (d - a)) q Hq). cbn. lia.
    - apply add_exact; lia. }
  rewrite decide_False by done. unfold AsDoubles.state. cbn. f_equal.
  - symmetry. apply fmap_alter. intros q Hq.
    apply (Hstatus (MonthStatus.mk unstaffed d 0 d) q Hq). cbn. lia.
  - apply add_exact; lia.
Qed.

(** ** The loops *)

Lemma exactState_weaken eff months limit limit' st :
  limit ≤ limit' → exactState eff months limit st →
  exactState eff months limit' st.
Proof.
  intros Hle (Hutil & Hdom & Htot & Hps).
  split; [done|]. split; [done|]. split; [lia|].
  intros pid p Hp. specialize (Hps pid p Hp). lia.
Qed.

Lemma allocateMonth_exact eff months limit bound demandBound projectMap
    priorityOrder st month :
  exactState eff months limit st → capacitiesWithin bound eff →
  demandsWithin demandBound projectMap → 0 ≤ demandBound →
  month ∈ months → bound < 2 ^ 53 →
  limit + Z.of_nat (length priorityOrder) * demandBound < 2 ^ 53 →
  Doubles.allocateMonth (AsDoubles.project <$> projectMap) priorityOrder
    (AsDoubles.state st) month
  = AsDoubles.state (allocateMonth projectMap priorityOrder st month)
  ∧ exactState eff months
      (limit + Z.of_nat (length priorityOrder) * demandBound)
      (allocateMonth projectMap priorityOrder st month).
Proof.
  intros Hex He Hd Hd0 Hm Hb. unfold Doubles.allocateMonth, allocateMonth.
  revert st limit Hex.
  induction priorityOrder as [|pid l IH]; intros st limit Hex Hlimit.
  - cbn [foldl length]. split; [done|].
    apply (exactState_weaken _ _ limit); [|done].
    change (Z.of_nat 0) with 0. lia.
  - cbn [foldl length] in *. rewrite Nat2Z.inj_succ in *.
    rewrite (allocate_exact eff months limit bound demandBound);
      [|done|done|done|done|done|done|nia].
    destruct (IH (allocate projectMap month st pid) (limit + demandBound))
      as [Heq Hex'].
    + by apply (allocate_exactState _ _ _ bound).
    + nia.
    + split; [done|].
      apply (exactState_weaken _ _
               (limit + demandBound + Z.of_nat (length l) * demandBound));
        [lia|done].
Qed.

Lemma allocateAll_exact eff months limit bound demandBound projectMap
    priorityOrder processed st :
  exactState eff months limit st → capacitiesWithin bound eff →
  demandsWithin demandBound projectMap → 0 ≤ demandBound →
  (∀ m, m ∈ processed → m ∈ months) → bound < 2 ^ 53 →
  limit + Z.of_nat (length processed) * Z.of_nat (length priorityOrder)
          * demandBound < 2 ^ 53 →
  Doubles.allocateAll (AsDoubles.project <$> projectMap) priorityOrder
    processed (AsDoubles.state st)
  = AsDoubles.state (allocateAll projectMap priorityOrder processed st)
  ∧ exactState eff months
      (limit + Z.of_nat (length processed) * Z.of_nat (length priorityOrder)
               * demandBound)
      (allocateAll projectMap priorityOrder processed st).
Proof.
  intros Hex He Hd Hd0 Hsub Hb. unfold Doubles.allocateAll, allocateAll.
  revert st limit Hex.
  induction processed as [|m l IH]; intros st limit Hex Hlimit.
  - cbn [foldl length]. split; [done|].
    apply (exactState_weaken _ _ limit); [|done].
    change (Z.of_nat 0) with 0. lia.
  - cbn [foldl length] in *. rewrite Nat2Z.inj_succ in *.
    assert (0 ≤ Z.of_nat (length l) * Z.of_nat (length priorityOrder)
                * demandBound) by nia.
    destruct (allocateMonth_exact eff months limit bound demandBound projectMap
                priorityOrder st m) as [Heq Hex'];
      [done|done|done|done|apply Hsub; by left|done|nia|].
    rewrite Heq.
    destruct (IH ltac:(intros m' Hm'; apply Hsub; by right)
                (allocateMonth projectMap priorityOrder st m)
                (limit + Z.of_nat (length priorityOrder) * demandBound))
      as [Heq' Hex''].
    + done.
    + nia.
    + split; [done|].
      apply (exactState_weaken _ _
               (limit + Z.of_nat (length priorityOrder) * demandBound
                + Z.of_nat (length l) * Z.of_nat (length priorityOrder)
                  * demandBound)); [lia|done].
Qed.

Lemma initState_exactState eff projectMap priorityOrder months :
  map_Forall (λ _ b, nonneg (Bucket.monthly_capacity b)) eff →
  exactState eff months 0 (initState eff projectMap priorityOrder months).
Proof.
  intros Hnn. split; [by apply initState_utilInv|]. split; [|split].
  - intros k. unfold initState, initRemaining, initUtilization. cbn.
    rewrite !lookup_fmap. by rewrite !fmap_is_Some.
  - cbn. lia.
  - intros pid p Hp. cbn in Hp.
    destruct (initProjectStatus_fresh _ _ _ _ Hp) as (_ & _ & -> & _). lia.
Qed.

Lemma initState_exact bound eff projectMap priorityOrder months :
  capacitiesWithin bound eff → bound < 2 ^ 53 →
  Doubles.State.mk (Doubles.initRemaining (AsDoubles.bucket <$> eff))
    (Doubles.initUtilization months (AsDoubles.bucket <$> eff))
    (Doubles.initProjectStatus (AsDoubles.project <$> projectMap)
       priorityOrder)
    Double.zero
  = AsDoubles.state (initState eff projectMap priorityOrder months).
Proof.
  intros He Hb. unfold AsDoubles.state, initState. cbn.
  by rewrite initRemaining_exact, (initUtilization_exact bound),
    initProjectStatus_exact.
Qed.

(** ** The summary and the percentages *)

Lemma hasStatus_exact s (monthlyStatus : gmap string MonthStatus.t) :
  Doubles.hasStatus s (AsDoubles.month <$> monthlyStatus)
  = hasStatus s monthlyStatus.
Proof.
  unfold Doubles.hasStatus, hasStatus. rewrite map_to_list_fmap.
  induction (map_to_list monthlyStatus) as [|[m ms] l IH]; [done|].
  cbn. by rewrite IH.
Qed.

Lemma summarize_exact p :
  Doubles.summarize (AsDoubles.status p) = AsDoubles.status (summarize p).
Proof.
  unfold Doubles.summarize, summarize.
  cbn [AsDoubles.status Doubles.ProjectStatus.monthlyStatus].
  rewrite !hasStatus_exact.
  by repeat destruct (hasStatus _ _).
Qed.

Lemma round_percent_exact consumed capacity :
  0 ≤ consumed ≤ capacity → 0 < capacity < 2 ^ 53 →
  Double.round
    (Double.mul (Double.div (Double.ofZ consumed) (Double.ofZ capacity))
       (Double.ofZ 100))
  = Double.ofZ (round_percent consumed capacity).
Proof.
  intros Hc Hcap. unfold round_percent.
  destruct (decide (consumed = 0)) as [->|Hne].
  { rewrite ofZ_0, ofZ_pos by lia. vm_compute. reflexivity. }
  destruct (decide (consumed = capacity)) as [->|Hlt].
  { rewrite div_self by lia. vm_compute. reflexivity. }
  destruct (div_at_most_one consumed capacity) as (m & e & -> & Hm & He & Hle);
    [lia|lia|lia|].
  destruct (mul_100_at_most m e) as (m' & e' & -> & He' & Hle');
    [done|done|done|].
  unfold Double.round. rewrite decide_False by lia.
  case_decide as Hzero; [|done]. by rewrite Hzero.
Qed.

Lemma setUtilization_exact bound (capacity : gmap string Z) u month c :
  hoursWithin bound capacity → bound < 2 ^ 53 →
  Utilization.monthly_consumed u !! month = Some c →
  0 ≤ c ≤ default 0 (capacity !! month) →
  Doubles.setUtilization (Double.ofZ <$> capacity) (AsDoubles.utilization u)
    month
  = AsDoubles.utilization (setUtilization capacity u month).
Proof.
  intros Hw Hb Hc Hle. unfold Doubles.setUtilization, setUtilization,
    AsDoubles.utilization. cbn.
  rewrite fmap_insert, (or_zero_within bound), lookup_fmap, Hc by done.
  cbn. rewrite (lookup_total_correct _ _ _ Hc).
  pose proof (hoursWithin_cell bound capacity month Hw) as Hcell.
  change Double.zero with (Double.ofZ 0). rewrite ltb_exact by lia.
  do 2 f_equal. case_bool_decide.
  - rewrite decide_True by done. apply round_percent_exact; lia.
  - by rewrite decide_False.
Qed.

Lemma finalUtilization_exact bound eff months st :
  capacitiesWithin bound eff → bound < 2 ^ 53 → utilInv eff months st →
  Doubles.finalUtilization (AsDoubles.bucket <$> eff) months
    (AsDoubles.utilization <$> State.bucketUtilization st)
  = AsDoubles.utilization <$>
    finalUtilization eff months (State.bucketUtilization st).
Proof.
  intros He Hb Hutil. unfold Doubles.finalUtilization, finalUtilization.
  apply map_eq. intros k.
  rewrite lookup_fmap, !map_lookup_imap, !lookup_fmap.
  destruct (State.bucketUtilization st !! k) as [u|] eqn:Hu; [|done].
  cbn. f_equal. destruct (Hutil k u Hu) as (b & row & Hbk & _ & Hcells).
  rewrite Hbk. cbn.
  assert (Hgen : ∀ l v,
    (∀ m, m ∈ l → m ∈ months) →
    Utilization.monthly_consumed v = Utilization.monthly_consumed u →
    foldl (Doubles.setUtilization (Double.ofZ <$> Bucket.monthly_capacity b))
      (AsDoubles.utilization v) l
    = AsDoubles.utilization
        (foldl (setUtilization (Bucket.monthly_capacity b)) v l)).
  { induction l as [|m l IH]; intros v Hsub Hv; [done|].
    cbn [foldl].
    destruct (Hcells m) as (c & r & Hc & Hr & Hsum & Hc0 & Hr0 & _);
      [apply Hsub; by left|].
    rewrite (setUtilization_exact bound _ _ _ c);
      [|by apply (He _ _ Hbk)|done|by rewrite Hv|lia].
    apply IH; [intros m' Hm'; apply Hsub; by right|done]. }
  by apply Hgen.
Qed.

(** ** The whole run *)

Lemma integerHours_bounds bound baseline projects priorityOrder virtuals
    months :
  integerHours bound baseline projects priorityOrder virtuals months →
  0 ≤ bound < 2 ^ 53
  ∧ bound + Z.of_nat (length months) * Z.of_nat (length virtuals)
            * Z.max bound 160 < 2 ^ 53
  ∧ Z.of_nat (length months) * Z.of_nat (length priorityOrder) * bound
    < 2 ^ 53.
Proof.
  intros (H0 & _ & _ & _ & Hsum).
  rewrite Nat2Z.inj_add in Hsum.
  set (m := Z.of_nat (length months)) in *.
  set (v := Z.of_nat (length virtuals)) in *.
  set (p := Z.of_nat (length priorityOrder)) in *.
  set (M := Z.max bound 160) in *.
  assert (0 ≤ m) by (unfold m; lia). assert (0 ≤ v) by (unfold v; lia).
  assert (0 ≤ p) by (unfold p; lia).
  assert (bound ≤ M ∧ 160 ≤ M) as [? ?] by (unfold M; lia).
  assert (0 ≤ m * v) by nia. assert (0 ≤ m * p) by nia.
  assert (m * p * bound ≤ m * p * M) by nia.
  assert (0 ≤ m * v * M) by nia. assert (0 ≤ m * p * M) by nia.
  replace ((1 + m * (v + p)) * M) with (M + m * v * M + m * p * M) in Hsum
    by lia.
  lia.
Qed.

Lemma integerHours_nonneg bound baseline projects priorityOrder virtuals
    months :
  integerHours bound baseline projects priorityOrder virtuals months →
  (∀ b, b ∈ baseline → nonneg (Bucket.monthly_capacity b))
  ∧ (∀ r, r ∈ virtuals → ∀ h, Resource.hoursPerMonth r = Some h → 0 ≤ h)
  ∧ (∀ p, p ∈ projects → nonneg (Project.monthly_demand p)).
Proof.
  intros (H0 & Hb & Hv & Hp & _). split; [|split].
  - intros b Hin m h Hh. pose proof (Hb b Hin m h Hh) as H. simpl in *. lia.
  - intros r Hin h Hh. pose proof (Hv r h Hin Hh). lia.
  - intros p Hin. by destruct (Hp p Hin).
Qed.

Lemma integerHours_capacities now bound baseline projects priorityOrder
    virtuals months :
  integerHours bound baseline projects priorityOrder virtuals months →
  capacitiesWithin
    (bound + Z.of_nat (length months) * Z.of_nat (length virtuals)
             * Z.max bound 160)
    (calculateEffectiveCapacity now baseline virtuals months).
Proof.
  intros (H0 & Hb & Hv & _). by apply effectiveCapacity_within.
Qed.

Lemma integerHours_demands bound baseline projects priorityOrder virtuals
    shifts months :
  integerHours bound baseline projects priorityOrder virtuals months →
  demandsWithin bound (scenarioProjects projects shifts months).
Proof.
  intros Hint. destruct (integerHours_bounds _ _ _ _ _ _ Hint) as (Hb & _).
  destruct Hint as (_ & _ & _ & Hp & _).
  apply scenarioProjects_within; [done|lia].
Qed.

(** On integer hours the engine on doubles computes what the engine on
    integers computes: every sum, difference and comparison of the run is
    exact. *)
Lemma calculateScenario_exact (now : nat → Z) bound baseline projects
    priorityOrder virtuals shifts months :
  integerHours bound baseline projects priorityOrder virtuals months →
  Doubles.calculateScenario now (AsDoubles.bucket <$> baseline)
    (AsDoubles.project <$> projects) priorityOrder
    (AsDoubles.resource <$> virtuals) shifts months
  = AsDoubles.result
      (calculateScenario now baseline projects priorityOrder virtuals shifts
         months).
Proof.
  intros Hint.
  destruct (integerHours_bounds _ _ _ _ _ _ Hint) as ([H0 Hb] & Hcap & Htot).
  destruct (integerHours_nonneg _ _ _ _ _ _ Hint) as (Hnb & Hnv & Hnp).
  pose proof (integerHours_capacities now _ _ _ _ _ _ Hint) as Hwithin.
  pose proof (integerHours_demands _ _ _ _ _ shifts _ Hint) as Hdemands.
  destruct Hint as (_ & Hib & Hiv & Hip & _).
  unfold Doubles.calculateScenario, calculateScenario.
  rewrite (calculateEffectiveCapacity_exact _ bound) by done.
  rewrite (applyTimelineShifts_exact bound) by done.
  rewrite buildProjectMap_exact.
  set (eff := calculateEffectiveCapacity now baseline virtuals months) in *.
  change (buildProjectMap (applyTimelineShifts projects shifts months))
    with (scenarioProjects projects shifts months).
  set (pm := scenarioProjects projects shifts months) in *.
  set (capBound := bound + Z.of_nat (length months)
                           * Z.of_nat (length virtuals) * Z.max bound 160)
    in *.
  rewrite (initState_exact capBound) by done.
  change (State.mk (initRemaining eff) (initUtilization months eff)
            (initProjectStatus pm priorityOrder) 0)
    with (initState eff pm priorityOrder months).
  destruct (allocateAll_exact eff months 0 capBound bound pm priorityOrder
              months (initState eff pm priorityOrder months))
    as [Heq Hex]; [|done|done|done|done|done|lia|].
  { apply initState_exactState. by apply effectiveCapacity_nonneg. }
  rewrite Heq. unfold AsDoubles.result.
  cbn [AsDoubles.state Doubles.State.bucketUtilization
       Doubles.State.projectStatus Doubles.State.totalDeficit
       Result.effectiveCapacity Result.bucketUtilization
       Result.projectStatus Result.totalDeficit Result.months].
  f_equal.
  - apply (finalUtilization_exact capBound); [done|done|by destruct Hex].
  - rewrite <- !map_fmap_compose. apply map_fmap_ext.
    intros pid p _. cbn. apply summarize_exact.
Qed.

(** * The claims about hours, on the engine on doubles *)

Lemma worked_integerHours virtuals :
  (∀ r h, r ∈ virtuals → Resource.hoursPerMonth r = Some h → 0 ≤ h ≤ 100) →
  (length virtuals ≤ 2)%nat →
  integerHours 100 [bucket100] [demand60 "p1"; demand60 "p2"] ["p1"; "p2"]
    virtuals jan.
Proof.
  intros Hv Hlen. split; [lia|]. split; [|split; [|split]].
  - intros b ->%list_elem_of_singleton. apply map_Forall_singleton. lia.
  - intros r h Hr Hh. by apply (Hv r h).
  - intros p Hp.
    assert (p = demand60 "p1" ∨ p = demand60 "p2") as [->| ->].
    { apply elem_of_cons in Hp as [->|Hp]; [by left|].
      apply list_elem_of_singleton in Hp as ->. by right. }
    + split; [apply map_Forall_singleton; lia|]. vm_compute. by intros ?.
    + split; [apply map_Forall_singleton; lia|]. vm_compute. by intros ?.
  - cbn [length jan]. change (Z.max 100 160) with 160.
    assert (Z.of_nat (length virtuals + 2) ≤ 4) by lia.
    assert (2 ^ 53 = 9007199254740992) as -> by reflexivity. lia.
Qed.

Lemma doubles_projectMap bound projects shifts months pid project :
  (∀ p, p ∈ projects →
     nonneg (Project.monthly_demand p)
     ∧ mapSum id (Project.monthly_demand p) ≤ bound) →
  bound < 2 ^ 53 →
  Doubles.buildProjectMap
    (Doubles.applyTimelineShifts (AsDoubles.project <$> projects) shifts
       months) !! pid = Some project →
  ∃ record,
    buildProjectMap (applyTimelineShifts projects shifts months) !! pid
      = Some record
    ∧ project = AsDoubles.project record.
Proof.
  intros Hp Hb. rewrite (applyTimelineShifts_exact bound) by done.
  rewrite buildProjectMap_exact, lookup_fmap.
  destruct (buildProjectMap _ !! pid) as [record|]; [|done].
  intros [= <-]. by exists record.
Qed.

(** C1, amended.  On integer hours ([integerHours]: capacities, [hoursPerMonth]
    values and demands that are non-negative integers, small enough that no
    sum of the run reaches 2^53), in every run of the engine on doubles, for
    every id of the priority order that has a project record and every month
    of the month list, the month record written into [projectStatus] reports
    the project's shifted demand for that month (0 when the month is absent
    from it) and satisfies [allocated + deficit = demand], the sum being the
    sum of doubles. *)
Theorem conservation (now : nat → Z) bound baseline projects priorityOrder
    virtuals shifts months pid month project :
  integerHours bound baseline projects priorityOrder virtuals months →
  pid ∈ priorityOrder →
  month ∈ months →
  Doubles.buildProjectMap
    (Doubles.applyTimelineShifts (AsDoubles.project <$> projects) shifts
       months) !! pid = Some project →
  ∃ p ms,
    Doubles.Result.projectStatus
      (Doubles.calculateScenario now (AsDoubles.bucket <$> baseline)
         (AsDoubles.project <$> projects) priorityOrder
         (AsDoubles.resource <$> virtuals) shifts months) !! pid = Some p
    ∧ Doubles.ProjectStatus.monthlyStatus p !! month = Some ms
    ∧ Doubles.MonthStatus.demand ms
      = Double.or_zero (Doubles.Project.monthly_demand project !! month)
    ∧ Double.add (Doubles.MonthStatus.allocated ms)
        (Doubles.MonthStatus.deficit ms)
      = Doubles.MonthStatus.demand ms.
Proof.
  intros Hint Hpid Hmonth Hproject.
  destruct (integerHours_bounds _ _ _ _ _ _ Hint) as ([H0 Hb] & _).
  pose proof (integerHours_demands _ _ _ _ _ shifts _ Hint) as Hdemands.
  destruct (integerHours_nonneg _ _ _ _ _ _ Hint) as (_ & _ & Hnn).
  rewrite (calculateScenario_exact now bound) by done.
  destruct (doubles_projectMap bound projects shifts months pid project)
    as (record & Hrecord & ->); [by destruct Hint as (_ & _ & _ & ? & _)|done|done|].
  destruct (conservation_integers now baseline projects priorityOrder virtuals
              shifts months pid month record Hpid Hmonth Hrecord)
    as (p & ms & Hp & Hms & Hdemand & Hsum).
  pose proof (hoursWithin_cell bound _ month (Hdemands _ _ Hrecord)) as Hcell.
  destruct (scenario_outcomeRecords _ _ _ _ _ _ _ _ _ Hp)
    as (record' & Hrecord' & Hrecords).
  destruct (Hrecords _ _ Hms) as [a Hout].
  assert (0 ≤ MonthStatus.allocated ms ∧ 0 ≤ MonthStatus.deficit ms)
    as [Ha Hd].
  { rewrite Hdemand in Hsum. rewrite Hout. rewrite Hout in Hsum, Hdemand.
    rewrite outcome_demand in Hdemand.
    destruct (outcome_hours (demandOf record' month) a) as (? & ? & ? & ? & _);
      [lia|done]. }
  exists (AsDoubles.status p), (AsDoubles.month ms).
  cbn [AsDoubles.result Doubles.Result.projectStatus].
  rewrite lookup_fmap, Hp. split; [done|].
  cbn [AsDoubles.status Doubles.ProjectStatus.monthlyStatus].
  rewrite lookup_fmap, Hms. split; [done|].
  cbn [AsDoubles.month Doubles.MonthStatus.demand
       Doubles.MonthStatus.allocated Doubles.MonthStatus.deficit
       AsDoubles.project Doubles.Project.monthly_demand].
  rewrite (or_zero_within bound) by (done || by apply (Hdemands _ _ Hrecord)).
  split; [by rewrite Hdemand|].
  rewrite add_exact by lia. by rewrite Hsum.
Qed.

Lemma conservation_witness :
  ∃ p ms,
    Doubles.Result.projectStatus
      (Doubles.calculateScenario (λ _, 0) (AsDoubles.bucket <$> [bucket100])
         (AsDoubles.project <$> [demand60 "p1"; demand60 "p2"])
         ["p1"; "p2"] (AsDoubles.resource <$> []) ∅ jan) !! "p2" = Some p
    ∧ Doubles.ProjectStatus.monthlyStatus p !! "Jan" = Some ms
    ∧ Doubles.MonthStatus.demand ms
      = Double.or_zero
          (Doubles.Project.monthly_demand
             (AsDoubles.project (demand60 "p2")) !! "Jan")
    ∧ Double.add (Doubles.MonthStatus.allocated ms)
        (Doubles.MonthStatus.deficit ms)
      = Doubles.MonthStatus.demand ms.
Proof.
  apply (conservation (λ _, 0) 100 [bucket100]
           [demand60 "p1"; demand60 "p2"] ["p1"; "p2"] [] ∅ jan "p2" "Jan"
           (AsDoubles.project (demand60 "p2"))).
  - apply worked_integerHours; [|cbn; lia].
    intros r h Hr. by apply elem_of_nil in Hr.
  - apply list_elem_of_In. simpl. tauto.
  - apply list_elem_of_In. simpl. tauto.
  - vm_compute. reflexivity.
Defined.

(** With hours that have fractions the two parts of a record need not add
    up to its demand: a bucket of 100.2 hours against a demand of 228.4
    leaves a deficit of 128.2, and 100.2 + 128.2 is 228.39999999999998. *)
Lemma fractions_break_conservation :
  ∃ p ms,
    Doubles.Result.projectStatus
      (Doubles.calculateScenario (λ _, 0)
         [fractionBucket (Double.decimal 1002 1)]
         [fractionDemand "p1" (Double.decimal 2284 1)]
         ["p1"] [] ∅ jan) !! "p1" = Some p
    ∧ Doubles.ProjectStatus.monthlyStatus p !! "Jan" = Some ms
    ∧ Doubles.MonthStatus.status ms = partial
    ∧ Doubles.MonthStatus.demand ms = Double.decimal 2284 1
    ∧ Doubles.MonthStatus.allocated ms = Double.decimal 1002 1
    ∧ Double.add (Doubles.MonthStatus.allocated ms)
        (Doubles.MonthStatus.deficit ms)
      ≠ Doubles.MonthStatus.demand ms
    ∧ Double.ltb
        (Double.add (Doubles.MonthStatus.allocated ms)
           (Doubles.MonthStatus.deficit ms))
        (Doubles.MonthStatus.demand ms) = true.
Proof.
  eexists _, _. split; [vm_compute; reflexivity|].
  split; [vm_compute; reflexivity|].
  split; [done|]. split; [vm_compute; reflexivity|].
  split; [vm_compute; reflexivity|]. split; [|vm_compute; reflexivity].
  vm_compute. intros H. discriminate H.
Qed.

(** C9, amended.  On integer hours ([integerHours]), for every bucket of the
    utilization table of a run of the engine on doubles and every listed
    month: the consumed and the remaining hours add up to the effective
    capacity of that month, the consumed hours do not exceed it, and the
    reported utilization is at most 100. *)
Theorem utilization_within_capacity (now : nat → Z) bound baseline projects
    priorityOrder virtuals shifts months :
  integerHours bound baseline projects priorityOrder virtuals months →
  let result :=
    Doubles.calculateScenario now (AsDoubles.bucket <$> baseline)
      (AsDoubles.project <$> projects) priorityOrder
      (AsDoubles.resource <$> virtuals) shifts months in
  ∀ k u m,
    Doubles.Result.bucketUtilization result !! k = Some u →
    m ∈ months →
    ∃ b consumed remaining utilization,
      Doubles.Result.effectiveCapacity result !! k = Some b
      ∧ Doubles.Utilization.monthly_consumed u !! m = Some consumed
      ∧ Doubles.Utilization.monthly_remaining u !! m = Some remaining
      ∧ Doubles.Utilization.monthly_utilization u !! m = Some utilization
      ∧ Double.add consumed remaining
        = Double.or_zero (Doubles.Bucket.monthly_capacity b !! m)
      ∧ Double.leb consumed
          (Double.or_zero (Doubles.Bucket.monthly_capacity b !! m)) = true
      ∧ Double.leb utilization (Double.ofZ 100) = true.
Proof.
  intros Hint result k u m Hu Hm. subst result.
  destruct (integerHours_bounds _ _ _ _ _ _ Hint) as ([H0 Hb] & Hcap & _).
  destruct (integerHours_nonneg _ _ _ _ _ _ Hint) as (Hnb & Hnv & Hnp).
  pose proof (integerHours_capacities now _ _ _ _ _ _ Hint) as Hwithin.
  rewrite (calculateScenario_exact now bound) in * by done.
  cbn [AsDoubles.result Doubles.Result.bucketUtilization
       Doubles.Result.effectiveCapacity] in *.
  rewrite lookup_fmap in Hu.
  destruct (Result.bucketUtilization _ !! k) as [zu|] eqn:Hzu; [|done].
  cbn in Hu. injection Hu as <-.
  destruct (utilization_integers now baseline projects priorityOrder virtuals
              shifts months Hnb Hnv Hnp) with (k := k) (u := zu) (m := m)
    as (b & c & r & ut & Hbk & Hc & Hr & Hut & Hsum & Hc0 & Hr0 & _ & Hut100);
    [|done|done|].
  { intros k' b' m' h Hb' Hh. pose proof (Hwithin k' b' Hb' m' h Hh) as H.
    simpl in H. lia. }
  cbn [Result.effectiveCapacity calculateScenario] in Hbk.
  pose proof (Hwithin k b Hbk) as Hrow.
  pose proof (hoursWithin_cell _ _ m Hrow) as Hcell.
  exists (AsDoubles.bucket b), (Double.ofZ c), (Double.ofZ r), (Double.ofZ ut).
  rewrite lookup_fmap.
  cbn [calculateScenario Result.effectiveCapacity]. rewrite Hbk.
  split; [done|].
  cbn [AsDoubles.utilization Doubles.Utilization.monthly_consumed
       Doubles.Utilization.monthly_remaining
       Doubles.Utilization.monthly_utilization AsDoubles.bucket
       Doubles.Bucket.monthly_capacity].
  rewrite !lookup_fmap, Hc, Hr, Hut. do 3 (split; [done|]).
  rewrite or_zero_ofZ.
  2:{ intros z Hz. pose proof (Hrow m z Hz) as H. simpl in H. lia. }
  split; [|split].
  - rewrite add_exact by lia. by rewrite Hsum.
  - rewrite leb_exact by lia. apply bool_decide_eq_true. lia.
  - rewrite leb_exact by lia. apply bool_decide_eq_true. lia.
Qed.

Lemma twoHires_within r h :
  r ∈ twoHires → Resource.hoursPerMonth r = Some h → 0 ≤ h ≤ 100.
Proof.
  intros Hr Hh. unfold twoHires in Hr.
  apply elem_of_cons in Hr as [->|Hr];
    [|apply list_elem_of_singleton in Hr as ->];
    injection Hh as <-; lia.
Qed.

Lemma utilization_within_capacity_witness :
  let result :=
    Doubles.calculateScenario (λ _, 0) (AsDoubles.bucket <$> [bucket100])
      (AsDoubles.project <$> [demand60 "p1"; demand60 "p2"]) ["p1"; "p2"]
      (AsDoubles.resource <$> twoHires) ∅ jan in
  let u := AsDoubles.utilization workedUtilization in
  Doubles.Result.bucketUtilization result !! "digital|developer|london"
    = Some u
  ∧ "Jan" ∈ jan
  ∧ ∃ b consumed remaining utilization,
      Doubles.Result.effectiveCapacity result !! "digital|developer|london"
        = Some b
      ∧ Doubles.Utilization.monthly_consumed u !! "Jan" = Some consumed
      ∧ Doubles.Utilization.monthly_remaining u !! "Jan" = Some remaining
      ∧ Doubles.Utilization.monthly_utilization u !! "Jan" = Some utilization
      ∧ Double.add consumed remaining
        = Double.or_zero (Doubles.Bucket.monthly_capacity b !! "Jan")
      ∧ Double.leb consumed
          (Double.or_zero (Doubles.Bucket.monthly_capacity b !! "Jan")) = true
      ∧ Double.leb utilization (Double.ofZ 100) = true.
Proof.
  cbv zeta.
  assert (H1 : Doubles.Result.bucketUtilization
                 (Doubles.calculateScenario (λ _, 0)
                    (AsDoubles.bucket <$> [bucket100])
                    (AsDoubles.project <$> [demand60 "p1"; demand60 "p2"])
                    ["p1"; "p2"] (AsDoubles.resource <$> twoHires) ∅ jan)
                 !! "digital|developer|london"
               = Some (AsDoubles.utilization workedUtilization)).
  { vm_compute. reflexivity. }
  assert (H2 : "Jan" ∈ jan) by (by left).
  split; [exact H1|]. split; [exact H2|].
  exact (utilization_within_capacity (λ _, 0) 100 [bucket100]
           [demand60 "p1"; demand60 "p2"] ["p1"; "p2"] twoHires ∅ jan
           (worked_integerHours twoHires twoHires_within ltac:(cbn; lia))
           "digital|developer|london"
           (AsDoubles.utilization workedUtilization) "Jan" H1 H2).
Defined.

(** With hours that have fractions the consumed hours can pass the capacity:
    in a bucket of 0.9 hours a demand of 0.3 is staffed and a demand of 5
    takes the remaining 0.6000000000000001, so that 0.9000000000000001 hours
    are consumed and none remain. *)
Lemma fractions_break_capacity :
  ∃ u consumed,
    Doubles.Result.bucketUtilization
      (Doubles.calculateScenario (λ _, 0)
         [fractionBucket (Double.decimal 9 1)]
         [fractionDemand "p1" (Double.decimal 3 1);
          fractionDemand "p2" (Double.ofZ 5)]
         ["p1"; "p2"] [] ∅ jan) !! "digital|developer|london" = Some u
    ∧ Doubles.Bucket.monthly_capacity (Doubles.Utilization.bucket u) !! "Jan"
      = Some (Double.decimal 9 1)
    ∧ Doubles.Utilization.monthly_consumed u !! "Jan" = Some consumed
    ∧ Doubles.Utilization.monthly_remaining u !! "Jan" = Some Double.zero
    ∧ Double.add consumed Double.zero ≠ Double.decimal 9 1
    ∧ Double.leb consumed (Double.decimal 9 1) = false
    ∧ Double.ltb (Double.decimal 9 1) consumed = true.
Proof.
  eexists _, _. split; [vm_compute; reflexivity|].
  split; [vm_compute; reflexivity|]. split; [vm_compute; reflexivity|].
  split; [vm_compute; reflexivity|].
  split; [|split; vm_compute; reflexivity].
  vm_compute. intros H. discriminate H.
Qed.

(** ** Further properties, on the engine on doubles *)

Lemma scenario_exactState now bound baseline projects priorityOrder virtuals
    shifts months :
  integerHours bound baseline projects priorityOrder virtuals months →
  let eff := calculateEffectiveCapacity now baseline virtuals months in
  let pm := scenarioProjects projects shifts months in
  exactState eff months
    (Z.of_nat (length months) * Z.of_nat (length priorityOrder) * bound)
    (allocateAll pm priorityOrder months
       (initState eff pm priorityOrder months)).
Proof.
  intros Hint eff pm.
  destruct (integerHours_bounds _ _ _ _ _ _ Hint) as ([H0 Hb] & Hcap & Htot).
  destruct (integerHours_nonneg _ _ _ _ _ _ Hint) as (Hnb & Hnv & Hnp).
  pose proof (integerHours_capacities now _ _ _ _ _ _ Hint) as Hwithin.
  pose proof (integerHours_demands _ _ _ _ _ shifts _ Hint) as Hdemands.
  destruct (allocateAll_exact eff months 0 _ bound pm priorityOrder
              months (initState eff pm priorityOrder months)
              (initState_exactState eff pm priorityOrder months
                 (effectiveCapacity_nonneg now _ _ _ Hnb Hnv))
              Hwithin Hdemands H0 ltac:(done) Hcap ltac:(lia))
    as [_ Hex].
  by rewrite Z.add_0_l in Hex.
Qed.

(** X3.  On integer hours ([integerHours]) the grand total of a result of
    the engine on doubles is the sum of the totals that its status entries
    report: the totals of the entries are integers, none negative, and the
    grand total is the double of their sum, which is below 2^53. *)
Theorem total_deficit_is_sum_of_projects (now : nat → Z) bound baseline
    projects priorityOrder virtuals shifts months :
  integerHours bound baseline projects priorityOrder virtuals months →
  let result :=
    Doubles.calculateScenario now (AsDoubles.bucket <$> baseline)
      (AsDoubles.project <$> projects) priorityOrder
      (AsDoubles.resource <$> virtuals) shifts months in
  ∃ totals : gmap string Z,
    (∀ pid,
       Doubles.ProjectStatus.totalDeficit
         <$> Doubles.Result.projectStatus result !! pid
       = Double.ofZ <$> totals !! pid)
    ∧ map_Forall (λ _ total, 0 ≤ total) totals
    ∧ mapSum id totals < 2 ^ 53
    ∧ Doubles.Result.totalDeficit result = Double.ofZ (mapSum id totals).
Proof.
  intros Hint result. subst result.
  destruct (integerHours_bounds _ _ _ _ _ _ Hint) as ([H0 Hb] & Hcap & Htot).
  pose proof (scenario_exactState now _ _ _ _ _ shifts _ Hint)
    as (_ & _ & Htotal & Hps).
  rewrite (calculateScenario_exact now bound) by done.
  pose proof (scenario_total_sum now baseline projects priorityOrder virtuals
                shifts months) as Hsum.
  cbv zeta in Hsum.
  set (zr := calculateScenario now baseline projects priorityOrder virtuals
               shifts months) in *.
  exists (ProjectStatus.totalDeficit <$> Result.projectStatus zr).
  cbn [AsDoubles.result Doubles.Result.projectStatus
       Doubles.Result.totalDeficit].
  assert (Hid : mapSum id (ProjectStatus.totalDeficit
                             <$> Result.projectStatus zr)
                = Result.totalDeficit zr).
  { rewrite Hsum. apply mapSum_fmap. }
  split; [|split; [|split]].
  - intros pid. rewrite !lookup_fmap.
    by destruct (Result.projectStatus zr !! pid).
  - intros pid total. rewrite lookup_fmap.
    unfold zr. rewrite scenario_projectStatus, lookup_fmap.
    destruct (State.projectStatus _ !! pid) as [p|] eqn:Hp; [|done].
    cbn. intros [= <-]. rewrite summarize_totalDeficit.
    by destruct (Hps pid p Hp).
  - rewrite Hid. unfold zr. cbn [Result.totalDeficit calculateScenario].
    change (buildProjectMap (applyTimelineShifts projects shifts months))
      with (scenarioProjects projects shifts months).
    change (State.mk (initRemaining ?e) (initUtilization months ?e)
              (initProjectStatus ?pm priorityOrder) 0)
      with (initState e pm priorityOrder months).
    lia.
  - by rewrite Hid.
Qed.

Lemma total_deficit_is_sum_of_projects_witness :
  let result :=
    Doubles.calculateScenario (λ _, 0) (AsDoubles.bucket <$> [bucket100])
      (AsDoubles.project <$> [demand60 "p1"; demand60 "p2"]) ["p1"; "p2"]
      (AsDoubles.resource <$> []) ∅ jan in
  ∃ totals : gmap string Z,
    (∀ pid,
       Doubles.ProjectStatus.totalDeficit
         <$> Doubles.Result.projectStatus result !! pid
       = Double.ofZ <$> totals !! pid)
    ∧ map_Forall (λ _ total, 0 ≤ total) totals
    ∧ mapSum id totals < 2 ^ 53
    ∧ Doubles.Result.totalDeficit result = Double.ofZ (mapSum id totals).
Proof.
  apply (total_deficit_is_sum_of_projects (λ _, 0) 100 [bucket100]
           [demand60 "p1"; demand60 "p2"] ["p1"; "p2"] [] ∅ jan).
  apply worked_integerHours; [|cbn; lia].
  intros r h Hr. by apply elem_of_nil in Hr.
Defined.

(** With hours that have fractions the grand total and the totals of the
    entries are sums of the same deficits in different orders.  Capacities
    of 2.0 and 1.2 hours against demands of 1.2 and 1.1, of 1.1 and 0.9 and
    of 0.1 and 0.6 leave the entries with 1.1 and 0.7 hours, which add up to
    1.8, and the result with 1.8000000000000003. *)
Example fractions_split_the_total :
  let result :=
    Doubles.calculateScenario (λ _, 0)
      [Doubles.Bucket.mk "bucket_0" "Digital" "Developer" "London"
         {["Jan" := Double.ofZ 2; "Feb" := Double.decimal 12 1]} false]
      [Doubles.Project.mk "p1" "p1" "Digital" "Developer" "London"
         {["Jan" := Double.decimal 12 1; "Feb" := Double.decimal 11 1]}
         Double.zero None;
       Doubles.Project.mk "p2" "p2" "Digital" "Developer" "London"
         {["Jan" := Double.decimal 11 1; "Feb" := Double.decimal 9 1]}
         Double.zero None;
       Doubles.Project.mk "p0" "p0" "Digital" "Developer" "London"
         {["Jan" := Double.decimal 1 1; "Feb" := Double.decimal 6 1]}
         Double.zero None]
      ["p1"; "p2"; "p0"] [] ∅ ["Jan"; "Feb"] in
  Doubles.ProjectStatus.totalDeficit
    <$> Doubles.Result.projectStatus result !! "p1" = Some Double.zero
  ∧ Doubles.ProjectStatus.totalDeficit
      <$> Doubles.Result.projectStatus result !! "p2"
    = Some (Double.decimal 11 1)
  ∧ Doubles.ProjectStatus.totalDeficit
      <$> Doubles.Result.projectStatus result !! "p0"
    = Some (Double.decimal 7 1)
  ∧ Double.add (Double.decimal 11 1) (Double.decimal 7 1)
    = Double.decimal 18 1
  ∧ Double.ltb (Double.decimal 18 1) (Doubles.Result.totalDeficit result)
    = true.
Proof. vm_compute. repeat split; reflexivity. Qed.

(** X20.  On a result of the engine on doubles for integer hours
    ([integerHours]), the heatmap never shows red: the utilization of every
    bucket in every listed month is between 0 and 100, so neither the cell
    nor the two helpers of the engine reach the band above 100, and the
    hours that the tooltip shows as remaining are never negative. *)
Theorem heatmap_never_red (now : nat → Z) bound baseline projects
    priorityOrder virtuals shifts months k u m :
  integerHours bound baseline projects priorityOrder virtuals months →
  Doubles.Result.bucketUtilization
    (Doubles.calculateScenario now (AsDoubles.bucket <$> baseline)
       (AsDoubles.project <$> projects) priorityOrder
       (AsDoubles.resource <$> virtuals) shifts months) !! k = Some u →
  m ∈ months →
  let utilization := Doubles.Heatmap.utilizationAt u m in
  Double.leb Double.zero utilization = true
  ∧ Double.leb utilization (Double.ofZ 100) = true
  ∧ Doubles.Heatmap.getCellColor utilization
    ≠ "bg-[var(--color-capacity-red)]"
  ∧ Doubles.getUtilizationColor utilization ≠ "capacity-red"
  ∧ Doubles.getUtilizationStatus utilization ≠ "Overloaded"
  ∧ Doubles.Heatmap.remainingColor u m
    = "text-[var(--color-capacity-green)]".
Proof.
  intros Hint Hu Hm.
  destruct (integerHours_bounds _ _ _ _ _ _ Hint) as ([H0 Hb] & Hcap & _).
  destruct (integerHours_nonneg _ _ _ _ _ _ Hint) as (Hnb & Hnv & Hnp).
  pose proof (integerHours_capacities now _ _ _ _ _ _ Hint) as Hwithin.
  rewrite (calculateScenario_exact now bound) in Hu by done.
  cbn [AsDoubles.result Doubles.Result.bucketUtilization] in Hu.
  rewrite lookup_fmap in Hu.
  destruct (Result.bucketUtilization _ !! k) as [zu|] eqn:Hzu; [|done].
  cbn in Hu. injection Hu as <-.
  assert (Utilization.bucket <$> Some zu
          = calculateEffectiveCapacity now baseline virtuals months !! k)
    as Hbucket.
  { rewrite <- Hzu, scenario_from. apply scenarioFrom_bucket. }
  cbn in Hbucket. symmetry in Hbucket.
  destruct (scenario_utilization _ _ _ _ _ _ _ _ _ _ Hnb Hnv Hnp Hzu Hm)
    as (c & Hc & Hc0 & Hle & Hut).
  pose proof (Hwithin k _ Hbucket) as Hrow.
  pose proof (hoursWithin_cell _ _ m Hrow) as Hcell.
  set (cap := default 0 (Bucket.monthly_capacity (Utilization.bucket zu) !! m))
    in *.
  assert (0 ≤ (if decide (0 < cap) then round_percent c cap else 0) ≤ 100)
    as Hbounds.
  { destruct (decide (0 < cap)); [|lia]. apply round_percent_bounds; lia. }
  set (ut := if decide (0 < cap) then round_percent c cap else 0) in *.
  cbv zeta.
  assert (Doubles.Heatmap.utilizationAt (AsDoubles.utilization zu) m
          = Double.ofZ ut) as ->.
  { unfold Doubles.Heatmap.utilizationAt. cbn. rewrite lookup_fmap, Hut. cbn.
    rewrite truthy_exact by lia. case_bool_decide as Hz; [done|].
    by assert (ut = 0) as -> by (destruct (decide (ut = 0)); [done|by elim Hz]). }
  assert (Doubles.Heatmap.remainingColor (AsDoubles.utilization zu) m
          = "text-[var(--color-capacity-green)]") as ->.
  { unfold Doubles.Heatmap.remainingColor, Doubles.Heatmap.capacityAt,
      Doubles.Heatmap.consumedAt. cbn.
    rewrite !lookup_fmap.
    assert (Double.or_zero
              (Double.ofZ
                 <$> Bucket.monthly_capacity (Utilization.bucket zu) !! m)
            = Double.ofZ cap) as ->.
    { apply or_zero_ofZ. intros z Hz. pose proof (Hrow m z Hz) as H.
      simpl in H. lia. }
    assert (Double.or_zero (Double.ofZ <$> Utilization.monthly_consumed zu !! m)
            = Double.ofZ c) as ->.
    { rewrite Hc. apply (or_zero_ofZ (Some c)). intros z [= <-]. lia. }
    rewrite sub_exact by lia.
    change Double.zero with (Double.ofZ 0). rewrite ltb_exact by lia.
    by rewrite bool_decide_false by lia. }
  unfold Doubles.Heatmap.getCellColor, Doubles.getUtilizationColor,
    Doubles.getUtilizationStatus.
  change Double.zero with (Double.ofZ 0).
  rewrite !leb_exact, !ltb_exact by lia.
  rewrite (bool_decide_true (0 ≤ ut)), (bool_decide_true (ut ≤ 100)),
    (bool_decide_false (100 < ut)) by lia.
  split; [done|]. split; [done|].
  repeat split; repeat case_bool_decide; discriminate.
Qed.

Lemma heatmap_never_red_witness :
  let utilization :=
    Doubles.Heatmap.utilizationAt (AsDoubles.utilization workedUtilization)
      "Jan" in
  Double.leb Double.zero utilization = true
  ∧ Double.leb utilization (Double.ofZ 100) = true
  ∧ Doubles.Heatmap.getCellColor utilization
    ≠ "bg-[var(--color-capacity-red)]"
  ∧ Doubles.getUtilizationColor utilization ≠ "capacity-red"
  ∧ Doubles.getUtilizationStatus utilization ≠ "Overloaded"
  ∧ Doubles.Heatmap.remainingColor (AsDoubles.utilization workedUtilization)
      "Jan"
    = "text-[var(--color-capacity-green)]".
Proof.
  apply (heatmap_never_red (λ _, 0) 100 [bucket100]
           [demand60 "p1"; demand60 "p2"] ["p1"; "p2"] twoHires ∅ jan
           "digital|developer|london"
           (AsDoubles.utilization workedUtilization) "Jan").
  - apply worked_integerHours; [apply twoHires_within|cbn; lia].
  - vm_compute. reflexivity.
  - by left.
Defined.

(** With hours that have fractions the tooltip can show red: in the bucket
    of 0.9 hours of which 0.9000000000000001 are consumed, the remaining
    hours are negative. *)
Example fractions_turn_the_tooltip_red :
  ∃ u,
    Doubles.Result.bucketUtilization
      (Doubles.calculateScenario (λ _, 0)
         [fractionBucket (Double.decimal 9 1)]
         [fractionDemand "p1" (Double.decimal 3 1);
          fractionDemand "p2" (Double.ofZ 5)]
         ["p1"; "p2"] [] ∅ jan) !! "digital|developer|london" = Some u
    ∧ Doubles.Heatmap.remainingColor u "Jan"
      = "text-[var(--color-capacity-red)]"
    ∧ Doubles.Heatmap.utilizationAt u "Jan" = Double.ofZ 100.
Proof.
  eexists. split; [vm_compute; reflexivity|].
  split; vm_compute; reflexivity.
Qed.

Lemma scenario_record_hours now bound baseline projects priorityOrder virtuals
    shifts months pid p m ms :
  integerHours bound baseline projects priorityOrder virtuals months →
  Result.projectStatus
    (calculateScenario now baseline projects priorityOrder virtuals shifts
       months) !! pid = Some p →
  ProjectStatus.monthlyStatus p !! m = Some ms →
  0 ≤ MonthStatus.allocated ms ≤ bound
  ∧ 0 ≤ MonthStatus.deficit ms ≤ bound
  ∧ 0 ≤ MonthStatus.demand ms ≤ bound.
Proof.
  intros Hint Hp Hms.
  destruct (integerHours_bounds _ _ _ _ _ _ Hint) as ([H0 Hb] & _).
  pose proof (integerHours_demands _ _ _ _ _ shifts _ Hint) as Hdemands.
  destruct (scenario_outcomeRecords _ _ _ _ _ _ _ _ _ Hp)
    as (project & Hproject & Hrecords).
  destruct (Hrecords _ _ Hms) as [a ->]. rewrite outcome_demand.
  pose proof (hoursWithin_cell bound _ m (Hdemands _ _ Hproject)) as Hcell.
  fold (demandOf project m) in Hcell.
  destruct (outcome_hours (demandOf project m) a) as (? & ? & ? & ? & _);
    [lia|lia].
Qed.

(** X24.  Nobody is short while hours are left.  On a result of the engine
    on doubles for integer hours ([integerHours]), if a project's record for
    a listed month reports a deficit, the bucket of the project has no hours
    left for that month: its remaining hours are zero, its consumed hours
    are its capacity, and its utilization is 100 when it has any
    capacity. *)
Theorem short_project_means_exhausted_bucket (now : nat → Z) bound baseline
    projects priorityOrder virtuals shifts months pid p m ms u :
  integerHours bound baseline projects priorityOrder virtuals months →
  let result :=
    Doubles.calculateScenario now (AsDoubles.bucket <$> baseline)
      (AsDoubles.project <$> projects) priorityOrder
      (AsDoubles.resource <$> virtuals) shifts months in
  Doubles.Result.projectStatus result !! pid = Some p →
  Doubles.ProjectStatus.monthlyStatus p !! m = Some ms →
  Double.ltb Double.zero (Doubles.MonthStatus.deficit ms) = true →
  m ∈ months →
  Doubles.Result.bucketUtilization result
    !! Doubles.ProjectStatus.bucketKey p = Some u →
  let capacity :=
    Double.or_zero
      (Doubles.Bucket.monthly_capacity (Doubles.Utilization.bucket u) !! m) in
  Doubles.Utilization.monthly_remaining u !! m = Some Double.zero
  ∧ Doubles.Utilization.monthly_consumed u !! m = Some capacity
  ∧ (Double.ltb Double.zero capacity = true →
     Doubles.Utilization.monthly_utilization u !! m = Some (Double.ofZ 100)).
Proof.
  intros Hint result Hp Hms Hshort Hm Hu. subst result.
  destruct (integerHours_bounds _ _ _ _ _ _ Hint) as ([H0 Hb] & Hcap & _).
  destruct (integerHours_nonneg _ _ _ _ _ _ Hint) as (Hnb & Hnv & Hnp).
  pose proof (integerHours_capacities now _ _ _ _ _ _ Hint) as Hwithin.
  rewrite (calculateScenario_exact now bound) in Hp, Hu by done.
  cbn [AsDoubles.result Doubles.Result.bucketUtilization
       Doubles.Result.projectStatus] in Hp, Hu.
  rewrite lookup_fmap in Hp.
  destruct (Result.projectStatus _ !! pid) as [zp|] eqn:Hzp; [|done].
  cbn in Hp. injection Hp as <-.
  cbn [AsDoubles.status Doubles.ProjectStatus.monthlyStatus
       Doubles.ProjectStatus.bucketKey] in Hms, Hu.
  rewrite lookup_fmap in Hms. rewrite lookup_fmap in Hu.
  destruct (ProjectStatus.monthlyStatus zp !! m) as [zms|] eqn:Hzms; [|done].
  cbn in Hms. injection Hms as <-.
  destruct (Result.bucketUtilization _ !! ProjectStatus.bucketKey zp)
    as [zu|] eqn:Hzu; [|done].
  cbn in Hu. injection Hu as <-.
  destruct (scenario_record_hours _ _ _ _ _ _ _ _ _ _ _ _ Hint Hzp Hzms)
    as (_ & Hdef & _).
  cbn [AsDoubles.month Doubles.MonthStatus.deficit] in Hshort.
  change Double.zero with (Double.ofZ 0) in Hshort.
  rewrite ltb_exact in Hshort by lia. apply bool_decide_eq_true in Hshort.
  assert (Utilization.bucket <$> Some zu
          = calculateEffectiveCapacity now baseline virtuals months
              !! ProjectStatus.bucketKey zp) as Hbucket.
  { rewrite <- Hzu, scenario_from. apply scenarioFrom_bucket. }
  cbn in Hbucket. symmetry in Hbucket.
  pose proof (Hwithin _ _ Hbucket) as Hrow.
  pose proof (hoursWithin_cell _ _ m Hrow) as Hcell.
  destruct (short_project_integers now baseline projects priorityOrder
              virtuals shifts months pid zp m zms zu Hnb Hnv Hnp)
    as (Hr & Hc & Hut); [|done|done|done|done|done|].
  { intros k' b' m' h Hb' Hh. pose proof (Hwithin k' b' Hb' m' h Hh) as H.
    simpl in H. lia. }
  unfold hoursIn in Hc, Hut. cbv zeta.
  cbn [AsDoubles.utilization Doubles.Utilization.monthly_remaining
       Doubles.Utilization.monthly_consumed
       Doubles.Utilization.monthly_utilization Doubles.Utilization.bucket
       AsDoubles.bucket Doubles.Bucket.monthly_capacity].
  rewrite !lookup_fmap, Hr, Hc.
  assert (Double.or_zero
            (Double.ofZ
               <$> Bucket.monthly_capacity (Utilization.bucket zu) !! m)
          = Double.ofZ
              (default 0
                 (Bucket.monthly_capacity (Utilization.bucket zu) !! m)))
    as ->.
  { apply or_zero_ofZ. intros z Hz. pose proof (Hrow m z Hz) as H.
    simpl in H. lia. }
  split; [done|]. split; [done|].
  change Double.zero with (Double.ofZ 0). rewrite ltb_exact by lia.
  intros Hpos%bool_decide_eq_true. by rewrite Hut.
Qed.

Lemma short_project_means_exhausted_bucket_witness :
  let u := AsDoubles.utilization
             (Utilization.mk bucket100 {["Jan" := 100]} {["Jan" := 100]}
                {["Jan" := 0]}) in
  let capacity :=
    Double.or_zero
      (Doubles.Bucket.monthly_capacity (Doubles.Utilization.bucket u)
         !! "Jan") in
  Doubles.Utilization.monthly_remaining u !! "Jan" = Some Double.zero
  ∧ Doubles.Utilization.monthly_consumed u !! "Jan" = Some capacity
  ∧ (Double.ltb Double.zero capacity = true →
     Doubles.Utilization.monthly_utilization u !! "Jan"
     = Some (Double.ofZ 100)).
Proof.
  apply (short_project_means_exhausted_bucket (λ _, 0) 100 [bucket100]
           [demand60 "p1"; demand60 "p2"] ["p1"; "p2"] [] ∅ jan "p2"
           (AsDoubles.status workedP2) "Jan"
           (AsDoubles.month (MonthStatus.mk partial 60 40 20))
           (AsDoubles.utilization
              (Utilization.mk bucket100 {["Jan" := 100]} {["Jan" := 100]}
                 {["Jan" := 0]}))).
  - apply worked_integerHours; [|cbn; lia].
    intros r h Hr. by apply elem_of_nil in Hr.
  - vm_compute. reflexivity.
  - vm_compute. reflexivity.
  - vm_compute. reflexivity.
  - by left.
  - vm_compute. reflexivity.
Defined.

(** With hours that have fractions a project can be short of hours that the
    tables do not show as consumed: the capacity is 0.9 and
    0.9000000000000001 hours are consumed. *)
Example fractions_consume_more_than_capacity :
  ∃ p ms u consumed,
    let result :=
      Doubles.calculateScenario (λ _, 0)
        [fractionBucket (Double.decimal 9 1)]
        [fractionDemand "p1" (Double.decimal 3 1);
         fractionDemand "p2" (Double.ofZ 5)]
        ["p1"; "p2"] [] ∅ jan in
    Doubles.Result.projectStatus result !! "p2" = Some p
    ∧ Doubles.ProjectStatus.monthlyStatus p !! "Jan" = Some ms
    ∧ Double.ltb Double.zero (Doubles.MonthStatus.deficit ms) = true
    ∧ Doubles.Result.bucketUtilization result
        !! Doubles.ProjectStatus.bucketKey p = Some u
    ∧ Doubles.Utilization.monthly_consumed u !! "Jan" = Some consumed
    ∧ consumed
      ≠ Double.or_zero
          (Doubles.Bucket.monthly_capacity (Doubles.Utilization.bucket u)
             !! "Jan").
Proof.
  eexists _, _, _, _. cbv zeta.
  split; [vm_compute; reflexivity|]. split; [vm_compute; reflexivity|].
  split; [vm_compute; reflexivity|]. split; [vm_compute; reflexivity|].
  split; [vm_compute; reflexivity|].
  vm_compute. intros H. discriminate H.
Qed.

(** X26.  When the capacity suffices, everybody is staffed.  On integer
    hours ([integerHours]), if the effective capacity of a bucket for a
    month that is listed once covers what all the visits of the priority
    order ask of it, every project of the bucket that the order lists gets
    its whole demand for that month, whatever its rank: in the result of the
    engine on doubles its record is allocated the demand and has no
    deficit. *)
Theorem enough_capacity_staffs_everyone (now : nat → Z) bound baseline
    projects priorityOrder virtuals shifts before month after key pid
    project :
  integerHours bound baseline projects priorityOrder virtuals
    (before ++ month :: after) →
  month ∉ before → month ∉ after →
  let months := before ++ month :: after in
  let pm := buildProjectMap (applyTimelineShifts projects shifts months) in
  queued pm key month priorityOrder
  ≤ capacityOf (calculateEffectiveCapacity now baseline virtuals months) key
      month →
  pid ∈ priorityOrder →
  pm !! pid = Some project →
  projectKey project = key →
  ∃ ms,
    Doubles.Result.projectStatus
      (Doubles.calculateScenario now (AsDoubles.bucket <$> baseline)
         (AsDoubles.project <$> projects) priorityOrder
         (AsDoubles.resource <$> virtuals) shifts months) !! pid
      ≫= (λ p, Doubles.ProjectStatus.monthlyStatus p !! month) = Some ms
    ∧ Doubles.MonthStatus.deficit ms = Double.zero
    ∧ Doubles.MonthStatus.allocated ms
      = Double.ofZ (demandOf project month)
    ∧ (Doubles.MonthStatus.status ms = staffed
       ∨ Doubles.MonthStatus.status ms = none).
Proof.
  intros Hint Hbefore Hafter months pm Henough Hpid Hproject Hkey.
  destruct (integerHours_nonneg _ _ _ _ _ _ Hint) as (_ & _ & Hnp).
  rewrite (calculateScenario_exact now bound) by done.
  destruct (enough_capacity_integers now baseline projects priorityOrder
              virtuals shifts before month after key pid project Hnp Hbefore
              Hafter Henough Hpid Hproject Hkey)
    as (zms & Hrec & Hdef & Halloc & Hstatus).
  unfold recordAt in Hrec. fold months in Hrec.
  destruct (Result.projectStatus _ !! pid) as [zp|] eqn:Hzp; [|done].
  cbn in Hrec. injection Hrec as Hrec.
  exists (AsDoubles.month zms).
  cbn [AsDoubles.result Doubles.Result.projectStatus].
  rewrite lookup_fmap, Hzp. cbn. rewrite lookup_fmap, Hrec. cbn.
  split; [done|]. rewrite Hdef, Halloc. done.
Qed.

Lemma enough_capacity_staffs_everyone_witness :
  let months := [] ++ "Jan" :: [] in
  ∃ ms,
    Doubles.Result.projectStatus
      (Doubles.calculateScenario (λ _, 0) (AsDoubles.bucket <$> [bucket100])
         (AsDoubles.project <$> [demand60 "p1"; demand60 "p2"])
         ["p1"; "p2"] (AsDoubles.resource <$> twoHires) ∅ months) !! "p2"
      ≫= (λ p, Doubles.ProjectStatus.monthlyStatus p !! "Jan") = Some ms
    ∧ Doubles.MonthStatus.deficit ms = Double.zero
    ∧ Doubles.MonthStatus.allocated ms
      = Double.ofZ (demandOf (demand60 "p2") "Jan")
    ∧ (Doubles.MonthStatus.status ms = staffed
       ∨ Doubles.MonthStatus.status ms = none).
Proof.
  apply (enough_capacity_staffs_everyone (λ _, 0) 100 [bucket100]
           [demand60 "p1"; demand60 "p2"] ["p1"; "p2"] twoHires ∅ [] "Jan" []
           "digital|developer|london" "p2" (demand60 "p2")).
  - apply (worked_integerHours twoHires); [apply twoHires_within|cbn; lia].
  - apply not_elem_of_nil.
  - apply not_elem_of_nil.
  - vm_compute. discriminate.
  - right. by left.
  - vm_compute. reflexivity.
  - vm_compute. reflexivity.
Defined.

(** With hours that have fractions the last visit can find less than it
    asks for although the demands add up to the capacity: of 2.9 hours,
    demands of 0.6, 0.7 and 0.6 leave 0.9999999999999999 for a demand
    of 1. *)
Example fractions_leave_the_last_short :
  let result :=
    Doubles.calculateScenario (λ _, 0)
      [fractionBucket (Double.decimal 29 1)]
      [fractionDemand "p1" (Double.decimal 6 1);
       fractionDemand "p2" (Double.decimal 7 1);
       fractionDemand "p3" (Double.decimal 6 1);
       fractionDemand "p4" (Double.ofZ 1)]
      ["p1"; "p2"; "p3"; "p4"] [] ∅ jan in
  Double.add
    (Double.add (Double.add (Double.decimal 6 1) (Double.decimal 7 1))
       (Double.decimal 6 1))
    (Double.ofZ 1)
  = Double.decimal 29 1
  ∧ Doubles.MonthStatus.status
      <$> (Doubles.Result.projectStatus result !! "p4"
             ≫= (λ p, Doubles.ProjectStatus.monthlyStatus p !! "Jan"))
    = Some partial
  ∧ Doubles.ProjectStatus.overallStatus
      <$> Doubles.Result.projectStatus result !! "p4"
    = Some (Some unstaffed).
Proof. vm_compute. repeat split; reflexivity. Qed.
